(** * RAJA: kernel statement executors, SYCL launch helpers, work groups,
      graph execution and reducers

    A shallow embedding of the parts of RAJA that the specification's
    testable properties talk about:

    - the CUDA [ForICount] statement executors (direct, strided, masked and
      sequential index mappings);
    - the SYCL kernel launch helpers (trivially and non-trivially copyable
      payloads);
    - the WorkPool / WorkGroup / WorkSite pipeline as used by the halo
      exchange example;
    - the DAG executor as exercised by the graph unit tests;
    - the TBB reducer hooks [init], [combine] and [resolve]. *)

From Stdlib Require Import ZArith List Bool Lia String SpecFloat.
From stdpp Require Import base functions list gmap.

Local Open Scope Z_scope.

(** * Part I: the model *)

(** ** Machine integers

    The executors compute with C++ [int].  Conversions into [int] wrap
    modulo 2^32 (two's complement); arithmetic that leaves the range is
    undefined behaviour and is reported as such by the loops below. *)

Definition INT_MAX : Z := 2147483647.
Definition INT_MIN : Z := -2147483648.

Definition in_int (z : Z) : bool := (INT_MIN <=? z) && (z <=? INT_MAX).

Definition to_int (z : Z) : Z := (z + 2147483648) mod 4294967296 - 2147483648.

(** What running a piece of device code yields: a final state, undefined
    behaviour (signed overflow), or a loop that has not finished within the
    given number of iterations. *)
Inductive outcome (A : Type) : Type :=
| Done (a : A)
| Undefined
| OutOfFuel.
Arguments Done {A} a.
Arguments Undefined {A}.
Arguments OutOfFuel {A}.

(** ** Hardware indices *)

Record dim3 : Type := Dim3 { dim_x : Z; dim_y : Z; dim_z : Z }.

Inductive Dim : Type := DimX | DimY | DimZ.

(** Modelled from the spec: [get_cuda_dim] is declared in the CUDA
    [internal.hpp], which is not among the sources; it is the
    [hardware_index(dim)] selector of the statement executor contract, the
    component of a [dim3] along dimension 0, 1 or 2. *)
Definition get_cuda_dim (d : Dim) (v : dim3) : Z :=
  match d with
  | DimX => dim_x v
  | DimY => dim_y v
  | DimZ => dim_z v
  end.

(** The built-in variables one hardware thread sees. *)
Record Lane : Type := MkLane {
  threadIdx : dim3;
  blockIdx : dim3;
  blockDim : dim3;
  gridDim : dim3
}.

(** ** The kernel closure *)

(** [Data]: the segment lengths and the current offset and parameter
    bindings, indexed by [ArgumentId] and [ParamId]. *)
Record Data : Type := MkData {
  segment_lengths : nat -> Z;
  offset_tuple : nat -> Z;
  param_tuple : nat -> Z
}.

Definition segment_length (ArgumentId : nat) (data : Data) : Z :=
  segment_lengths data ArgumentId.

Definition assign_offset (ArgumentId : nat) (i : Z) (data : Data) : Data :=
  {| segment_lengths := segment_lengths data;
     offset_tuple := <[ArgumentId := i]> (offset_tuple data);
     param_tuple := param_tuple data |}.

Definition assign_param (ParamId : nat) (i : Z) (data : Data) : Data :=
  {| segment_lengths := segment_lengths data;
     offset_tuple := offset_tuple data;
     param_tuple := <[ParamId := i]> (param_tuple data) |}.

(** One invocation of the enclosed statement list, as the enclosed
    statements see it: the bindings of the loop's offset and parameter in
    the closure, and the activity flag they were handed. *)
Record Call : Type := MkCall {
  call_offset : Z;
  call_param : Z;
  call_active : bool
}.

(** A thread's private closure together with the invocations made so far. *)
Record World : Type := MkWorld {
  w_data : Data;
  w_calls : list Call
}.

(** ** Masks and policies *)

(** The interface a mask type offers to the masked policies. *)
Record Mask : Type := MkMask {
  max_masked_size : Z;
  maskValue : Z -> Z
}.

(** A bit-field mask: [Width] bits starting at bit [Shift] of the input. *)
Definition BitMask (Width Shift : Z) : Mask :=
  {| max_masked_size := Z.shiftl 1 Width;
     maskValue := fun input =>
       Z.land (Z.shiftr input Shift) (Z.shiftl 1 Width - 1) |}.

Inductive Policy : Type :=
| cuda_thread_xyz_direct (ThreadDim : Dim)
| cuda_warp_direct
| cuda_warp_loop
| cuda_warp_masked_direct (mask : Mask)
| cuda_warp_masked_loop (mask : Mask)
| cuda_thread_masked_direct (mask : Mask)
| cuda_thread_masked_loop (mask : Mask)
| cuda_thread_xyz_loop (ThreadDim : Dim) (MinThreads : Z)
| cuda_block_xyz_direct (BlockDim : Dim)
| cuda_block_xyz_loop (BlockDim : Dim)
| seq_exec.

(** [statement::ForICount<ArgumentId, ParamId, ExecPolicy, EnclosedStmts...>] *)
Record ForICount : Type := MkForICount {
  ArgumentId : nat;
  ParamId : nat;
  ExecPolicy : Policy
}.

(** ** The CUDA statement executors *)

Section CudaStatementExecutor.

(** [RAJA::policy::cuda::WARP_SIZE], defined in the CUDA policy header,
    which is not among the sources. *)
Variable WARP_SIZE : Z.

(** The enclosed statement list: whatever it does to the closure, given
    the activity flag. *)
Variable EnclosedStmts : Data -> bool -> Data.

(** [enclosed_stmts_t::exec(data, thread_active)], recording what the
    enclosed statements are handed. *)
Definition enclosed_stmts_exec (s : ForICount) (w : World)
    (thread_active : bool) : World :=
  let data := w_data w in
  {| w_data := EnclosedStmts data thread_active;
     w_calls := w_calls w ++
       [ {| call_offset := offset_tuple data (ArgumentId s);
            call_param := param_tuple data (ParamId s);
            call_active := thread_active |} ] |}.

Definition assign (s : ForICount) (i : Z) (w : World) : World :=
  {| w_data := assign_param (ParamId s) i
                 (assign_offset (ArgumentId s) i (w_data w));
     w_calls := w_calls w |}.

(** The body shared by the thread, warp and masked direct executors. *)
Definition exec_direct (s : ForICount) (i : Z) (w : World)
    (thread_active : bool) : World :=
  let len := to_int (segment_length (ArgumentId s) (w_data w)) in
  (* assign thread id directly to offset *)
  let w := assign s i w in
  (* execute enclosed statements if in bounds *)
  enclosed_stmts_exec s w (thread_active && (i <? len)).

(** [for (int ii = 0; ii < len; ii += i_stride)] of the thread, warp and
    masked loop executors, entered at [ii]. *)
Fixpoint strided_loop (fuel : nat) (s : ForICount) (len i0 i_stride ii : Z)
    (w : World) (thread_active : bool) : outcome World :=
  if ii <? len then
    match fuel with
    | O => OutOfFuel
    | S fuel' =>
        let i := ii + i0 in
        if in_int i then
          (* mask off threads without work *)
          let have_work := i <? len in
          let w := assign s i w in
          let w := enclosed_stmts_exec s w (thread_active && have_work) in
          let ii' := ii + i_stride in
          if in_int ii' then
            strided_loop fuel' s len i0 i_stride ii' w thread_active
          else Undefined
        else Undefined
    end
  else Done w.

Definition exec_strided (fuel : nat) (s : ForICount) (i0 i_stride : Z)
    (w : World) (thread_active : bool) : outcome World :=
  let len := to_int (segment_length (ArgumentId s) (w_data w)) in
  strided_loop fuel s len i0 i_stride 0 w thread_active.

(** Block direct: the enclosed statements run only under [if (i < len)]. *)
Definition exec_block_direct (s : ForICount) (i : Z) (w : World)
    (thread_active : bool) : World :=
  let len := to_int (segment_length (ArgumentId s) (w_data w)) in
  if i <? len then
    let w := assign s i w in
    enclosed_stmts_exec s w thread_active
  else w.

(** [for (int i = i0; i < len; i += i_stride)] of the block loop
    executor, entered at [i]. *)
Fixpoint grid_stride_loop (fuel : nat) (s : ForICount) (len i_stride i : Z)
    (w : World) (thread_active : bool) : outcome World :=
  if i <? len then
    match fuel with
    | O => OutOfFuel
    | S fuel' =>
        let w := assign s i w in
        let w := enclosed_stmts_exec s w thread_active in
        let i' := i + i_stride in
        if in_int i' then
          grid_stride_loop fuel' s len i_stride i' w thread_active
        else Undefined
    end
  else Done w.

Definition exec_block_loop (fuel : nat) (s : ForICount) (i0 i_stride : Z)
    (w : World) (thread_active : bool) : outcome World :=
  let len := to_int (segment_length (ArgumentId s) (w_data w)) in
  grid_stride_loop fuel s len i_stride i0 w thread_active.

(** [for (idx_type i = 0; i < len; ++i)] of the sequential executor,
    entered at [i].  [idx_type] is the segment's own index type, so the
    length is not converted and [++i] stays below [len]. *)
Fixpoint seq_loop (fuel : nat) (s : ForICount) (len i : Z)
    (w : World) (thread_active : bool) : outcome World :=
  if i <? len then
    match fuel with
    | O => OutOfFuel
    | S fuel' =>
        let w := assign s i w in
        let w := enclosed_stmts_exec s w thread_active in
        seq_loop fuel' s len (i + 1) w thread_active
    end
  else Done w.

Definition exec_seq (fuel : nat) (s : ForICount)
    (w : World) (thread_active : bool) : outcome World :=
  let len := segment_length (ArgumentId s) (w_data w) in
  seq_loop fuel s len 0 w thread_active.

(** [CudaStatementExecutor<Data, ForICount<...>>::exec(data, thread_active)]
    on the lane [hw], one case per specialisation. *)
Definition exec (fuel : nat) (s : ForICount) (hw : Lane)
    (w : World) (thread_active : bool) : outcome World :=
  match ExecPolicy s with
  | cuda_thread_xyz_direct ThreadDim =>
      let i := to_int (get_cuda_dim ThreadDim (threadIdx hw)) in
      Done (exec_direct s i w thread_active)
  | cuda_warp_direct =>
      let i := to_int (get_cuda_dim DimX (threadIdx hw)) in
      Done (exec_direct s i w thread_active)
  | cuda_warp_loop =>
      let i0 := to_int (dim_x (threadIdx hw)) in
      let i_stride := WARP_SIZE in
      exec_strided fuel s i0 i_stride w thread_active
  | cuda_warp_masked_direct mask =>
      let i := to_int (maskValue mask (dim_x (threadIdx hw))) in
      Done (exec_direct s i w thread_active)
  | cuda_warp_masked_loop mask =>
      let i0 := to_int (maskValue mask (dim_x (threadIdx hw))) in
      let i_stride := to_int (max_masked_size mask) in
      exec_strided fuel s i0 i_stride w thread_active
  | cuda_thread_masked_direct mask =>
      let i := to_int (maskValue mask (dim_x (threadIdx hw))) in
      Done (exec_direct s i w thread_active)
  | cuda_thread_masked_loop mask =>
      let i0 := to_int (maskValue mask (dim_x (threadIdx hw))) in
      let i_stride := to_int (max_masked_size mask) in
      exec_strided fuel s i0 i_stride w thread_active
  | cuda_thread_xyz_loop ThreadDim _ =>
      let i0 := to_int (get_cuda_dim ThreadDim (threadIdx hw)) in
      let i_stride := to_int (get_cuda_dim ThreadDim (blockDim hw)) in
      exec_strided fuel s i0 i_stride w thread_active
  | cuda_block_xyz_direct BlockDim =>
      let i := to_int (get_cuda_dim BlockDim (blockIdx hw)) in
      Done (exec_block_direct s i w thread_active)
  | cuda_block_xyz_loop BlockDim =>
      let i0 := to_int (get_cuda_dim BlockDim (blockIdx hw)) in
      let i_stride := to_int (get_cuda_dim BlockDim (gridDim hw)) in
      exec_block_loop fuel s i0 i_stride w thread_active
  | seq_exec =>
      exec_seq fuel s w thread_active
  end.

(** The class-level [static_assert] of the warp-masked specialisations:
    instantiating the executor either fails to build with the assertion's
    message or yields its [exec]. *)
Definition CudaStatementExecutor (s : ForICount)
    : string + (nat -> Lane -> World -> bool -> outcome World) :=
  match ExecPolicy s with
  | cuda_warp_masked_direct mask
  | cuda_warp_masked_loop mask =>
      if max_masked_size mask <=? WARP_SIZE
      then inr (fun fuel => exec fuel s)
      else inl "BitMask is too large for CUDA warp size"%string
  | _ => inr (fun fuel => exec fuel s)
  end.

End CudaStatementExecutor.

(** *** Reading an executor: the index it derives from its lane and the
        stride of its loop *)

Section CudaIndexing.

Variable WARP_SIZE : Z.

(** The index ([i] of a direct executor, [i0] of a loop executor) that
    the executor of [s] computes on lane [hw]. *)
Definition lane_index (s : ForICount) (hw : Lane) : Z :=
  match ExecPolicy s with
  | cuda_thread_xyz_direct d | cuda_thread_xyz_loop d _ =>
      to_int (get_cuda_dim d (threadIdx hw))
  | cuda_warp_direct | cuda_warp_loop =>
      to_int (dim_x (threadIdx hw))
  | cuda_warp_masked_direct m | cuda_warp_masked_loop m
  | cuda_thread_masked_direct m | cuda_thread_masked_loop m =>
      to_int (maskValue m (dim_x (threadIdx hw)))
  | cuda_block_xyz_direct d | cuda_block_xyz_loop d =>
      to_int (get_cuda_dim d (blockIdx hw))
  | seq_exec => 0
  end.

(** The stride of the loop executors ([1] for the sequential loop, and
    [0] for the direct executors, which do not loop). *)
Definition lane_stride (s : ForICount) (hw : Lane) : Z :=
  match ExecPolicy s with
  | cuda_warp_loop => WARP_SIZE
  | cuda_warp_masked_loop m | cuda_thread_masked_loop m =>
      to_int (max_masked_size m)
  | cuda_thread_xyz_loop d _ => to_int (get_cuda_dim d (blockDim hw))
  | cuda_block_xyz_loop d => to_int (get_cuda_dim d (gridDim hw))
  | seq_exec => 1
  | _ => 0
  end.

End CudaIndexing.

(** The lane-level direct executors: every lane calls the enclosed
    statements, gated by the flag. *)
Definition is_lane_direct (p : Policy) : bool :=
  match p with
  | cuda_thread_xyz_direct _ | cuda_warp_direct
  | cuda_warp_masked_direct _ | cuda_thread_masked_direct _ => true
  | _ => false
  end.

(** The lane-level loop executors: thread, warp and masked strided loops. *)
Definition is_lane_loop (p : Policy) : bool :=
  match p with
  | cuda_warp_loop | cuda_warp_masked_loop _
  | cuda_thread_masked_loop _ | cuda_thread_xyz_loop _ _ => true
  | _ => false
  end.

(** The invocations a lane-level strided loop makes from chunk base [ii]
    on, one per remaining chunk. *)
Fixpoint strided_calls (n : nat) (len i0 i_stride ii : Z) (thread_active : bool)
    : list Call :=
  match n with
  | O => []
  | S n' =>
      MkCall (ii + i0) (ii + i0) (thread_active && (ii + i0 <? len))
        :: strided_calls n' len i0 i_stride (ii + i_stride) thread_active
  end.

(** Number of chunk bases [ii, ii + i_stride, ...] below [len]. *)
Definition chunks_from (len i_stride ii : Z) : nat :=
  Z.to_nat ((len - ii + i_stride - 1) / i_stride).

(** The invocations a block-level grid-stride loop makes from index [i]
    on: only in-range indices, each with the caller's flag. *)
Fixpoint grid_calls (n : nat) (i_stride i : Z) (thread_active : bool)
    : list Call :=
  match n with
  | O => []
  | S n' =>
      MkCall i i thread_active
        :: grid_calls n' i_stride (i + i_stride) thread_active
  end.

(** ** One launch *)

Definition dim3_range (d : dim3) : list dim3 :=
  x ← seqZ 0 (dim_x d); y ← seqZ 0 (dim_y d); z ← seqZ 0 (dim_z d);
  [Dim3 x y z].

(** Every hardware thread of a launch with the given grid and block
    dimensions. *)
Definition launch_lanes (grid block : dim3) : list Lane :=
  b ← dim3_range grid; t ← dim3_range block; [MkLane t b block grid].

(** Number of (thread, iteration) pairs among [calls] that execute index
    [i] with the activity flag set. *)
Definition times_active (i : Z) (calls : list Call) : nat :=
  length (List.filter (fun c => call_active c && (call_offset c =? i)) calls).

Section CudaLaunch.

Variable WARP_SIZE : Z.
Variable EnclosedStmts : Data -> bool -> Data.

(** What one lane does in a launch: as [SyclKernelLauncher] does on the
    SYCL side, the kernel launcher copies the closure into
    [private_data] and calls the executor on it with
    [thread_active = true]. *)
Definition lane_calls (fuel : nat) (s : ForICount) (hw : Lane) (data : Data)
    : outcome (list Call) :=
  let private_data := data in
  match exec WARP_SIZE EnclosedStmts fuel s hw
          {| w_data := private_data; w_calls := [] |} true with
  | Done w' => Done (w_calls w')
  | Undefined => Undefined
  | OutOfFuel => OutOfFuel
  end.

(** The invocations made by all the given lanes. *)
Fixpoint launch_calls (fuel : nat) (s : ForICount) (lanes : list Lane)
    (data : Data) : outcome (list Call) :=
  match lanes with
  | [] => Done []
  | hw :: rest =>
      match lane_calls fuel s hw data with
      | Done calls =>
          match launch_calls fuel s rest data with
          | Done more => Done (calls ++ more)
          | Undefined => Undefined
          | OutOfFuel => OutOfFuel
          end
      | Undefined => Undefined
      | OutOfFuel => OutOfFuel
      end
  end.

End CudaLaunch.

(** How a policy maps lanes to indices. *)
Inductive mapping : Type := DirectMap | LoopMap | SeqMap.

Definition mapping_of (p : Policy) : mapping :=
  match p with
  | cuda_thread_xyz_direct _ | cuda_warp_direct
  | cuda_warp_masked_direct _ | cuda_thread_masked_direct _
  | cuda_block_xyz_direct _ => DirectMap
  | cuda_warp_loop | cuda_warp_masked_loop _
  | cuda_thread_masked_loop _ | cuda_thread_xyz_loop _ _
  | cuda_block_xyz_loop _ => LoopMap
  | seq_exec => SeqMap
  end.

(** The lanes' indices are, in some order, [0, 1, ..., D-1]. *)
Definition covers (s : ForICount) (lanes : list Lane) (D : Z) : Prop :=
  Permutation (map (lane_index s) lanes) (seqZ 0 D).

(** The launch is sized for a segment of length [N]: a direct mapping has
    at least [N] lanes, a loop mapping strides by the number of lanes, and
    a sequential loop is run by one lane. *)
Definition well_sized (WARP_SIZE : Z) (s : ForICount) (lanes : list Lane)
    (N D : Z) : Prop :=
  match mapping_of (ExecPolicy s) with
  | DirectMap => N <= D /\ N <= INT_MAX
  | LoopMap =>
      0 < D /\ N + D <= INT_MAX /\
      Forall (fun hw => lane_stride WARP_SIZE s hw = D) lanes
  | SeqMap => D = 1
  end.

(** The lane whose index must be the one to execute [i]. *)
Definition owner (s : ForICount) (D i : Z) : Z :=
  match mapping_of (ExecPolicy s) with
  | DirectMap => i
  | LoopMap => i mod D
  | SeqMap => 0
  end.

(** *** Concrete launches *)

(** Enclosed statements that leave the closure alone. *)
Definition no_stmts : Data -> bool -> Data := fun data _ => data.

(** A closure with every segment of length [N] and all bindings at 0. *)
Definition data_of_length (N : Z) : Data :=
  {| segment_lengths := fun _ => N;
     offset_tuple := fun _ => 0;
     param_tuple := fun _ => 0 |}.

Definition lane_at (t b block grid : Z * Z * Z) : Lane :=
  let mk (v : Z * Z * Z) := Dim3 (fst (fst v)) (snd (fst v)) (snd v) in
  MkLane (mk t) (mk b) (mk block) (mk grid).

(** ** The SYCL launch helpers

    The queue is an external collaborator; what the helpers rely on is
    modelled as a state: the device allocations with their contents, the
    submitted kernels that may still be running, and a log of the
    operations issued. *)

Section SyclQueue.

(** The kernel closure type ([data_t]) and [internal::LaunchDims]. *)
Variable SyclData : Type.
Variable LaunchDims : Type.

(** How a submitted kernel gets at its closure: captured by value, or
    through a pointer to device memory. *)
Inductive Payload : Type :=
| ByValue (data : SyclData)
| ByPointer (m_data : nat).

Record Kernel : Type := MkKernel {
  k_event : nat;
  k_range : LaunchDims;
  k_payload : Payload
}.

Inductive QueueOp : Type :=
| OpMallocDevice (p : nat)
| OpMemcpy (p : nat) (e : nat)
| OpSubmit (k : Kernel)
| OpEventWait (e : nat)
| OpQueueWait
| OpFree (p : nat).

Inductive Fault : Type :=
| FreedWhileReferenced (p : nat) (k : Kernel)
| SubmittedWithoutPayload (k : Kernel).

Record Queue : Type := MkQueue {
  (* device allocations; [None] is allocated but not yet written *)
  q_heap : gmap nat (option SyclData);
  (* submitted kernels not yet known to have completed *)
  q_in_flight : list Kernel;
  (* events handed out so far *)
  q_events : gset nat;
  q_log : list QueueOp;
  q_faults : list Fault
}.

Definition references (p : nat) (k : Kernel) : bool :=
  match k_payload k with
  | ByPointer m_data => Nat.eqb m_data p
  | ByValue _ => false
  end.

Definition QueueM (A : Type) : Type := Queue -> A * Queue.

Definition qret {A : Type} (a : A) : QueueM A := fun q => (a, q).

Definition qbind {A B : Type} (m : QueueM A) (f : A -> QueueM B) : QueueM B :=
  fun q => let (a, q') := m q in f a q'.

Local Notation "'let*' x := m 'in' k" := (qbind m (fun x => k))
  (at level 10, x name, k at level 200).
Local Notation "m ;;; k" := (qbind m (fun _ => k))
  (at level 100, right associativity).

Definition log_op (op : QueueOp) (q : Queue) : Queue :=
  {| q_heap := q_heap q; q_in_flight := q_in_flight q;
     q_events := q_events q; q_log := q_log q ++ [op];
     q_faults := q_faults q |}.

(** [cl::sycl::malloc_device(sizeof(data_t), *qu)]: some address that is
    not currently allocated. *)
Definition malloc_device : QueueM nat := fun q =>
  let p := fresh (dom (q_heap q)) in
  (p, log_op (OpMallocDevice p)
        {| q_heap := <[p := None]> (q_heap q);
           q_in_flight := q_in_flight q; q_events := q_events q;
           q_log := q_log q; q_faults := q_faults q |}).

Definition new_event : QueueM nat := fun q =>
  let e := fresh (q_events q) in
  (e, {| q_heap := q_heap q; q_in_flight := q_in_flight q;
         q_events := {[ e ]} ∪ q_events q;
         q_log := q_log q; q_faults := q_faults q |}).

(** [qu->memcpy(m_data, &data, sizeof(data_t))]: returns the copy's
    event; the copy itself is complete once that event has been waited
    for, which the only caller does at once. *)
Definition memcpy (m_data : nat) (data : SyclData) : QueueM nat :=
  let* e := new_event in
  fun q =>
    (e, log_op (OpMemcpy m_data e)
          {| q_heap := <[m_data := Some data]> (q_heap q);
             q_in_flight := q_in_flight q; q_events := q_events q;
             q_log := q_log q; q_faults := q_faults q |}).

Definition payload_ready (q : Queue) (pl : Payload) : bool :=
  match pl with
  | ByValue _ => true
  | ByPointer m_data =>
      match q_heap q !! m_data with
      | Some (Some _) => true
      | _ => false
      end
  end.

(** [qu->submit(...)] of a [parallel_for] over [range] whose body reads
    its closure through [pl]: the kernel is in flight from now on. *)
Definition submit (range : LaunchDims) (pl : Payload) : QueueM nat :=
  let* e := new_event in
  fun q =>
    let k := MkKernel e range pl in
    (e, log_op (OpSubmit k)
          {| q_heap := q_heap q;
             q_in_flight := q_in_flight q ++ [k];
             q_events := q_events q; q_log := q_log q;
             q_faults := q_faults q ++
               (if payload_ready q pl then []
                else [SubmittedWithoutPayload k]) |}).

(** [event.wait()]: returns once the command of that event is complete. *)
Definition event_wait (e : nat) : QueueM unit := fun q =>
  (tt, log_op (OpEventWait e)
         {| q_heap := q_heap q;
            q_in_flight :=
              List.filter (fun k => negb (Nat.eqb (k_event k) e))
                (q_in_flight q);
            q_events := q_events q; q_log := q_log q;
            q_faults := q_faults q |}).

(** [qu->wait()]: returns once everything submitted is complete. *)
Definition queue_wait : QueueM unit := fun q =>
  (tt, log_op OpQueueWait
         {| q_heap := q_heap q; q_in_flight := [];
            q_events := q_events q; q_log := q_log q;
            q_faults := q_faults q |}).

(** [cl::sycl::free(m_data, *qu)]: releases the allocation at once; a
    kernel still in flight that reads through it is left dangling. *)
Definition free (m_data : nat) : QueueM unit := fun q =>
  (tt, log_op (OpFree m_data)
         {| q_heap := delete m_data (q_heap q);
            q_in_flight := q_in_flight q;
            q_events := q_events q; q_log := q_log q;
            q_faults := q_faults q ++
              map (FreedWhileReferenced m_data)
                (List.filter (references m_data) (q_in_flight q)) |}).

(** [SyclLaunchHelperNonTrivial<sycl_launch<async0>, ...>::launch] *)
Definition SyclLaunchHelperNonTrivial_launch (async0 : bool)
    (data : SyclData) (launch_dims : LaunchDims) (shmem : Z)
    : QueueM unit :=
  (* Kernel body is nontrivially copyable, create space on device and
     copy to *)
  let* m_data := malloc_device in
  let* copied := memcpy m_data data in
  event_wait copied ;;;
  let* launched := submit launch_dims (ByPointer m_data) in
  event_wait launched ;;; (* Need to wait to free memory *)
  free m_data.

(** [SyclLaunchHelper<sycl_launch<async0>, ...>::launch] *)
Definition SyclLaunchHelper_launch (async0 : bool)
    (data : SyclData) (launch_dims : LaunchDims) (shmem : Z)
    : QueueM unit :=
  let async := async0 in
  let* launched := submit launch_dims (ByValue data) in
  if negb async then queue_wait else qret tt.

(** No kernel in flight reads through a pointer that is not allocated. *)
Definition no_dangling (q : Queue) : Prop :=
  forall k p, In k (q_in_flight q) -> k_payload k = ByPointer p ->
    is_Some (q_heap q !! p).

(** Every kernel in flight carries an event the queue has handed out. *)
Definition events_known (q : Queue) : Prop :=
  forall k, In k (q_in_flight q) -> k_event k ∈ q_events q.

End SyclQueue.

(** An idle queue over integer closures. *)
Definition idle_queue : Queue Z Z :=
  {| q_heap := ∅; q_in_flight := []; q_events := ∅; q_log := [];
     q_faults := [] |}.

(** ** Reducers (TBB back end) *)

Section Reduce.

(** The value type [T] and the operator [OP] with its [identity()]. *)
Variable T : Type.
Variable OP : T -> T -> T.
Variable identity : T.

(** [Reducer<OP, T>]: [target] is the cell [*red.target] that receives
    the result, [val] the value accumulated so far. *)
Record Reducer : Type := MkReducer {
  target : T;
  val : T
}.

(** [detail::init]: [red.val = OP::identity();] *)
Definition init (red : Reducer) : Reducer :=
  {| target := target red; val := identity |}.

(** [detail::combine]: [out.val = OP{}(out.val, in.val);] *)
Definition combine (out in_ : Reducer) : Reducer :=
  {| target := target out; val := OP (val out) (val in_) |}.

(** [detail::resolve]: [*red.target = OP{}(red.val, *red.target);] *)
Definition resolve (red : Reducer) : Reducer :=
  {| target := OP (val red) (target red); val := val red |}.

(** What the loop body of the reduction tests does with an element:
    [max0.max(working_array[idx])], folding it into the running value. *)
Definition accumulate (red : Reducer) (x : T) : Reducer :=
  {| target := target red; val := OP (val red) x |}.

(** Modelled from the spec: the [forall] driver that calls the hooks is
    not among the sources.  A reducer is bound to a loop over the data
    (spec, reduction correctness): every participating thread starts from
    the initialised reducer and folds its share of the elements into it,
    the partial reducers are merged with [combine], and [resolve]
    publishes the result into the target. *)
Definition forall_reduce (chunks : list (list T)) (red : Reducer) : Reducer :=
  let red := init red in
  let partial (chunk : list T) := fold_left accumulate chunk red in
  resolve (fold_left (fun out chunk => combine out (partial chunk)) chunks red).

(** The value the partial results combine to. *)
Definition combined (chunks : list (list T)) : T :=
  fold_left (fun acc chunk => OP acc (fold_left OP chunk identity))
    chunks identity.

End Reduce.

Arguments target {T} _.
Arguments val {T} _.
Arguments MkReducer {T} _ _.

(** [RAJA::operators::maximum] on integers. *)
Definition maximum (a b : Z) : Z := if a <? b then b else a.

(** ** The DAG executor *)

(** Modelled from the spec: the [DAG] class is not among the sources (only
    its unit tests are).  A graph owns its nodes, here numbered in
    insertion order, and the directed edges between them. *)
Record DAG : Type := MkDAG {
  num_nodes : nat;
  edges : list (nat * nat)
}.

Definition empty_graph : DAG := {| num_nodes := 0; edges := [] |}.

(** Modelled from the spec: [empty()] reflects the node count, not the
    execution state. *)
Definition empty (g : DAG) : bool := Nat.eqb (num_nodes g) 0.

(** [RandomGraph::add_node(node_id, edges_to_node, arg)] of the unit
    test: the new node gets the next id; with no dependencies it is
    connected to the graph itself, otherwise it is created from the first
    dependency and the other edges are added afterwards. *)
Definition add_node (g : DAG) (edges_to_node : list nat) : DAG :=
  let node_id := num_nodes g in
  {| num_nodes := S node_id;
     edges := edges g ++ map (fun u => (u, node_id)) edges_to_node |}.

(** The graph of [FourNodeExec]: 0 >> 1, 0 >> 2, 1 >> 3, 2 >> 3. *)
Definition four_node_graph : DAG :=
  add_node (add_node (add_node (add_node empty_graph []) [0%nat]) [0%nat])
    [1%nat; 2%nat].

(** Edges only lead from earlier to later nodes of the graph, as in every
    graph the tests build. *)
Definition forward (g : DAG) : Prop :=
  forall u v, In (u, v) (edges g) -> (u < v < num_nodes g)%nat.

Inductive node_status : Type := Unscheduled | Running | Complete.

Inductive Event : Type :=
| Start (v : nat)
| Finish (v : nat).

(** One execution in progress: the state of every node, the counter and
    the [order] array the test callables share, and what has happened so
    far. *)
Record Run : Type := MkRun {
  status : nat -> node_status;
  count : Z;
  order : nat -> Z;
  events : list Event
}.

(** The state before [exec]: nothing scheduled, [count = 0], every
    [order] entry at -1. *)
Definition initial : Run :=
  {| status := fun _ => Unscheduled; count := 0; order := fun _ => -1;
     events := [] |}.

Definition start (v : nat) (r : Run) : Run :=
  {| status := <[v := Running]> (status r);
     count := count r; order := order r;
     events := events r ++ [Start v] |}.

(** A node completes having run its callable, [order[v] = count++;]. *)
Definition finish (v : nat) (r : Run) : Run :=
  {| status := <[v := Complete]> (status r);
     count := count r + 1;
     order := <[v := count r]> (order r);
     events := events r ++ [Finish v] |}.

(** Modelled from the spec: [exec] traverses the graph topologically; a
    node becomes eligible to run only after every predecessor has
    completed, and which eligible node runs next is not determined. *)
Inductive step (g : DAG) : Run -> Run -> Prop :=
| step_start (v : nat) (r : Run) :
    (v < num_nodes g)%nat ->
    status r v = Unscheduled ->
    (forall u, In (u, v) (edges g) -> status r u = Complete) ->
    step g r (start v r)
| step_finish (v : nat) (r : Run) :
    status r v = Running ->
    step g r (finish v r).

(** The states an execution can be in. *)
Inductive reachable (g : DAG) : Run -> Prop :=
| reach_initial : reachable g initial
| reach_step (r r' : Run) : reachable g r -> step g r r' -> reachable g r'.

(** [wait()] has returned: every node has completed. *)
Definition completed (g : DAG) (r : Run) : Prop :=
  forall v, (v < num_nodes g)%nat -> status r v = Complete.

(** [e1] happened before every occurrence of [e2]. *)
Definition precedes (e1 e2 : Event) (l : list Event) : Prop :=
  forall pre post, l = pre ++ e2 :: post -> In e1 pre.

(** Running the nodes one after the other in the given order. *)
Definition run_in_order (l : list nat) (r : Run) : Run :=
  fold_left (fun r v => finish v (start v r)) l r.

(** [l] lists every node of [g] once, sources of edges before their
    targets. *)
Definition topological (g : DAG) (l : list nat) : Prop :=
  Permutation l (seq 0 (num_nodes g)) /\
  forall pre v post, l = pre ++ v :: post ->
    forall u, In (u, v) (edges g) -> In u pre.

(** What every state of an execution satisfies. *)
Record invariant (g : DAG) (r : Run) : Prop := MkInvariant {
  inv_count : 0 <= count r;
  inv_order : forall v, status r v = Complete -> 0 <= order r v < count r;
  inv_preds : forall u v, In (u, v) (edges g) ->
    status r v <> Unscheduled -> status r u = Complete;
  inv_edges : forall u v, In (u, v) (edges g) ->
    status r v = Complete -> order r u < order r v;
  inv_finish : forall u, status r u = Complete -> In (Finish u) (events r);
  inv_trace : forall u v, In (u, v) (edges g) ->
    precedes (Finish u) (Start v) (events r)
}.

(** ** WorkPool, WorkGroup, WorkSite and the halo exchange *)

(** The host code of the halo exchange example computes with [int] as
    well.  Its sums, differences and products are given as the machine
    computes them, wrapped into [int]; the properties of the example are
    stated for sizes at which nothing wraps. *)
Definition int_add (a b : Z) : Z := to_int (a + b).
Definition int_sub (a b : Z) : Z := to_int (a - b).
Definition int_mul (a b : Z) : Z := to_int (a * b).

Infix "+!" := int_add (at level 50, left associativity).
Infix "-!" := int_sub (at level 50, left associativity).
Infix "*!" := int_mul (at level 40, left associativity).

(** The grid variables and the buffers hold [double]s, IEEE 754 binary64
    values.  [double_of_int] is the conversion of an [int], and
    [double_ne] the comparison [!=], which holds of a NaN and itself. *)
Definition double : Type := spec_float.

Definition double_of_int (z : Z) : double := binary_normalize 53 1024 z 0 false.

Definition double_ne (a b : double) : bool := negb (SFeqb a b).

(** Memory: cells addressed by array and index.  A cell that was never
    written holds whatever the memory gives for it. *)
Definition Ptr : Type := nat * Z.

Definition ptr_add (p : Ptr) (n : Z) : Ptr := (fst p, snd p + n).

Abbreviation Memory := (gmap (nat * Z) double).

Definition load (m : Memory) (p : Ptr) : double :=
  default (S754_zero false) (m !! p).

Definition store (p : Ptr) (x : double) (m : Memory) : Memory :=
  <[p := x]> m.

(** A lambda, as the accesses to memory that an invocation of it makes:
    it returns, or loads a cell and goes on with the value loaded, or
    stores a value to a cell and goes on. *)
Inductive Code : Type :=
| CReturn
| CLoad (p : Ptr) (k : double -> Code)
| CStore (p : Ptr) (x : double) (k : Code).

(** An invocation run on its own. *)
Fixpoint invoke (c : Code) (m : Memory) : Memory :=
  match c with
  | CReturn => m
  | CLoad p k => invoke (k (load m p)) m
  | CStore p x k => invoke k (store p x m)
  end.

(** A loop body: the lambda, invoked with an index. *)
Definition LoopBody : Type := Z -> Code.

(** [RAJA::TypedRangeSegment<int>(begin, end)] *)
Record Segment : Type := range_segment { seg_begin : Z; seg_end : Z }.

Definition seg_indices (seg : Segment) : list Z :=
  seqZ (seg_begin seg) (seg_end seg - seg_begin seg).

(** [for (int i = lo; i < hi; i++) body(i);] with [n] iterations to go. *)
Fixpoint c_for (n : nat) (i : Z) (body : LoopBody) (m : Memory)
    : Memory :=
  match n with
  | O => m
  | S n' => c_for n' (i + 1) body (invoke (body i) m)
  end.

Definition c_loop (lo hi : Z) (body : LoopBody) (m : Memory)
    : Memory :=
  c_for (Z.to_nat (hi - lo)) lo body m.

(** Modelled from the spec: [RAJA::forall<loop_exec>] is not among the
    sources; a sequential policy is plain iteration over the segment, in
    order. *)
Definition forall_loop_exec (seg : Segment) (body : LoopBody)
    (m : Memory) : Memory :=
  fold_left (fun m i => invoke (body i) m) (seg_indices seg) m.

(** Modelled from the spec: the WorkPool, WorkGroup and WorkSite classes
    are not among the sources.  A pool is the append-only collection of
    the enqueued (segment, lambda) pairs. *)
Record WorkPool : Type := MkWorkPool {
  pool_entries : list (Segment * LoopBody)
}.

(** Modelled from the spec: a group is the immutable dispatch table a
    pool was instantiated into. *)
Record WorkGroup : Type := MkWorkGroup {
  group_entries : list (Segment * LoopBody)
}.

(** Modelled from the spec: a site is the handle of a run; once waited
    for, the side effects of all enqueued bodies are visible. *)
Record WorkSite : Type := MkWorkSite {
  site_memory : Memory
}.

Definition new_pool : WorkPool := {| pool_entries := [] |}.

(** Modelled from the spec: [enqueue(Segment, Lambda)] stores an entry
    binding the segment and the lambda. *)
Definition enqueue (pool : WorkPool) (seg : Segment) (body : LoopBody)
    : WorkPool :=
  {| pool_entries := pool_entries pool ++ [(seg, body)] |}.

(** Modelled from the spec: [instantiate()] moves the pool's storage into
    the dispatch table and leaves the pool empty and reusable. *)
Definition instantiate (pool : WorkPool) : WorkGroup * WorkPool :=
  ({| group_entries := pool_entries pool |}, new_pool).

(** The single invocations a group consists of, in enqueue order. *)
Definition invocations (entry : Segment * LoopBody) : list Code :=
  map (snd entry) (seg_indices (fst entry)).

Definition work_items (group : WorkGroup) : list Code :=
  flat_map invocations (group_entries group).

(** Invocations run one after the other. *)
Definition dispatch (items : list Code) (m : Memory) : Memory :=
  fold_left (fun m item => invoke item m) items m.

(** Modelled from the spec: a launch on parallel hardware (spec 5).  The
    invocations of the launch are its threads, and the ordering across
    threads is unspecified.  A step of the launch is one access to memory
    by one thread, a load or a store of one cell, which is indivisible;
    [schedule] lists the threads in the order in which they took their
    steps.  A thread that has returned takes no further step. *)
Definition thread_step (c : Code) (m : Memory) : Code * Memory :=
  match c with
  | CReturn => (CReturn, m)
  | CLoad p k => (k (load m p), m)
  | CStore p x k => (k, store p x m)
  end.

Definition launch_step (st : list Code * Memory) (t : nat)
    : list Code * Memory :=
  match fst st !! t with
  | Some c =>
      let (c', m') := thread_step c (snd st) in (<[t := c']> (fst st), m')
  | None => st
  end.

Definition launch (threads : list Code) (schedule : list nat) (m : Memory)
    : list Code * Memory :=
  fold_left launch_step schedule (threads, m).

(** A launch has completed when all its threads have returned. *)
Definition completed_launch (threads : list Code) : Prop :=
  Forall (fun c => c = CReturn) threads.

(** A thread that makes at most [bound] accesses, whatever it loads. *)
Inductive returns_within : nat -> Code -> Prop :=
| returns_now bound : returns_within bound CReturn
| returns_after_load bound p k :
    (forall x, returns_within bound (k x)) ->
    returns_within (S bound) (CLoad p k)
| returns_after_store bound p x k :
    returns_within bound k ->
    returns_within (S bound) (CStore p x k).

(** A schedule that gives each of [n] threads at least [bound] steps. *)
Definition fair (bound n : nat) (schedule : list nat) : Prop :=
  forall t, (t < n)%nat -> (bound <= count_occ Nat.eq_dec schedule t)%nat.

(** The cells a thread may load ([R]) and store ([W]), whatever it
    loads. *)
Inductive within (R W : Ptr -> Prop) : Code -> Prop :=
| within_return : within R W CReturn
| within_load p k :
    R p -> (forall x, within R W (k x)) -> within R W (CLoad p k)
| within_store p x k :
    W p -> within R W k -> within R W (CStore p x k).

(** Threads without a data race: no thread stores to a cell that another
    thread loads or stores. *)
Definition race_free (threads : list Code) : Prop :=
  exists R W : nat -> Ptr -> Prop,
    (forall t c, threads !! t = Some c -> within (R t) (W t) c) /\
    (forall t u p, t <> u -> W t p -> ~ R u p /\ ~ W u p).

(** Modelled from the spec: [RAJA::forall] with a parallel policy
    ([omp_parallel_for_exec], [cuda_exec_async], [hip_exec_async]) is not
    among the sources; the iterations of the segment are the threads of
    one launch. *)
Definition forall_parallel (schedule : list nat) (seg : Segment)
    (body : LoopBody) (m : Memory) : Memory :=
  snd (launch (map body (seg_indices seg)) schedule m).

(** Modelled from the spec: the policy of a group.  An ordered group
    runs its entries strictly in enqueue order, one launch per entry.
    With a sequential work policy ([loop_work], [ordered]) a launch is a
    loop on the host.  With a parallel work policy ([omp_work],
    [ordered_parallel]) the iterations of an entry are the threads of its
    launch, and [schedules k] is the schedule of the launch of entry [k].
    An unordered group runs all invocations of all entries as the
    threads of one fused launch. *)
Inductive OrderPolicy : Type :=
| ordered
| ordered_parallel (schedules : nat -> list nat)
| unordered (schedule : list nat).

(** Modelled from the spec: [run()].  The memory of the site is the
    memory when the launches have taken the steps of their schedules. *)
Definition run (policy : OrderPolicy) (group : WorkGroup)
    (m : Memory) : WorkSite :=
  match policy with
  | ordered =>
      {| site_memory :=
           fold_left (fun m entry => forall_loop_exec (fst entry) (snd entry) m)
             (group_entries group) m |}
  | ordered_parallel schedules =>
      {| site_memory :=
           snd (fold_left
                  (fun (st : nat * Memory) entry =>
                     (S (fst st),
                      forall_parallel (schedules (fst st)) (fst entry)
                        (snd entry) (snd st)))
                  (group_entries group) (O, m)) |}
  | unordered schedule =>
      {| site_memory := snd (launch (work_items group) schedule m) |}
  end.

(** Modelled from the spec: the synchronisation point of a site. *)
Definition wait (site : WorkSite) : Memory := site_memory site.

(** Enqueue the bodies, instantiate, run and wait. *)
Definition pipeline (policy : OrderPolicy) (bodies : list (Segment * LoopBody))
    (m : Memory) : Memory * WorkPool :=
  let pool :=
    fold_left (fun pool entry => enqueue pool (fst entry) (snd entry))
      bodies new_pool in
  let (group, pool) := instantiate pool in
  let site := run policy group m in
  (wait site, pool).

(** The same bodies as independent launches, one after the other. *)
Definition separate_launches (bodies : list (Segment * LoopBody))
    (m : Memory) : Memory :=
  fold_left (fun m entry => forall_loop_exec (fst entry) (snd entry) m)
    bodies m.


(** *** The halo exchange example *)

Record Halo : Type := MkHalo {
  num_neighbors : nat;
  num_vars : nat;
  var_size : Z;
  vars : nat -> Ptr;
  buffers : nat -> Ptr;
  pack_index_lists : nat -> list Z;
  pack_index_list_lengths : nat -> Z;
  unpack_index_lists : nat -> list Z;
  unpack_index_list_lengths : nat -> Z
}.

Definition list_at (list : list Z) (i : Z) : Z := nth (Z.to_nat i) list 0.

(** [var[i] = i + v;], an [int] sum converted to [double]. *)
Definition set_var (var : Ptr) (v : nat) : LoopBody :=
  fun i => CStore (ptr_add var i) (double_of_int (i +! Z.of_nat v)) CReturn.

(** [buffer[i] = var[list[i]];] *)
Definition pack_body (buffer var : Ptr) (list : list Z) : LoopBody :=
  fun i =>
    CLoad (ptr_add var (list_at list i))
      (fun x => CStore (ptr_add buffer i) x CReturn).

(** [var[list[i]] = buffer[i];] *)
Definition unpack_body (buffer var : Ptr) (list : list Z) : LoopBody :=
  fun i =>
    CLoad (ptr_add buffer i)
      (fun x => CStore (ptr_add var (list_at list i)) x CReturn).

(** The C-style halo exchange of the example. *)

Definition c_set_vars (h : Halo) (m : Memory) : Memory :=
  fold_left
    (fun m v => c_loop 0 (var_size h) (set_var (vars h v) v) m)
    (seq 0 (num_vars h)) m.

Definition c_pack_neighbor (h : Halo) (l : nat) (m : Memory)
    : Memory :=
  let buffer := buffers h l in
  let list := pack_index_lists h l in
  let len := pack_index_list_lengths h l in
  snd (fold_left
         (fun (st : Ptr * Memory) v =>
            let buffer := fst st in
            let var := vars h v in
            (ptr_add buffer len,
             c_loop 0 len (pack_body buffer var list) (snd st)))
         (seq 0 (num_vars h)) (buffer, m)).

Definition c_unpack_neighbor (h : Halo) (l : nat) (m : Memory)
    : Memory :=
  let buffer := buffers h l in
  let list := unpack_index_lists h l in
  let len := unpack_index_list_lengths h l in
  snd (fold_left
         (fun (st : Ptr * Memory) v =>
            let buffer := fst st in
            let var := vars h v in
            (ptr_add buffer len,
             c_loop 0 len (unpack_body buffer var list) (snd st)))
         (seq 0 (num_vars h)) (buffer, m)).

Definition c_cycle (h : Halo) (m : Memory) : Memory :=
  let m := c_set_vars h m in
  let m := fold_left (fun m l => c_pack_neighbor h l m)
             (seq 0 (num_neighbors h)) m in
  fold_left (fun m l => c_unpack_neighbor h l m) (seq 0 (num_neighbors h)) m.

Definition c_style_halo_exchange (h : Halo) (num_cycles : nat)
    (m : Memory) : Memory :=
  Nat.iter num_cycles (c_cycle h) m.

(** The loop workgroup halo exchange of the example: the packing and
    unpacking loops are enqueued into two pools that are reused in every
    cycle. *)

Definition wg_set_vars (h : Halo) (m : Memory) : Memory :=
  fold_left
    (fun m v =>
       forall_loop_exec (range_segment 0 (var_size h))
         (set_var (vars h v) v) m)
    (seq 0 (num_vars h)) m.

Definition wg_enqueue_pack_neighbor (h : Halo) (l : nat) (pool : WorkPool)
    : WorkPool :=
  let buffer := buffers h l in
  let list := pack_index_lists h l in
  let len := pack_index_list_lengths h l in
  snd (fold_left
         (fun (st : Ptr * WorkPool) v =>
            let buffer := fst st in
            let var := vars h v in
            (ptr_add buffer len,
             enqueue (snd st) (range_segment 0 len)
               (pack_body buffer var list)))
         (seq 0 (num_vars h)) (buffer, pool)).

Definition wg_enqueue_unpack_neighbor (h : Halo) (l : nat) (pool : WorkPool)
    : WorkPool :=
  let buffer := buffers h l in
  let list := unpack_index_lists h l in
  let len := unpack_index_list_lengths h l in
  snd (fold_left
         (fun (st : Ptr * WorkPool) v =>
            let buffer := fst st in
            let var := vars h v in
            (ptr_add buffer len,
             enqueue (snd st) (range_segment 0 len)
               (unpack_body buffer var list)))
         (seq 0 (num_vars h)) (buffer, pool)).

(** One cycle; [loop_work] runs on the host, so the packing has completed
    when [run] returns and before the unpacking is enqueued. *)
Definition wg_cycle (h : Halo)
    (st : WorkPool * WorkPool * Memory)
    : WorkPool * WorkPool * Memory :=
  let pool_pack := fst (fst st) in
  let pool_unpack := snd (fst st) in
  let m := wg_set_vars h (snd st) in
  let pool_pack :=
    fold_left (fun pool l => wg_enqueue_pack_neighbor h l pool)
      (seq 0 (num_neighbors h)) pool_pack in
  let (group_pack, pool_pack) := instantiate pool_pack in
  let site_pack := run ordered group_pack m in
  let m := wait site_pack in
  let pool_unpack :=
    fold_left (fun pool l => wg_enqueue_unpack_neighbor h l pool)
      (seq 0 (num_neighbors h)) pool_unpack in
  let (group_unpack, pool_unpack) := instantiate pool_unpack in
  let site_unpack := run ordered group_unpack m in
  (pool_pack, pool_unpack, wait site_unpack).

Definition workgroup_halo_exchange (h : Halo) (num_cycles : nat)
    (m : Memory) : WorkPool * WorkPool * Memory :=
  Nat.iter num_cycles (wg_cycle h) (new_pool, new_pool, m).


(** Two single-iteration bodies that each add one to cell 0 of array 0:
    [a[i] += 1;], a load followed by a store. *)
Definition incrementing_bodies : list (Segment * LoopBody) :=
  let increment : LoopBody :=
    fun i =>
      CLoad (0%nat, i)
        (fun x => CStore (0%nat, i) (SFadd 53 1024 x (double_of_int 1)) CReturn)
  in
  [ (range_segment 0 1, increment); (range_segment 0 1, increment) ].


(** ** More on the CUDA statement executors *)

(** The length an executor compares its indices with: [int len] for the
    thread, warp, masked and block executors, the segment's own
    [idx_type len] for the sequential one. *)
Definition loop_length (s : ForICount) (data : Data) : Z :=
  match ExecPolicy s with
  | seq_exec => segment_length (ArgumentId s) data
  | _ => to_int (segment_length (ArgumentId s) data)
  end.

(** What can be said of every invocation an executor makes, whatever the
    lane: offset and parameter are bound to the same index, and the flag
    is set only if the caller's flag is set and the index is below the
    length. *)
Definition call_in_range (len : Z) (thread_active : bool) (c : Call) : Prop :=
  call_offset c = call_param c /\
  (call_active c = true -> thread_active = true /\ call_offset c < len).

(** ** The SYCL kernel statements *)

(** [statement::SyclKernelExt<sycl_launch<async0>, ...>] and
    [statement::SyclKernelExtNonTrivial<sycl_launch<async0>, ...>]. *)
Inductive SyclStatement : Type :=
| SyclKernelExt (async0 : bool)
| SyclKernelExtNonTrivial (async0 : bool).

(** The aliases: [SyclKernel] and [SyclKernelNonTrivial] launch
    synchronously, [SyclKernelAsync] asynchronously. *)
Definition SyclKernel : SyclStatement := SyclKernelExt false.
Definition SyclKernelAsync : SyclStatement := SyclKernelExt true.
Definition SyclKernelNonTrivial : SyclStatement := SyclKernelExtNonTrivial false.

Section SyclStatementExecutor.

Variable SyclData : Type.
Variable LaunchDims : Type.

(** [executor_t::calculateDimensions], whose executors are not among the
    sources. *)
Variable calculateDimensions : SyclData -> LaunchDims.

(** [StatementExecutor<statement::SyclKernelExt<...>>::exec] and
    [StatementExecutor<statement::SyclKernelExtNonTrivial<...>>::exec]:
    compute the kernel dimensions, take the queue, launch with no shared
    memory. *)
Definition StatementExecutor_exec (stmt : SyclStatement) (data : SyclData)
    : QueueM SyclData LaunchDims unit :=
  let launch_dims := calculateDimensions data in
  let shmem := 0 in
  match stmt with
  | SyclKernelExt async0 =>
      SyclLaunchHelper_launch SyclData LaunchDims async0 data launch_dims shmem
  | SyclKernelExtNonTrivial async0 =>
      SyclLaunchHelperNonTrivial_launch SyclData LaunchDims async0 data
        launch_dims shmem
  end.

(** A host program that executes kernel statements one after the other. *)
Fixpoint run_kernels (prog : list (SyclStatement * SyclData))
    : QueueM SyclData LaunchDims unit :=
  match prog with
  | [] => qret SyclData LaunchDims tt
  | (stmt, data) :: rest =>
      qbind SyclData LaunchDims (StatementExecutor_exec stmt data)
        (fun _ => run_kernels rest)
  end.

(** The state the helpers keep a queue in. *)
Definition queue_ok (q : Queue SyclData LaunchDims) : Prop :=
  no_dangling SyclData LaunchDims q /\
  events_known SyclData LaunchDims q /\
  List.NoDup (map (k_event SyclData LaunchDims) (q_in_flight SyclData LaunchDims q)).

End SyclStatementExecutor.

(** Number of kernels left in flight by a program that found [n] in
    flight: an asynchronous launch adds its kernel, a synchronous launch
    waits for the whole queue, a non-trivial launch waits for its own
    kernel only. *)
Fixpoint pending {D : Type} (prog : list (SyclStatement * D)) (n : nat) : nat :=
  match prog with
  | [] => n
  | (SyclKernelExt true, _) :: rest => pending rest (S n)
  | (SyclKernelExt false, _) :: rest => pending rest 0
  | (SyclKernelExtNonTrivial _, _) :: rest => pending rest n
  end.

(** ** The ReduceMax test over several loops *)

Definition SHRT_MAX : Z := 32767.

(** [const DATA_TYPE default_val = static_cast<DATA_TYPE>(-SHRT_MAX);] *)
Definition default_val : Z := - SHRT_MAX.

(** [const DATA_TYPE big_val = 500;] *)
Definition big_val : Z := 500.

(** Modelled from the spec: the macro [RAJA_MAX] is not among the sources;
    it gives the larger of its two arguments. *)
Definition RAJA_MAX (a b : Z) : Z := if a <? b then b else a.

(** The split of a loop's elements among the threads that run it: thread
    after thread takes the number of elements its entry of [sizes] says,
    the last one takes what is left. *)
Fixpoint split_chunks {A : Type} (sizes : list nat) (l : list A)
    : list (list A) :=
  match sizes with
  | [] => [l]
  | n :: sizes' => take n l :: split_chunks sizes' (drop n l)
  end.

(** Modelled from the spec: the [ReduceMax] class is not among the
    sources.  A reducer object holds a value; a [forall] whose body calls
    [max] on it is a reduction with the maximum operator into that value. *)
Definition reduce_max (lowest : Z) (sizes : list nat) (values : list Z)
    (current : Z) : Z :=
  target (forall_reduce Z maximum lowest (split_chunks sizes values)
            (MkReducer current current)).

(** The variables of [ForallReduceMaxMultipleTestImpl]; of a reducer, the
    value its [get()] returns. *)
Record ReduceMaxTest : Type := MkReduceMaxTest {
  test_array : list Z;
  working_array : list Z;
  current_max : Z;
  max0 : Z;
  max1 : Z;
  max2 : Z
}.

(** What one iteration of the test draws from its random generators,
    [dist] and [dist2], and how its [forall] happened to split the
    segment among the threads. *)
Record Draw : Type := MkDraw {
  roll : Z;
  max_index : Z;
  sizes : list nat
}.

Inductive TestOutcome : Type :=
| Passed (s : ReduceMaxTest)
| AssertFailed
| OutOfBounds.

(** [a[i]] *)
Definition read (a : list Z) (i : Z) : Z := nth (Z.to_nat i) a 0.

(** [memcpy(dst, src, sizeof(DATA_TYPE) * n)] *)
Definition memcpy_cells (n : nat) (src dst : list Z) : list Z :=
  take n src ++ drop n dst.

(** [if (test_array[max_index] < roll) { ... }]: a larger roll replaces
    the cell, raises [current_max] and is copied to the working array.
    Both arrays have [last] cells. *)
Definition store_roll (last : Z) (d : Draw) (s : ReduceMaxTest)
    : ReduceMaxTest :=
  if read (test_array s) (max_index d) <? roll d then
    let test_array' := <[Z.to_nat (max_index d) := roll d]> (test_array s) in
    {| test_array := test_array';
       working_array :=
         memcpy_cells (Z.to_nat last) test_array' (working_array s);
       current_max := RAJA_MAX (current_max s) (roll d);
       max0 := max0 s;
       max1 := max1 s;
       max2 := max2 s |}
  else s.

(** The [forall] over [r1 = [first, last)] with the three reducers in its
    body: [max0.max(working_array[idx]); max1.max(2 * working_array[idx]);
    max2.max(working_array[idx]);] *)
Definition run_reducers (lowest first last : Z) (d : Draw)
    (s : ReduceMaxTest) : ReduceMaxTest :=
  let values :=
    map (read (working_array s)) (seg_indices (range_segment first last)) in
  {| test_array := test_array s;
     working_array := working_array s;
     current_max := current_max s;
     max0 := reduce_max lowest (sizes d) values (max0 s);
     max1 := reduce_max lowest (sizes d) (map (Z.mul 2) values) (max1 s);
     max2 := reduce_max lowest (sizes d) values (max2 s) |}.

(** The three [ASSERT_EQ] of an iteration. *)
Definition assertions (s : ReduceMaxTest) : bool :=
  (current_max s =? max0 s) && (current_max s * 2 =? max1 s) &&
  (big_val =? max2 s).

(** The body of the two loops over [j].  An index outside the arrays is
    reported as such. *)
Definition test_iteration (lowest first last : Z) (d : Draw)
    (s : ReduceMaxTest) : TestOutcome :=
  if negb ((0 <=? max_index d) && (max_index d <? last) && (0 <=? first))
  then OutOfBounds
  else
    let s := store_roll last d s in
    let s := run_reducers lowest first last d s in
    if assertions s then Passed s else AssertFailed.

(** [for (int j = 0; j < nloops; ++j) { ... }], one draw per iteration; a
    failed assertion leaves the test. *)
Fixpoint test_loop (lowest first last : Z) (draws : list Draw)
    (s : ReduceMaxTest) : TestOutcome :=
  match draws with
  | [] => Passed s
  | d :: draws' =>
      match test_iteration lowest first last d s with
      | Passed s' => test_loop lowest first last draws' s'
      | failed => failed
      end
  end.

(** [max0.reset(default_val); max1.reset(default_val); max2.reset(big_val);] *)
Definition reset_reducers (s : ReduceMaxTest) : ReduceMaxTest :=
  {| test_array := test_array s;
     working_array := working_array s;
     current_max := current_max s;
     max0 := default_val;
     max1 := default_val;
     max2 := big_val |}.

(** [ForallReduceMaxMultipleTestImpl(first, last)]: [nloops = 8]
    iterations, the reset, and [nloops_b = 4] more.  [draw j] is what the
    [j]-th iteration draws, [allocated] the contents of the working array
    as allocated, which the test does not initialise. *)
Definition ForallReduceMaxMultipleTestImpl (lowest first last : Z)
    (allocated : list Z) (draw : nat -> Draw) : TestOutcome :=
  let s :=
    {| test_array := replicate (Z.to_nat last) default_val;
       working_array := allocated;
       current_max := default_val;
       max0 := default_val;
       max1 := default_val;
       max2 := big_val |} in
  match test_loop lowest first last (map draw (seq 0 8)) s with
  | Passed s =>
      test_loop lowest first last (map draw (seq 8 4)) (reset_reducers s)
  | failed => failed
  end.

(** What the draws of the test are: [dist] gives rolls between -100 and
    100, [dist2] indices between 0 and [index_len - 1]. *)
Definition drawn (first last : Z) (d : Draw) : Prop :=
  -100 <= roll d <= 100 /\ 0 <= max_index d <= last - first - 1.

(** The state of the test between two iterations, once a roll has been
    stored: the working array is a copy of the test array, and
    [current_max] is the largest value in it. *)
Definition test_running (last : Z) (s : ReduceMaxTest) : Prop :=
  length (test_array s) = Z.to_nat last /\
  working_array s = test_array s /\
  Forall (fun x => default_val <= x <= 100) (test_array s) /\
  current_max s = fold_left Z.max (test_array s) default_val /\
  -100 <= current_max s /\
  default_val <= max0 s <= current_max s /\
  default_val <= max1 s <= 2 * current_max s /\
  max2 s = big_val.

(** ** The random graph of the unit tests *)

(** [RandomGraph::get_dependencies(node_id)]: the list [0, node_id) made
    by [std::iota] is reordered by [std::shuffle] and cut to the drawn
    number of edges by [resize], which would fill up with zeros if the
    number were larger.  [num_edges_to_node] and [shuffle] stand for what
    the random number generator does in this call. *)
Definition get_dependencies (node_id : nat) (num_edges_to_node : nat)
    (shuffle : list nat -> list nat) : list nat :=
  let edges_to_node := seq 0 node_id in
  let edges_to_node := shuffle edges_to_node in
  resize num_edges_to_node 0%nat edges_to_node.

(** The loop of [RandomExec] that adds the nodes:
    [for (int node_id = 0; node_id < num_nodes; ++node_id)
       g.add_node(node_id, g.get_dependencies(node_id), ...);] *)
Definition random_graph (rng : nat -> nat * (list nat -> list nat))
    (n : nat) : DAG :=
  fold_left
    (fun g node_id =>
       add_node g
         (get_dependencies node_id (fst (rng node_id)) (snd (rng node_id))))
    (seq 0 n) empty_graph.

(** What the generator's draws are: the number of edges to a node is
    drawn from [0, node_id], and a shuffle reorders its list. *)
Definition uniform (rng : nat -> nat * (list nat -> list nat)) (n : nat)
    : Prop :=
  forall k, (k < n)%nat ->
    (fst (rng k) <= k)%nat /\ forall l, Permutation (snd (rng k) l) l.

(** The edges that lead to a node. *)
Definition edges_to (g : DAG) (v : nat) : list (nat * nat) :=
  List.filter (fun e => Nat.eqb (snd e) v) (edges g).

Definition is_complete (s : node_status) : bool :=
  match s with
  | Complete => true
  | _ => false
  end.

(** The nodes of the graph that have completed. *)
Definition complete_nodes (g : DAG) (r : Run) : list nat :=
  List.filter (fun v => is_complete (status r v)) (seq 0 (num_nodes g)).

(** What the counter of the test callables counts. *)
Record accounted (g : DAG) (r : Run) : Prop := MkAccounted {
  acc_nodes : forall v, status r v <> Unscheduled -> (v < num_nodes g)%nat;
  acc_count : count r = Z.of_nat (length (complete_nodes g r));
  acc_unrun : forall v, status r v <> Complete -> order r v = -1;
  acc_distinct : forall u v,
    status r u = Complete -> status r v = Complete ->
    order r u = order r v -> u = v
}.

(** ** The fixed graphs of the unit tests *)

(** The graph of [TwentyNodeExec]: each node is created from the graph
    or from its first predecessor, and the other edges to it are added
    right after. *)
Definition twenty_node_graph : DAG :=
  fold_left add_node
    [ []; []; []; [];
      [0]; [0; 1]; [1]; [2; 3]; [3];
      [4; 5]; [5; 6]; [5; 6]; [7; 8]; [7; 8];
      [9]; [9; 10]; [11]; [11; 12]; [12]; [13] ]%nat
    empty_graph.

(** The pairs [(a, b)] of the [ASSERT_LT(order[a], order[b])] that follow
    the execution in [FourNodeExec] and in [TwentyNodeExec]. *)
Definition four_node_asserts : list (nat * nat) :=
  [ (0, 1); (0, 2); (1, 3); (2, 3) ]%nat.

Definition twenty_node_asserts : list (nat * nat) :=
  [ (0, 4); (0, 5);
    (1, 5); (1, 6);
    (2, 7);
    (3, 7); (3, 8);
    (4, 9);
    (5, 9); (5, 10); (5, 11);
    (6, 10); (6, 11);
    (7, 12); (7, 13);
    (8, 12); (8, 13);
    (9, 14); (9, 15);
    (10, 15);
    (11, 16); (11, 17);
    (12, 17); (12, 18);
    (13, 19) ]%nat.

(** ** The index lists of the halo exchange example *)

(** [struct Extent] *)
Record Extent : Type := MkExtent {
  i_min : Z;
  i_max : Z;
  j_min : Z;
  j_max : Z;
  k_min : Z;
  k_max : Z
}.

(** The extents of [create_pack_lists]: for each of the 26 neighbors, the
    cells of the grid's interior that lie next to it. *)
Definition pack_index_list_extents (halo_width : Z) (grid_dims : nat -> Z)
    : list Extent :=
  [ (* faces *)
    MkExtent halo_width (halo_width +! halo_width)
             halo_width (grid_dims 1%nat +! halo_width)
             halo_width (grid_dims 2%nat +! halo_width);
    MkExtent (grid_dims 0%nat) (grid_dims 0%nat +! halo_width)
             halo_width (grid_dims 1%nat +! halo_width)
             halo_width (grid_dims 2%nat +! halo_width);
    MkExtent halo_width (grid_dims 0%nat +! halo_width)
             halo_width (halo_width +! halo_width)
             halo_width (grid_dims 2%nat +! halo_width);
    MkExtent halo_width (grid_dims 0%nat +! halo_width)
             (grid_dims 1%nat) (grid_dims 1%nat +! halo_width)
             halo_width (grid_dims 2%nat +! halo_width);
    MkExtent halo_width (grid_dims 0%nat +! halo_width)
             halo_width (grid_dims 1%nat +! halo_width)
             halo_width (halo_width +! halo_width);
    MkExtent halo_width (grid_dims 0%nat +! halo_width)
             halo_width (grid_dims 1%nat +! halo_width)
             (grid_dims 2%nat) (grid_dims 2%nat +! halo_width);
    (* edges *)
    MkExtent halo_width (halo_width +! halo_width)
             halo_width (halo_width +! halo_width)
             halo_width (grid_dims 2%nat +! halo_width);
    MkExtent halo_width (halo_width +! halo_width)
             (grid_dims 1%nat) (grid_dims 1%nat +! halo_width)
             halo_width (grid_dims 2%nat +! halo_width);
    MkExtent (grid_dims 0%nat) (grid_dims 0%nat +! halo_width)
             halo_width (halo_width +! halo_width)
             halo_width (grid_dims 2%nat +! halo_width);
    MkExtent (grid_dims 0%nat) (grid_dims 0%nat +! halo_width)
             (grid_dims 1%nat) (grid_dims 1%nat +! halo_width)
             halo_width (grid_dims 2%nat +! halo_width);
    MkExtent halo_width (halo_width +! halo_width)
             halo_width (grid_dims 1%nat +! halo_width)
             halo_width (halo_width +! halo_width);
    MkExtent halo_width (halo_width +! halo_width)
             halo_width (grid_dims 1%nat +! halo_width)
             (grid_dims 2%nat) (grid_dims 2%nat +! halo_width);
    MkExtent (grid_dims 0%nat) (grid_dims 0%nat +! halo_width)
             halo_width (grid_dims 1%nat +! halo_width)
             halo_width (halo_width +! halo_width);
    MkExtent (grid_dims 0%nat) (grid_dims 0%nat +! halo_width)
             halo_width (grid_dims 1%nat +! halo_width)
             (grid_dims 2%nat) (grid_dims 2%nat +! halo_width);
    MkExtent halo_width (grid_dims 0%nat +! halo_width)
             halo_width (halo_width +! halo_width)
             halo_width (halo_width +! halo_width);
    MkExtent halo_width (grid_dims 0%nat +! halo_width)
             halo_width (halo_width +! halo_width)
             (grid_dims 2%nat) (grid_dims 2%nat +! halo_width);
    MkExtent halo_width (grid_dims 0%nat +! halo_width)
             (grid_dims 1%nat) (grid_dims 1%nat +! halo_width)
             halo_width (halo_width +! halo_width);
    MkExtent halo_width (grid_dims 0%nat +! halo_width)
             (grid_dims 1%nat) (grid_dims 1%nat +! halo_width)
             (grid_dims 2%nat) (grid_dims 2%nat +! halo_width);
    (* corners *)
    MkExtent halo_width (halo_width +! halo_width)
             halo_width (halo_width +! halo_width)
             halo_width (halo_width +! halo_width);
    MkExtent halo_width (halo_width +! halo_width)
             halo_width (halo_width +! halo_width)
             (grid_dims 2%nat) (grid_dims 2%nat +! halo_width);
    MkExtent halo_width (halo_width +! halo_width)
             (grid_dims 1%nat) (grid_dims 1%nat +! halo_width)
             halo_width (halo_width +! halo_width);
    MkExtent halo_width (halo_width +! halo_width)
             (grid_dims 1%nat) (grid_dims 1%nat +! halo_width)
             (grid_dims 2%nat) (grid_dims 2%nat +! halo_width);
    MkExtent (grid_dims 0%nat) (grid_dims 0%nat +! halo_width)
             halo_width (halo_width +! halo_width)
             halo_width (halo_width +! halo_width);
    MkExtent (grid_dims 0%nat) (grid_dims 0%nat +! halo_width)
             halo_width (halo_width +! halo_width)
             (grid_dims 2%nat) (grid_dims 2%nat +! halo_width);
    MkExtent (grid_dims 0%nat) (grid_dims 0%nat +! halo_width)
             (grid_dims 1%nat) (grid_dims 1%nat +! halo_width)
             halo_width (halo_width +! halo_width);
    MkExtent (grid_dims 0%nat) (grid_dims 0%nat +! halo_width)
             (grid_dims 1%nat) (grid_dims 1%nat +! halo_width)
             (grid_dims 2%nat) (grid_dims 2%nat +! halo_width) ].

(** The extents of [create_unpack_lists]: for each neighbor, the cells of
    the halo on its side. *)
Definition unpack_index_list_extents (halo_width : Z) (grid_dims : nat -> Z)
    : list Extent :=
  [ (* faces *)
    MkExtent 0 halo_width
             halo_width (grid_dims 1%nat +! halo_width)
             halo_width (grid_dims 2%nat +! halo_width);
    MkExtent (grid_dims 0%nat +! halo_width) (grid_dims 0%nat +! 2 *! halo_width)
             halo_width (grid_dims 1%nat +! halo_width)
             halo_width (grid_dims 2%nat +! halo_width);
    MkExtent halo_width (grid_dims 0%nat +! halo_width)
             0 halo_width
             halo_width (grid_dims 2%nat +! halo_width);
    MkExtent halo_width (grid_dims 0%nat +! halo_width)
             (grid_dims 1%nat +! halo_width) (grid_dims 1%nat +! 2 *! halo_width)
             halo_width (grid_dims 2%nat +! halo_width);
    MkExtent halo_width (grid_dims 0%nat +! halo_width)
             halo_width (grid_dims 1%nat +! halo_width)
             0 halo_width;
    MkExtent halo_width (grid_dims 0%nat +! halo_width)
             halo_width (grid_dims 1%nat +! halo_width)
             (grid_dims 2%nat +! halo_width) (grid_dims 2%nat +! 2 *! halo_width);
    (* edges *)
    MkExtent 0 halo_width
             0 halo_width
             halo_width (grid_dims 2%nat +! halo_width);
    MkExtent 0 halo_width
             (grid_dims 1%nat +! halo_width) (grid_dims 1%nat +! 2 *! halo_width)
             halo_width (grid_dims 2%nat +! halo_width);
    MkExtent (grid_dims 0%nat +! halo_width) (grid_dims 0%nat +! 2 *! halo_width)
             0 halo_width
             halo_width (grid_dims 2%nat +! halo_width);
    MkExtent (grid_dims 0%nat +! halo_width) (grid_dims 0%nat +! 2 *! halo_width)
             (grid_dims 1%nat +! halo_width) (grid_dims 1%nat +! 2 *! halo_width)
             halo_width (grid_dims 2%nat +! halo_width);
    MkExtent 0 halo_width
             halo_width (grid_dims 1%nat +! halo_width)
             0 halo_width;
    MkExtent 0 halo_width
             halo_width (grid_dims 1%nat +! halo_width)
             (grid_dims 2%nat +! halo_width) (grid_dims 2%nat +! 2 *! halo_width);
    MkExtent (grid_dims 0%nat +! halo_width) (grid_dims 0%nat +! 2 *! halo_width)
             halo_width (grid_dims 1%nat +! halo_width)
             0 halo_width;
    MkExtent (grid_dims 0%nat +! halo_width) (grid_dims 0%nat +! 2 *! halo_width)
             halo_width (grid_dims 1%nat +! halo_width)
             (grid_dims 2%nat +! halo_width) (grid_dims 2%nat +! 2 *! halo_width);
    MkExtent halo_width (grid_dims 0%nat +! halo_width)
             0 halo_width
             0 halo_width;
    MkExtent halo_width (grid_dims 0%nat +! halo_width)
             0 halo_width
             (grid_dims 2%nat +! halo_width) (grid_dims 2%nat +! 2 *! halo_width);
    MkExtent halo_width (grid_dims 0%nat +! halo_width)
             (grid_dims 1%nat +! halo_width) (grid_dims 1%nat +! 2 *! halo_width)
             0 halo_width;
    MkExtent halo_width (grid_dims 0%nat +! halo_width)
             (grid_dims 1%nat +! halo_width) (grid_dims 1%nat +! 2 *! halo_width)
             (grid_dims 2%nat +! halo_width) (grid_dims 2%nat +! 2 *! halo_width);
    (* corners *)
    MkExtent 0 halo_width
             0 halo_width
             0 halo_width;
    MkExtent 0 halo_width
             0 halo_width
             (grid_dims 2%nat +! halo_width) (grid_dims 2%nat +! 2 *! halo_width);
    MkExtent 0 halo_width
             (grid_dims 1%nat +! halo_width) (grid_dims 1%nat +! 2 *! halo_width)
             0 halo_width;
    MkExtent 0 halo_width
             (grid_dims 1%nat +! halo_width) (grid_dims 1%nat +! 2 *! halo_width)
             (grid_dims 2%nat +! halo_width) (grid_dims 2%nat +! 2 *! halo_width);
    MkExtent (grid_dims 0%nat +! halo_width) (grid_dims 0%nat +! 2 *! halo_width)
             0 halo_width
             0 halo_width;
    MkExtent (grid_dims 0%nat +! halo_width) (grid_dims 0%nat +! 2 *! halo_width)
             0 halo_width
             (grid_dims 2%nat +! halo_width) (grid_dims 2%nat +! 2 *! halo_width);
    MkExtent (grid_dims 0%nat +! halo_width) (grid_dims 0%nat +! 2 *! halo_width)
             (grid_dims 1%nat +! halo_width) (grid_dims 1%nat +! 2 *! halo_width)
             0 halo_width;
    MkExtent (grid_dims 0%nat +! halo_width) (grid_dims 0%nat +! 2 *! halo_width)
             (grid_dims 1%nat +! halo_width) (grid_dims 1%nat +! 2 *! halo_width)
             (grid_dims 2%nat +! halo_width) (grid_dims 2%nat +! 2 *! halo_width) ].

(** [for (int x = lo; x < hi; ++x) body(x);] on a state. *)
Definition for_range {S : Type} (lo hi : Z) (body : Z -> S -> S) (s : S) : S :=
  fold_left (fun s x => body x s) (seqZ lo (hi - lo)) s.

(** Modelled from the spec: [memoryManager::allocate] is not among the
    sources; it gives an array of the asked length whose cells hold
    whatever the memory held, [junk]. *)
Definition allocate (junk : nat -> Z) (n : Z) : list Z :=
  map junk (seq 0 (Z.to_nat n)).

(** The three nested loops that fill an index list:
    [list[list_idx] = ii * grid_i_stride + jj * grid_j_stride +
    kk * grid_k_stride; list_idx += 1;], all in [int].  A write outside
    the list, undefined in C++, leaves the list as it is. *)
Definition fill_index_list (extent : Extent)
    (grid_i_stride grid_j_stride grid_k_stride : Z) (index_list : list Z)
    : list Z * Z :=
  for_range (k_min extent) (k_max extent)
    (fun kk st =>
       for_range (j_min extent) (j_max extent)
         (fun jj st =>
            for_range (i_min extent) (i_max extent)
              (fun ii (st : list Z * Z) =>
                 let index_list := fst st in
                 let list_idx := snd st in
                 let idx :=
                   ii *! grid_i_stride +! jj *! grid_j_stride +!
                   kk *! grid_k_stride in
                 (if 0 <=? list_idx
                  then <[Z.to_nat list_idx := idx]> index_list
                  else index_list,
                  list_idx +! 1))
              st)
         st)
    (index_list, 0).

(** The loop over the neighbors that both [create_pack_lists] and
    [create_unpack_lists] end with: the length of each list is computed
    from its extent, the list is allocated and filled.  The result is the
    lists and their lengths. *)
Definition create_index_lists (extents : list Extent) (halo_width : Z)
    (grid_dims : nat -> Z) (junk : nat -> Z) : list (list Z) * list Z :=
  let grid_i_stride := 1 in
  let grid_j_stride := grid_dims 0%nat +! 2 *! halo_width in
  let grid_k_stride := grid_j_stride *! (grid_dims 1%nat +! 2 *! halo_width) in
  let length_of (extent : Extent) :=
    (i_max extent -! i_min extent) *! (j_max extent -! j_min extent) *!
    (k_max extent -! k_min extent) in
  (map (fun extent =>
          fst (fill_index_list extent grid_i_stride grid_j_stride
                 grid_k_stride (allocate junk (length_of extent))))
       extents,
   map length_of extents).

Definition create_pack_lists (halo_width : Z) (grid_dims : nat -> Z)
    (junk : nat -> Z) : list (list Z) * list Z :=
  create_index_lists (pack_index_list_extents halo_width grid_dims)
    halo_width grid_dims junk.

Definition create_unpack_lists (halo_width : Z) (grid_dims : nat -> Z)
    (junk : nat -> Z) : list (list Z) * list Z :=
  create_index_lists (unpack_index_list_extents halo_width grid_dims)
    halo_width grid_dims junk.

(** *** The grid *)

(** The cells of an extent, as the loops visit them. *)
Definition extent_cells (extent : Extent) : list (Z * Z * Z) :=
  flat_map
    (fun kk =>
       flat_map
         (fun jj =>
            map (fun ii => (ii, jj, kk))
              (seqZ (i_min extent) (i_max extent - i_min extent)))
         (seqZ (j_min extent) (j_max extent - j_min extent)))
    (seqZ (k_min extent) (k_max extent - k_min extent)).

(** The index of a cell in a grid variable, halo included. *)
Definition cell_index (halo_width : Z) (grid_dims : nat -> Z)
    (cell : Z * Z * Z) : Z :=
  let grid_j_stride := grid_dims 0%nat + 2 * halo_width in
  let grid_k_stride := grid_j_stride * (grid_dims 1%nat + 2 * halo_width) in
  fst (fst cell) * 1 + snd (fst cell) * grid_j_stride +
  snd cell * grid_k_stride.

(** A cell of the grid, halo included. *)
Definition in_grid (halo_width : Z) (grid_dims : nat -> Z)
    (cell : Z * Z * Z) : Prop :=
  0 <= fst (fst cell) < grid_dims 0%nat + 2 * halo_width /\
  0 <= snd (fst cell) < grid_dims 1%nat + 2 * halo_width /\
  0 <= snd cell < grid_dims 2%nat + 2 * halo_width.

(** A cell of the interior of the grid. *)
Definition interior (halo_width : Z) (grid_dims : nat -> Z)
    (cell : Z * Z * Z) : Prop :=
  halo_width <= fst (fst cell) < grid_dims 0%nat + halo_width /\
  halo_width <= snd (fst cell) < grid_dims 1%nat + halo_width /\
  halo_width <= snd cell < grid_dims 2%nat + halo_width.

(** Where a coordinate lies along an axis of [g] interior cells: in the
    halo below, in the interior, or in the halo above. *)
Inductive Zone : Type := Low | Mid | High.

Definition zone_of (halo_width g x : Z) : Zone :=
  if x <? halo_width then Low
  else if x <? g + halo_width then Mid
  else High.

(** The halo cells of a zone, and the interior cells next to them. *)
Definition unpack_zone (halo_width g : Z) (z : Zone) : Z * Z :=
  match z with
  | Low => (0, halo_width)
  | Mid => (halo_width, g + halo_width)
  | High => (g + halo_width, g + 2 * halo_width)
  end.

Definition pack_zone (halo_width g : Z) (z : Zone) : Z * Z :=
  match z with
  | Low => (halo_width, halo_width + halo_width)
  | Mid => (halo_width, g + halo_width)
  | High => (g, g + halo_width)
  end.

Definition zone_extent (zone : Z -> Z -> Zone -> Z * Z) (halo_width : Z)
    (grid_dims : nat -> Z) (zs : Zone * Zone * Zone) : Extent :=
  let i := zone halo_width (grid_dims 0%nat) (fst (fst zs)) in
  let j := zone halo_width (grid_dims 1%nat) (snd (fst zs)) in
  let k := zone halo_width (grid_dims 2%nat) (snd zs) in
  MkExtent (fst i) (snd i) (fst j) (snd j) (fst k) (snd k).

(** The neighbors in the order of the example: 6 faces, 12 edges and 8
    corners. *)
Definition neighbor_zones : list (Zone * Zone * Zone) :=
  [ (Low, Mid, Mid); (High, Mid, Mid); (Mid, Low, Mid); (Mid, High, Mid);
    (Mid, Mid, Low); (Mid, Mid, High);
    (Low, Low, Mid); (Low, High, Mid); (High, Low, Mid); (High, High, Mid);
    (Low, Mid, Low); (Low, Mid, High); (High, Mid, Low); (High, Mid, High);
    (Mid, Low, Low); (Mid, Low, High); (Mid, High, Low); (Mid, High, High);
    (Low, Low, Low); (Low, Low, High); (Low, High, Low); (Low, High, High);
    (High, Low, Low); (High, Low, High); (High, High, Low);
    (High, High, High) ].

(** The interior coordinate whose value the exchange leaves at a
    coordinate: halo cells take the value of the interior cell
    [halo_width] further inside. *)
Definition source (halo_width g x : Z) : Z :=
  match zone_of halo_width g x with
  | Low => x + halo_width
  | Mid => x
  | High => x - halo_width
  end.

Definition source_cell (halo_width : Z) (grid_dims : nat -> Z)
    (cell : Z * Z * Z) : Z * Z * Z :=
  (source halo_width (grid_dims 0%nat) (fst (fst cell)),
   source halo_width (grid_dims 1%nat) (snd (fst cell)),
   source halo_width (grid_dims 2%nat) (snd cell)).

#[global] Instance Zone_eq_dec : EqDecision Zone.
Proof. solve_decision. Defined.

Definition zones_of (halo_width : Z) (grid_dims : nat -> Z)
    (cell : Z * Z * Z) : Zone * Zone * Zone :=
  (zone_of halo_width (grid_dims 0%nat) (fst (fst cell)),
   zone_of halo_width (grid_dims 1%nat) (snd (fst cell)),
   zone_of halo_width (grid_dims 2%nat) (snd cell)).

(** The lists of the cells' indices, extent by extent. *)
Definition extent_lists (halo_width : Z) (grid_dims : nat -> Z)
    (extents : list Extent) : list (list Z) :=
  map (fun extent => map (cell_index halo_width grid_dims) (extent_cells extent))
    extents.

(** *** The example on the lists it creates *)

(** The set-up of [main]: the size of a grid variable with its halo, the
    grid variables, and the index lists and their lengths as created.
    The buffers are those of the variant that runs. *)
Definition example_halo (halo_width : Z) (grid_dims : nat -> Z) (nvars : nat)
    (vars_ buffers_ : nat -> Ptr) (junk : nat -> Z) : Halo :=
  let grid_plus_halo_dims (a : nat) := grid_dims a +! 2 *! halo_width in
  let pack := create_pack_lists halo_width grid_dims junk in
  let unpack := create_unpack_lists halo_width grid_dims junk in
  {| num_neighbors := 26;
     num_vars := nvars;
     var_size :=
       grid_plus_halo_dims 0%nat *! grid_plus_halo_dims 1%nat *!
       grid_plus_halo_dims 2%nat;
     vars := vars_;
     buffers := buffers_;
     pack_index_lists := fun l => nth l (fst pack) [];
     pack_index_list_lengths := fun l => nth l (snd pack) 0;
     unpack_index_lists := fun l => nth l (fst unpack) [];
     unpack_index_list_lengths := fun l => nth l (snd unpack) 0 |}.

(** The halo exchange with separate packing and unpacking loops using
    [forall] with the [loop_exec] policy. *)

Definition forall_set_vars (h : Halo) (m : Memory)
    : Memory :=
  fold_left
    (fun m v =>
       forall_loop_exec (range_segment 0 (var_size h))
         (set_var (vars h v) v) m)
    (seq 0 (num_vars h)) m.

Definition forall_pack_neighbor (h : Halo) (l : nat) (m : Memory)
    : Memory :=
  let buffer := buffers h l in
  let list := pack_index_lists h l in
  let len := pack_index_list_lengths h l in
  snd (fold_left
         (fun (st : Ptr * Memory) v =>
            let buffer := fst st in
            let var := vars h v in
            (ptr_add buffer len,
             forall_loop_exec (range_segment 0 len)
               (pack_body buffer var list) (snd st)))
         (seq 0 (num_vars h)) (buffer, m)).

Definition forall_unpack_neighbor (h : Halo) (l : nat) (m : Memory)
    : Memory :=
  let buffer := buffers h l in
  let list := unpack_index_lists h l in
  let len := unpack_index_list_lengths h l in
  snd (fold_left
         (fun (st : Ptr * Memory) v =>
            let buffer := fst st in
            let var := vars h v in
            (ptr_add buffer len,
             forall_loop_exec (range_segment 0 len)
               (unpack_body buffer var list) (snd st)))
         (seq 0 (num_vars h)) (buffer, m)).

Definition forall_cycle (h : Halo) (m : Memory)
    : Memory :=
  let m := forall_set_vars h m in
  let m := fold_left (fun m l => forall_pack_neighbor h l m)
             (seq 0 (num_neighbors h)) m in
  fold_left (fun m l => forall_unpack_neighbor h l m)
    (seq 0 (num_neighbors h)) m.

Definition forall_halo_exchange (h : Halo) (num_cycles : nat)
    (m : Memory) : Memory :=
  Nat.iter num_cycles (forall_cycle h) m.

(** The end of the C-style variant, which keeps its result for reference:
    [var_ref[i] = var[i];] for every variable. *)
Definition copy_to_ref (h : Halo) (vars_ref : nat -> Ptr)
    (m : Memory) : Memory :=
  fold_left
    (fun m v =>
       let var := vars h v in
       let var_ref := vars_ref v in
       c_loop 0 (var_size h)
         (fun i =>
            CLoad (ptr_add var i)
              (fun x => CStore (ptr_add var_ref i) x CReturn)) m)
    (seq 0 (num_vars h)) m.

(** [checkResult(vars, vars_ref, var_size, num_vars)]: [true] for
    "result -- PASS".  A difference clears [correct] for good; the loops
    go on to the end. *)
Definition checkResult (vars_ vars_ref : nat -> Ptr) (size : Z) (nvars : nat)
    (m : Memory) : bool :=
  let correct := true in
  fold_left
    (fun correct v =>
       let var := vars_ v in
       let var_ref := vars_ref v in
       for_range 0 size
         (fun i (correct : bool) =>
            if double_ne (load m (ptr_add var i)) (load m (ptr_add var_ref i))
            then false
            else correct)
         correct)
    (seq 0 nvars) correct.

(** Stores and moves, one after the other. *)
Definition store_all (writes : list (Ptr * double)) (m : Memory)
    : Memory :=
  fold_left (fun m w => store (fst w) (snd w) m) writes m.

Definition apply_moves (moves : list (Ptr * Ptr)) (m : Memory)
    : Memory :=
  fold_left (fun m mv => store (fst mv) (load m (snd mv)) m) moves m.

(** The arrays of the example do not overlap: every allocation is an
    array of its own. *)
Definition separate (arrays : list Ptr) : Prop :=
  NoDup (map fst arrays).

(** What a cycle of the exchange stores and moves, in program order: the
    values set, the cells packed into the buffers (destination first),
    and the cells unpacked from them. *)
Definition set_writes (h : Halo) : list (Ptr * double) :=
  flat_map
    (fun v =>
       map (fun i => (ptr_add (vars h v) i, double_of_int (i +! Z.of_nat v)))
         (seqZ 0 (var_size h)))
    (seq 0 (num_vars h)).

Definition pack_moves (h : Halo) : list (Ptr * Ptr) :=
  flat_map
    (fun l =>
       let len := pack_index_list_lengths h l in
       flat_map
         (fun v =>
            map (fun i =>
                   (ptr_add (ptr_add (buffers h l) (Z.of_nat v * len)) i,
                    ptr_add (vars h v) (list_at (pack_index_lists h l) i)))
              (seqZ 0 len))
         (seq 0 (num_vars h)))
    (seq 0 (num_neighbors h)).

Definition unpack_moves (h : Halo) : list (Ptr * Ptr) :=
  flat_map
    (fun l =>
       let len := unpack_index_list_lengths h l in
       flat_map
         (fun v =>
            map (fun i =>
                   (ptr_add (vars h v) (list_at (unpack_index_lists h l) i),
                    ptr_add (ptr_add (buffers h l) (Z.of_nat v * len)) i))
              (seqZ 0 len))
         (seq 0 (num_vars h)))
    (seq 0 (num_neighbors h)).

(** How far inside the halo cells of a zone find their source. *)
Definition zone_shift (halo_width : Z) (z : Zone) : Z :=
  match z with
  | Low => halo_width
  | Mid => 0
  | High => - halo_width
  end.

(** *** The work groups of the exchange *)

(** The group of the packing loops of a cycle, [pool_pack.instantiate()]
    after the loops over the neighbors and the variables have enqueued
    them, and the group of the unpacking loops. *)
Definition pack_group (h : Halo) : WorkGroup :=
  fst (instantiate
         (fold_left (fun pool l => wg_enqueue_pack_neighbor h l pool)
            (seq 0 (num_neighbors h)) new_pool)).

Definition unpack_group (h : Halo) : WorkGroup :=
  fst (instantiate
         (fold_left (fun pool l => wg_enqueue_unpack_neighbor h l pool)
            (seq 0 (num_neighbors h)) new_pool)).

(** One move as an invocation: [dst = src]. *)
Definition move (mv : Ptr * Ptr) : Code :=
  CLoad (snd mv) (fun x => CStore (fst mv) x CReturn).

(** *** The exchange with parallel loops *)

(** The halo exchange with separate packing and unpacking loops using a
    parallel [forall]: the loops are those of the sequential variant,
    each a launch with a schedule of its own. *)

Definition parallel_set_vars (h : Halo) (schedule : nat -> list nat)
    (m : Memory) : Memory :=
  fold_left
    (fun m v =>
       forall_parallel (schedule v) (range_segment 0 (var_size h))
         (set_var (vars h v) v) m)
    (seq 0 (num_vars h)) m.

Definition parallel_pack_neighbor (h : Halo) (schedule : nat -> list nat)
    (l : nat) (m : Memory) : Memory :=
  let buffer := buffers h l in
  let list := pack_index_lists h l in
  let len := pack_index_list_lengths h l in
  snd (fold_left
         (fun (st : Ptr * Memory) v =>
            let buffer := fst st in
            let var := vars h v in
            (ptr_add buffer len,
             forall_parallel (schedule v) (range_segment 0 len)
               (pack_body buffer var list) (snd st)))
         (seq 0 (num_vars h)) (buffer, m)).

Definition parallel_unpack_neighbor (h : Halo) (schedule : nat -> list nat)
    (l : nat) (m : Memory) : Memory :=
  let buffer := buffers h l in
  let list := unpack_index_lists h l in
  let len := unpack_index_list_lengths h l in
  snd (fold_left
         (fun (st : Ptr * Memory) v =>
            let buffer := fst st in
            let var := vars h v in
            (ptr_add buffer len,
             forall_parallel (schedule v) (range_segment 0 len)
               (unpack_body buffer var list) (snd st)))
         (seq 0 (num_vars h)) (buffer, m)).

Definition parallel_cycle (h : Halo) (schedule_set : nat -> list nat)
    (schedule_pack schedule_unpack : nat -> nat -> list nat)
    (m : Memory) : Memory :=
  let m := parallel_set_vars h schedule_set m in
  let m := fold_left (fun m l => parallel_pack_neighbor h (schedule_pack l) l m)
             (seq 0 (num_neighbors h)) m in
  fold_left (fun m l => parallel_unpack_neighbor h (schedule_unpack l) l m)
    (seq 0 (num_neighbors h)) m.

(** The schedules of all loops of a cycle let every iteration finish:
    an iteration that sets a cell makes one access, one that packs or
    unpacks a cell makes two. *)
Definition fair_schedules (h : Halo) (schedule_set : nat -> list nat)
    (schedule_pack schedule_unpack : nat -> nat -> list nat) : Prop :=
  (forall v, (v < num_vars h)%nat ->
     fair 1 (Z.to_nat (var_size h)) (schedule_set v)) /\
  (forall l v, (l < num_neighbors h)%nat -> (v < num_vars h)%nat ->
     fair 2 (Z.to_nat (pack_index_list_lengths h l)) (schedule_pack l v)) /\
  (forall l v, (l < num_neighbors h)%nat -> (v < num_vars h)%nat ->
     fair 2 (Z.to_nat (unpack_index_list_lengths h l)) (schedule_unpack l v)).

(** An extent that lies within the grid, halo included. *)
Definition extent_in_grid (halo_width : Z) (grid_dims : nat -> Z)
    (extent : Extent) : Prop :=
  0 <= i_min extent <= i_max extent /\
  i_max extent <= grid_dims 0%nat + 2 * halo_width /\
  0 <= j_min extent <= j_max extent /\
  j_max extent <= grid_dims 1%nat + 2 * halo_width /\
  0 <= k_min extent <= k_max extent /\
  k_max extent <= grid_dims 2%nat + 2 * halo_width.

(** Sizes at which the [int] computations of the example do not wrap:
    the dimensions of the grid with its halo, the strides and the size
    of a variable; and, for a run of the example, the values [i + v]
    and the lengths [num_vars * len] of the buffers. *)
Definition grid_fits_int (halo_width : Z) (grid_dims : nat -> Z) : Prop :=
  let d (a : nat) := grid_dims a + 2 * halo_width in
  (forall a, (a < 3)%nat -> d a <= INT_MAX) /\
  d 0%nat * d 1%nat <= INT_MAX /\
  d 0%nat * d 1%nat * d 2%nat <= INT_MAX.

Definition example_fits_int (halo_width : Z) (grid_dims : nat -> Z)
    (nvars : nat) : Prop :=
  let d (a : nat) := grid_dims a + 2 * halo_width in
  grid_fits_int halo_width grid_dims /\
  d 0%nat * d 1%nat * d 2%nat + Z.of_nat nvars <= INT_MAX /\
  Z.of_nat nvars * (d 0%nat * d 1%nat * d 2%nat) <= INT_MAX.

(** * Part II: properties *)

(** ** Machine integers and chunk counting *)

Lemma to_int_id z : INT_MIN <= z <= INT_MAX -> to_int z = z.
Proof.
  unfold to_int, INT_MIN, INT_MAX. intros Hz.
  rewrite Z.mod_small by lia. lia.
Qed.

Lemma in_int_true z : INT_MIN <= z <= INT_MAX -> in_int z = true.
Proof.
  unfold in_int. intros [H1 H2].
  apply andb_true_intro. split; apply Z.leb_le; assumption.
Qed.

Lemma to_int_range z : INT_MIN <= to_int z <= INT_MAX.
Proof.
  unfold to_int, INT_MIN, INT_MAX.
  pose proof (Z.mod_pos_bound (z + 2147483648) 4294967296 ltac:(lia)). lia.
Qed.

Lemma int_add_id a b : INT_MIN <= a + b <= INT_MAX -> a +! b = a + b.
Proof. apply to_int_id. Qed.

Lemma int_sub_id a b : INT_MIN <= a - b <= INT_MAX -> a -! b = a - b.
Proof. apply to_int_id. Qed.

Lemma int_mul_id a b : INT_MIN <= a * b <= INT_MAX -> a *! b = a * b.
Proof. apply to_int_id. Qed.

Lemma chunks_from_done len i_stride ii :
  0 < i_stride -> len <= ii -> chunks_from len i_stride ii = O.
Proof.
  intros Hs Hge. unfold chunks_from.
  assert ((len - ii + i_stride - 1) / i_stride <= 0) as Hle.
  { apply Z.lt_succ_r. apply Z.div_lt_upper_bound; lia. }
  lia.
Qed.

Lemma chunks_from_step len i_stride ii :
  0 < i_stride -> ii < len ->
  chunks_from len i_stride ii = S (chunks_from len i_stride (ii + i_stride)).
Proof.
  intros Hs Hlt. unfold chunks_from.
  replace (len - ii + i_stride - 1)
    with (len - (ii + i_stride) + i_stride - 1 + 1 * i_stride) by lia.
  rewrite Z.div_add by lia.
  assert (0 <= (len - (ii + i_stride) + i_stride - 1) / i_stride) as Hq.
  { apply Z.div_pos; lia. }
  lia.
Qed.

Lemma chunks_from_le len i_stride ii :
  0 < i_stride -> 0 <= ii -> (chunks_from len i_stride ii <= Z.to_nat len)%nat.
Proof.
  intros Hs Hii. unfold chunks_from.
  destruct (Z_lt_le_dec ii len) as [Hlt | Hge].
  - apply Z2Nat.inj_le.
    + apply Z.div_pos; lia.
    + lia.
    + apply Z.lt_succ_r. apply Z.div_lt_upper_bound; nia.
  - assert ((len - ii + i_stride - 1) / i_stride <= 0) as Hle.
    { apply Z.lt_succ_r. apply Z.div_lt_upper_bound; lia. }
    lia.
Qed.

Lemma strided_calls_nth n : forall len i0 i_stride ii thread_active,
  strided_calls n len i0 i_stride ii thread_active =
  map (fun k : nat =>
         let i := ii + Z.of_nat k * i_stride + i0 in
         MkCall i i (thread_active && (i <? len)))
      (seq 0 n).
Proof.
  induction n as [| n IH]; intros len i0 i_stride ii thread_active.
  - reflexivity.
  - cbn [strided_calls seq map]. f_equal.
    + cbn zeta. replace (ii + Z.of_nat 0 * i_stride + i0) with (ii + i0) by lia.
      reflexivity.
    + rewrite IH. rewrite <- seq_shift, map_map.
      apply map_ext. intros k. cbn zeta.
      replace (ii + i_stride + Z.of_nat k * i_stride + i0)
        with (ii + Z.of_nat (S k) * i_stride + i0) by lia.
      reflexivity.
Qed.

(** ** The CUDA statement executors *)

Section CudaExecutorFacts.

Variable WARP_SIZE : Z.
Variable EnclosedStmts : Data -> bool -> Data.

Local Abbreviation enclosed_stmts_exec := (enclosed_stmts_exec EnclosedStmts).
Local Abbreviation exec := (exec WARP_SIZE EnclosedStmts).

Lemma enclosed_after_assign s i w flag :
  w_calls (enclosed_stmts_exec s (assign s i w) flag) =
  w_calls w ++ [MkCall i i flag].
Proof.
  unfold enclosed_stmts_exec, assign. cbn.
  rewrite !fn_lookup_insert. reflexivity.
Qed.

Lemma enclosed_data s w flag :
  w_data (enclosed_stmts_exec s w flag) = EnclosedStmts (w_data w) flag.
Proof. reflexivity. Qed.

Lemma exec_direct_calls s i w thread_active :
  w_calls (exec_direct EnclosedStmts s i w thread_active) =
  w_calls w ++
    [MkCall i i
       (thread_active && (i <? to_int (segment_length (ArgumentId s) (w_data w))))].
Proof. unfold exec_direct. apply enclosed_after_assign. Qed.

Lemma exec_lane_direct fuel s hw w thread_active :
  is_lane_direct (ExecPolicy s) = true ->
  exec fuel s hw w thread_active =
  Done (exec_direct EnclosedStmts s (lane_index s hw) w thread_active).
Proof.
  unfold exec, lane_index.
  destruct (ExecPolicy s); cbn; intros H; try discriminate; reflexivity.
Qed.

Lemma exec_lane_loop fuel s hw w thread_active :
  is_lane_loop (ExecPolicy s) = true ->
  exec fuel s hw w thread_active =
  exec_strided EnclosedStmts fuel s (lane_index s hw)
    (lane_stride WARP_SIZE s hw) w thread_active.
Proof.
  unfold exec, lane_index, lane_stride.
  destruct (ExecPolicy s); cbn; intros H; try discriminate; reflexivity.
Qed.

(** A strided loop with enough fuel and no overflow finishes, having
    called the enclosed statements once per chunk. *)
Lemma strided_loop_calls s len i0 i_stride thread_active :
  0 < i_stride -> INT_MIN <= i0 ->
  len + i0 <= INT_MAX -> len + i_stride <= INT_MAX ->
  forall fuel ii w,
    0 <= ii ->
    (chunks_from len i_stride ii <= fuel)%nat ->
    exists w',
      strided_loop EnclosedStmts fuel s len i0 i_stride ii w thread_active
        = Done w' /\
      w_calls w' = w_calls w ++
        strided_calls (chunks_from len i_stride ii) len i0 i_stride ii
          thread_active.
Proof.
  intros Hs Hi0 Hlen0 Hlens.
  induction fuel as [| fuel IH]; intros ii w Hii Hfuel.
  - destruct (Z.ltb_spec ii len) as [Hlt | Hge].
    + rewrite (chunks_from_step len i_stride ii Hs Hlt) in Hfuel. lia.
    + exists w. cbn. destruct (Z.ltb_spec ii len); [lia |].
      rewrite chunks_from_done by lia. cbn. rewrite app_nil_r. auto.
  - cbn [strided_loop]. destruct (Z.ltb_spec ii len) as [Hlt | Hge].
    + rewrite (chunks_from_step len i_stride ii Hs Hlt) in Hfuel |- *.
      rewrite (in_int_true (ii + i0)) by (unfold INT_MIN in *; lia).
      rewrite (in_int_true (ii + i_stride)) by (unfold INT_MIN in *; lia).
      destruct (IH (ii + i_stride)
                  (enclosed_stmts_exec s (assign s (ii + i0) w)
                     (thread_active && (ii + i0 <? len))))
        as (w' & Hrun & Hcalls); [lia | lia |].
      exists w'. split; [exact Hrun |].
      rewrite Hcalls, enclosed_after_assign.
      cbn [strided_calls]. rewrite <- app_assoc. reflexivity.
    + exists w. rewrite chunks_from_done by lia. cbn.
      rewrite app_nil_r. auto.
Qed.

End CudaExecutorFacts.

Lemma grid_calls_nth n : forall i_stride i thread_active,
  grid_calls n i_stride i thread_active =
  map (fun k : nat =>
         let j := i + Z.of_nat k * i_stride in MkCall j j thread_active)
      (seq 0 n).
Proof.
  induction n as [| n IH]; intros i_stride i thread_active.
  - reflexivity.
  - cbn [grid_calls seq map]. f_equal.
    + cbn zeta. replace (i + Z.of_nat 0 * i_stride) with i by lia.
      reflexivity.
    + rewrite IH. rewrite <- seq_shift, map_map.
      apply map_ext. intros k. cbn zeta.
      replace (i + i_stride + Z.of_nat k * i_stride)
        with (i + Z.of_nat (S k) * i_stride) by lia.
      reflexivity.
Qed.

Lemma chunks_from_last len i_stride ii k :
  0 < i_stride -> (k < chunks_from len i_stride ii)%nat ->
  ii + Z.of_nat k * i_stride < len.
Proof.
  intros Hs. revert ii. induction k as [| k IH]; intros ii Hk.
  - destruct (Z_lt_le_dec ii len) as [Hlt | Hge]; [lia |].
    rewrite chunks_from_done in Hk by lia. lia.
  - destruct (Z_lt_le_dec ii len) as [Hlt | Hge].
    + rewrite (chunks_from_step len i_stride ii Hs Hlt) in Hk.
      specialize (IH (ii + i_stride) ltac:(lia)). lia.
    + rewrite chunks_from_done in Hk by lia. lia.
Qed.

Section CudaLoopFacts.

Variable WARP_SIZE : Z.
Variable EnclosedStmts : Data -> bool -> Data.

Local Abbreviation enclosed_stmts_exec := (enclosed_stmts_exec EnclosedStmts).
Local Abbreviation exec := (exec WARP_SIZE EnclosedStmts).

(** A grid-stride loop with enough fuel and no overflow finishes, having
    called the enclosed statements once per in-range index. *)
Lemma grid_stride_loop_calls s len i_stride thread_active :
  0 < i_stride -> len + i_stride <= INT_MAX ->
  forall fuel i w,
    INT_MIN <= i ->
    (chunks_from len i_stride i <= fuel)%nat ->
    exists w',
      grid_stride_loop EnclosedStmts fuel s len i_stride i w thread_active
        = Done w' /\
      w_calls w' = w_calls w ++
        grid_calls (chunks_from len i_stride i) i_stride i thread_active.
Proof.
  intros Hs Hlens.
  induction fuel as [| fuel IH]; intros i w Hi Hfuel.
  - destruct (Z.ltb_spec i len) as [Hlt | Hge].
    + rewrite (chunks_from_step len i_stride i Hs Hlt) in Hfuel. lia.
    + exists w. cbn. destruct (Z.ltb_spec i len); [lia |].
      rewrite chunks_from_done by lia. cbn. rewrite app_nil_r. auto.
  - cbn [grid_stride_loop]. destruct (Z.ltb_spec i len) as [Hlt | Hge].
    + rewrite (chunks_from_step len i_stride i Hs Hlt) in Hfuel |- *.
      rewrite (in_int_true (i + i_stride)) by lia.
      destruct (IH (i + i_stride)
                  (enclosed_stmts_exec s (assign s i w) thread_active))
        as (w' & Hrun & Hcalls); [lia | lia |].
      exists w'. split; [exact Hrun |].
      rewrite Hcalls, enclosed_after_assign.
      cbn [grid_calls]. rewrite <- app_assoc. reflexivity.
    + exists w. rewrite chunks_from_done by lia. cbn.
      rewrite app_nil_r. auto.
Qed.

(** The sequential loop calls the enclosed statements for [i, i+1, ...]
    below [len], each with the caller's flag. *)
Lemma seq_loop_calls s len thread_active :
  forall fuel i w,
    (Z.to_nat (len - i) <= fuel)%nat ->
    exists w',
      seq_loop EnclosedStmts fuel s len i w thread_active = Done w' /\
      w_calls w' = w_calls w ++
        grid_calls (Z.to_nat (len - i)) 1 i thread_active.
Proof.
  induction fuel as [| fuel IH]; intros i w Hfuel.
  - cbn. destruct (Z.ltb_spec i len) as [Hlt | Hge]; [lia |].
    exists w. replace (Z.to_nat (len - i)) with O by lia.
    cbn. rewrite app_nil_r. auto.
  - cbn [seq_loop]. destruct (Z.ltb_spec i len) as [Hlt | Hge].
    + destruct (IH (i + 1)
                  (enclosed_stmts_exec s (assign s i w) thread_active))
        as (w' & Hrun & Hcalls); [lia |].
      exists w'. split; [exact Hrun |].
      rewrite Hcalls, enclosed_after_assign.
      replace (Z.to_nat (len - i)) with (S (Z.to_nat (len - (i + 1)))) by lia.
      cbn [grid_calls]. rewrite <- app_assoc. reflexivity.
    + exists w. replace (Z.to_nat (len - i)) with O by lia.
      cbn. rewrite app_nil_r. auto.
Qed.

(** C2 (amended).  On every lane the thread-direct and warp-direct
    executors (and the masked direct ones, which share their body) call the
    enclosed statements exactly once: with [thread_active] unchanged when
    the lane's index is below the segment length, with [false] otherwise.
    The block-direct executor calls them with [thread_active] unchanged
    when its index is below the segment length, and does not call them at
    all otherwise. *)
Theorem direct_exec_participation fuel s hw w thread_active :
  let i := lane_index s hw in
  let len := to_int (segment_length (ArgumentId s) (w_data w)) in
  (is_lane_direct (ExecPolicy s) = true ->
   exists w',
     exec fuel s hw w thread_active = Done w' /\
     w_calls w' = w_calls w ++
       [MkCall i i (if i <? len then thread_active else false)]) /\
  (forall d, ExecPolicy s = cuda_block_xyz_direct d ->
   exists w',
     exec fuel s hw w thread_active = Done w' /\
     w_calls w' = w_calls w ++
       (if i <? len then [MkCall i i thread_active] else [])).
Proof.
  intros i len. split.
  - intros Hdirect. rewrite exec_lane_direct by exact Hdirect.
    eexists. split; [reflexivity |].
    rewrite exec_direct_calls. fold i len.
    destruct (i <? len); [rewrite andb_true_r | rewrite andb_false_r];
      reflexivity.
  - intros d Hpol. unfold exec, exec. rewrite Hpol.
    eexists. split; [reflexivity |].
    unfold exec_block_direct. subst i len. unfold lane_index.
    rewrite Hpol.
    destruct (to_int (get_cuda_dim d (blockIdx hw)) <?
              to_int (segment_length (ArgumentId s) (w_data w))).
    + apply enclosed_after_assign.
    + rewrite app_nil_r. reflexivity.
Qed.

(** C3 (amended).  On every lane the thread-loop, warp-loop and masked
    loop executors call the enclosed statements once in every strided
    chunk, binding [i = chunk_base + lane index] and passing
    [thread_active && (i < len)]: lanes past the segment length are handed
    [false], not skipped.  The block-loop executor calls them only for its
    in-range indices [i0, i0 + stride, ...], with [thread_active]
    unchanged. *)
Theorem loop_exec_participation fuel s hw w thread_active :
  let i0 := lane_index s hw in
  let i_stride := lane_stride WARP_SIZE s hw in
  let len := to_int (segment_length (ArgumentId s) (w_data w)) in
  0 < i_stride -> len + i_stride <= INT_MAX ->
  (is_lane_loop (ExecPolicy s) = true ->
   len + i0 <= INT_MAX ->
   (chunks_from len i_stride 0 <= fuel)%nat ->
   exists w',
     exec fuel s hw w thread_active = Done w' /\
     w_calls w' = w_calls w ++
       map (fun k : nat =>
              let i := Z.of_nat k * i_stride + i0 in
              MkCall i i (thread_active && (i <? len)))
           (seq 0 (chunks_from len i_stride 0))) /\
  (forall d, ExecPolicy s = cuda_block_xyz_loop d ->
   (chunks_from len i_stride i0 <= fuel)%nat ->
   exists w',
     exec fuel s hw w thread_active = Done w' /\
     w_calls w' = w_calls w ++
       map (fun k : nat =>
              let i := i0 + Z.of_nat k * i_stride in
              MkCall i i thread_active)
           (seq 0 (chunks_from len i_stride i0)) /\
     (len <= i0 -> w_calls w' = w_calls w)).
Proof.
  intros i0 i_stride len Hs Hlens. split.
  - intros Hloop Hlen0 Hfuel.
    rewrite exec_lane_loop by exact Hloop.
    unfold exec_strided. fold i0 i_stride len.
    destruct (strided_loop_calls EnclosedStmts s len i0 i_stride
                thread_active Hs) with (fuel := fuel) (ii := 0) (w := w)
      as (w' & Hrun & Hcalls); try assumption; try lia.
    { subst i0. unfold lane_index.
      destruct (ExecPolicy s); try discriminate; apply to_int_range. }
    exists w'. split; [exact Hrun |].
    rewrite Hcalls, strided_calls_nth. f_equal.
  - intros d Hpol Hfuel.
    assert (exec fuel s hw w thread_active =
            grid_stride_loop EnclosedStmts fuel s len i_stride i0 w
              thread_active) as Hexec.
    { unfold exec, exec, exec_block_loop.
      subst i0 i_stride len. unfold lane_index, lane_stride.
      rewrite Hpol. reflexivity. }
    rewrite Hexec.
    destruct (grid_stride_loop_calls s len i_stride thread_active Hs Hlens
                fuel i0 w) as (w' & Hrun & Hcalls); try assumption.
    { subst i0. unfold lane_index. rewrite Hpol. apply to_int_range. }
    exists w'. split; [exact Hrun |]. split.
    + rewrite Hcalls, grid_calls_nth. reflexivity.
    + intros Hge. rewrite Hcalls, chunks_from_done by lia.
      cbn. apply app_nil_r.
Qed.

End CudaLoopFacts.

(** *** Counting the active executions of an index *)

Lemma times_active_app i l1 l2 :
  times_active i (l1 ++ l2) = (times_active i l1 + times_active i l2)%nat.
Proof. unfold times_active. rewrite List.filter_app, length_app. reflexivity. Qed.

Lemma times_active_cons i c l :
  times_active i (c :: l) =
  Nat.add (if call_active c && (call_offset c =? i) then 1%nat else 0%nat)
          (times_active i l).
Proof.
  unfold times_active. cbn [List.filter].
  destruct (call_active c && (call_offset c =? i)); reflexivity.
Qed.

Lemma same_residue_next D cur i :
  0 < D -> cur <= i -> i mod D = cur mod D -> i <> cur -> cur + D <= i.
Proof.
  intros HD Hle Hmod Hne.
  assert ((i - cur) mod D = 0) as H0.
  { rewrite Zminus_mod, Hmod, Z.sub_diag. apply Z.mod_0_l. lia. }
  apply Z.div_exact in H0; [| lia].
  assert (0 < (i - cur) / D) by nia. nia.
Qed.

Lemma residue_shift D cur : 0 < D -> (cur + D) mod D = cur mod D.
Proof.
  intros HD. replace (cur + D) with (cur + 1 * D) by lia.
  apply Z.mod_add. lia.
Qed.

(** An index appears once in an arithmetic progression exactly when it has
    the progression's residue and is not below its start. *)
Lemma times_active_grid len D i :
  0 < D -> i < len ->
  forall n cur,
    n = chunks_from len D cur ->
    times_active i (grid_calls n D cur true) =
    if (i mod D =? cur mod D) && (cur <=? i) then 1%nat else 0%nat.
Proof.
  intros HD Hi. induction n as [| n IH]; intros cur Hn.
  - assert (len <= cur) as Hge.
    { destruct (Z_lt_le_dec cur len) as [Hlt | Hge]; [| exact Hge].
      rewrite (chunks_from_step len D cur HD Hlt) in Hn. discriminate. }
    destruct (Z.leb_spec cur i); [lia |].
    rewrite andb_false_r. reflexivity.
  - assert (cur < len) as Hlt.
    { destruct (Z_lt_le_dec cur len) as [Hlt | Hge]; [exact Hlt |].
      rewrite chunks_from_done in Hn by lia. discriminate. }
    rewrite (chunks_from_step len D cur HD Hlt) in Hn.
    injection Hn as Hn.
    cbn [grid_calls]. rewrite times_active_cons. cbn [call_active call_offset].
    rewrite (IH (cur + D) Hn), residue_shift by exact HD.
    destruct (Z.eqb_spec cur i) as [Heq | Hne].
    + subst cur. rewrite Z.eqb_refl, Z.leb_refl.
      destruct (Z.leb_spec (i + D) i); [lia |].
      rewrite andb_false_r. reflexivity.
    + cbn [andb]. 
      destruct (Z.eqb_spec (i mod D) (cur mod D)) as [Hmod | Hmod];
        [| reflexivity].
      cbn [andb].
      destruct (Z.leb_spec (cur + D) i), (Z.leb_spec cur i);
        try reflexivity; try lia.
      pose proof (same_residue_next D cur i HD). lia.
Qed.

Lemma times_active_strided len D i0 i :
  0 < D -> 0 <= i0 -> i < len ->
  forall n ii,
    n = chunks_from len D ii ->
    times_active i (strided_calls n len i0 D ii true) =
    if (i mod D =? (ii + i0) mod D) && (ii + i0 <=? i) then 1%nat else 0%nat.
Proof.
  intros HD Hi0 Hi. induction n as [| n IH]; intros ii Hn.
  - assert (len <= ii) as Hge.
    { destruct (Z_lt_le_dec ii len) as [Hlt | Hge]; [| exact Hge].
      rewrite (chunks_from_step len D ii HD Hlt) in Hn. discriminate. }
    destruct (Z.leb_spec (ii + i0) i); [lia |].
    rewrite andb_false_r. reflexivity.
  - assert (ii < len) as Hlt.
    { destruct (Z_lt_le_dec ii len) as [Hlt | Hge]; [exact Hlt |].
      rewrite chunks_from_done in Hn by lia. discriminate. }
    rewrite (chunks_from_step len D ii HD Hlt) in Hn.
    injection Hn as Hn.
    cbn [strided_calls]. rewrite times_active_cons.
    cbn [call_active call_offset andb].
    rewrite (IH (ii + D) Hn).
    replace (ii + D + i0) with (ii + i0 + D) by lia.
    rewrite residue_shift by exact HD.
    destruct (Z.eqb_spec (ii + i0) i) as [Heq | Hne].
    + rewrite Heq. rewrite Z.eqb_refl, Z.leb_refl.
      destruct (Z.ltb_spec i len); [| lia].
      destruct (Z.leb_spec (i + D) i); [lia |].
      rewrite andb_false_r. reflexivity.
    + rewrite andb_false_r.
      destruct (Z.eqb_spec (i mod D) ((ii + i0) mod D)) as [Hmod | Hmod];
        [| reflexivity].
      cbn [andb].
      destruct (Z.leb_spec (ii + i0 + D) i), (Z.leb_spec (ii + i0) i);
        try reflexivity; try lia.
      pose proof (same_residue_next D (ii + i0) i HD). lia.
Qed.

Lemma count_occ_seqZ D t :
  0 <= t < D -> count_occ Z.eq_dec (seqZ 0 D) t = 1%nat.
Proof.
  intros Ht. apply NoDup_count_occ'.
  - apply NoDup_ListNoDup, NoDup_seqZ.
  - apply list_elem_of_In, elem_of_seqZ. lia.
Qed.

Lemma chunks_from_unit N : chunks_from N 1 0 = Z.to_nat N.
Proof.
  unfold chunks_from. rewrite Z.div_1_r. f_equal. lia.
Qed.

Section CudaLaunchFacts.

Variable WARP_SIZE : Z.
Variable EnclosedStmts : Data -> bool -> Data.

Local Abbreviation exec := (exec WARP_SIZE EnclosedStmts).
Local Abbreviation lane_calls := (lane_calls WARP_SIZE EnclosedStmts).
Local Abbreviation launch_calls := (launch_calls WARP_SIZE EnclosedStmts).

(** In a well-sized launch, a lane executes index [i] as active once if
    it is the owner of [i], and never otherwise. *)
Lemma lane_calls_owner fuel s hw data D :
  let N := segment_length (ArgumentId s) data in
  0 <= N ->
  0 <= lane_index s hw < D ->
  well_sized WARP_SIZE s [hw] N D ->
  (Z.to_nat N <= fuel)%nat ->
  exists calls,
    lane_calls fuel s hw data = Done calls /\
    forall i, 0 <= i < N ->
      times_active i calls =
      if Z.eq_dec (lane_index s hw) (owner s D i) then 1%nat else 0%nat.
Proof.
  intros N HN Hidx Hsized Hfuel.
  unfold well_sized in Hsized. unfold owner, lane_calls, lane_calls.
  destruct (mapping_of (ExecPolicy s)) eqn:Hmap.
  - (* direct mappings *)
    destruct Hsized as [HND HNmax].
    assert (to_int N = N) as HlenN by (apply to_int_id; unfold INT_MIN; lia).
    destruct (is_lane_direct (ExecPolicy s)) eqn:Hdirect.
    + rewrite exec_lane_direct by exact Hdirect.
      eexists. split; [reflexivity |].
      intros i Hi. rewrite exec_direct_calls. cbn [w_calls w_data app].
      fold N. rewrite HlenN. rewrite times_active_cons.
      cbn [call_active call_offset andb times_active List.filter length].
      destruct (Z.eq_dec (lane_index s hw) i) as [Heq | Hne].
      * rewrite Heq, Z.eqb_refl.
        destruct (Z.ltb_spec i N); [reflexivity | lia].
      * destruct (Z.eqb_spec (lane_index s hw) i); [contradiction |].
        rewrite andb_false_r. reflexivity.
    + destruct (ExecPolicy s) eqn:Hpol; try discriminate.
      unfold exec, exec. rewrite Hpol.
      eexists. split; [reflexivity |].
      intros i Hi. unfold exec_block_direct. cbn [w_data].
      fold N. rewrite HlenN.
      assert (to_int (get_cuda_dim BlockDim (blockIdx hw)) = lane_index s hw)
        as Hli by (unfold lane_index; rewrite Hpol; reflexivity).
      rewrite Hli.
      destruct (Z.ltb_spec (lane_index s hw) N) as [Hlt | Hge].
      * rewrite enclosed_after_assign. cbn [w_calls app].
        rewrite times_active_cons.
        cbn [call_active call_offset andb times_active List.filter length].
        destruct (Z.eq_dec (lane_index s hw) i) as [Heq | Hne].
        -- rewrite Heq, Z.eqb_refl. reflexivity.
        -- destruct (Z.eqb_spec (lane_index s hw) i); [contradiction |].
           reflexivity.
      * cbn. destruct (Z.eq_dec (lane_index s hw) i); [lia | reflexivity].
  - (* loop mappings *)
    destruct Hsized as (HD & HNmax & Hstride).
    apply Forall_inv in Hstride.
    assert (to_int N = N) as HlenN by (apply to_int_id; unfold INT_MIN; lia).
    assert (chunks_from N D 0 <= fuel)%nat as Hfuel'.
    { pose proof (chunks_from_le N D 0 HD ltac:(lia)). lia. }
    assert (forall i, 0 <= i < N ->
              (if (i mod D =? lane_index s hw mod D) && (lane_index s hw <=? i)
               then 1%nat else 0%nat) =
              if Z.eq_dec (lane_index s hw) (i mod D) then 1%nat else 0%nat)
      as Hcount.
    { intros i Hi. rewrite (Z.mod_small (lane_index s hw) D) by lia.
      pose proof (Z.mod_le i D ltac:(lia) HD).
      destruct (Z.eq_dec (lane_index s hw) (i mod D)) as [Heq | Hne].
      - rewrite <- Heq, Z.eqb_refl.
        destruct (Z.leb_spec (lane_index s hw) i); [reflexivity | lia].
      - destruct (Z.eqb_spec (i mod D) (lane_index s hw)); [congruence |].
        reflexivity. }
    destruct (is_lane_loop (ExecPolicy s)) eqn:Hloop.
    + rewrite exec_lane_loop by exact Hloop.
      unfold exec_strided. cbn [w_data]. fold N. rewrite HlenN, Hstride.
      destruct (strided_loop_calls EnclosedStmts s N (lane_index s hw) D true
                  HD) with (fuel := fuel) (ii := 0)
                  (w := {| w_data := data; w_calls := [] |})
        as (w' & Hrun & Hcalls); try (unfold INT_MIN; lia).
      rewrite Hrun. eexists. split; [reflexivity |].
      intros i Hi. rewrite Hcalls. cbn [w_calls app].
      rewrite (times_active_strided N D (lane_index s hw) i HD) by lia.
      cbn [Z.add]. apply Hcount. exact Hi.
    + destruct (ExecPolicy s) eqn:Hpol; try discriminate.
      unfold exec, exec. rewrite Hpol.
      unfold exec_block_loop. cbn [w_data]. fold N. rewrite HlenN.
      assert (to_int (get_cuda_dim BlockDim (blockIdx hw)) = lane_index s hw)
        as Hli by (unfold lane_index; rewrite Hpol; reflexivity).
      assert (to_int (get_cuda_dim BlockDim (gridDim hw)) = D) as Hst.
      { rewrite <- Hstride. unfold lane_stride. rewrite Hpol. reflexivity. }
      rewrite Hli, Hst.
      assert (chunks_from N D (lane_index s hw) <= fuel)%nat as Hfuel''.
      { pose proof (chunks_from_le N D (lane_index s hw) HD ltac:(lia)). lia. }
      destruct (grid_stride_loop_calls EnclosedStmts s N D true HD
                  HNmax fuel (lane_index s hw)
                  {| w_data := data; w_calls := [] |})
        as (w' & Hrun & Hcalls); try (unfold INT_MIN; lia).
      rewrite Hrun. eexists. split; [reflexivity |].
      intros i Hi. rewrite Hcalls. cbn [w_calls app].
      rewrite (times_active_grid N D i HD) by lia.
      apply Hcount. exact Hi.
  - (* the sequential loop *)
    subst D.
    destruct (ExecPolicy s) eqn:Hpol; try discriminate.
    unfold exec, exec. rewrite Hpol.
    unfold exec_seq. cbn [w_data]. fold N.
    destruct (seq_loop_calls EnclosedStmts s N true fuel 0
                {| w_data := data; w_calls := [] |})
      as (w' & Hrun & Hcalls); [lia |].
    rewrite Hrun. eexists. split; [reflexivity |].
    intros i Hi. rewrite Hcalls. cbn [w_calls app].
    rewrite (times_active_grid N 1 i) by (rewrite ?chunks_from_unit; f_equal; lia).
    rewrite !Z.mod_1_r. cbn [Z.eqb andb].
    destruct (Z.leb_spec 0 i); [| lia].
    unfold lane_index. rewrite Hpol. reflexivity.
Qed.

Lemma launch_calls_count fuel s lanes data (f : Z -> Z) N :
  (forall hw, In hw lanes ->
     exists calls,
       lane_calls fuel s hw data = Done calls /\
       forall i, 0 <= i < N ->
         times_active i calls =
         if Z.eq_dec (lane_index s hw) (f i) then 1%nat else 0%nat) ->
  exists calls,
    launch_calls fuel s lanes data = Done calls /\
    forall i, 0 <= i < N ->
      times_active i calls =
      count_occ Z.eq_dec (map (lane_index s) lanes) (f i).
Proof.
  induction lanes as [| hw rest IH]; intros Hlanes.
  - exists []. split; [reflexivity |]. intros i Hi. reflexivity.
  - destruct (Hlanes hw (or_introl eq_refl)) as (c & Hc & Hcount).
    destruct IH as (cs & Hcs & Hcounts).
    { intros hw' Hin. apply Hlanes. right. exact Hin. }
    exists (c ++ cs). split.
    + cbn. rewrite Hc, Hcs. reflexivity.
    + intros i Hi. rewrite times_active_app, Hcount, Hcounts by exact Hi.
      cbn [map count_occ].
      destruct (Z.eq_dec (lane_index s hw) (f i)); reflexivity.
Qed.

End CudaLaunchFacts.

Lemma bind_singleton {A B : Type} (f : A -> B) (l : list A) :
  (x ← l; [f x]) = map f l.
Proof.
  induction l as [| a l IH]; [reflexivity |].
  cbn. cbn in IH. rewrite IH. reflexivity.
Qed.

Lemma map_to_int_seqZ D :
  D <= INT_MAX + 1 -> map to_int (seqZ 0 D) = seqZ 0 D.
Proof.
  intros HD. rewrite <- (map_id (seqZ 0 D)) at 2.
  apply map_ext_in. intros x Hx.
  apply list_elem_of_In, elem_of_seqZ in Hx.
  apply to_int_id. unfold INT_MIN. lia.
Qed.

(** In a one-dimensional launch (one block of [D] threads along x) the
    thread and warp policies along x see the lane indices [0 .. D-1], each
    once: there, coverage along the dimension is coverage across the whole
    launch. *)
Lemma one_dimensional_launch_covers a p pol D :
  pol = cuda_thread_xyz_direct DimX \/ pol = cuda_warp_direct \/
  pol = cuda_warp_loop \/ (exists m, pol = cuda_thread_xyz_loop DimX m) ->
  D <= INT_MAX + 1 ->
  covers (MkForICount a p pol) (launch_lanes (Dim3 1 1 1) (Dim3 D 1 1)) D.
Proof.
  intros Hpol HD. unfold covers.
  assert (launch_lanes (Dim3 1 1 1) (Dim3 D 1 1) =
          map (fun x => MkLane (Dim3 x 0 0) (Dim3 0 0 0) (Dim3 D 1 1) (Dim3 1 1 1))
            (seqZ 0 D)) as ->.
  { unfold launch_lanes, dim3_range. cbn [dim_x dim_y dim_z].
    change (seqZ 0 1) with [0]. cbn [mbind list_bind app].
    rewrite app_nil_r.
    rewrite <- (bind_singleton (fun x => MkLane (Dim3 x 0 0) (Dim3 0 0 0) (Dim3 D 1 1) (Dim3 1 1 1))).
    induction (seqZ 0 D) as [| x l IH]; [reflexivity |].
    cbn. cbn in IH. rewrite IH. reflexivity. }
  rewrite map_map.
  assert (forall x,
            lane_index (MkForICount a p pol)
              (MkLane (Dim3 x 0 0) (Dim3 0 0 0) (Dim3 D 1 1) (Dim3 1 1 1))
            = to_int x) as Hidx.
  { intros x. unfold lane_index. cbn [ExecPolicy].
    destruct Hpol as [-> | [-> | [-> | [m ->]]]]; reflexivity. }
  rewrite (map_ext _ _ Hidx), map_to_int_seqZ by exact HD.
  reflexivity.
Qed.

Section CudaClaims.

Variable WARP_SIZE : Z.
Variable EnclosedStmts : Data -> bool -> Data.

Local Abbreviation exec := (exec WARP_SIZE EnclosedStmts).
Local Abbreviation launch_calls := (launch_calls WARP_SIZE EnclosedStmts).
Local Abbreviation CudaStatementExecutor :=
  (CudaStatementExecutor WARP_SIZE EnclosedStmts).

(** C1 (amended).  Index coverage holds along the dimension a policy maps:
    take lanes whose indices under the policy (thread or block index along
    the policy's dimension, or mask value) are, each exactly once,
    [0 .. D-1].  If the launch is sized for the segment (a direct policy
    has [N <= D] lanes, a loop policy strides by [D], the sequential
    policy is run by a single lane), the launch terminates and every index
    in [0, N) is bound and executed as active in exactly one
    (lane, iteration) pair. *)
Theorem index_coverage_along_dimension fuel s lanes data D :
  let N := segment_length (ArgumentId s) data in
  0 <= N ->
  covers s lanes D ->
  well_sized WARP_SIZE s lanes N D ->
  (Z.to_nat N <= fuel)%nat ->
  exists calls,
    launch_calls fuel s lanes data = Done calls /\
    forall i, 0 <= i < N -> times_active i calls = 1%nat.
Proof.
  intros N HN Hcov Hsized Hfuel.
  destruct (launch_calls_count WARP_SIZE EnclosedStmts fuel s lanes data
              (owner s D) N) as (calls & Hrun & Hcount).
  { intros hw Hin.
    apply lane_calls_owner; try assumption.
    - assert (In (lane_index s hw) (seqZ 0 D)) as Hrange.
      { apply (Permutation_in _ Hcov). apply in_map. exact Hin. }
      apply list_elem_of_In, elem_of_seqZ in Hrange. lia.
    - unfold well_sized in *.
      destruct (mapping_of (ExecPolicy s)); try assumption.
      destruct Hsized as (HD & HND & Hall).
      repeat split; try assumption.
      constructor; [| constructor].
      rewrite List.Forall_forall in Hall. apply Hall. exact Hin. }
  exists calls. split; [exact Hrun |].
  intros i Hi. rewrite (Hcount i Hi).
  rewrite (proj1 (Permutation_count_occ Z.eq_dec _ _) Hcov).
  apply count_occ_seqZ.
  unfold owner, well_sized in *.
  destruct (mapping_of (ExecPolicy s)).
  - lia.
  - apply Z.mod_pos_bound. lia.
  - lia.
Qed.

(** C9 (amended).  The thread-direct, warp-direct and masked direct
    executors bind offset and parameter to the lane's index [i] before and
    regardless of the bounds check: the closure handed to the enclosed
    statements holds [i] in both bindings also when [i >= len], and only
    the flag is cleared.  The block-direct executor binds inside its
    bounds check: for [i >= len] it leaves the closure untouched. *)
Theorem direct_exec_binds_unconditionally fuel s hw w thread_active :
  let i := lane_index s hw in
  let len := to_int (segment_length (ArgumentId s) (w_data w)) in
  let bound :=
    assign_param (ParamId s) i (assign_offset (ArgumentId s) i (w_data w)) in
  offset_tuple bound (ArgumentId s) = i /\
  param_tuple bound (ParamId s) = i /\
  (is_lane_direct (ExecPolicy s) = true ->
   exec fuel s hw w thread_active =
   Done {| w_data := EnclosedStmts bound (thread_active && (i <? len));
           w_calls := w_calls w ++
             [MkCall i i (thread_active && (i <? len))] |}) /\
  (forall d, ExecPolicy s = cuda_block_xyz_direct d ->
   exec fuel s hw w thread_active =
   if i <? len
   then Done {| w_data := EnclosedStmts bound thread_active;
                w_calls := w_calls w ++ [MkCall i i thread_active] |}
   else Done w).
Proof.
  intros i len bound. subst bound. cbn.
  rewrite !fn_lookup_insert. repeat split.
  - intros Hdirect. rewrite exec_lane_direct by exact Hdirect.
    fold i. unfold exec_direct, enclosed_stmts_exec, assign. cbn.
    rewrite !fn_lookup_insert. reflexivity.
  - intros d Hpol. unfold exec, exec. rewrite Hpol.
    unfold exec_block_direct. subst i len. unfold lane_index. rewrite Hpol.
    destruct (to_int (get_cuda_dim d (blockIdx hw)) <?
              to_int (segment_length (ArgumentId s) (w_data w)));
      [| reflexivity].
    unfold enclosed_stmts_exec, assign. cbn.
    rewrite !fn_lookup_insert. reflexivity.
Qed.

(** C7 (amended).  The warp-masked executors (direct and loop) carry the
    static assertion: they fail to build, with the assertion's message,
    exactly when the mask's [max_masked_size] exceeds the warp size.  The
    thread-masked executors carry no such assertion and build for every
    mask. *)
Theorem warp_masked_static_assert a p mask :
  let too_large := "BitMask is too large for CUDA warp size"%string in
  (WARP_SIZE < max_masked_size mask ->
   CudaStatementExecutor (MkForICount a p (cuda_warp_masked_direct mask))
     = inl too_large /\
   CudaStatementExecutor (MkForICount a p (cuda_warp_masked_loop mask))
     = inl too_large) /\
  (max_masked_size mask <= WARP_SIZE ->
   CudaStatementExecutor (MkForICount a p (cuda_warp_masked_direct mask))
     = inr (fun fuel => exec fuel (MkForICount a p (cuda_warp_masked_direct mask))) /\
   CudaStatementExecutor (MkForICount a p (cuda_warp_masked_loop mask))
     = inr (fun fuel => exec fuel (MkForICount a p (cuda_warp_masked_loop mask)))) /\
  CudaStatementExecutor (MkForICount a p (cuda_thread_masked_direct mask))
    = inr (fun fuel => exec fuel (MkForICount a p (cuda_thread_masked_direct mask))) /\
  CudaStatementExecutor (MkForICount a p (cuda_thread_masked_loop mask))
    = inr (fun fuel => exec fuel (MkForICount a p (cuda_thread_masked_loop mask))).
Proof.
  intros too_large.
  unfold CudaStatementExecutor, CudaStatementExecutor. cbn.
  repeat split.
  - destruct (Z.leb_spec (max_masked_size mask) WARP_SIZE); [lia | reflexivity].
  - destruct (Z.leb_spec (max_masked_size mask) WARP_SIZE); [lia | reflexivity].
  - destruct (Z.leb_spec (max_masked_size mask) WARP_SIZE); [reflexivity | lia].
  - destruct (Z.leb_spec (max_masked_size mask) WARP_SIZE); [reflexivity | lia].
Qed.

End CudaClaims.

(** C1, counterexample.  Counted over all lanes of a launch, an index is
    executed as active more than once: a sequential loop of length 1 inside
    a launch of two threads runs index 0 on both threads, and so does a
    thread-direct loop along x in a block that is two threads wide along
    y. *)
Lemma index_coverage_fails_across_lanes :
  (exists calls,
     launch_calls 32 no_stmts 1 (MkForICount 0 0 seq_exec)
       (launch_lanes (Dim3 1 1 1) (Dim3 2 1 1)) (data_of_length 1)
       = Done calls /\
     times_active 0 calls = 2%nat) /\
  (exists calls,
     launch_calls 32 no_stmts 1
       (MkForICount 0 0 (cuda_thread_xyz_direct DimX))
       (launch_lanes (Dim3 1 1 1) (Dim3 1 2 1)) (data_of_length 1)
       = Done calls /\
     times_active 0 calls = 2%nat).
Proof.
  split; eexists; split; vm_compute; reflexivity.
Qed.

Lemma index_coverage_along_dimension_witness :
  let s := MkForICount 0 0 (cuda_thread_xyz_loop DimX 4) in
  let lanes := launch_lanes (Dim3 1 1 1) (Dim3 4 1 1) in
  let data := data_of_length 10 in
  (0 <= segment_length (ArgumentId s) data /\
   covers s lanes 4 /\
   well_sized 32 s lanes (segment_length (ArgumentId s) data) 4 /\
   (Z.to_nat (segment_length (ArgumentId s) data) <= 10)%nat) /\
  exists calls,
    launch_calls 32 no_stmts 10 s lanes data = Done calls /\
    forall i, 0 <= i < 10 -> times_active i calls = 1%nat.
Proof.
  intros s lanes data.
  assert (0 <= segment_length (ArgumentId s) data) as H1 by (vm_compute; discriminate).
  assert (covers s lanes 4) as H2 by (vm_compute; reflexivity).
  assert (well_sized 32 s lanes (segment_length (ArgumentId s) data) 4) as H3.
  { unfold well_sized. cbn [mapping_of ExecPolicy s].
    split; [lia |]. split; [vm_compute; discriminate |].
    repeat (apply List.Forall_cons; [vm_compute; reflexivity |]).
    apply List.Forall_nil. }
  assert (Z.to_nat (segment_length (ArgumentId s) data) <= 10)%nat as H4
    by (vm_compute; lia).
  split; [exact (conj H1 (conj H2 (conj H3 H4))) |].
  exact (index_coverage_along_dimension 32 no_stmts 10 s lanes data 4
           H1 H2 H3 H4).
Defined.

(** The same on a masked loop: a 2-bit mask over bits 1 and 2 of the
    thread index; the four lanes 0, 2, 4, 6 carry the mask values 0 to 3
    and stride by 4 over a segment of length 10. *)
Example masked_loop_coverage :
  let s := MkForICount 0 0 (cuda_warp_masked_loop (BitMask 2 1)) in
  let lanes :=
    map (fun x => lane_at (x, 0, 0) (0, 0, 0) (32, 1, 1) (1, 1, 1))
      [0; 2; 4; 6] in
  map (lane_index s) lanes = [0; 1; 2; 3] /\
  exists calls,
    launch_calls 32 no_stmts 3 s lanes (data_of_length 10) = Done calls /\
    map (fun i => times_active i calls) (seqZ 0 10) = repeat 1%nat 10.
Proof.
  split; [vm_compute; reflexivity |].
  eexists. split; vm_compute; reflexivity.
Qed.

(** C2, counterexample.  A block-direct executor whose block index (5) is
    not below the segment length (3) returns without executing the
    enclosed statements. *)
Lemma block_direct_skips_enclosed :
  let w := {| w_data := data_of_length 3; w_calls := [] |} in
  exec 32 no_stmts 0 (MkForICount 0 0 (cuda_block_xyz_direct DimX))
    (lane_at (0, 0, 0) (5, 0, 0) (1, 1, 1) (8, 1, 1)) w true = Done w /\
  w_calls w = [].
Proof. split; vm_compute; reflexivity. Qed.

Lemma direct_exec_participation_witness :
  let s := MkForICount 0 0 (cuda_thread_xyz_direct DimX) in
  let hw := lane_at (5, 0, 0) (0, 0, 0) (8, 1, 1) (1, 1, 1) in
  let w := {| w_data := data_of_length 3; w_calls := [] |} in
  is_lane_direct (ExecPolicy s) = true /\
  exists w',
    exec 32 no_stmts 0 s hw w true = Done w' /\
    w_calls w' = [MkCall 5 5 false].
Proof.
  intros s hw w. split; [reflexivity |].
  exact (proj1 (direct_exec_participation 32 no_stmts 0 s hw w true) eq_refl).
Defined.

(** C3, counterexample.  With a grid of two blocks and a segment of length
    1, the block-loop executor of block 1 (index 1, not below the length)
    runs no iteration: the enclosed statements are skipped, not called
    with a cleared flag. *)
Lemma block_loop_skips_enclosed :
  let w := {| w_data := data_of_length 1; w_calls := [] |} in
  exec 32 no_stmts 4 (MkForICount 0 0 (cuda_block_xyz_loop DimX))
    (lane_at (0, 0, 0) (1, 0, 0) (1, 1, 1) (2, 1, 1)) w true = Done w /\
  w_calls w = [].
Proof. split; vm_compute; reflexivity. Qed.

Lemma loop_exec_participation_witness :
  let s := MkForICount 0 0 (cuda_thread_xyz_loop DimX 4) in
  let hw := lane_at (3, 0, 0) (0, 0, 0) (4, 1, 1) (1, 1, 1) in
  let w := {| w_data := data_of_length 6; w_calls := [] |} in
  (0 < lane_stride 32 s hw /\
   to_int (segment_length (ArgumentId s) (w_data w)) + lane_stride 32 s hw
     <= INT_MAX /\
   is_lane_loop (ExecPolicy s) = true /\
   to_int (segment_length (ArgumentId s) (w_data w)) + lane_index s hw
     <= INT_MAX /\
   (chunks_from (to_int (segment_length (ArgumentId s) (w_data w)))
      (lane_stride 32 s hw) 0 <= 2)%nat) /\
  exists w',
    exec 32 no_stmts 2 s hw w true = Done w' /\
    w_calls w' = [MkCall 3 3 true; MkCall 7 7 false].
Proof.
  intros s hw w.
  assert (0 < lane_stride 32 s hw) as H1 by (vm_compute; reflexivity).
  assert (to_int (segment_length (ArgumentId s) (w_data w))
          + lane_stride 32 s hw <= INT_MAX) as H2 by (vm_compute; discriminate).
  assert (to_int (segment_length (ArgumentId s) (w_data w))
          + lane_index s hw <= INT_MAX) as H3 by (vm_compute; discriminate).
  assert (chunks_from (to_int (segment_length (ArgumentId s) (w_data w)))
            (lane_stride 32 s hw) 0 <= 2)%nat as H4 by (vm_compute; lia).
  split; [repeat split; assumption |].
  exact (proj1 (loop_exec_participation 32 no_stmts 2 s hw w true H1 H2)
           eq_refl H3 H4).
Defined.

(** C7, counterexample.  A thread-masked executor over a 6-bit mask, whose
    [max_masked_size] of 64 exceeds the warp size 32, builds and runs: on
    thread 40 it executes index 40. *)
Lemma thread_masked_oversized_builds :
  32 < max_masked_size (BitMask 6 0) /\
  exists run,
    CudaStatementExecutor 32 no_stmts
      (MkForICount 0 0 (cuda_thread_masked_direct (BitMask 6 0))) = inr run /\
    exists w',
      run 0%nat (lane_at (40, 0, 0) (0, 0, 0) (64, 1, 1) (1, 1, 1))
        {| w_data := data_of_length 64; w_calls := [] |} true = Done w' /\
      w_calls w' = [MkCall 40 40 true].
Proof.
  split; [vm_compute; reflexivity |].
  eexists. split; [reflexivity |].
  eexists. split; vm_compute; reflexivity.
Qed.

Lemma warp_masked_static_assert_witness :
  32 < max_masked_size (BitMask 6 0) /\
  CudaStatementExecutor 32 no_stmts
    (MkForICount 0 0 (cuda_warp_masked_direct (BitMask 6 0)))
    = inl "BitMask is too large for CUDA warp size"%string /\
  CudaStatementExecutor 32 no_stmts
    (MkForICount 0 0 (cuda_warp_masked_loop (BitMask 6 0)))
    = inl "BitMask is too large for CUDA warp size"%string.
Proof.
  assert (32 < max_masked_size (BitMask 6 0)) as H by (vm_compute; reflexivity).
  split; [exact H |].
  exact (proj1 (warp_masked_static_assert 32 no_stmts 0 0 (BitMask 6 0)) H).
Defined.

(** C9, counterexample.  The block-direct executor of block 5 on a segment
    of length 3 leaves the offset binding at its old value 0: the
    out-of-range index 5 is not assigned. *)
Lemma block_direct_leaves_bindings :
  exists w',
    exec 32 no_stmts 0 (MkForICount 0 0 (cuda_block_xyz_direct DimX))
      (lane_at (0, 0, 0) (5, 0, 0) (1, 1, 1) (8, 1, 1))
      {| w_data := data_of_length 3; w_calls := [] |} true = Done w' /\
    offset_tuple (w_data w') 0%nat = 0 /\
    param_tuple (w_data w') 0%nat = 0.
Proof. eexists. split; [reflexivity |]. split; vm_compute; reflexivity. Qed.

Lemma direct_exec_binds_unconditionally_witness :
  let s := MkForICount 0 0 (cuda_warp_masked_direct (BitMask 3 0)) in
  let hw := lane_at (13, 0, 0) (0, 0, 0) (32, 1, 1) (1, 1, 1) in
  let w := {| w_data := data_of_length 4; w_calls := [] |} in
  is_lane_direct (ExecPolicy s) = true /\
  exec 32 no_stmts 0 s hw w true =
  Done {| w_data :=
            assign_param 0 5 (assign_offset 0 5 (data_of_length 4));
          w_calls := [MkCall 5 5 false] |}.
Proof.
  intros s hw w. split; [reflexivity |].
  exact (proj1 (proj2 (proj2
           (direct_exec_binds_unconditionally 32 no_stmts 0 s hw w true)))
           eq_refl).
Defined.

(** ** The SYCL launch helpers *)

Lemma filter_keep_all {A : Type} (f : A -> bool) (l : list A) :
  (forall x, In x l -> f x = true) -> List.filter f l = l.
Proof.
  induction l as [| x l IH]; intros Hall; [reflexivity |].
  cbn. rewrite (Hall x (or_introl eq_refl)). f_equal.
  apply IH. intros y Hy. apply Hall. right. exact Hy.
Qed.

Lemma filter_drop_all {A : Type} (f : A -> bool) (l : list A) :
  (forall x, In x l -> f x = false) -> List.filter f l = [].
Proof.
  induction l as [| x l IH]; intros Hall; [reflexivity |].
  cbn. rewrite (Hall x (or_introl eq_refl)).
  apply IH. intros y Hy. apply Hall. right. exact Hy.
Qed.

Section SyclFacts.

Variable SyclData : Type.
Variable LaunchDims : Type.

Local Abbreviation Queue := (Queue SyclData LaunchDims).
Local Abbreviation Kernel := (Kernel SyclData LaunchDims).

(** What each queue operation does to each component of the state. *)

Lemma malloc_device_effect (q q1 : Queue) p :
  malloc_device SyclData LaunchDims q = (p, q1) ->
  p = fresh (dom (q_heap _ _ q)) /\
  q_heap _ _ q1 = <[p := None]> (q_heap _ _ q) /\
  q_in_flight _ _ q1 = q_in_flight _ _ q /\
  q_events _ _ q1 = q_events _ _ q /\
  q_log _ _ q1 = q_log _ _ q ++ [OpMallocDevice _ _ p] /\
  q_faults _ _ q1 = q_faults _ _ q.
Proof.
  unfold malloc_device, log_op. intros H. injection H as <- <-.
  repeat split.
Qed.

Lemma memcpy_effect (q q1 : Queue) m_data data e :
  memcpy SyclData LaunchDims m_data data q = (e, q1) ->
  e = fresh (q_events _ _ q) /\
  q_heap _ _ q1 = <[m_data := Some data]> (q_heap _ _ q) /\
  q_in_flight _ _ q1 = q_in_flight _ _ q /\
  q_events _ _ q1 = {[ e ]} ∪ q_events _ _ q /\
  q_log _ _ q1 = q_log _ _ q ++ [OpMemcpy _ _ m_data e] /\
  q_faults _ _ q1 = q_faults _ _ q.
Proof.
  unfold memcpy, qbind, new_event, log_op. intros H. injection H as <- <-.
  repeat split.
Qed.

Lemma submit_effect (q q1 : Queue) range pl e :
  submit SyclData LaunchDims range pl q = (e, q1) ->
  e = fresh (q_events _ _ q) /\
  q_heap _ _ q1 = q_heap _ _ q /\
  q_in_flight _ _ q1 = q_in_flight _ _ q ++ [MkKernel _ _ e range pl] /\
  q_events _ _ q1 = {[ e ]} ∪ q_events _ _ q /\
  q_log _ _ q1 = q_log _ _ q ++ [OpSubmit _ _ (MkKernel _ _ e range pl)] /\
  q_faults _ _ q1 = q_faults _ _ q ++
    (if payload_ready _ _ q pl then []
     else [SubmittedWithoutPayload _ _ (MkKernel _ _ e range pl)]).
Proof.
  unfold submit, qbind, new_event, log_op. intros H. injection H as <- <-.
  repeat split.
Qed.

Lemma event_wait_effect (q q1 : Queue) e u :
  event_wait SyclData LaunchDims e q = (u, q1) ->
  q_heap _ _ q1 = q_heap _ _ q /\
  q_in_flight _ _ q1 =
    List.filter (fun k => negb (Nat.eqb (k_event _ _ k) e)) (q_in_flight _ _ q) /\
  q_events _ _ q1 = q_events _ _ q /\
  q_log _ _ q1 = q_log _ _ q ++ [OpEventWait _ _ e] /\
  q_faults _ _ q1 = q_faults _ _ q.
Proof.
  unfold event_wait, log_op. intros [= Hu Hq]. subst q1.
  repeat split.
Qed.

Lemma queue_wait_effect (q q1 : Queue) u :
  queue_wait SyclData LaunchDims q = (u, q1) ->
  q_heap _ _ q1 = q_heap _ _ q /\
  q_in_flight _ _ q1 = [] /\
  q_events _ _ q1 = q_events _ _ q /\
  q_log _ _ q1 = q_log _ _ q ++ [OpQueueWait _ _] /\
  q_faults _ _ q1 = q_faults _ _ q.
Proof.
  unfold queue_wait, log_op. intros [= Hu Hq]. subst q1.
  repeat split.
Qed.

Lemma free_effect (q q1 : Queue) m_data u :
  free SyclData LaunchDims m_data q = (u, q1) ->
  q_heap _ _ q1 = delete m_data (q_heap _ _ q) /\
  q_in_flight _ _ q1 = q_in_flight _ _ q /\
  q_events _ _ q1 = q_events _ _ q /\
  q_log _ _ q1 = q_log _ _ q ++ [OpFree _ _ m_data] /\
  q_faults _ _ q1 = q_faults _ _ q ++
    map (FreedWhileReferenced _ _ m_data)
      (List.filter (references _ _ m_data) (q_in_flight _ _ q)).
Proof.
  unfold free, log_op. intros [= Hu Hq]. subst q1.
  repeat split.
Qed.


(** C4.  On the non-trivially-copyable path the helper waits for the
    kernel it submitted before it frees the device copy of the closure,
    whatever the async flag: at the free no kernel in flight reads through
    the freed pointer (no fault is recorded), and on return the kernel is
    no longer in flight. *)
Theorem nontrivial_launch_waits_before_free
    (async0 : bool) (data : SyclData) (launch_dims : LaunchDims) (shmem : Z)
    (q : Queue) :
  no_dangling SyclData LaunchDims q ->
  events_known SyclData LaunchDims q ->
  let q' := snd (SyclLaunchHelperNonTrivial_launch SyclData LaunchDims
                   async0 data launch_dims shmem q) in
  let m_data := fresh (dom (q_heap _ _ q)) in
  exists copied launched,
    q_log _ _ q' = q_log _ _ q ++
      [OpMallocDevice _ _ m_data;
       OpMemcpy _ _ m_data copied;
       OpEventWait _ _ copied;
       OpSubmit _ _ (MkKernel _ _ launched launch_dims (ByPointer _ m_data));
       OpEventWait _ _ launched;
       OpFree _ _ m_data] /\
    q_faults _ _ q' = q_faults _ _ q /\
    q_in_flight _ _ q' = q_in_flight _ _ q /\
    q_heap _ _ q' = q_heap _ _ q.
Proof.
  intros Hdangling Hevents q' m_data. subst q'.
  unfold SyclLaunchHelperNonTrivial_launch, qbind.
  destruct (malloc_device SyclData LaunchDims q) as [p q1] eqn:E1.
  destruct (memcpy SyclData LaunchDims p data q1) as [copied q2] eqn:E2.
  destruct (event_wait SyclData LaunchDims copied q2) as [u3 q3] eqn:E3.
  destruct (submit SyclData LaunchDims launch_dims (ByPointer _ p) q3)
    as [launched q4] eqn:E4.
  destruct (event_wait SyclData LaunchDims launched q4) as [u5 q5] eqn:E5.
  destruct (free SyclData LaunchDims p q5) as [u6 q6] eqn:E6.
  cbn [snd].
  apply malloc_device_effect in E1 as (Hp & Hh1 & Hf1 & He1 & Hl1 & Hx1).
  apply memcpy_effect in E2 as (Hc & Hh2 & Hf2 & He2 & Hl2 & Hx2).
  apply event_wait_effect in E3 as (Hh3 & Hf3 & He3 & Hl3 & Hx3).
  apply submit_effect in E4 as (Hk & Hh4 & Hf4 & He4 & Hl4 & Hx4).
  apply event_wait_effect in E5 as (Hh5 & Hf5 & He5 & Hl5 & Hx5).
  apply free_effect in E6 as (Hh6 & Hf6 & He6 & Hl6 & Hx6).
  fold m_data in Hp. subst p.
  assert (q_heap _ _ q !! m_data = None) as Hfresh.
  { apply not_elem_of_dom. apply is_fresh. }
  assert (copied ∉ q_events _ _ q) as Hcopied.
  { rewrite Hc, He1. apply is_fresh. }
  assert (launched ∉ q_events _ _ q) as Hlaunched.
  { assert (launched ∉ q_events _ _ q3) as Hnew by (rewrite Hk; apply is_fresh).
    rewrite He3, He2, He1 in Hnew.
    apply not_elem_of_union in Hnew as [_ Hnew]. exact Hnew. }
  (* waiting for the copy completes no kernel *)
  assert (q_in_flight _ _ q3 = q_in_flight _ _ q) as Hsame3.
  { rewrite Hf3, Hf2, Hf1. apply filter_keep_all.
    intros k Hin. apply negb_true_iff, Nat.eqb_neq.
    intros Heq. apply Hcopied. rewrite <- Heq. apply Hevents. exact Hin. }
  (* waiting for the launch completes exactly the submitted kernel *)
  assert (q_in_flight _ _ q5 = q_in_flight _ _ q) as Hsame5.
  { rewrite Hf5, Hf4, Hsame3, List.filter_app. cbn [List.filter k_event].
    rewrite Nat.eqb_refl. cbn [negb]. rewrite app_nil_r.
    apply filter_keep_all.
    intros k Hin. apply negb_true_iff, Nat.eqb_neq.
    intros Heq. apply Hlaunched. rewrite <- Heq. apply Hevents. exact Hin. }
  exists copied, launched. repeat split.
  - rewrite Hl6, Hl5, Hl4, Hl3, Hl2, Hl1, <- !app_assoc. reflexivity.
  - rewrite Hx6, Hx5, Hx4, Hx3, Hx2, Hx1.
    unfold payload_ready. rewrite Hh3, Hh2, lookup_insert_eq.
    rewrite Hsame5.
    rewrite (filter_drop_all (references _ _ m_data)).
    + cbn. rewrite !app_nil_r. reflexivity.
    + intros k Hin. unfold references.
      destruct (k_payload _ _ k) as [d | p'] eqn:Hpl; [reflexivity |].
      apply Nat.eqb_neq. intros ->.
      destruct (Hdangling k m_data Hin Hpl) as [v Hv]. congruence.
  - rewrite Hf6. exact Hsame5.
  - rewrite Hh6, Hh5, Hh4, Hh3, Hh2, Hh1.
    rewrite insert_insert_eq, delete_insert_eq.
    apply delete_id. exact Hfresh.
Qed.

(** C8.  On the trivially-copyable path the helper waits on the queue
    after submitting when the async flag is false, so that on return
    nothing is in flight; when the flag is true it returns right after the
    submission, with the kernel still in flight and no wait issued. *)
Theorem trivial_launch_async_flag
    (data : SyclData) (launch_dims : LaunchDims) (shmem : Z) (q : Queue) :
  let launched := fresh (q_events _ _ q) in
  let k := MkKernel _ _ launched launch_dims (ByValue _ data) in
  let q_sync := snd (SyclLaunchHelper_launch SyclData LaunchDims
                       false data launch_dims shmem q) in
  let q_async := snd (SyclLaunchHelper_launch SyclData LaunchDims
                        true data launch_dims shmem q) in
  (q_log _ _ q_sync = q_log _ _ q ++ [OpSubmit _ _ k; OpQueueWait _ _] /\
   q_in_flight _ _ q_sync = []) /\
  (q_log _ _ q_async = q_log _ _ q ++ [OpSubmit _ _ k] /\
   q_in_flight _ _ q_async = q_in_flight _ _ q ++ [k]).
Proof.
  intros launched k q_sync q_async. subst q_sync q_async.
  unfold SyclLaunchHelper_launch, qbind.
  destruct (submit SyclData LaunchDims launch_dims (ByValue _ data) q)
    as [e q1] eqn:E1.
  apply submit_effect in E1 as (Hk & Hh1 & Hf1 & He1 & Hl1 & Hx1).
  fold launched in Hk. subst e. fold k in Hf1, Hl1.
  cbn [negb]. split.
  - destruct (queue_wait SyclData LaunchDims q1) as [u q2] eqn:E2.
    apply queue_wait_effect in E2 as (Hh2 & Hf2 & He2 & Hl2 & Hx2).
    cbn [snd]. split; [| exact Hf2].
    rewrite Hl2, Hl1, <- app_assoc. reflexivity.
  - unfold qret. cbn [snd]. split; assumption.
Qed.

End SyclFacts.

(** Freeing right after the submission, without the wait, is caught by the
    model: the kernel still in flight reads through the freed pointer. *)
Example free_without_wait_faults :
  let launch_then_free :=
    qbind Z Z (malloc_device Z Z) (fun m_data =>
    qbind Z Z (memcpy Z Z m_data 7) (fun copied =>
    qbind Z Z (event_wait Z Z copied) (fun _ =>
    qbind Z Z (submit Z Z 64 (ByPointer Z m_data)) (fun _ =>
    free Z Z m_data)))) in
  q_faults Z Z (snd (launch_then_free idle_queue)) =
  [FreedWhileReferenced Z Z 0%nat (MkKernel Z Z 1%nat 64 (ByPointer Z 0%nat))].
Proof. vm_compute. reflexivity. Qed.

Lemma nontrivial_launch_waits_before_free_witness :
  (no_dangling Z Z idle_queue /\ events_known Z Z idle_queue) /\
  let q' := snd (SyclLaunchHelperNonTrivial_launch Z Z true 7 64 0
                   idle_queue) in
  let m_data := fresh (dom (q_heap Z Z idle_queue)) in
  exists copied launched,
    q_log Z Z q' = q_log Z Z idle_queue ++
      [OpMallocDevice Z Z m_data;
       OpMemcpy Z Z m_data copied;
       OpEventWait Z Z copied;
       OpSubmit Z Z (MkKernel Z Z launched 64 (ByPointer Z m_data));
       OpEventWait Z Z launched;
       OpFree Z Z m_data] /\
    q_faults Z Z q' = q_faults Z Z idle_queue /\
    q_in_flight Z Z q' = q_in_flight Z Z idle_queue /\
    q_heap Z Z q' = q_heap Z Z idle_queue.
Proof.
  assert (no_dangling Z Z idle_queue) as H1.
  { intros k p Hin. destruct Hin. }
  assert (events_known Z Z idle_queue) as H2.
  { intros k Hin. destruct Hin. }
  split; [exact (conj H1 H2) |].
  exact (nontrivial_launch_waits_before_free Z Z true 7 64 0 idle_queue H1 H2).
Defined.

(** ** Reducers *)

Section ReduceFacts.

Variable T : Type.
Variable OP : T -> T -> T.
Variable identity : T.

Lemma accumulate_fold (chunk : list T) : forall red : Reducer T,
  fold_left (accumulate T OP) chunk red =
  {| target := target red; val := fold_left OP chunk (val red) |}.
Proof.
  induction chunk as [| x chunk IH]; intros red.
  - destruct red. reflexivity.
  - cbn [fold_left]. rewrite IH. reflexivity.
Qed.

Lemma combine_fold (chunks : list (list T)) (red0 : Reducer T) :
  forall out : Reducer T,
  fold_left
    (fun out chunk => combine T OP out (fold_left (accumulate T OP) chunk red0))
    chunks out =
  {| target := target out;
     val := fold_left
              (fun acc chunk => OP acc (fold_left OP chunk (val red0)))
              chunks (val out) |}.
Proof.
  induction chunks as [| chunk chunks IH]; intros out.
  - destruct out. reflexivity.
  - cbn [fold_left]. rewrite IH, accumulate_fold. reflexivity.
Qed.

(** The reduction resolves the combined value into the old target. *)
Lemma forall_reduce_target (chunks : list (list T)) (red : Reducer T) :
  target (forall_reduce T OP identity chunks red) =
  OP (combined T OP identity chunks) (target red).
Proof.
  unfold forall_reduce, combined. rewrite combine_fold. reflexivity.
Qed.

End ReduceFacts.

Lemma maximum_le_r a b : a <= b -> maximum a b = b.
Proof.
  unfold maximum. intros H. destruct (Z.ltb_spec a b); lia.
Qed.

Lemma maximum_bound a b c : a <= c -> b <= c -> maximum a b <= c.
Proof.
  unfold maximum. intros Ha Hb. destruct (a <? b); assumption.
Qed.

Lemma fold_maximum_bound (chunk : list Z) bound : forall acc,
  acc <= bound -> (forall x, In x chunk -> x <= bound) ->
  fold_left maximum chunk acc <= bound.
Proof.
  induction chunk as [| x chunk IH]; intros acc Hacc Hall; [exact Hacc |].
  cbn [fold_left]. apply IH.
  - apply maximum_bound; [exact Hacc |]. apply Hall. left. reflexivity.
  - intros y Hy. apply Hall. right. exact Hy.
Qed.

Lemma combined_maximum_bound lowest (chunks : list (list Z)) bound :
  lowest <= bound ->
  (forall chunk x, In chunk chunks -> In x chunk -> x <= bound) ->
  combined Z maximum lowest chunks <= bound.
Proof.
  intros Hlow Hall. unfold combined.
  assert (forall acc, acc <= bound ->
            fold_left
              (fun acc chunk => maximum acc (fold_left maximum chunk lowest))
              chunks acc <= bound) as Hfold.
  { induction chunks as [| chunk chunks IH]; intros acc Hacc; [exact Hacc |].
    cbn [fold_left]. apply IH.
    - intros c x Hc Hx. apply (Hall c x); [right; exact Hc | exact Hx].
    - apply maximum_bound; [exact Hacc |].
      apply fold_maximum_bound; [exact Hlow |].
      intros x Hx. apply (Hall chunk x); [left; reflexivity | exact Hx]. }
  apply Hfold. exact Hlow.
Qed.

(** C10.  [resolve] combines the accumulated value into the value already
    in the target instead of overwriting it, so the value a reducer starts
    with takes part in the result: the reduction leaves
    [OP (combined value) (initial value)] in the target, and a max reducer
    whose initial value is not exceeded by any element ends with its
    initial value. *)
Theorem resolve_combines_into_target :
  (forall (T : Type) (OP : T -> T -> T) (red : Reducer T),
     target (resolve T OP red) = OP (val red) (target red) /\
     val (resolve T OP red) = val red) /\
  (forall (T : Type) (OP : T -> T -> T) (identity : T)
          (chunks : list (list T)) (red : Reducer T),
     target (forall_reduce T OP identity chunks red) =
     OP (combined T OP identity chunks) (target red)) /\
  (forall (lowest : Z) (chunks : list (list Z)) (red : Reducer Z),
     lowest <= target red ->
     (forall chunk x, In chunk chunks -> In x chunk -> x <= target red) ->
     target (forall_reduce Z maximum lowest chunks red) = target red).
Proof.
  split; [| split].
  - intros T OP red. split; reflexivity.
  - intros T OP identity chunks red. apply forall_reduce_target.
  - intros lowest chunks red Hlow Hall.
    rewrite forall_reduce_target. apply maximum_le_r.
    apply combined_maximum_bound; assumption.
Qed.

Lemma resolve_combines_into_target_witness :
  let chunks := [[-100; 37]; []; [99; -5; 12]] in
  let max2 := MkReducer 500 0 in
  (INT_MIN <= target max2 /\
   (forall chunk x, In chunk chunks -> In x chunk -> x <= target max2)) /\
  target (forall_reduce Z maximum INT_MIN chunks max2) = 500.
Proof.
  intros chunks max2.
  assert (INT_MIN <= target max2) as H1 by (vm_compute; discriminate).
  assert (forall chunk x, In chunk chunks -> In x chunk -> x <= target max2)
    as H2.
  { intros chunk x Hc Hx. cbn in Hc, Hx |- *.
    repeat match goal with
           | H : _ \/ _ |- _ => destruct H
           | H : False |- _ => destruct H
           | H : _ = chunk |- _ => subst chunk; cbn in Hx
           end; lia. }
  split; [exact (conj H1 H2) |].
  exact (proj2 (proj2 resolve_combines_into_target) INT_MIN chunks max2 H1 H2).
Defined.

(** ** The DAG executor *)

Lemma snoc_split {A : Type} (l pre post : list A) (e x : A) :
  l ++ [e] = pre ++ x :: post ->
  (post = [] /\ pre = l /\ x = e) \/
  (exists post', post = post' ++ [e] /\ l = pre ++ x :: post').
Proof.
  intros Heq.
  destruct (exists_last (l := x :: post) ltac:(discriminate))
    as (body & last & Hlast).
  rewrite Hlast, app_assoc in Heq.
  apply app_inj_tail in Heq as [Hl He]. subst last.
  destruct post as [| y post].
  - left. destruct body as [| b body].
    + cbn in Hlast. injection Hlast as ->.
      rewrite app_nil_r in Hl. auto.
    + destruct body; discriminate.
  - right. destruct (exists_last (l := y :: post) ltac:(discriminate))
      as (post' & last' & Hpost).
    rewrite Hpost in Hlast |- *.
    change (x :: post' ++ [last']) with ((x :: post') ++ [last']) in Hlast.
    apply app_inj_tail in Hlast as [Hbody Hlast']. subst last' body.
    exists post'. auto.
Qed.

Lemma invariant_initial g : invariant g initial.
Proof.
  split; cbn; try discriminate; try lia.
  - intros u v _ H. contradiction.
  - intros u v _ pre post H. destruct pre; discriminate.
Qed.

Lemma invariant_start g v r :
  invariant g r ->
  status r v = Unscheduled ->
  (forall u, In (u, v) (edges g) -> status r u = Complete) ->
  invariant g (start v r).
Proof.
  intros [Hc Ho Hp He Hf Ht] Hv Hpreds.
  assert (forall w, status (start v r) w = Complete ->
            w <> v /\ status r w = Complete) as Hcomplete.
  { intros w Hw. cbn in Hw. destruct (decide (v = w)) as [-> | Hne].
    - rewrite fn_lookup_insert in Hw. discriminate.
    - rewrite fn_lookup_insert_ne in Hw by exact Hne. auto. }
  assert (forall w, status r w = Complete -> status (start v r) w = Complete)
    as Hkeep.
  { intros w Hw. cbn. rewrite fn_lookup_insert_ne; [exact Hw |].
    intros ->. congruence. }
  split; cbn [count order events start finish].
  - exact Hc.
  - intros w Hw. apply Ho. apply Hcomplete. exact Hw.
  - intros u w Hedge Hw. apply Hkeep.
    destruct (decide (v = w)) as [-> | Hne].
    + apply Hpreds. exact Hedge.
    + apply (Hp u w Hedge). cbn in Hw.
      rewrite fn_lookup_insert_ne in Hw by exact Hne. exact Hw.
  - intros u w Hedge Hw. apply (He u w Hedge). apply Hcomplete. exact Hw.
  - intros u Hu. apply in_or_app. left. apply Hf. apply Hcomplete. exact Hu.
  - intros u w Hedge pre post Heq.
    apply snoc_split in Heq as [(_ & -> & [= ->]) | (post' & _ & Heq)].
    + apply Hf. apply Hpreds. exact Hedge.
    + apply (Ht u w Hedge pre post' Heq).
Qed.

Lemma invariant_finish g v r :
  invariant g r ->
  status r v = Running ->
  invariant g (finish v r).
Proof.
  intros [Hc Ho Hp He Hf Ht] Hv.
  assert (forall w, w <> v -> status (finish v r) w = status r w) as Hother.
  { intros w Hne. cbn. apply fn_lookup_insert_ne. congruence. }
  assert (forall w, status r w = Complete -> w <> v) as Hnotv.
  { intros w Hw ->. congruence. }
  assert (forall w, status r w = Complete -> status (finish v r) w = Complete)
    as Hkeep.
  { intros w Hw. rewrite Hother; [exact Hw | apply Hnotv; exact Hw]. }
  split; cbn [count order events start finish].
  - lia.
  - intros w Hw. destruct (decide (v = w)) as [-> | Hne].
    + rewrite fn_lookup_insert. lia.
    + rewrite fn_lookup_insert_ne by exact Hne.
      rewrite Hother in Hw by congruence. specialize (Ho w Hw). lia.
  - intros u w Hedge Hw. apply Hkeep. apply (Hp u w Hedge).
    destruct (decide (w = v)) as [-> | Hne]; [congruence |].
    rewrite Hother in Hw by exact Hne. exact Hw.
  - intros u w Hedge Hw.
    assert (status r u = Complete) as Hu.
    { apply (Hp u w Hedge). destruct (decide (w = v)) as [-> | Hne];
        [congruence |].
      rewrite Hother in Hw by exact Hne. congruence. }
    rewrite (fn_lookup_insert_ne (order r) v u) by (intros ->; congruence).
    destruct (decide (v = w)) as [-> | Hne].
    + rewrite fn_lookup_insert. apply Ho. exact Hu.
    + rewrite fn_lookup_insert_ne by exact Hne.
      apply (He u w Hedge). rewrite Hother in Hw by congruence. exact Hw.
  - intros u Hu. apply in_or_app.
    destruct (decide (u = v)) as [-> | Hne].
    + right. left. reflexivity.
    + left. apply Hf. rewrite Hother in Hu by exact Hne. exact Hu.
  - intros u w Hedge pre post Heq.
    apply snoc_split in Heq as [(_ & _ & [=]) | (post' & _ & Heq)].
    apply (Ht u w Hedge pre post' Heq).
Qed.

Lemma reachable_invariant g r : reachable g r -> invariant g r.
Proof.
  induction 1 as [| r r' Hreach IH Hstep].
  - apply invariant_initial.
  - destruct Hstep as [v r Hlt Hv Hpreds | v r Hv].
    + apply invariant_start; assumption.
    + apply invariant_finish; assumption.
Qed.

Lemma run_in_order_snoc l v r :
  run_in_order (l ++ [v]) r = finish v (start v (run_in_order l r)).
Proof. unfold run_in_order. rewrite fold_left_app. reflexivity. Qed.

(** Running a prefix of a topological order is an execution; it leaves
    exactly the nodes of the prefix complete, numbered in that order. *)
Lemma run_prefix g l :
  topological g l ->
  forall pre rest, l = pre ++ rest ->
    let r := run_in_order pre initial in
    reachable g r /\
    (forall w, In w pre -> status r w = Complete) /\
    (forall w, ~ In w pre -> status r w = Unscheduled) /\
    count r = Z.of_nat (length pre) /\
    (forall k w, pre !! k = Some w -> order r w = Z.of_nat k).
Proof.
  intros [Hperm Htopo].
  assert (List.NoDup l) as Hnodup.
  { apply (Permutation_NoDup (Permutation_sym Hperm)). apply List.seq_NoDup. }
  induction pre as [| v pre IH] using rev_ind; intros rest Hl.
  - cbn. repeat split.
    + constructor.
    + intros w [].
    + intros k w Hk. discriminate.
  - rewrite <- app_assoc in Hl. cbn [app] in Hl.
    destruct (IH (v :: rest) Hl) as (Hreach & Hin & Hout & Hcount & Horder).
    rewrite run_in_order_snoc. cbv zeta.
    set (r := run_in_order pre initial) in *.
    assert (~ In v pre) as Hfresh.
    { rewrite Hl in Hnodup. apply NoDup_remove_2 in Hnodup.
      intros Hv. apply Hnodup. apply in_or_app. left. exact Hv. }
    assert (v < num_nodes g)%nat as Hlt.
    { assert (In v (seq 0 (num_nodes g))) as Hv.
      { apply (Permutation_in _ Hperm). rewrite Hl.
        apply in_or_app. right. left. reflexivity. }
      apply in_seq in Hv. lia. }
    assert (step g r (start v r)) as Hstart.
    { apply step_start.
      - exact Hlt.
      - apply Hout. exact Hfresh.
      - intros u Hedge. apply Hin. apply (Htopo pre v rest Hl u Hedge). }
    assert (step g (start v r) (finish v (start v r))) as Hfinish.
    { apply step_finish. cbn. apply fn_lookup_insert. }
    repeat split.
    + eapply reach_step; [| exact Hfinish].
      eapply reach_step; [exact Hreach | exact Hstart].
    + intros w Hw. cbn. destruct (decide (v = w)) as [-> | Hne].
      * apply fn_lookup_insert.
      * rewrite !fn_lookup_insert_ne by exact Hne.
        apply Hin. apply in_app_or in Hw as [Hw | [Hw | []]];
          [exact Hw | congruence].
    + intros w Hw. cbn.
      assert (v <> w) as Hne.
      { intros ->. apply Hw. apply in_or_app. right. left. reflexivity. }
      rewrite !fn_lookup_insert_ne by exact Hne.
      apply Hout. intros Hpre. apply Hw. apply in_or_app. left. exact Hpre.
    + cbn. rewrite Hcount, length_app. cbn. lia.
    + intros k w Hk. cbn.
      destruct (decide (k < length pre)%nat) as [Hshort | Hlong].
      * rewrite lookup_app_l in Hk by exact Hshort.
        assert (v <> w) as Hne.
        { intros ->. apply Hfresh. apply list_elem_of_In.
          apply list_elem_of_lookup. exists k. exact Hk. }
        rewrite fn_lookup_insert_ne by exact Hne.
        apply Horder. exact Hk.
      * rewrite lookup_app_r in Hk by lia.
        destruct (k - length pre)%nat as [| n] eqn:Hdiff; [| discriminate].
        injection Hk as ->.
        rewrite fn_lookup_insert, Hcount. f_equal. lia.
Qed.

Lemma forward_topological g : forward g -> topological g (seq 0 (num_nodes g)).
Proof.
  intros Hfwd. split; [reflexivity |].
  intros pre v post Heq u Hedge.
  destruct (Hfwd u v Hedge) as [Huv Hvn].
  assert (length pre = v) as Hlen.
  { assert (seq 0 (num_nodes g) !! length pre = Some v) as Hnth.
    { rewrite Heq. rewrite lookup_app_r by lia.
      rewrite Nat.sub_diag. reflexivity. }
    apply lookup_seq in Hnth. lia. }
  assert (pre = seq 0 v) as ->.
  { assert (pre = take (length pre) (seq 0 (num_nodes g))) as Hpre.
    { rewrite Heq. rewrite take_app_length. reflexivity. }
    rewrite Hpre, Hlen. rewrite take_seq. f_equal. lia. }
  apply in_seq. lia.
Qed.

(** Every graph the tests build is forward: a node is added with edges
    from nodes that already exist. *)
Lemma add_node_forward g edges_to_node :
  forward g ->
  (forall u, In u edges_to_node -> (u < num_nodes g)%nat) ->
  forward (add_node g edges_to_node).
Proof.
  intros Hfwd Hdeps u v Hedge. unfold add_node in Hedge |- *.
  cbn [edges num_nodes] in *.
  apply in_app_or in Hedge as [Hold | Hnew].
  - specialize (Hfwd u v Hold). lia.
  - apply in_map_iff in Hnew as (u' & [= -> <-] & Hin).
    specialize (Hdeps u Hin). lia.
Qed.

Lemma four_node_graph_forward : forward four_node_graph.
Proof.
  unfold four_node_graph.
  repeat (apply add_node_forward;
          [| cbn; intros u Hu; repeat (destruct Hu as [<- | Hu]; [lia |]);
             destruct Hu]).
  intros u v [].
Qed.

(** C6.  In every execution of a DAG, for every edge (u, v): node u has
    finished before node v starts, and once v has completed the recorded
    orders satisfy [0 <= O(u) < O(v) < count].  Beyond that the order is
    free: every ordering of the nodes that puts sources of edges before
    their targets is the completion order of some execution that
    completes all nodes, and at least one such ordering exists for graphs
    whose edges lead from earlier to later nodes. *)
Theorem dag_exec_respects_edges (g : DAG) :
  (forall r, reachable g r ->
     forall u v, In (u, v) (edges g) ->
       precedes (Finish u) (Start v) (events r) /\
       (status r v = Complete ->
        status r u = Complete /\
        0 <= order r u /\ order r u < order r v /\ order r v < count r)) /\
  (forall l, topological g l ->
     let r := run_in_order l initial in
     reachable g r /\ completed g r /\ count r = Z.of_nat (num_nodes g) /\
     forall k v, l !! k = Some v -> order r v = Z.of_nat k) /\
  (forward g -> topological g (seq 0 (num_nodes g))).
Proof.
  split; [| split].
  - intros r Hreach u v Hedge.
    destruct (reachable_invariant g r Hreach) as [Hc Ho Hp He Hf Ht].
    split; [apply Ht; exact Hedge |].
    intros Hv.
    assert (status r u = Complete) as Hu.
    { apply (Hp u v Hedge). congruence. }
    split; [exact Hu |].
    specialize (Ho u Hu) as Hou. specialize (Ho v Hv) as Hov.
    specialize (He u v Hedge Hv). lia.
  - intros l Htopo r.
    destruct (run_prefix g l Htopo l [] (eq_sym (app_nil_r l)))
      as (Hreach & Hin & _ & Hcount & Horder).
    fold r in Hreach, Hin, Hcount, Horder.
    destruct Htopo as [Hperm _].
    repeat split.
    + exact Hreach.
    + intros v Hv. apply Hin.
      apply (Permutation_in _ (Permutation_sym Hperm)).
      apply in_seq. lia.
    + rewrite Hcount, (Permutation_length Hperm), length_seq. reflexivity.
    + exact Horder.
  - apply forward_topological.
Qed.

(** The two executions of the diamond of [FourNodeExec] in which the
    unrelated nodes 1 and 2 complete in either order. *)
Example four_node_either_order :
  let r12 := run_in_order [0; 1; 2; 3]%nat initial in
  let r21 := run_in_order [0; 2; 1; 3]%nat initial in
  (order r12 1%nat < order r12 2%nat) /\
  (order r21 2%nat < order r21 1%nat) /\
  map (order r12) [0; 1; 2; 3]%nat = [0; 1; 2; 3] /\
  map (order r21) [0; 1; 2; 3]%nat = [0; 2; 1; 3] /\
  count r12 = 4 /\ count r21 = 4.
Proof. vm_compute. repeat split; reflexivity. Qed.

Lemma four_node_topological l :
  l = [0; 1; 2; 3]%nat \/ l = [0; 2; 1; 3]%nat ->
  topological four_node_graph l.
Proof.
  intros Hl. split.
  - destruct Hl as [-> | ->]; cbn.
    + reflexivity.
    + apply perm_skip. apply perm_swap.
  - intros pre v post Heq u Hedge.
    cbn in Hedge.
    destruct Hl as [-> | ->];
      destruct pre as [| a [| b [| c [| d pre]]]]; simplify_eq/=;
      try (destruct pre; discriminate);
      destruct_or?; simplify_eq; try contradiction; cbn; tauto.
Qed.

Lemma dag_exec_respects_edges_witness :
  let r := run_in_order [0; 2; 1; 3]%nat initial in
  (reachable four_node_graph r /\ In (1, 3)%nat (edges four_node_graph)) /\
  precedes (Finish 1) (Start 3) (events r) /\
  (status r 3%nat = Complete ->
   status r 1%nat = Complete /\
   0 <= order r 1%nat /\ order r 1%nat < order r 3%nat /\
   order r 3%nat < count r).
Proof.
  intros r.
  assert (reachable four_node_graph r) as H1.
  { exact (proj1 (proj1 (proj2 (dag_exec_respects_edges four_node_graph))
             [0; 2; 1; 3]%nat (four_node_topological _ (or_intror eq_refl)))). }
  assert (In (1, 3)%nat (edges four_node_graph)) as H2.
  { cbn. tauto. }
  split; [exact (conj H1 H2) |].
  exact (proj1 (dag_exec_respects_edges four_node_graph) r H1 1%nat 3%nat H2).
Defined.

(** ** The work group pipeline *)

Lemma dispatch_map {A : Type} (body : A -> Code) (l : list A) : forall m,
  dispatch (map body l) m = fold_left (fun m i => invoke (body i) m) l m.
Proof.
  unfold dispatch. induction l as [| i l IH]; intros m; [reflexivity |].
  cbn [map fold_left]. apply IH.
Qed.

Lemma dispatch_app l1 l2 m : dispatch (l1 ++ l2) m = dispatch l2 (dispatch l1 m).
Proof. unfold dispatch. apply fold_left_app. Qed.

Lemma separate_launches_app b1 b2 m :
  separate_launches (b1 ++ b2) m = separate_launches b2 (separate_launches b1 m).
Proof. unfold separate_launches. apply fold_left_app. Qed.

Lemma dispatch_invocations entry m :
  dispatch (invocations entry) m = forall_loop_exec (fst entry) (snd entry) m.
Proof. unfold invocations, forall_loop_exec. apply dispatch_map. Qed.

(** Running a group's invocations in enqueue order is running its entries
    as separate launches. *)
Lemma dispatch_work_items entries : forall m,
  dispatch (work_items {| group_entries := entries |}) m =
  separate_launches entries m.
Proof.
  unfold work_items. cbn [group_entries].
  induction entries as [| entry entries IH]; intros m; [reflexivity |].
  cbn [flat_map]. rewrite dispatch_app, dispatch_invocations.
  rewrite IH. reflexivity.
Qed.

Lemma c_for_fold body n : forall i m,
  c_for n i body m =
  fold_left (fun m j => invoke (body j) m) (seqZ i (Z.of_nat n)) m.
Proof.
  induction n as [| n IH]; intros i m; [reflexivity |].
  rewrite seqZ_cons by lia. cbn [c_for fold_left].
  rewrite IH. do 2 f_equal. lia.
Qed.

(** The C loop and the sequential [forall] over the same range agree. *)
Lemma c_loop_forall lo hi body m :
  c_loop lo hi body m = forall_loop_exec (range_segment lo hi) body m.
Proof.
  unfold c_loop, forall_loop_exec, seg_indices. cbn [seg_begin seg_end].
  rewrite c_for_fold. unfold seqZ. rewrite Nat2Z.id. reflexivity.
Qed.



(** *** Launches *)

Lemma launch_cons threads t schedule m :
  launch threads (t :: schedule) m =
  launch (fst (launch_step (threads, m) t)) schedule
    (snd (launch_step (threads, m) t)).
Proof.
  unfold launch. cbn [fold_left].
  destruct (launch_step (threads, m) t). reflexivity.
Qed.

Lemma launch_step_length threads m t :
  length (fst (launch_step (threads, m) t)) = length threads.
Proof.
  unfold launch_step. cbn [fst snd].
  destruct (threads !! t) as [c |]; [| reflexivity].
  destruct (thread_step c m). cbn [fst]. apply length_insert.
Qed.

Lemma launch_length schedule : forall threads m,
  length (fst (launch threads schedule m)) = length threads.
Proof.
  induction schedule as [| t schedule IH]; intros threads m; [reflexivity |].
  rewrite launch_cons, IH. apply launch_step_length.
Qed.

Lemma thread_step_returns bound c m :
  returns_within bound c ->
  returns_within (Nat.pred bound) (fst (thread_step c m)).
Proof.
  intros Hc. destruct Hc as [bound | bound p k Hk | bound p x k Hk];
    cbn [thread_step fst Nat.pred].
  - apply returns_now.
  - apply Hk.
  - exact Hk.
Qed.

(** A thread that gets as many steps as it has accesses returns. *)
Lemma launch_thread_returns schedule : forall bound threads m t c,
  threads !! t = Some c ->
  returns_within bound c ->
  (bound <= count_occ Nat.eq_dec schedule t)%nat ->
  fst (launch threads schedule m) !! t = Some CReturn.
Proof.
  induction schedule as [| u schedule IH]; intros bound threads m t c Ht Hc Hn.
  - cbn in Hn. assert (bound = O) as -> by lia.
    inversion Hc; subst. exact Ht.
  - rewrite launch_cons. unfold launch_step. cbn [fst snd].
    destruct (decide (u = t)) as [-> | Hne].
    + rewrite Ht.
      pose proof (thread_step_returns bound c m Hc) as Hc'.
      destruct (thread_step c m) as [c' m']. cbn [fst snd] in *.
      apply (IH (Nat.pred bound) _ _ t c'); [| exact Hc' |].
      * apply list_lookup_insert_eq. apply lookup_lt_Some in Ht. exact Ht.
      * rewrite count_occ_cons_eq in Hn by reflexivity. lia.
    + rewrite count_occ_cons_neq in Hn by exact Hne.
      destruct (threads !! u) as [cu |] eqn:Hu.
      * destruct (thread_step cu m) as [c' m']. cbn [fst snd].
        apply (IH bound _ _ t c); [| exact Hc | exact Hn].
        rewrite list_lookup_insert_ne by exact Hne. exact Ht.
      * cbn [fst snd]. apply (IH bound _ _ t c); assumption.
Qed.

(** Under a fair schedule the launch completes. *)
Lemma fair_launch_completes bound threads schedule m :
  Forall (returns_within bound) threads ->
  fair bound (length threads) schedule ->
  completed_launch (fst (launch threads schedule m)).
Proof.
  intros Hbound Hfair. unfold completed_launch.
  apply Forall_lookup. intros t c Ht.
  assert (t < length threads)%nat as Hlt.
  { apply lookup_lt_Some in Ht. rewrite launch_length in Ht. exact Ht. }
  destruct (lookup_lt_is_Some_2 threads t Hlt) as [c0 Hc0].
  rewrite (launch_thread_returns schedule bound threads m t c0) in Ht.
  - congruence.
  - exact Hc0.
  - exact (proj1 (Forall_lookup _ _) Hbound t c0 Hc0).
  - apply Hfair. exact Hlt.
Qed.

(** What a thread does not store stays, and a store to a cell that a
    thread neither loads nor stores may come before or after the
    thread. *)
Lemma within_frame R W c :
  within R W c -> forall m p, ~ W p -> load (invoke c m) p = load m p.
Proof.
  induction 1 as [| q k Hq Hk IH | q x k Hq Hk IH]; intros m p Hp;
    cbn [invoke].
  - reflexivity.
  - apply IH. exact Hp.
  - rewrite IH by exact Hp. unfold load, store.
    rewrite lookup_insert_ne; [reflexivity |].
    intros ->. apply Hp. exact Hq.
Qed.

Lemma within_commute R W c :
  within R W c ->
  forall m p x, ~ R p -> ~ W p ->
  invoke c (store p x m) = store p x (invoke c m).
Proof.
  induction 1 as [| q k Hq Hk IH | q y k Hq Hk IH]; intros m p x HR HW;
    cbn [invoke].
  - reflexivity.
  - replace (load (store p x m) q) with (load m q).
    + apply IH; assumption.
    + unfold load, store. rewrite lookup_insert_ne; [reflexivity |].
      intros ->. apply HR. exact Hq.
  - rewrite <- IH by assumption. f_equal. unfold store.
    apply insert_insert_ne. intros ->. apply HW. exact Hq.
Qed.

Lemma dispatch_frame l p :
  Forall (fun c => exists R W, within R W c /\ ~ W p) l ->
  forall m, load (dispatch l m) p = load m p.
Proof.
  unfold dispatch.
  induction 1 as [| c l (R & W & Hc & Hp) _ IH]; intros m; [reflexivity |].
  cbn [fold_left]. rewrite IH. apply (within_frame R W); assumption.
Qed.

Lemma dispatch_commute l p x :
  Forall (fun c => exists R W, within R W c /\ ~ R p /\ ~ W p) l ->
  forall m, dispatch l (store p x m) = store p x (dispatch l m).
Proof.
  unfold dispatch.
  induction 1 as [| c l (R & W & Hc & HR & HW) _ IH]; intros m;
    [reflexivity |].
  cbn [fold_left]. rewrite (within_commute R W) by assumption. apply IH.
Qed.

Lemma dispatch_returned l m :
  completed_launch l -> dispatch l m = m.
Proof.
  unfold completed_launch, dispatch.
  induction 1 as [| c l -> _ IH]; [reflexivity |].
  cbn [fold_left invoke]. exact IH.
Qed.

(** A step of a launch without data races does not change what running
    the threads to their ends, one after the other, leads to. *)
Lemma launch_step_dispatch (R W : nat -> Ptr -> Prop) threads m t :
  (forall t c, threads !! t = Some c -> within (R t) (W t) c) ->
  (forall t u p, t <> u -> W t p -> ~ R u p /\ ~ W u p) ->
  (forall u c, fst (launch_step (threads, m) t) !! u = Some c ->
     within (R u) (W u) c) /\
  dispatch (fst (launch_step (threads, m) t)) (snd (launch_step (threads, m) t)) =
  dispatch threads m.
Proof.
  intros Hwithin Hfree. unfold launch_step. cbn [fst snd].
  destruct (threads !! t) as [c |] eqn:Ht; [| split; [exact Hwithin | reflexivity]].
  assert (t < length threads)%nat as Hlt by (apply lookup_lt_Some in Ht; exact Ht).
  pose proof (Hwithin t c Ht) as Hc.
  assert (Forall (fun c' => exists R' W', within R' W' c' /\
                    forall p, R t p \/ W t p -> ~ W' p) (take t threads))
    as Hbefore.
  { apply Forall_lookup. intros u cu Hu.
    apply lookup_take_Some in Hu as [Hu Hut].
    exists (R u), (W u). split; [apply Hwithin; exact Hu |].
    intros p Hp HWu.
    destruct (Hfree u t p ltac:(lia) HWu) as [HR HW].
    destruct Hp; contradiction. }
  assert (forall c', within (R t) (W t) c' ->
            forall u cu, <[t := c']> threads !! u = Some cu ->
            within (R u) (W u) cu) as Hkeep.
  { intros c' Hc' u cu Hu.
    destruct (decide (u = t)) as [-> | Hne].
    - rewrite list_lookup_insert_eq in Hu by exact Hlt. congruence.
    - rewrite list_lookup_insert_ne in Hu by congruence.
      apply Hwithin. exact Hu. }
  assert (forall c' : Code,
            <[t := c']> threads = take t threads ++ c' :: drop (S t) threads)
    as Hsplit.
  { intros c'. rewrite <- (take_drop_middle threads t c Ht) at 1.
    rewrite insert_app_r_alt by (rewrite length_take; lia).
    rewrite length_take, Nat.min_l by lia. rewrite Nat.sub_diag.
    reflexivity. }
  assert (dispatch threads m =
          dispatch (drop (S t) threads)
            (invoke c (dispatch (take t threads) m))) as Hseq.
  { rewrite <- (take_drop_middle threads t c Ht) at 1.
    rewrite dispatch_app. reflexivity. }
  rewrite Hseq. clear Hseq.
  inversion Hc as [Heq | p k Hp Hk Heq | p x k Hp Hk Heq]; subst c;
    cbn [thread_step fst snd].
  - split; [apply Hkeep; exact Hc |].
    rewrite Hsplit, dispatch_app. reflexivity.
  - split; [apply Hkeep; apply Hk |].
    rewrite Hsplit, dispatch_app. cbn [dispatch fold_left invoke].
    do 3 f_equal. symmetry. apply dispatch_frame.
    eapply Forall_impl; [exact Hbefore |].
    intros cu (R' & W' & Hcu & Hno). exists R', W'.
    split; [exact Hcu | apply Hno; left; exact Hp].
  - split; [apply Hkeep; exact Hk |].
    rewrite Hsplit, dispatch_app. cbn [dispatch fold_left invoke].
    do 2 f_equal. apply dispatch_commute.
    apply Forall_lookup. intros u cu Hu.
    apply lookup_take_Some in Hu as [Hu Hut].
    exists (R u), (W u). split; [apply Hwithin; exact Hu |].
    apply (Hfree t u p); [lia | exact Hp].
Qed.

(** A completed launch without data races leaves memory as its threads
    run one after the other do. *)
Lemma launch_race_free threads schedule m :
  race_free threads ->
  completed_launch (fst (launch threads schedule m)) ->
  snd (launch threads schedule m) = dispatch threads m.
Proof.
  intros (R & W & Hwithin & Hfree). revert threads m Hwithin.
  induction schedule as [| t schedule IH]; intros threads m Hwithin Hdone.
  - cbn in *. symmetry. apply dispatch_returned. exact Hdone.
  - rewrite launch_cons in *.
    destruct (launch_step_dispatch R W threads m t Hwithin Hfree)
      as [Hwithin' Heq].
    rewrite IH by assumption. exact Heq.
Qed.

Lemma fair_launch bound threads schedule m :
  Forall (returns_within bound) threads ->
  fair bound (length threads) schedule ->
  race_free threads ->
  snd (launch threads schedule m) = dispatch threads m.
Proof.
  intros Hbound Hfair Hfree. apply launch_race_free; [exact Hfree |].
  apply (fair_launch_completes bound); assumption.
Qed.

(** A parallel [forall] without data races is the sequential one. *)
Lemma forall_parallel_loop_exec bound schedule seg body m :
  Forall (returns_within bound) (invocations (seg, body)) ->
  fair bound (length (invocations (seg, body))) schedule ->
  race_free (invocations (seg, body)) ->
  forall_parallel schedule seg body m = forall_loop_exec seg body m.
Proof.
  intros Hbound Hfair Hfree. unfold forall_parallel.
  change (map body (seg_indices seg)) with (invocations (seg, body)).
  rewrite (fair_launch bound) by assumption.
  apply dispatch_invocations.
Qed.

Lemma ordered_parallel_launches bound schedules entries : forall k0 m,
  (forall k entry, entries !! k = Some entry ->
     Forall (returns_within bound) (invocations entry) /\
     fair bound (length (invocations entry)) (schedules (k0 + k)%nat) /\
     race_free (invocations entry)) ->
  snd (fold_left
         (fun (st : nat * Memory) entry =>
            (S (fst st),
             forall_parallel (schedules (fst st)) (fst entry) (snd entry)
               (snd st)))
         entries (k0, m)) =
  separate_launches entries m.
Proof.
  induction entries as [| [seg body] entries IH]; intros k0 m Hall;
    [reflexivity |].
  cbn [fold_left fst snd].
  destruct (Hall O (seg, body) eq_refl) as (Hbound & Hfair & Hfree).
  rewrite Nat.add_0_r in Hfair.
  rewrite (forall_parallel_loop_exec bound) by assumption.
  rewrite IH.
  - reflexivity.
  - intros k entry Hk. rewrite Nat.add_succ_l, <- Nat.add_succ_r.
    apply (Hall (S k)). exact Hk.
Qed.

(** Doubles *)

Lemma SFeqb_refl x : x <> S754_nan -> SFeqb x x = true.
Proof.
  intros Hx. unfold SFeqb, SFcompare.
  destruct x as [s | s | | s mx ex]; try reflexivity.
  - destruct s; reflexivity.
  - contradiction.
  - destruct s; rewrite Z.compare_refl, Pos.compare_cont_refl; reflexivity.
Qed.

Lemma iter_pos_shr_nonneg p : forall mrs,
  0 <= shr_m mrs -> 0 <= shr_m (SpecFloat.iter_pos shr_1 p mrs).
Proof.
  assert (forall mrs, 0 <= shr_m mrs -> 0 <= shr_m (shr_1 mrs)) as Hone.
  { intros [mx r s] Hm. cbn [shr_m] in Hm. unfold shr_1.
    destruct mx as [| [q | q |] | q]; cbn [shr_m]; lia. }
  induction p as [p IH | p IH |]; intros mrs Hm; cbn [SpecFloat.iter_pos];
    auto.
Qed.

Lemma shr_fexp_nonneg mx ex lx :
  0 <= mx -> 0 <= shr_m (fst (shr_fexp 53 1024 mx ex lx)).
Proof.
  intros Hm. unfold shr_fexp, shr.
  assert (0 <= shr_m (shr_record_of_loc mx lx)) as H0.
  { destruct lx as [| []]; exact Hm. }
  destruct (fexp 53 1024 (Zdigits2 mx + ex) - ex) as [| p | p];
    cbn [fst]; [exact H0 | | exact H0].
  apply iter_pos_shr_nonneg. exact H0.
Qed.

Lemma binary_round_aux_not_nan sx mx ex lx :
  0 <= mx -> binary_round_aux 53 1024 sx mx ex lx <> S754_nan.
Proof.
  intros Hm. unfold binary_round_aux.
  pose proof (shr_fexp_nonneg mx ex lx Hm) as H1.
  destruct (shr_fexp 53 1024 mx ex lx) as [mrs' e']. cbn [fst] in H1.
  assert (0 <= round_nearest_even (shr_m mrs') (loc_of_shr_record mrs'))
    as H2.
  { unfold round_nearest_even.
    destruct (loc_of_shr_record mrs') as [| []];
      try destruct (Z.even (shr_m mrs')); lia. }
  pose proof (shr_fexp_nonneg _ e' loc_Exact H2) as H3.
  destruct (shr_fexp 53 1024 _ e' loc_Exact) as [mrs'' e''].
  cbn [fst] in H3.
  destruct (shr_m mrs'') as [| q | q]; [discriminate | | lia].
  destruct (e'' <=? 1024 - 53); discriminate.
Qed.

Lemma double_of_int_not_nan z : double_of_int z <> S754_nan.
Proof.
  unfold double_of_int, binary_normalize, binary_round.
  destruct z as [| p | p]; [discriminate | |].
  - destruct (shl_align p 0 (fexp 53 1024 (Z.pos (digits2_pos p) + 0))).
    apply binary_round_aux_not_nan. lia.
  - destruct (shl_align p 0 (fexp 53 1024 (Z.pos (digits2_pos p) + 0))).
    apply binary_round_aux_not_nan. lia.
Qed.

Lemma double_ne_refl x : double_ne x x = false <-> x <> S754_nan.
Proof.
  unfold double_ne. split.
  - intros H ->. discriminate.
  - intros Hx. rewrite SFeqb_refl by exact Hx. reflexivity.
Qed.

(** *** The halo exchange: workgroup version against the C-style
        reference *)

Lemma set_vars_agree h m : wg_set_vars h m = c_set_vars h m.
Proof.
  unfold wg_set_vars, c_set_vars. revert m.
  induction (seq 0 (num_vars h)) as [| v vs IH]; intros m; [reflexivity |].
  cbn [fold_left]. rewrite <- c_loop_forall. apply IH.
Qed.

(** Enqueueing the loops over the variables and running them later is
    running them on the spot. *)
Lemma enqueue_then_run (mk : Ptr -> Ptr -> list Z -> LoopBody)
    (h : Halo) (index_list : list Z) (len : Z) (m : Memory) (vs : list nat) :
  forall buffer pool,
    let st :=
      fold_left
        (fun (st : Ptr * WorkPool) v =>
           (ptr_add (fst st) len,
            enqueue (snd st) (range_segment 0 len)
              (mk (fst st) (vars h v) index_list)))
        vs (buffer, pool) in
    let ct :=
      fold_left
        (fun (st : Ptr * Memory) v =>
           (ptr_add (fst st) len,
            c_loop 0 len (mk (fst st) (vars h v) index_list) (snd st)))
        vs (buffer, separate_launches (pool_entries pool) m) in
    fst st = fst ct /\
    separate_launches (pool_entries (snd st)) m = snd ct.
Proof.
  induction vs as [| v vs IH]; intros buffer pool.
  - cbn. auto.
  - cbn [fold_left fst snd].
    specialize (IH (ptr_add buffer len)
                  (enqueue pool (range_segment 0 len)
                     (mk buffer (vars h v) index_list))).
    cbv zeta in IH.
    cbn [enqueue pool_entries] in IH.
    rewrite separate_launches_app in IH.
    cbn [separate_launches fold_left fst snd] in IH.
    rewrite <- c_loop_forall in IH. exact IH.
Qed.

Lemma pack_enqueue_then_run h m ls : forall pool,
  separate_launches
    (pool_entries
       (fold_left (fun pool l => wg_enqueue_pack_neighbor h l pool) ls pool)) m =
  fold_left (fun m l => c_pack_neighbor h l m) ls
    (separate_launches (pool_entries pool) m).
Proof.
  induction ls as [| l ls IH]; intros pool; [reflexivity |].
  cbn [fold_left]. rewrite IH. f_equal.
  unfold wg_enqueue_pack_neighbor, c_pack_neighbor.
  apply (enqueue_then_run pack_body).
Qed.

Lemma unpack_enqueue_then_run h m ls : forall pool,
  separate_launches
    (pool_entries
       (fold_left (fun pool l => wg_enqueue_unpack_neighbor h l pool) ls pool)) m =
  fold_left (fun m l => c_unpack_neighbor h l m) ls
    (separate_launches (pool_entries pool) m).
Proof.
  induction ls as [| l ls IH]; intros pool; [reflexivity |].
  cbn [fold_left]. rewrite IH. f_equal.
  unfold wg_enqueue_unpack_neighbor, c_unpack_neighbor.
  apply (enqueue_then_run unpack_body).
Qed.

Lemma wg_cycle_c_cycle h m :
  wg_cycle h (new_pool, new_pool, m) = (new_pool, new_pool, c_cycle h m).
Proof.
  unfold wg_cycle, c_cycle.
  cbn [fst snd instantiate run wait site_memory group_entries].
  do 2 f_equal.
  change (fold_left
            (fun m entry => forall_loop_exec (fst entry) (snd entry) m) ?e ?x)
    with (separate_launches e x).
  rewrite unpack_enqueue_then_run. cbn [new_pool pool_entries].
  cbn [separate_launches fold_left]. f_equal.
  change (fold_left
            (fun m entry => forall_loop_exec (fst entry) (snd entry) m) ?e ?x)
    with (separate_launches e x).
  rewrite pack_enqueue_then_run. cbn [new_pool pool_entries].
  cbn [separate_launches fold_left]. f_equal.
  apply set_vars_agree.
Qed.

(** The check the example makes: after any number of cycles the loop
    workgroup version has produced the memory of the C-style reference,
    and both pools are empty again. *)
Lemma workgroup_halo_matches_c_style h num_cycles m :
  workgroup_halo_exchange h num_cycles m =
  (new_pool, new_pool, c_style_halo_exchange h num_cycles m).
Proof.
  unfold workgroup_halo_exchange, c_style_halo_exchange.
  induction num_cycles as [| n IH]; [reflexivity |].
  rewrite !Nat.iter_succ, IH. apply wg_cycle_c_cycle.
Qed.



(** Bodies that may run in either order one after the other need not be
    free of races: of two additions to the same cell one is lost when
    both threads of the fused launch load before either stores. *)
Lemma fused_increments_race :
  Forall (returns_within 2)
    (work_items {| group_entries := incrementing_bodies |}) /\
  fair 2 (length (work_items {| group_entries := incrementing_bodies |}))
    [0; 1; 0; 1]%nat /\
  fst (pipeline (unordered [0; 1; 0; 1]%nat) incrementing_bodies ∅)
    !! (0%nat, 0) = Some (double_of_int 1) /\
  separate_launches incrementing_bodies ∅ !! (0%nat, 0)
  = Some (double_of_int 2).
Proof.
  split; [| split; [| split]].
  - repeat constructor.
  - intros t Ht.
    destruct t as [| [| t]];
      [vm_compute; lia | vm_compute; lia | vm_compute in Ht; lia].
  - vm_compute. reflexivity.
  - vm_compute. reflexivity.
Qed.


(** ** More on the CUDA statement executors *)

Section CudaMoreFacts.

Variable WARP_SIZE : Z.
Variable EnclosedStmts : Data -> bool -> Data.

Local Abbreviation enclosed_stmts_exec := (enclosed_stmts_exec EnclosedStmts).
Local Abbreviation exec := (exec WARP_SIZE EnclosedStmts).

Lemma strided_loop_in_range s len i0 i_stride thread_active :
  forall fuel ii w w',
    strided_loop EnclosedStmts fuel s len i0 i_stride ii w thread_active
      = Done w' ->
    exists new,
      w_calls w' = w_calls w ++ new /\
      Forall (call_in_range len thread_active) new.
Proof.
  induction fuel as [| fuel IH]; intros ii w w' Hrun; cbn [strided_loop] in Hrun.
  - destruct (ii <? len); [discriminate |].
    injection Hrun as <-. exists []. rewrite app_nil_r. auto.
  - destruct (ii <? len); [| injection Hrun as <-; exists [];
                               rewrite app_nil_r; auto].
    destruct (in_int (ii + i0)); [| discriminate].
    destruct (in_int (ii + i_stride)); [| discriminate].
    apply IH in Hrun as (new & Hcalls & Hall).
    rewrite enclosed_after_assign in Hcalls.
    eexists. split; [rewrite Hcalls, <- app_assoc; reflexivity |].
    constructor; [| exact Hall].
    split; [reflexivity |]. cbn [call_active call_offset].
    intros Hflag. apply andb_true_iff in Hflag as [Ha Hlt].
    split; [exact Ha |]. apply Z.ltb_lt. exact Hlt.
Qed.

Lemma grid_stride_loop_in_range s len i_stride thread_active :
  forall fuel i w w',
    grid_stride_loop EnclosedStmts fuel s len i_stride i w thread_active
      = Done w' ->
    exists new,
      w_calls w' = w_calls w ++ new /\
      Forall (call_in_range len thread_active) new.
Proof.
  induction fuel as [| fuel IH]; intros i w w' Hrun;
    cbn [grid_stride_loop] in Hrun.
  - destruct (i <? len); [discriminate |].
    injection Hrun as <-. exists []. rewrite app_nil_r. auto.
  - destruct (Z.ltb_spec i len) as [Hlt | Hge];
      [| injection Hrun as <-; exists []; rewrite app_nil_r; auto].
    destruct (in_int (i + i_stride)); [| discriminate].
    apply IH in Hrun as (new & Hcalls & Hall).
    rewrite enclosed_after_assign in Hcalls.
    eexists. split; [rewrite Hcalls, <- app_assoc; reflexivity |].
    constructor; [| exact Hall].
    split; [reflexivity |]. cbn [call_active call_offset]. auto.
Qed.

Lemma seq_loop_in_range s len thread_active :
  forall fuel i w w',
    seq_loop EnclosedStmts fuel s len i w thread_active = Done w' ->
    exists new,
      w_calls w' = w_calls w ++ new /\
      Forall (call_in_range len thread_active) new.
Proof.
  induction fuel as [| fuel IH]; intros i w w' Hrun; cbn [seq_loop] in Hrun.
  - destruct (i <? len); [discriminate |].
    injection Hrun as <-. exists []. rewrite app_nil_r. auto.
  - destruct (Z.ltb_spec i len) as [Hlt | Hge];
      [| injection Hrun as <-; exists []; rewrite app_nil_r; auto].
    apply IH in Hrun as (new & Hcalls & Hall).
    rewrite enclosed_after_assign in Hcalls.
    eexists. split; [rewrite Hcalls, <- app_assoc; reflexivity |].
    constructor; [| exact Hall].
    split; [reflexivity |]. cbn [call_active call_offset]. auto.
Qed.

Lemma exec_direct_in_range s i w thread_active :
  exists new,
    w_calls (exec_direct EnclosedStmts s i w thread_active) = w_calls w ++ new /\
    Forall (call_in_range (to_int (segment_length (ArgumentId s) (w_data w)))
              thread_active) new.
Proof.
  eexists. split; [apply exec_direct_calls |].
  constructor; [| constructor].
  split; [reflexivity |]. cbn [call_active call_offset].
  intros Hflag. apply andb_true_iff in Hflag as [Ha Hlt].
  split; [exact Ha |]. apply Z.ltb_lt. exact Hlt.
Qed.

(** X1.  No executor ever runs the enclosed statements as active outside
    the segment: whenever an executor returns, on any lane and for any
    policy, every invocation it made binds offset and parameter to the
    same index, and an invocation whose flag is set has the caller's flag
    set and its index below the loop length. *)
Theorem active_calls_in_range fuel s hw w thread_active w' :
  exec fuel s hw w thread_active = Done w' ->
  exists new,
    w_calls w' = w_calls w ++ new /\
    Forall (call_in_range (loop_length s (w_data w)) thread_active) new.
Proof.
  unfold exec, loop_length, exec_strided, exec_block_loop, exec_seq.
  destruct (ExecPolicy s) eqn:Hpol; intros Hrun;
    try (injection Hrun as <-; apply exec_direct_in_range);
    try (eapply strided_loop_in_range; exact Hrun).
  - injection Hrun as <-. unfold exec_block_direct.
    destruct (Z.ltb_spec (to_int (get_cuda_dim BlockDim (blockIdx hw)))
                (to_int (segment_length (ArgumentId s) (w_data w))))
      as [Hlt | Hge].
    + eexists. split; [apply enclosed_after_assign |].
      constructor; [| constructor].
      split; [reflexivity |]. cbn [call_active call_offset]. auto.
    + exists []. rewrite app_nil_r. auto.
  - eapply grid_stride_loop_in_range; exact Hrun.
  - eapply seq_loop_in_range; exact Hrun.
Qed.

(** X2.  On an empty segment (loop length not positive) no loop executor
    and no block executor calls the enclosed statements at all: it
    returns the closure untouched, for any fuel and any stride.  The lane
    level direct executors still make their one call, with the flag
    cleared. *)
Theorem empty_segment_no_work fuel s hw w thread_active :
  loop_length s (w_data w) <= 0 ->
  0 <= lane_index s hw ->
  exec fuel s hw w thread_active =
  if is_lane_direct (ExecPolicy s)
  then Done {| w_data :=
                 EnclosedStmts
                   (assign_param (ParamId s) (lane_index s hw)
                      (assign_offset (ArgumentId s) (lane_index s hw)
                         (w_data w))) false;
               w_calls := w_calls w ++
                 [MkCall (lane_index s hw) (lane_index s hw) false] |}
  else Done w.
Proof.
  unfold loop_length, lane_index, exec.
  destruct (ExecPolicy s) eqn:Hpol; cbn [is_lane_direct]; intros Hlen Hidx;
    try (unfold exec_direct, enclosed_stmts_exec, assign; cbn;
         rewrite !fn_lookup_insert;
         match goal with
         | |- context [?i <? ?len] =>
             destruct (Z.ltb_spec i len) as [Hlt | Hge]; [lia |]
         end;
         rewrite andb_false_r; reflexivity);
    try (unfold exec_strided;
         destruct fuel; cbn [strided_loop];
         match goal with
         | |- context [0 <? ?len] =>
             destruct (Z.ltb_spec 0 len) as [Hlt | Hge]; [lia | reflexivity]
         end).
  - unfold exec_block_direct.
    match goal with
    | |- context [?i <? ?len] =>
        destruct (Z.ltb_spec i len) as [Hlt | Hge]; [lia | reflexivity]
    end.
  - unfold exec_block_loop. destruct fuel; cbn [grid_stride_loop];
      match goal with
      | |- context [?i <? ?len] =>
          destruct (Z.ltb_spec i len) as [Hlt | Hge]; [lia | reflexivity]
      end.
  - unfold exec_seq. destruct fuel; cbn [seq_loop];
      match goal with
      | |- context [0 <? ?len] =>
          destruct (Z.ltb_spec 0 len) as [Hlt | Hge]; [lia | reflexivity]
      end.
Qed.

End CudaMoreFacts.

Lemma grid_calls_unit_seqZ n : forall i thread_active,
  grid_calls n 1 i thread_active =
  map (fun j => MkCall j j thread_active) (seqZ i (Z.of_nat n)).
Proof.
  induction n as [| n IH]; intros i thread_active; [reflexivity |].
  rewrite seqZ_cons by lia. cbn [grid_calls map]. f_equal.
  rewrite IH. do 2 f_equal; lia.
Qed.

Section CudaLoopEdges.

Variable WARP_SIZE : Z.
Variable EnclosedStmts : Data -> bool -> Data.

Local Abbreviation enclosed_stmts_exec := (enclosed_stmts_exec EnclosedStmts).
Local Abbreviation exec := (exec WARP_SIZE EnclosedStmts).

(** X3.  The sequential executor, on whatever lane it runs, calls the
    enclosed statements for [i = 0, 1, ..., len-1] in this order, once
    each, and hands every call the caller's flag unchanged: it never
    clears the flag itself. *)
Theorem seq_exec_iterates_in_order fuel a p hw w thread_active :
  let s := MkForICount a p seq_exec in
  let len := segment_length a (w_data w) in
  (Z.to_nat len <= fuel)%nat ->
  exists w',
    exec fuel s hw w thread_active = Done w' /\
    w_calls w' = w_calls w ++
      map (fun i => MkCall i i thread_active) (seqZ 0 len).
Proof.
  intros s len Hfuel. unfold exec. cbn [ExecPolicy s]. unfold exec_seq.
  cbn [ArgumentId s]. fold len.
  destruct (seq_loop_calls EnclosedStmts s len thread_active fuel 0 w)
    as (w' & Hrun & Hcalls); [lia |].
  exists w'. split; [exact Hrun |].
  rewrite Hcalls, grid_calls_unit_seqZ. do 2 f_equal.
  unfold seqZ. f_equal. f_equal. lia.
Qed.

Lemma strided_loop_overflows s len i0 i_stride thread_active :
  0 < i_stride ->
  forall fuel ii w,
    0 <= ii <= INT_MAX ->
    INT_MAX < ii + Z.of_nat (chunks_from len i_stride ii) * i_stride ->
    (chunks_from len i_stride ii <= fuel)%nat ->
    strided_loop EnclosedStmts fuel s len i0 i_stride ii w thread_active
      = Undefined.
Proof.
  intros Hs. induction fuel as [| fuel IH]; intros ii w Hii Hover Hfuel.
  - lia.
  - destruct (Z_lt_le_dec ii len) as [Hlt | Hge].
    2: { rewrite chunks_from_done in Hover by lia. lia. }
    rewrite (chunks_from_step len i_stride ii Hs Hlt) in Hover, Hfuel.
    cbn [strided_loop]. destruct (Z.ltb_spec ii len); [| lia].
    destruct (in_int (ii + i0)); [| reflexivity].
    destruct (in_int (ii + i_stride)) eqn:Hnext; [| reflexivity].
    apply IH.
    + unfold in_int in Hnext. apply andb_true_iff in Hnext as [_ Hle].
      apply Z.leb_le in Hle. lia.
    + lia.
    + lia.
Qed.

Lemma grid_stride_loop_overflows s len i_stride thread_active :
  0 < i_stride ->
  forall fuel i w,
    i <= INT_MAX ->
    INT_MAX < i + Z.of_nat (chunks_from len i_stride i) * i_stride ->
    (chunks_from len i_stride i <= fuel)%nat ->
    grid_stride_loop EnclosedStmts fuel s len i_stride i w thread_active
      = Undefined.
Proof.
  intros Hs. induction fuel as [| fuel IH]; intros i w Hi Hover Hfuel.
  - lia.
  - destruct (Z_lt_le_dec i len) as [Hlt | Hge].
    2: { rewrite chunks_from_done in Hover by lia. lia. }
    rewrite (chunks_from_step len i_stride i Hs Hlt) in Hover, Hfuel.
    cbn [grid_stride_loop]. destruct (Z.ltb_spec i len); [| lia].
    destruct (in_int (i + i_stride)) eqn:Hnext; [| reflexivity].
    apply IH.
    + unfold in_int in Hnext. apply andb_true_iff in Hnext as [_ Hle].
      apply Z.leb_le in Hle. lia.
    + lia.
    + lia.
Qed.

(** X4.  The strided loops count in [int]: when the chunk base that ends
    the loop, (number of chunks) * stride past the start, lies beyond
    [INT_MAX], the last [ii += i_stride] (or [i += i_stride] of the block
    loop) overflows and the executor's behaviour is undefined, however
    much fuel it is given.  Segments within one stride of [INT_MAX] are
    outside what the loop executors support. *)
Theorem loop_exec_overflow fuel s hw w thread_active :
  let i0 := lane_index s hw in
  let i_stride := lane_stride WARP_SIZE s hw in
  let len := to_int (segment_length (ArgumentId s) (w_data w)) in
  0 < i_stride ->
  (is_lane_loop (ExecPolicy s) = true ->
   INT_MAX < Z.of_nat (chunks_from len i_stride 0) * i_stride ->
   (chunks_from len i_stride 0 <= fuel)%nat ->
   exec fuel s hw w thread_active = Undefined) /\
  (forall d, ExecPolicy s = cuda_block_xyz_loop d ->
   INT_MAX < i0 + Z.of_nat (chunks_from len i_stride i0) * i_stride ->
   (chunks_from len i_stride i0 <= fuel)%nat ->
   exec fuel s hw w thread_active = Undefined).
Proof.
  intros i0 i_stride len Hs. split.
  - intros Hloop Hover Hfuel.
    rewrite exec_lane_loop by exact Hloop.
    unfold exec_strided. fold i0 i_stride len.
    apply strided_loop_overflows; try assumption; unfold INT_MAX; lia.
  - intros d Hpol Hover Hfuel.
    assert (exec fuel s hw w thread_active =
            grid_stride_loop EnclosedStmts fuel s len i_stride i0 w
              thread_active) as ->.
    { unfold exec, exec_block_loop.
      subst i0 i_stride len. unfold lane_index, lane_stride.
      rewrite Hpol. reflexivity. }
    apply grid_stride_loop_overflows; try assumption.
    subst i0. unfold lane_index. rewrite Hpol. apply to_int_range.
Qed.

(** X5.  Lanes of a thread, warp or masked loop stay in step: two lanes
    that run the same statement on the same closure with the same stride
    call the enclosed statements the same number of times, one call per
    chunk, whatever their lane indices.  (A barrier inside the enclosed
    statements is therefore reached equally often by both.) *)
Theorem loop_lanes_call_equally_often fuel s hw1 hw2 w thread_active :
  let i_stride := lane_stride WARP_SIZE s hw1 in
  let len := to_int (segment_length (ArgumentId s) (w_data w)) in
  is_lane_loop (ExecPolicy s) = true ->
  lane_stride WARP_SIZE s hw2 = i_stride ->
  0 < i_stride -> len + i_stride <= INT_MAX ->
  len + lane_index s hw1 <= INT_MAX ->
  len + lane_index s hw2 <= INT_MAX ->
  (chunks_from len i_stride 0 <= fuel)%nat ->
  exists w1 w2,
    exec fuel s hw1 w thread_active = Done w1 /\
    exec fuel s hw2 w thread_active = Done w2 /\
    length (w_calls w1) =
      (length (w_calls w) + chunks_from len i_stride 0)%nat /\
    length (w_calls w2) = length (w_calls w1).
Proof.
  intros i_stride len Hloop Hsame Hs Hlens H1 H2 Hfuel.
  assert (forall n i0 ii, length (strided_calls n len i0 i_stride ii thread_active) = n)
    as Hlen.
  { induction n as [| n IH]; intros i0 ii; [reflexivity |].
    cbn [strided_calls length]. rewrite IH. reflexivity. }
  assert (forall hw, INT_MIN <= lane_index s hw) as Hlow.
  { intros hw. unfold lane_index.
    destruct (ExecPolicy s); try discriminate; apply to_int_range. }
  rewrite !exec_lane_loop by exact Hloop.
  unfold exec_strided. rewrite Hsame. fold i_stride len.
  destruct (strided_loop_calls EnclosedStmts s len (lane_index s hw1) i_stride
              thread_active Hs (Hlow hw1) H1 Hlens fuel 0 w)
    as (w1 & Hrun1 & Hcalls1); [lia | exact Hfuel |].
  destruct (strided_loop_calls EnclosedStmts s len (lane_index s hw2) i_stride
              thread_active Hs (Hlow hw2) H2 Hlens fuel 0 w)
    as (w2 & Hrun2 & Hcalls2); [lia | exact Hfuel |].
  exists w1, w2. repeat split; try assumption.
  - rewrite Hcalls1, length_app, Hlen. reflexivity.
  - rewrite Hcalls1, Hcalls2, !length_app, !Hlen. reflexivity.
Qed.

End CudaLoopEdges.

Lemma active_calls_in_range_witness :
  let s := MkForICount 0 0 (cuda_thread_xyz_direct DimX) in
  let hw := lane_at (2, 0, 0) (0, 0, 0) (8, 1, 1) (1, 1, 1) in
  let w := {| w_data := data_of_length 3; w_calls := [] |} in
  let w' := {| w_data := assign_param 0 2 (assign_offset 0 2 (data_of_length 3));
               w_calls := [MkCall 2 2 true] |} in
  exec 32 no_stmts 0 s hw w true = Done w' /\
  exists new,
    w_calls w' = w_calls w ++ new /\
    Forall (call_in_range (loop_length s (w_data w)) true) new.
Proof.
  intros s hw w w'.
  assert (exec 32 no_stmts 0 s hw w true = Done w') as H by reflexivity.
  split; [exact H |].
  exact (active_calls_in_range 32 no_stmts 0 s hw w true w' H).
Defined.

Lemma empty_segment_no_work_witness :
  let s := MkForICount 0 0 (cuda_block_xyz_loop DimY) in
  let hw := lane_at (0, 0, 0) (0, 2, 0) (1, 1, 1) (1, 4, 1) in
  let w := {| w_data := data_of_length 0; w_calls := [] |} in
  (loop_length s (w_data w) <= 0 /\ 0 <= lane_index s hw) /\
  exec 32 no_stmts 0 s hw w true = Done w.
Proof.
  intros s hw w.
  assert (loop_length s (w_data w) <= 0) as H1 by (vm_compute; discriminate).
  assert (0 <= lane_index s hw) as H2 by (vm_compute; discriminate).
  split; [exact (conj H1 H2) |].
  exact (empty_segment_no_work 32 no_stmts 0 s hw w true H1 H2).
Defined.

Lemma seq_exec_iterates_in_order_witness :
  let hw := lane_at (5, 0, 0) (0, 0, 0) (8, 1, 1) (1, 1, 1) in
  let w := {| w_data := data_of_length 3; w_calls := [] |} in
  (Z.to_nat (segment_length 0 (w_data w)) <= 3)%nat /\
  exists w',
    exec 32 no_stmts 3 (MkForICount 0 0 seq_exec) hw w false = Done w' /\
    w_calls w' = [MkCall 0 0 false; MkCall 1 1 false; MkCall 2 2 false].
Proof.
  intros hw w.
  assert (Z.to_nat (segment_length 0 (w_data w)) <= 3)%nat as H
    by (vm_compute; lia).
  split; [exact H |].
  exact (seq_exec_iterates_in_order 32 no_stmts 3 0 0 hw w false H).
Defined.

Lemma loop_exec_overflow_witness :
  let s := MkForICount 0 0 (cuda_thread_masked_loop (BitMask 30 0)) in
  let hw := lane_at (5, 0, 0) (0, 0, 0) (1024, 1, 1) (1, 1, 1) in
  let w := {| w_data := data_of_length 1073741825; w_calls := [] |} in
  (0 < lane_stride 32 s hw /\
   is_lane_loop (ExecPolicy s) = true /\
   INT_MAX <
     Z.of_nat (chunks_from (to_int (segment_length (ArgumentId s) (w_data w)))
                 (lane_stride 32 s hw) 0) * lane_stride 32 s hw /\
   (chunks_from (to_int (segment_length (ArgumentId s) (w_data w)))
      (lane_stride 32 s hw) 0 <= 2)%nat) /\
  exec 32 no_stmts 2 s hw w true = Undefined.
Proof.
  intros s hw w.
  assert (0 < lane_stride 32 s hw) as H1 by (vm_compute; reflexivity).
  assert (INT_MAX <
          Z.of_nat (chunks_from (to_int (segment_length (ArgumentId s) (w_data w)))
                      (lane_stride 32 s hw) 0) * lane_stride 32 s hw) as H2
    by (vm_compute; reflexivity).
  assert (chunks_from (to_int (segment_length (ArgumentId s) (w_data w)))
            (lane_stride 32 s hw) 0 <= 2)%nat as H3 by (vm_compute; lia).
  split; [exact (conj H1 (conj eq_refl (conj H2 H3))) |].
  exact (proj1 (loop_exec_overflow 32 no_stmts 2 s hw w true H1) eq_refl H2 H3).
Defined.

Lemma loop_lanes_call_equally_often_witness :
  let s := MkForICount 0 0 cuda_warp_loop in
  let hw1 := lane_at (0, 0, 0) (0, 0, 0) (32, 1, 1) (1, 1, 1) in
  let hw2 := lane_at (31, 0, 0) (0, 0, 0) (32, 1, 1) (1, 1, 1) in
  let w := {| w_data := data_of_length 40; w_calls := [] |} in
  let len := to_int (segment_length (ArgumentId s) (w_data w)) in
  (is_lane_loop (ExecPolicy s) = true /\
   lane_stride 32 s hw2 = lane_stride 32 s hw1 /\
   0 < lane_stride 32 s hw1 /\
   len + lane_stride 32 s hw1 <= INT_MAX /\
   len + lane_index s hw1 <= INT_MAX /\
   len + lane_index s hw2 <= INT_MAX /\
   (chunks_from len (lane_stride 32 s hw1) 0 <= 2)%nat) /\
  exists w1 w2,
    exec 32 no_stmts 2 s hw1 w true = Done w1 /\
    exec 32 no_stmts 2 s hw2 w true = Done w2 /\
    length (w_calls w1) =
      (length (w_calls w) + chunks_from len (lane_stride 32 s hw1) 0)%nat /\
    length (w_calls w2) = length (w_calls w1).
Proof.
  intros s hw1 hw2 w len.
  assert (0 < lane_stride 32 s hw1) as H3 by (vm_compute; reflexivity).
  assert (len + lane_stride 32 s hw1 <= INT_MAX) as H4
    by (vm_compute; discriminate).
  assert (len + lane_index s hw1 <= INT_MAX) as H5
    by (vm_compute; discriminate).
  assert (len + lane_index s hw2 <= INT_MAX) as H6
    by (vm_compute; discriminate).
  assert (chunks_from len (lane_stride 32 s hw1) 0 <= 2)%nat as H7
    by (vm_compute; lia).
  split; [exact (conj eq_refl (conj eq_refl (conj H3 (conj H4 (conj H5 (conj H6 H7)))))) |].
  exact (loop_lanes_call_equally_often 32 no_stmts 2 s hw1 hw2 w true
           eq_refl eq_refl H3 H4 H5 H6 H7).
Defined.

(** ** The SYCL kernel statements *)

Section SyclStatementFacts.

Variable SyclData : Type.
Variable LaunchDims : Type.
Variable calculateDimensions : SyclData -> LaunchDims.

Local Abbreviation Queue := (Queue SyclData LaunchDims).
Local Abbreviation exec1 :=
  (StatementExecutor_exec SyclData LaunchDims calculateDimensions).
Local Abbreviation kernels :=
  (run_kernels SyclData LaunchDims calculateDimensions).

(** The trivially-copyable launch: one more kernel in flight, or none at
    all after the wait. *)
Lemma trivial_launch_effect async0 data launch_dims shmem (q : Queue) :
  let q' := snd (SyclLaunchHelper_launch SyclData LaunchDims async0 data
                   launch_dims shmem q) in
  let k := MkKernel SyclData LaunchDims (fresh (q_events _ _ q)) launch_dims
             (ByValue _ data) in
  q_heap _ _ q' = q_heap _ _ q /\
  q_faults _ _ q' = q_faults _ _ q /\
  q_events _ _ q' = {[ fresh (q_events _ _ q) ]} ∪ q_events _ _ q /\
  q_in_flight _ _ q' = if async0 then q_in_flight _ _ q ++ [k] else [].
Proof.
  intros q' k. subst q'. unfold SyclLaunchHelper_launch, qbind.
  destruct (submit SyclData LaunchDims launch_dims (ByValue _ data) q)
    as [e q1] eqn:E1.
  apply submit_effect in E1 as (He & Hh1 & Hf1 & Hev1 & Hl1 & Hx1).
  subst e. cbn [payload_ready] in Hx1. rewrite app_nil_r in Hx1.
  destruct async0; cbn [negb].
  - unfold qret. cbn [snd]. auto.
  - destruct (queue_wait SyclData LaunchDims q1) as [u q2] eqn:E2.
    apply queue_wait_effect in E2 as (Hh2 & Hf2 & Hev2 & Hl2 & Hx2).
    cbn [snd]. rewrite Hh2, Hx2, Hev2. auto.
Qed.

(** The non-trivially-copyable launch: apart from the events it used up,
    the queue is as before. *)
Lemma nontrivial_launch_effect async0 data launch_dims shmem (q : Queue) :
  no_dangling SyclData LaunchDims q ->
  events_known SyclData LaunchDims q ->
  let q' := snd (SyclLaunchHelperNonTrivial_launch SyclData LaunchDims async0
                   data launch_dims shmem q) in
  q_heap _ _ q' = q_heap _ _ q /\
  q_faults _ _ q' = q_faults _ _ q /\
  q_events _ _ q ⊆ q_events _ _ q' /\
  q_in_flight _ _ q' = q_in_flight _ _ q.
Proof.
  intros Hdangling Hevents q'. subst q'.
  unfold SyclLaunchHelperNonTrivial_launch, qbind.
  destruct (malloc_device SyclData LaunchDims q) as [p q1] eqn:E1.
  destruct (memcpy SyclData LaunchDims p data q1) as [copied q2] eqn:E2.
  destruct (event_wait SyclData LaunchDims copied q2) as [u3 q3] eqn:E3.
  destruct (submit SyclData LaunchDims launch_dims (ByPointer _ p) q3)
    as [launched q4] eqn:E4.
  destruct (event_wait SyclData LaunchDims launched q4) as [u5 q5] eqn:E5.
  destruct (free SyclData LaunchDims p q5) as [u6 q6] eqn:E6.
  cbn [snd].
  apply malloc_device_effect in E1 as (Hp & Hh1 & Hf1 & He1 & Hl1 & Hx1).
  apply memcpy_effect in E2 as (Hc & Hh2 & Hf2 & He2 & Hl2 & Hx2).
  apply event_wait_effect in E3 as (Hh3 & Hf3 & He3 & Hl3 & Hx3).
  apply submit_effect in E4 as (Hk & Hh4 & Hf4 & He4 & Hl4 & Hx4).
  apply event_wait_effect in E5 as (Hh5 & Hf5 & He5 & Hl5 & Hx5).
  apply free_effect in E6 as (Hh6 & Hf6 & He6 & Hl6 & Hx6).
  assert (q_heap _ _ q !! p = None) as Hfresh.
  { apply not_elem_of_dom. rewrite Hp. apply is_fresh. }
  assert (copied ∉ q_events _ _ q) as Hcopied.
  { rewrite Hc, He1. apply is_fresh. }
  assert (launched ∉ q_events _ _ q) as Hlaunched.
  { assert (launched ∉ q_events _ _ q3) as Hnew by (rewrite Hk; apply is_fresh).
    rewrite He3, He2, He1 in Hnew.
    apply not_elem_of_union in Hnew as [_ Hnew]. exact Hnew. }
  assert (q_in_flight _ _ q3 = q_in_flight _ _ q) as Hsame3.
  { rewrite Hf3, Hf2, Hf1. apply filter_keep_all.
    intros k Hin. apply negb_true_iff, Nat.eqb_neq.
    intros Heq. apply Hcopied. rewrite <- Heq. apply Hevents. exact Hin. }
  assert (q_in_flight _ _ q5 = q_in_flight _ _ q) as Hsame5.
  { rewrite Hf5, Hf4, Hsame3, List.filter_app.
    cbn [List.filter k_event].
    rewrite Nat.eqb_refl. cbn [negb]. rewrite app_nil_r.
    apply filter_keep_all.
    intros k Hin. apply negb_true_iff, Nat.eqb_neq.
    intros Heq. apply Hlaunched. rewrite <- Heq. apply Hevents. exact Hin. }
  repeat split.
  - rewrite Hh6, Hh5, Hh4, Hh3, Hh2, Hh1.
    rewrite insert_insert_eq, delete_insert_eq.
    apply delete_id. exact Hfresh.
  - rewrite Hx6, Hx5, Hx4, Hx3, Hx2, Hx1.
    unfold payload_ready. rewrite Hh3, Hh2, lookup_insert_eq.
    rewrite Hsame5.
    rewrite (filter_drop_all (references _ _ p)).
    + cbn. rewrite !app_nil_r. reflexivity.
    + intros k Hin. unfold references.
      destruct (k_payload _ _ k) as [d | p'] eqn:Hpl; [reflexivity |].
      apply Nat.eqb_neq. intros ->.
      destruct (Hdangling k p Hin Hpl) as [v Hv].
      change (q_heap SyclData LaunchDims q !! p = Some v) in Hv.
      congruence.
  - rewrite He6, He5, He4, He3, He2, He1.
    intros e He. apply elem_of_union_r, elem_of_union_r. exact He.
  - rewrite Hf6. exact Hsame5.
Qed.

(** One kernel statement keeps the queue in order, allocates nothing that
    outlives it, and records no fault. *)
Lemma exec1_keeps_ok stmt data (q : Queue) :
  queue_ok _ _ q ->
  let q' := snd (exec1 stmt data q) in
  queue_ok _ _ q' /\
  q_faults _ _ q' = q_faults _ _ q /\
  q_heap _ _ q' = q_heap _ _ q /\
  length (q_in_flight _ _ q') = pending [(stmt, data)] (length (q_in_flight _ _ q)).
Proof.
  intros (Hdangling & Hevents & Hnodup) q'. subst q'.
  unfold exec1, StatementExecutor_exec.
  destruct stmt as [async0 | async0].
  - destruct (trivial_launch_effect async0 data (calculateDimensions data) 0 q)
      as (Hh & Hx & He & Hf).
    split; [| split; [exact Hx | split; [exact Hh |]]].
    + unfold queue_ok, no_dangling, events_known.
      rewrite Hh, He, Hf. destruct async0.
      * split; [| split].
        -- intros k p Hin Hpl. apply in_app_or in Hin as [Hin | [<- | []]].
           ++ apply (Hdangling k p Hin Hpl).
           ++ discriminate.
        -- intros k Hin. apply in_app_or in Hin as [Hin | [<- | []]].
           ++ apply elem_of_union_r. apply Hevents. exact Hin.
           ++ apply elem_of_union_l, elem_of_singleton. reflexivity.
        -- rewrite map_app. cbn [map k_event].
           apply NoDup_ListNoDup, NoDup_app. repeat split.
           ++ apply NoDup_ListNoDup. exact Hnodup.
           ++ intros e Hin Hnew. apply list_elem_of_In in Hin, Hnew.
              destruct Hnew as [<- | []].
              apply in_map_iff in Hin as (k & Hk & Hin).
              apply (is_fresh (q_events _ _ q)). rewrite <- Hk.
              apply Hevents. exact Hin.
           ++ apply NoDup_singleton.
      * split; [| split].
        -- intros k p [].
        -- intros k [].
        -- constructor.
    + rewrite Hf. destruct async0; cbn [pending].
      * rewrite length_app. cbn. lia.
      * reflexivity.
  - destruct (nontrivial_launch_effect async0 data (calculateDimensions data)
                0 q Hdangling Hevents) as (Hh & Hx & He & Hf).
    split; [| split; [exact Hx | split; [exact Hh |]]].
    + unfold queue_ok, no_dangling, events_known.
      rewrite Hh, Hf. split; [exact Hdangling | split; [| exact Hnodup]].
      intros k Hin. apply He. apply Hevents. exact Hin.
    + rewrite Hf. reflexivity.
Qed.

Lemma run_kernels_keeps_ok prog : forall q : Queue,
  queue_ok _ _ q ->
  let q' := snd (kernels prog q) in
  queue_ok _ _ q' /\
  q_faults _ _ q' = q_faults _ _ q /\
  q_heap _ _ q' = q_heap _ _ q /\
  length (q_in_flight _ _ q') = pending prog (length (q_in_flight _ _ q)).
Proof.
  induction prog as [| [stmt data] rest IH]; intros q Hok.
  - cbn. auto.
  - cbn [run_kernels]. unfold qbind.
    destruct (exec1_keeps_ok stmt data q Hok) as (Hok1 & Hx1 & Hh1 & Hn1).
    destruct (exec1 stmt data q) as [u q1]. cbn [snd] in *.
    destruct (IH q1 Hok1) as (Hok2 & Hx2 & Hh2 & Hn2).
    split; [exact Hok2 |]. split; [congruence |]. split; [congruence |].
    rewrite Hn2, Hn1. destruct stmt as [[|] | ?]; reflexivity.
Qed.

(** X6.  Kernel statements compose safely: any sequence of SYCL kernel
    statements (synchronous, asynchronous and non-trivial ones, in any
    mix), started on a queue in order, records no fault, in particular no
    device buffer freed under a running kernel; it leaves the device heap
    as it found it, so no temporary closure copy leaks; and it leaves the
    queue in order for the next statement. *)
Theorem kernel_sequence_safe prog (q : Queue) :
  queue_ok _ _ q ->
  let q' := snd (kernels prog q) in
  queue_ok _ _ q' /\ q_faults _ _ q' = q_faults _ _ q /\ q_heap _ _ q' = q_heap _ _ q.
Proof.
  intros Hok q'.
  destruct (run_kernels_keeps_ok prog q Hok) as (H1 & H2 & H3 & _).
  auto.
Qed.

(** X7.  What a sequence of kernel statements leaves in flight: every
    asynchronous [SyclKernelAsync] adds one kernel, a synchronous
    [SyclKernel] waits for the whole queue and so also for every kernel
    submitted asynchronously before it, and a non-trivial launch waits for
    its own kernel only.  The kernels left in flight carry pairwise
    different events. *)
Theorem kernel_sequence_in_flight prog (q : Queue) :
  queue_ok _ _ q ->
  let q' := snd (kernels prog q) in
  length (q_in_flight _ _ q') = pending prog (length (q_in_flight _ _ q)) /\
  List.NoDup (map (k_event _ _) (q_in_flight _ _ q')).
Proof.
  intros Hok q'.
  destruct (run_kernels_keeps_ok prog q Hok) as ((_ & _ & H1) & _ & _ & H4).
  auto.
Qed.

End SyclStatementFacts.

Lemma idle_queue_ok : queue_ok Z Z idle_queue.
Proof.
  split; [| split].
  - intros k p [].
  - intros k [].
  - constructor.
Qed.

Lemma kernel_sequence_safe_witness :
  let prog :=
    [(SyclKernelAsync, 1); (SyclKernelNonTrivial, 2); (SyclKernel, 3)] in
  let q' := snd (run_kernels Z Z (fun d => 64 * d) prog idle_queue) in
  queue_ok Z Z idle_queue /\
  (queue_ok Z Z q' /\
   q_faults Z Z q' = q_faults Z Z idle_queue /\
   q_heap Z Z q' = q_heap Z Z idle_queue).
Proof.
  intros prog q'. split; [exact idle_queue_ok |].
  exact (kernel_sequence_safe Z Z (fun d => 64 * d) prog idle_queue
           idle_queue_ok).
Defined.

Lemma kernel_sequence_in_flight_witness :
  let prog :=
    [(SyclKernelAsync, 1); (SyclKernel, 2); (SyclKernelAsync, 3);
     (SyclKernelNonTrivial, 4); (SyclKernelAsync, 5)] in
  let q' := snd (run_kernels Z Z (fun d => 64 * d) prog idle_queue) in
  queue_ok Z Z idle_queue /\
  (length (q_in_flight Z Z q') = 2%nat /\
   List.NoDup (map (k_event Z Z) (q_in_flight Z Z q'))).
Proof.
  intros prog q'. split; [exact idle_queue_ok |].
  exact (kernel_sequence_in_flight Z Z (fun d => 64 * d) prog idle_queue
           idle_queue_ok).
Defined.

(** ** Reductions over a split loop *)

Lemma split_chunks_concat {A : Type} (sizes : list nat) : forall l : list A,
  concat (split_chunks sizes l) = l.
Proof.
  induction sizes as [| n sizes IH]; intros l; cbn [split_chunks concat].
  - apply app_nil_r.
  - rewrite IH. apply take_drop.
Qed.

Section ReduceChunks.

Variable T : Type.
Variable OP : T -> T -> T.
Variable identity : T.

Hypothesis OP_assoc : forall a b c, OP a (OP b c) = OP (OP a b) c.
Hypothesis identity_r : forall a, OP a identity = a.

Lemma fold_left_OP_shift (l : list T) : forall a b,
  OP a (fold_left OP l b) = fold_left OP l (OP a b).
Proof.
  induction l as [| x l IH]; intros a b; cbn [fold_left].
  - reflexivity.
  - rewrite IH, OP_assoc. reflexivity.
Qed.

Lemma combined_concat (chunks : list (list T)) : forall acc,
  fold_left (fun acc chunk => OP acc (fold_left OP chunk identity)) chunks acc =
  fold_left OP (concat chunks) acc.
Proof.
  induction chunks as [| chunk chunks IH]; intros acc; cbn [fold_left concat].
  - reflexivity.
  - rewrite IH, fold_left_app, fold_left_OP_shift, identity_r. reflexivity.
Qed.

(** X8.  The split of a loop among threads does not show in the result of
    a reduction: for an associative operator whose [identity()] is neutral
    on the right, [init] on every thread, [combine] of the partial
    reducers in order and [resolve] leave in the target the operator
    applied to the fold over all elements, in loop order, and to the
    target's initial value, however the elements were split into chunks
    (empty chunks included).  Commutativity is not needed. *)
Theorem reduction_independent_of_split (chunks : list (list T))
    (red : Reducer T) :
  target (forall_reduce T OP identity chunks red) =
  OP (fold_left OP (concat chunks) identity) (target red).
Proof.
  rewrite forall_reduce_target. unfold combined.
  rewrite combined_concat. reflexivity.
Qed.

End ReduceChunks.

Lemma reduction_independent_of_split_witness :
  let chunks := [[1; 2]; []; [3]; [4; 5; 6]] in
  ((forall a b c : Z, a + (b + c) = a + b + c) /\
   (forall a : Z, a + 0 = a)) /\
  target (forall_reduce Z Z.add 0 chunks (MkReducer 100 7)) = 21 + 100.
Proof.
  intros chunks.
  assert (forall a b c : Z, a + (b + c) = a + b + c) as H1 by (intros; lia).
  assert (forall a : Z, a + 0 = a) as H2 by (intros; lia).
  split; [exact (conj H1 H2) |].
  exact (reduction_independent_of_split Z Z.add 0 H1 H2 chunks
           (MkReducer 100 7)).
Defined.

(** ** The ReduceMax test over several loops *)

Lemma maximum_Zmax a b : maximum a b = Z.max a b.
Proof.
  unfold maximum. destruct (Z.ltb_spec a b); lia.
Qed.

Lemma RAJA_MAX_Zmax a b : RAJA_MAX a b = Z.max a b.
Proof.
  unfold RAJA_MAX. destruct (Z.ltb_spec a b); lia.
Qed.

Lemma fold_maximum_Zmax (l : list Z) : forall a,
  fold_left maximum l a = fold_left Z.max l a.
Proof.
  induction l as [| x l IH]; intros a; cbn [fold_left].
  - reflexivity.
  - rewrite maximum_Zmax. apply IH.
Qed.

Lemma fold_max_shift (l : list Z) : forall a b,
  fold_left Z.max l (Z.max a b) = Z.max a (fold_left Z.max l b).
Proof.
  induction l as [| x l IH]; intros a b; cbn [fold_left].
  - reflexivity.
  - rewrite <- IH. f_equal. lia.
Qed.

Lemma fold_max_ge (l : list Z) a : a <= fold_left Z.max l a.
Proof.
  replace a with (Z.max a a) at 2 by lia. rewrite fold_max_shift. lia.
Qed.

Lemma fold_max_bound (l : list Z) bound : forall a,
  a <= bound -> Forall (fun x => x <= bound) l ->
  fold_left Z.max l a <= bound.
Proof.
  induction l as [| x l IH]; intros a Ha Hall; cbn [fold_left].
  - exact Ha.
  - apply Forall_cons_1 in Hall as [Hx Hall]. apply IH; [lia | exact Hall].
Qed.

(** A start value between another one and that one's result gives the
    same result. *)
Lemma fold_max_base (l : list Z) b c :
  b <= c <= fold_left Z.max l b ->
  fold_left Z.max l c = fold_left Z.max l b.
Proof.
  intros Hc. replace c with (Z.max c b) by lia.
  rewrite fold_max_shift. lia.
Qed.

Lemma fold_max_double (l : list Z) : forall a,
  fold_left Z.max (map (Z.mul 2) l) (2 * a) = 2 * fold_left Z.max l a.
Proof.
  induction l as [| x l IH]; intros a; cbn [fold_left map].
  - reflexivity.
  - rewrite <- IH. f_equal. lia.
Qed.

(** Storing a larger value in a cell. *)
Lemma fold_max_insert (l : list Z) r : forall (i : nat) a,
  (i < length l)%nat -> nth i l 0 < r ->
  fold_left Z.max (<[i := r]> l) a = Z.max (fold_left Z.max l a) r.
Proof.
  induction l as [| x l IH]; intros i a Hi Hlt.
  - cbn in Hi. lia.
  - destruct i as [| i].
    + cbn in Hlt |- *.
      pose proof (fold_max_shift l r x) as Hr.
      replace (Z.max r x) with r in Hr by lia.
      rewrite (fold_max_shift l a r), (fold_max_shift l a x), Hr. lia.
    + cbn in Hi, Hlt |- *. apply IH; [lia | exact Hlt].
Qed.

(** What a max reducer holds after a loop. *)
Lemma reduce_max_fold lowest sizes values current :
  lowest <= current ->
  reduce_max lowest sizes values current = fold_left Z.max values current.
Proof.
  intros Hlow. unfold reduce_max.
  rewrite forall_reduce_target. cbn [target]. unfold combined.
  assert (forall chunks acc, lowest <= acc ->
            fold_left
              (fun acc chunk => maximum acc (fold_left maximum chunk lowest))
              chunks acc =
            fold_left Z.max (concat chunks) acc) as Hfold.
  { induction chunks as [| chunk chunks IH]; intros acc Hacc;
      cbn [fold_left concat].
    - reflexivity.
    - rewrite fold_left_app, maximum_Zmax, fold_maximum_Zmax.
      rewrite <- fold_max_shift. replace (Z.max acc lowest) with acc by lia.
      apply IH. pose proof (fold_max_ge chunk acc). lia. }
  rewrite Hfold by lia. rewrite split_chunks_concat, maximum_Zmax.
  rewrite Z.max_comm, <- fold_max_shift.
  replace (Z.max current lowest) with current by lia. reflexivity.
Qed.

Lemma read_lookup (a : list Z) (i : Z) :
  read a i = default 0 (a !! Z.to_nat i).
Proof.
  unfold read. apply nth_lookup.
Qed.

(** Reading all cells of an array gives the array. *)
Lemma map_read_all (a : list Z) :
  map (read a) (seqZ 0 (Z.of_nat (length a))) = a.
Proof.
  apply list_eq. intros i.
  change (map (read a) (seqZ 0 (Z.of_nat (length a))))
    with (read a <$> seqZ 0 (Z.of_nat (length a))).
  rewrite list_lookup_fmap.
  destruct (a !! i) as [x |] eqn:Hx.
  - pose proof (lookup_lt_Some _ _ _ Hx) as Hi.
    rewrite lookup_seqZ_lt by lia. cbn [fmap option_fmap option_map].
    rewrite read_lookup, Z.add_0_l, Nat2Z.id, Hx. reflexivity.
  - apply lookup_ge_None in Hx.
    rewrite lookup_seqZ_ge by lia. reflexivity.
Qed.

Lemma memcpy_cells_all (src dst : list Z) :
  length dst = length src -> memcpy_cells (length src) src dst = src.
Proof.
  intros Hlen. unfold memcpy_cells.
  rewrite firstn_all, drop_ge by lia. apply app_nil_r.
Qed.

(** The store of a roll keeps the test going, also the first one, which
    finds the working array as allocated. *)
Lemma store_roll_running last d (s : ReduceMaxTest) :
  0 <= max_index d < last -> -100 <= roll d <= 100 ->
  test_running last s \/
  (test_array s = replicate (Z.to_nat last) default_val /\
   length (working_array s) = Z.to_nat last /\
   current_max s = default_val /\
   max0 s = default_val /\ max1 s = default_val /\ max2 s = big_val) ->
  test_running last (store_roll last d s).
Proof.
  intros Hidx Hroll Hstate.
  assert (length (test_array s) = Z.to_nat last /\
          length (working_array s) = Z.to_nat last /\
          Forall (fun x => default_val <= x <= 100) (test_array s) /\
          current_max s = fold_left Z.max (test_array s) default_val /\
          default_val <= max0 s <= current_max s /\
          default_val <= max1 s /\ max2 s = big_val)
    as (Hlen & Hwlen & Hall & Hmax & H0 & H1 & H2).
  { destruct Hstate as [(Hlen & Hw & Hall & Hmax & _ & H0 & H1 & H2) |
                        (Ht & Hw & Hmax & H0 & H1 & H2)].
    - rewrite Hw. repeat split; try assumption; lia.
    - rewrite Ht, length_replicate, Hmax, H0, H1.
      assert (forall n, fold_left Z.max (replicate n default_val) default_val
                        = default_val) as Hrep.
      { induction n as [| n IH]; cbn; [reflexivity |].
        rewrite Z.max_id. exact IH. }
      rewrite Hrep. repeat split; try assumption; try lia.
      apply Forall_replicate. unfold default_val, SHRT_MAX. lia. }
  unfold store_roll.
  destruct (Z.ltb_spec (read (test_array s) (max_index d)) (roll d))
    as [Hlt | Hge].
  - assert (length (<[Z.to_nat (max_index d) := roll d]> (test_array s)) =
            Z.to_nat last) as Hlen' by (rewrite length_insert; exact Hlen).
    assert (fold_left Z.max
              (<[Z.to_nat (max_index d) := roll d]> (test_array s)) default_val
            = Z.max (current_max s) (roll d)) as Hmax'.
    { rewrite Hmax. apply fold_max_insert; [lia | exact Hlt]. }
    unfold test_running.
    cbn [test_array working_array current_max max0 max1 max2].
    rewrite RAJA_MAX_Zmax.
    split; [exact Hlen' |]. split.
    { rewrite <- Hlen'. apply memcpy_cells_all. lia. }
    split.
    { apply Forall_insert; [exact Hall |].
      unfold default_val, SHRT_MAX. lia. }
    split; [symmetry; exact Hmax' |].
    split; [lia |]. split; [lia |]. split; [| exact H2].
    destruct Hstate as [(_ & _ & _ & _ & _ & _ & H1' & _) |
                        (_ & _ & _ & _ & H1' & _)].
    + lia.
    + rewrite H1'. unfold default_val, SHRT_MAX. lia.
  - destruct Hstate as [Hrun | (Ht & _)].
    + exact Hrun.
    + exfalso. rewrite read_lookup, Ht in Hge.
      rewrite lookup_replicate_2 in Hge by lia. cbn in Hge.
      unfold default_val, SHRT_MAX in Hge. lia.
Qed.

(** From the first index on, the loop reads the whole array, the reducers
    reach the tracked maximum, and the assertions hold. *)
Lemma run_reducers_running lowest last d (s : ReduceMaxTest) :
  lowest <= default_val ->
  test_running last s ->
  let s' := run_reducers lowest 0 last d s in
  test_running last s' /\ assertions s' = true.
Proof.
  intros Hlow (Hlen & Hw & Hall & Hmax & Hcm & H0 & H1 & H2) s'.
  assert (map (read (working_array s)) (seg_indices (range_segment 0 last)) =
          test_array s) as Hvalues.
  { unfold seg_indices. cbn [seg_begin seg_end]. rewrite Hw, Z.sub_0_r.
    destruct (Z.le_gt_cases 0 last) as [Hpos | Hneg].
    - replace last with (Z.of_nat (length (test_array s))) by lia.
      apply map_read_all.
    - destruct (test_array s) as [| x l]; [| cbn in Hlen; lia].
      destruct last; try lia. reflexivity. }
  assert (max0 s' = current_max s) as H0'.
  { subst s'. unfold run_reducers. cbn [max0]. rewrite Hvalues.
    rewrite reduce_max_fold by lia. rewrite Hmax.
    apply fold_max_base. rewrite <- Hmax. exact H0. }
  assert (max1 s' = 2 * current_max s) as H1'.
  { subst s'. unfold run_reducers. cbn [max1]. rewrite Hvalues.
    rewrite reduce_max_fold by lia. rewrite Hmax, <- fold_max_double.
    apply fold_max_base. rewrite fold_max_double, <- Hmax.
    unfold default_val, SHRT_MAX in *. lia. }
  assert (max2 s' = big_val) as H2'.
  { subst s'. unfold run_reducers. cbn [max2]. rewrite Hvalues.
    rewrite reduce_max_fold by (rewrite H2; unfold big_val, default_val,
                                  SHRT_MAX in *; lia).
    rewrite H2. apply Z.le_antisymm; [| apply fold_max_ge].
    apply fold_max_bound; [lia |].
    eapply Forall_impl; [exact Hall |].
    cbn beta. unfold big_val. intros x Hx. lia. }
  split.
  - unfold test_running. rewrite H0', H1', H2'.
    subst s'. cbn [run_reducers test_array working_array current_max].
    repeat split; try assumption; lia.
  - unfold assertions. rewrite H0', H1', H2'.
    subst s'. cbn [run_reducers current_max].
    rewrite Z.mul_comm, !Z.eqb_refl. reflexivity.
Qed.

Lemma test_iteration_running lowest last d (s : ReduceMaxTest) :
  lowest <= default_val ->
  drawn 0 last d ->
  test_running last s \/
  (test_array s = replicate (Z.to_nat last) default_val /\
   length (working_array s) = Z.to_nat last /\
   current_max s = default_val /\
   max0 s = default_val /\ max1 s = default_val /\ max2 s = big_val) ->
  exists s', test_iteration lowest 0 last d s = Passed s' /\
             test_running last s'.
Proof.
  intros Hlow [Hroll Hidx] Hstate. unfold test_iteration.
  replace ((0 <=? max_index d) && (max_index d <? last) && (0 <=? 0))
    with true
    by (symmetry; rewrite !andb_true_iff, Z.ltb_lt, !Z.leb_le; lia).
  cbn [negb].
  pose proof (store_roll_running last d s ltac:(lia) Hroll Hstate) as Hrun.
  destruct (run_reducers_running lowest last d _ Hlow Hrun) as [Hrun' Hok].
  cbn zeta in Hrun', Hok |- *. rewrite Hok.
  eexists. split; [reflexivity | exact Hrun'].
Qed.

Lemma test_loop_running lowest last (draws : list Draw) :
  lowest <= default_val ->
  Forall (drawn 0 last) draws ->
  forall s : ReduceMaxTest, test_running last s ->
  exists s', test_loop lowest 0 last draws s = Passed s' /\
             test_running last s'.
Proof.
  intros Hlow Hdraws. induction Hdraws as [| d draws Hd Hdraws IH];
    intros s Hrun; cbn [test_loop].
  - exists s. auto.
  - destruct (test_iteration_running lowest last d s Hlow Hd (or_introl Hrun))
      as (s1 & -> & Hrun1).
    apply IH. exact Hrun1.
Qed.

Lemma reset_reducers_running last (s : ReduceMaxTest) :
  test_running last s -> test_running last (reset_reducers s).
Proof.
  intros (Hlen & Hw & Hall & Hmax & Hcm & H0 & H1 & H2).
  unfold test_running, reset_reducers.
  cbn [test_array working_array current_max max0 max1 max2].
  unfold default_val, SHRT_MAX in *.
  repeat split; try assumption; lia.
Qed.

(** X9.  The test's oracle is right when the segment starts at index 0,
    as the test instantiates it: whatever the rolls between -100 and 100,
    the indices within the segment, the contents of the working array as
    allocated and the split of each loop among threads, all three
    assertions hold in each of the 8 and the 4 iterations.  The guard
    [test_array[max_index] < roll] makes [current_max] the largest cell of
    the array, and the first roll, which always beats [default_val], is
    what initialises the working array. *)
Theorem reduce_max_test_passes lowest last (allocated : list Z)
    (draw : nat -> Draw) :
  lowest <= default_val ->
  length allocated = Z.to_nat last ->
  (forall j, (j < 12)%nat -> drawn 0 last (draw j)) ->
  exists s, ForallReduceMaxMultipleTestImpl lowest 0 last allocated draw =
            Passed s /\
            max0 s = current_max s /\ max1 s = current_max s * 2 /\
            max2 s = big_val /\
            current_max s = fold_left Z.max (test_array s) default_val.
Proof.
  intros Hlow Hlen Hdraws. unfold ForallReduceMaxMultipleTestImpl.
  change (map draw (seq 0 8)) with (draw 0%nat :: map draw (seq 1 7)).
  cbn [test_loop].
  destruct (test_iteration_running lowest last (draw 0%nat)
              {| test_array := replicate (Z.to_nat last) default_val;
                 working_array := allocated;
                 current_max := default_val;
                 max0 := default_val;
                 max1 := default_val;
                 max2 := big_val |} Hlow (Hdraws 0%nat ltac:(lia)))
    as (s1 & -> & Hrun1).
  { right. cbn [test_array working_array current_max max0 max1 max2].
    repeat split; try reflexivity. exact Hlen. }
  destruct (test_loop_running lowest last (map draw (seq 1 7)) Hlow) with s1
    as (s2 & -> & Hrun2); [| exact Hrun1 |].
  { apply List.Forall_forall. intros d Hd.
    apply in_map_iff in Hd as (j & <- & Hj). apply in_seq in Hj.
    apply Hdraws. lia. }
  change (map draw (seq 8 4))
    with (map draw (seq 8 3) ++ [draw 11%nat]).
  assert (forall l d s,
            test_loop lowest 0 last (l ++ [d]) s =
            match test_loop lowest 0 last l s with
            | Passed s' => test_iteration lowest 0 last d s'
            | failed => failed
            end) as Hsnoc.
  { induction l as [| d' l IH]; intros d s; cbn [test_loop app].
    - destruct (test_iteration lowest 0 last d s); reflexivity.
    - destruct (test_iteration lowest 0 last d' s); [apply IH | |];
        reflexivity. }
  rewrite Hsnoc.
  destruct (test_loop_running lowest last (map draw (seq 8 3)) Hlow)
    with (reset_reducers s2) as (s3 & -> & Hrun3);
    [| apply reset_reducers_running; exact Hrun2 |].
  { apply List.Forall_forall. intros d Hd.
    apply in_map_iff in Hd as (j & <- & Hj). apply in_seq in Hj.
    apply Hdraws. lia. }
  destruct (Hdraws 11%nat ltac:(lia)) as [Hroll Hidx].
  unfold test_iteration.
  replace ((0 <=? max_index (draw 11%nat)) &&
           (max_index (draw 11%nat) <? last) && (0 <=? 0))
    with true
    by (symmetry; rewrite !andb_true_iff, Z.ltb_lt, !Z.leb_le; lia).
  cbn [negb].
  pose proof (store_roll_running last (draw 11%nat) s3 ltac:(lia) Hroll
                (or_introl Hrun3)) as Hrun4.
  destruct (run_reducers_running lowest last (draw 11%nat) _ Hlow Hrun4)
    as [Hrun5 Hok].
  cbn zeta in Hrun5, Hok |- *. rewrite Hok.
  eexists. split; [reflexivity |].
  destruct Hrun5 as (_ & _ & _ & Hmax & _ & _ & _ & H2).
  apply andb_true_iff in Hok as [Hok _].
  apply andb_true_iff in Hok as [Hok0 Hok1].
  apply Z.eqb_eq in Hok0, Hok1.
  repeat split; try assumption; symmetry; assumption.
Qed.

Lemma reduce_max_test_passes_witness :
  let draw (j : nat) :=
    MkDraw (Z.of_nat j * 15 - 90) (if Nat.even j then 0 else 2) [1%nat] in
  (INT_MIN <= default_val /\
   length [7; 7; 7] = Z.to_nat 3 /\
   (forall j, (j < 12)%nat -> drawn 0 3 (draw j))) /\
  exists s, ForallReduceMaxMultipleTestImpl INT_MIN 0 3 [7; 7; 7] draw =
            Passed s /\
            max0 s = current_max s /\ max1 s = current_max s * 2 /\
            max2 s = big_val /\
            current_max s = fold_left Z.max (test_array s) default_val.
Proof.
  intros draw.
  assert (INT_MIN <= default_val) as H1 by (vm_compute; discriminate).
  assert (length [7; 7; 7] = Z.to_nat 3) as H2 by reflexivity.
  assert (forall j, (j < 12)%nat -> drawn 0 3 (draw j)) as H3.
  { intros j Hj. unfold drawn, draw. cbn [roll max_index].
    destruct (Nat.even j); lia. }
  split; [exact (conj H1 (conj H2 H3)) |].
  exact (reduce_max_test_passes INT_MIN 3 [7; 7; 7] draw H1 H2 H3).
Defined.

(** X10.  The oracle depends on the segment starting at index 0: the test
    draws its indices from [0, index_len - 1] but reduces over
    [first, last), so for [first > 0] a first roll stored below [first] is
    counted in [current_max] and not seen by the reducers, and the first
    assertion fails. *)
Theorem reduce_max_test_needs_first_zero lowest first last
    (allocated : list Z) (draw : nat -> Draw) :
  lowest <= default_val ->
  length allocated = Z.to_nat last ->
  0 < first <= last ->
  0 <= max_index (draw 0%nat) < first ->
  default_val < roll (draw 0%nat) ->
  ForallReduceMaxMultipleTestImpl lowest first last allocated draw =
  AssertFailed.
Proof.
  intros Hlow Hlen Hfirst Hidx Hroll.
  unfold ForallReduceMaxMultipleTestImpl.
  change (map draw (seq 0 8)) with (draw 0%nat :: map draw (seq 1 7)).
  cbn [test_loop].
  assert (test_iteration lowest first last (draw 0%nat)
            {| test_array := replicate (Z.to_nat last) default_val;
               working_array := allocated;
               current_max := default_val;
               max0 := default_val;
               max1 := default_val;
               max2 := big_val |} = AssertFailed) as ->; [| reflexivity].
  unfold test_iteration.
  replace ((0 <=? max_index (draw 0%nat)) &&
           (max_index (draw 0%nat) <? last) && (0 <=? first))
    with true
    by (symmetry; rewrite !andb_true_iff, Z.ltb_lt, !Z.leb_le; lia).
  cbn [negb]. unfold store_roll. cbn [test_array].
  assert (read (replicate (Z.to_nat last) default_val)
            (max_index (draw 0%nat)) = default_val) as Hread.
  { rewrite read_lookup, lookup_replicate_2 by lia. reflexivity. }
  rewrite Hread.
  destruct (Z.ltb_spec default_val (roll (draw 0%nat))) as [_ | Hge];
    [| lia].
  cbn [working_array current_max max0 max1 max2].
  set (test_array' := <[Z.to_nat (max_index (draw 0%nat)) :=
                          roll (draw 0%nat)]>
                        (replicate (Z.to_nat last) default_val)).
  assert (length test_array' = Z.to_nat last) as Hlen'.
  { subst test_array'. rewrite length_insert, length_replicate.
    reflexivity. }
  assert (memcpy_cells (Z.to_nat last) test_array' allocated = test_array')
    as Hcopy.
  { rewrite <- Hlen'. apply memcpy_cells_all. lia. }
  assert (assertions
            (run_reducers lowest first last (draw 0%nat)
               {| test_array := test_array';
                  working_array :=
                    memcpy_cells (Z.to_nat last) test_array' allocated;
                  current_max :=
                    RAJA_MAX default_val (roll (draw 0%nat));
                  max0 := default_val;
                  max1 := default_val;
                  max2 := big_val |}) = false) as Hfail.
  { unfold assertions, run_reducers.
    cbn [current_max max0 max1 max2 working_array].
    rewrite Hcopy, RAJA_MAX_Zmax.
    rewrite (reduce_max_fold lowest _ _ default_val Hlow).
    assert (fold_left Z.max
              (map (read test_array')
                 (seg_indices (range_segment first last))) default_val =
            default_val) as ->.
    { apply Z.le_antisymm; [| apply fold_max_ge].
      apply fold_max_bound; [lia |].
      apply List.Forall_forall. intros x Hx.
      apply in_map_iff in Hx as (i & <- & Hi).
      unfold seg_indices in Hi. cbn [seg_begin seg_end] in Hi.
      apply list_elem_of_In, elem_of_seqZ in Hi.
      rewrite read_lookup. subst test_array'.
      rewrite list_lookup_insert_ne by lia.
      rewrite lookup_replicate_2 by lia. reflexivity. }
    replace (Z.max default_val (roll (draw 0%nat)) =? default_val)
      with false by (symmetry; apply Z.eqb_neq; lia).
    reflexivity. }
  cbn zeta. rewrite Hfail. reflexivity.
Qed.

Lemma reduce_max_test_needs_first_zero_witness :
  let draw (j : nat) := MkDraw 5 0 [] in
  (INT_MIN <= default_val /\
   length [0; 0] = Z.to_nat 2 /\
   0 < 1 <= 2 /\
   0 <= max_index (draw 0%nat) < 1 /\
   default_val < roll (draw 0%nat)) /\
  ForallReduceMaxMultipleTestImpl INT_MIN 1 2 [0; 0] draw = AssertFailed.
Proof.
  intros draw.
  assert (INT_MIN <= default_val) as H1 by (vm_compute; discriminate).
  assert (length [0; 0] = Z.to_nat 2) as H2 by reflexivity.
  assert (0 < 1 <= 2) as H3 by lia.
  assert (0 <= max_index (draw 0%nat) < 1) as H4 by (cbn; lia).
  assert (default_val < roll (draw 0%nat)) as H5 by (vm_compute; reflexivity).
  split; [exact (conj H1 (conj H2 (conj H3 (conj H4 H5)))) |].
  exact (reduce_max_test_needs_first_zero INT_MIN 1 2 [0; 0] draw
           H1 H2 H3 H4 H5).
Defined.

(** ** The random graph of the unit tests *)

Lemma get_dependencies_spec node_id num_edges_to_node shuffle :
  (num_edges_to_node <= node_id)%nat ->
  (forall l, Permutation (shuffle l) l) ->
  let deps := get_dependencies node_id num_edges_to_node shuffle in
  length deps = num_edges_to_node /\
  NoDup deps /\
  forall u, In u deps -> (u < node_id)%nat.
Proof.
  intros Hle Hperm deps. subst deps. unfold get_dependencies.
  pose proof (Hperm (seq 0 node_id)) as Hp.
  assert (length (shuffle (seq 0 node_id)) = node_id) as Hlen.
  { rewrite (Permutation_length Hp). apply length_seq. }
  rewrite resize_le by lia.
  split; [| split].
  - rewrite length_take. lia.
  - apply (sublist_NoDup _ (shuffle (seq 0 node_id))); [| apply sublist_take].
    rewrite Hp. apply NoDup_ListNoDup, List.seq_NoDup.
  - intros u Hu.
    assert (In u (seq 0 node_id)) as Hin.
    { apply (Permutation_in _ Hp).
      rewrite <- (take_drop num_edges_to_node (shuffle (seq 0 node_id))).
      apply in_or_app. left. exact Hu. }
    apply in_seq in Hin. lia.
Qed.

Lemma random_graph_S rng n :
  random_graph rng (S n) =
  add_node (random_graph rng n)
    (get_dependencies n (fst (rng n)) (snd (rng n))).
Proof.
  unfold random_graph. rewrite seq_S, fold_left_app. reflexivity.
Qed.

Lemma random_graph_shape rng n :
  uniform rng n ->
  let g := random_graph rng n in
  num_nodes g = n /\ forward g /\ NoDup (edges g) /\
  forall v, (v < n)%nat -> length (edges_to g v) = fst (rng v).
Proof.
  induction n as [| n IH]; intros Hrng g; subst g.
  - cbn. split; [reflexivity |]. split; [intros u v [] |].
    split; [constructor | intros v Hv; lia].
  - destruct IH as (Hn & Hfwd & Hnodup & Hdeg).
    { intros k Hk. apply Hrng. lia. }
    rewrite random_graph_S.
    destruct (Hrng n ltac:(lia)) as [Hle Hperm].
    destruct (get_dependencies_spec n (fst (rng n)) (snd (rng n)) Hle Hperm)
      as (Hlen & Hdistinct & Hbelow).
    set (deps := get_dependencies n (fst (rng n)) (snd (rng n))) in *.
    set (g := random_graph rng n) in *.
    split; [cbn; f_equal; exact Hn |].
    split; [apply add_node_forward; [exact Hfwd | rewrite Hn; exact Hbelow] |].
    unfold add_node, edges_to. cbn [edges]. rewrite Hn.
    split.
    + apply NoDup_app. split; [exact Hnodup |]. split.
      * intros [u v] Hold Hnew.
        apply list_elem_of_In in Hold, Hnew.
        apply in_map_iff in Hnew as (u' & [= -> <-] & _).
        specialize (Hfwd _ _ Hold). lia.
      * change (NoDup ((fun u => (u, n)) <$> deps)).
        apply NoDup_fmap_2; [| exact Hdistinct].
        intros u1 u2 [= ->]. reflexivity.
    + intros v Hv. rewrite List.filter_app, length_app.
      destruct (decide (v = n)) as [-> | Hne].
      * rewrite (filter_drop_all _ (edges g)), filter_keep_all.
        -- rewrite length_map. exact Hlen.
        -- intros e He. apply in_map_iff in He as (u & <- & _).
           apply Nat.eqb_refl.
        -- intros [u w] He. specialize (Hfwd _ _ He).
           apply Nat.eqb_neq. cbn. lia.
      * rewrite (filter_drop_all _ (map _ deps)).
        -- cbn [length]. rewrite Nat.add_0_r. apply Hdeg. lia.
        -- intros e He. apply in_map_iff in He as (u & <- & _).
           apply Nat.eqb_neq. cbn. lia.
Qed.

(** X11.  Every graph the random builder makes is a valid input of the
    executor: it has the drawn number of nodes, every edge leads from a
    node to a later one (what the test's edge assertions check), no edge
    is added twice, and every node has exactly as many incoming edges as
    were drawn for it.  Listing its nodes in insertion order is therefore
    an order the executor may run them in.  A draw of no nodes, which
    [graph_min_nodes = 0] allows, gives the graph for which [empty()]
    holds. *)
Theorem random_graph_valid rng n :
  uniform rng n ->
  let g := random_graph rng n in
  num_nodes g = n /\ forward g /\ NoDup (edges g) /\
  (forall v, (v < n)%nat -> length (edges_to g v) = fst (rng v)) /\
  topological g (seq 0 n) /\
  empty g = Nat.eqb n 0.
Proof.
  intros Hrng g.
  destruct (random_graph_shape rng n Hrng) as (Hn & Hfwd & Hnodup & Hdeg).
  fold g in Hn, Hfwd, Hnodup, Hdeg.
  split; [exact Hn |]. split; [exact Hfwd |]. split; [exact Hnodup |].
  split; [exact Hdeg |]. split.
  - rewrite <- Hn. apply forward_topological. exact Hfwd.
  - unfold empty. rewrite Hn. reflexivity.
Qed.

Lemma random_graph_valid_witness :
  let rng (k : nat) := ((k / 2)%nat, @rev nat) in
  uniform rng 5 /\
  let g := random_graph rng 5 in
  num_nodes g = 5%nat /\ forward g /\ NoDup (edges g) /\
  (forall v, (v < 5)%nat -> length (edges_to g v) = fst (rng v)) /\
  topological g (seq 0 5) /\
  empty g = Nat.eqb 5 0.
Proof.
  intros rng.
  assert (uniform rng 5) as H.
  { intros k Hk. split.
    - cbn [fst rng]. apply Nat.Div0.div_le_upper_bound. lia.
    - intros l. cbn [snd rng]. symmetry. apply Permutation_rev. }
  split; [exact H |].
  exact (random_graph_valid rng 5 H).
Defined.

(** ** The counter of the test callables *)

Lemma complete_count_other (st st' : nat -> node_status) (l : list nat) :
  (forall w, In w l -> is_complete (st' w) = is_complete (st w)) ->
  List.filter (fun w => is_complete (st' w)) l =
  List.filter (fun w => is_complete (st w)) l.
Proof.
  induction l as [| x l IH]; intros Hsame; [reflexivity |].
  cbn [List.filter]. rewrite (Hsame x (or_introl eq_refl)).
  rewrite IH; [reflexivity |]. intros w Hw. apply Hsame. right. exact Hw.
Qed.

Lemma complete_count_insert (st : nat -> node_status) (v : nat)
    (l : list nat) :
  List.NoDup l -> In v l -> is_complete (st v) = false ->
  length (List.filter (fun w => is_complete (<[v := Complete]> st w)) l) =
  S (length (List.filter (fun w => is_complete (st w)) l)).
Proof.
  intros Hnodup Hin Hv. induction l as [| x l IH]; [destruct Hin |].
  apply List.NoDup_cons_iff in Hnodup as [Hx Hnodup].
  cbn [List.filter]. destruct (decide (x = v)) as [-> | Hne].
  - rewrite fn_lookup_insert, Hv. cbn [is_complete length]. f_equal.
    f_equal. apply complete_count_other.
    intros w Hw. rewrite fn_lookup_insert_ne; [reflexivity |].
    intros ->. contradiction.
  - rewrite fn_lookup_insert_ne by congruence.
    destruct Hin as [-> | Hin]; [contradiction |].
    specialize (IH Hnodup Hin).
    destruct (is_complete (st x)); cbn [length]; rewrite IH; reflexivity.
Qed.

Lemma accounted_initial g : accounted g initial.
Proof.
  split; cbn [initial status count order].
  - intros v Hv. contradiction.
  - unfold complete_nodes. cbn [initial status].
    rewrite filter_drop_all; [reflexivity | reflexivity].
  - reflexivity.
  - discriminate.
Qed.

Lemma accounted_start g v r :
  accounted g r ->
  (v < num_nodes g)%nat ->
  status r v = Unscheduled ->
  accounted g (start v r).
Proof.
  intros [Hn Hc Hu Hd] Hlt Hv.
  assert (forall w, is_complete (status (start v r) w) =
                    is_complete (status r w)) as Hsame.
  { intros w. cbn [start status]. destruct (decide (v = w)) as [-> | Hne].
    - rewrite fn_lookup_insert, Hv. reflexivity.
    - rewrite fn_lookup_insert_ne by exact Hne. reflexivity. }
  assert (forall w, status (start v r) w = Complete -> status r w = Complete)
    as Hcomplete.
  { intros w Hw. specialize (Hsame w). rewrite Hw in Hsame.
    destruct (status r w); try discriminate. reflexivity. }
  split; cbn [start count order].
  - intros w Hw. destruct (decide (v = w)) as [<- | Hne]; [exact Hlt |].
    apply Hn. cbn [start status] in Hw.
    rewrite fn_lookup_insert_ne in Hw by exact Hne. exact Hw.
  - rewrite Hc. unfold complete_nodes. f_equal. f_equal. symmetry.
    apply complete_count_other. intros w _. apply Hsame.
  - intros w Hw. apply Hu. intros Hw'. apply Hw.
    specialize (Hsame w). rewrite Hw' in Hsame.
    destruct (status (start v r) w); try discriminate. reflexivity.
  - intros u w Hu' Hw'. apply Hd; apply Hcomplete; assumption.
Qed.

Lemma accounted_finish g v r :
  invariant g r ->
  accounted g r ->
  status r v = Running ->
  accounted g (finish v r).
Proof.
  intros [_ Ho _ _ _ _] [Hn Hc Hu Hd] Hv.
  assert (forall w, w <> v -> status (finish v r) w = status r w) as Hother.
  { intros w Hne. cbn. apply fn_lookup_insert_ne. congruence. }
  split; cbn [finish count order].
  - intros w Hw. destruct (decide (w = v)) as [-> | Hne].
    + apply Hn. congruence.
    + apply Hn. rewrite Hother in Hw by exact Hne. exact Hw.
  - rewrite Hc. unfold complete_nodes. cbn [finish status].
    rewrite complete_count_insert.
    + lia.
    + apply List.seq_NoDup.
    + apply in_seq. assert (v < num_nodes g)%nat by (apply Hn; congruence).
      lia.
    + rewrite Hv. reflexivity.
  - intros w Hw. destruct (decide (w = v)) as [-> | Hne].
    + exfalso. apply Hw. cbn. apply fn_lookup_insert.
    + rewrite fn_lookup_insert_ne by congruence. apply Hu.
      rewrite Hother in Hw by exact Hne. exact Hw.
  - intros u w Hu' Hw'.
    destruct (decide (u = v)) as [-> | Hneu];
      destruct (decide (w = v)) as [-> | Hnew]; [reflexivity | | |].
    + rewrite fn_lookup_insert, fn_lookup_insert_ne by congruence.
      rewrite Hother in Hw' by exact Hnew. specialize (Ho w Hw'). lia.
    + rewrite fn_lookup_insert, fn_lookup_insert_ne by congruence.
      rewrite Hother in Hu' by exact Hneu. specialize (Ho u Hu'). lia.
    + rewrite !fn_lookup_insert_ne by congruence.
      rewrite Hother in Hu' by exact Hneu.
      rewrite Hother in Hw' by exact Hnew. apply Hd; assumption.
Qed.

Lemma reachable_accounted g r : reachable g r -> accounted g r.
Proof.
  induction 1 as [| r r' Hreach IH Hstep].
  - apply accounted_initial.
  - destruct Hstep as [v r Hlt Hv Hpreds | v r Hv].
    + apply accounted_start; assumption.
    + apply accounted_finish; [apply reachable_invariant | |]; assumption.
Qed.

(** X12.  What the test callables record, in every execution and
    whichever eligible node the executor picks next: the counter is the
    number of nodes that have completed, a node that has not completed
    still has [order = -1], and no two completed nodes share an order.
    Once all nodes have completed, [count == num_nodes] and the orders
    are the numbers [0 .. num_nodes - 1], each taken by one node: every
    callable has run exactly once. *)
Theorem exec_runs_every_node_once g r :
  reachable g r ->
  count r = Z.of_nat (length (complete_nodes g r)) /\
  (forall v, status r v <> Complete -> order r v = -1) /\
  (forall u v, status r u = Complete -> status r v = Complete ->
     order r u = order r v -> u = v) /\
  (completed g r ->
   count r = Z.of_nat (num_nodes g) /\
   (forall v, (v < num_nodes g)%nat ->
      0 <= order r v < Z.of_nat (num_nodes g)) /\
   (forall k, 0 <= k < Z.of_nat (num_nodes g) ->
      exists v, (v < num_nodes g)%nat /\ order r v = k)).
Proof.
  intros Hreach.
  destruct (reachable_accounted g r Hreach) as [Hn Hc Hu Hd].
  destruct (reachable_invariant g r Hreach) as [_ Ho _ _ _ _].
  split; [exact Hc |]. split; [exact Hu |]. split; [exact Hd |].
  intros Hdone.
  assert (count r = Z.of_nat (num_nodes g)) as Hcount.
  { rewrite Hc. unfold complete_nodes. rewrite filter_keep_all.
    - rewrite length_seq. reflexivity.
    - intros v Hv. apply in_seq in Hv. rewrite Hdone by lia. reflexivity. }
  split; [exact Hcount |]. split.
  - intros v Hv. rewrite <- Hcount. apply Ho. apply Hdone. exact Hv.
  - (* an injective map of the nodes into as many numbers is onto *)
    intros k Hk.
    destruct (decide (Z.of_nat (Z.to_nat k) ∈
                map (fun v => Z.of_nat (Z.to_nat (order r v)))
                  (seq 0 (num_nodes g)))) as [Hin | Hout].
    + apply list_elem_of_In, in_map_iff in Hin as (v & Hv & Hin).
      apply in_seq in Hin. exists v. split; [lia |].
      specialize (Ho v (Hdone v ltac:(lia))). lia.
    + exfalso.
      assert (NoDup (map (fun v => Z.to_nat (order r v))
                       (seq 0 (num_nodes g)))) as Hnodup.
      { change (NoDup ((fun v => Z.to_nat (order r v)) <$>
                         seq 0 (num_nodes g))).
        apply NoDup_fmap_2_strong; [| apply NoDup_ListNoDup, List.seq_NoDup].
        intros u v Hu' Hv' Heq.
        apply list_elem_of_In, in_seq in Hu'.
        apply list_elem_of_In, in_seq in Hv'.
        pose proof (Ho u (Hdone u ltac:(lia))).
        pose proof (Ho v (Hdone v ltac:(lia))).
        apply Hd; [apply Hdone; lia | apply Hdone; lia | lia]. }
      assert (map (fun v => Z.to_nat (order r v)) (seq 0 (num_nodes g))
                ⊆ List.remove Nat.eq_dec (Z.to_nat k) (seq 0 (num_nodes g)))
        as Hsub.
      { intros x Hx. apply list_elem_of_In, in_map_iff in Hx as (v & <- & Hv).
        apply in_seq in Hv.
        pose proof (Ho v (Hdone v ltac:(lia))) as Hrange.
        apply list_elem_of_In, List.in_in_remove.
        - intros Heq. apply Hout. apply list_elem_of_In, in_map_iff.
          exists v. split; [rewrite Heq; reflexivity | apply in_seq; lia].
        - apply in_seq. lia. }
      pose proof (submseteq_length _ _ (NoDup_submseteq _ _ Hnodup Hsub))
        as Hlen.
      rewrite length_map, length_seq in Hlen.
      assert (length (List.remove Nat.eq_dec (Z.to_nat k)
                        (seq 0 (num_nodes g))) < num_nodes g)%nat as Hless.
      { pose proof (List.remove_length_lt Nat.eq_dec (seq 0 (num_nodes g))
                      (Z.to_nat k)) as Hlt.
        rewrite length_seq in Hlt. apply Hlt. apply in_seq. lia. }
      lia.
Qed.

Lemma exec_runs_every_node_once_witness :
  let g := four_node_graph in
  let r := run_in_order [0; 2; 1; 3]%nat initial in
  reachable g r /\
  (count r = Z.of_nat (length (complete_nodes g r)) /\
   (forall v, status r v <> Complete -> order r v = -1) /\
   (forall u v, status r u = Complete -> status r v = Complete ->
      order r u = order r v -> u = v) /\
   (completed g r ->
    count r = Z.of_nat (num_nodes g) /\
    (forall v, (v < num_nodes g)%nat ->
       0 <= order r v < Z.of_nat (num_nodes g)) /\
    (forall k, 0 <= k < Z.of_nat (num_nodes g) ->
       exists v, (v < num_nodes g)%nat /\ order r v = k))).
Proof.
  intros g r.
  assert (reachable g r) as H.
  { exact (proj1 (run_prefix four_node_graph [0; 2; 1; 3]%nat
                    (four_node_topological _ (or_intror eq_refl))
                    [0; 2; 1; 3]%nat [] eq_refl)). }
  split; [exact H |].
  exact (exec_runs_every_node_once g r H).
Defined.

(** ** The fixed graphs of the unit tests *)

Lemma asserts_are_edges :
  (forall e, In e four_node_asserts <-> In e (edges four_node_graph)) /\
  (forall e, In e twenty_node_asserts <-> In e (edges twenty_node_graph)).
Proof.
  assert (forall l l' : list (nat * nat),
            bool_decide (l ⊆ l') = true -> bool_decide (l' ⊆ l) = true ->
            forall e, In e l <-> In e l') as Hsame.
  { intros l l' H1 H2 e. apply bool_decide_eq_true_1 in H1, H2.
    rewrite <- !list_elem_of_In. split; [apply H1 | apply H2]. }
  split; apply Hsame; vm_compute; reflexivity.
Qed.

Lemma twenty_node_graph_forward : forward twenty_node_graph.
Proof.
  assert (Forall (fun e : nat * nat => (fst e < snd e < 20)%nat)
            (edges twenty_node_graph)) as Hall.
  { refine (bool_decide_unpack _ _). vm_compute. exact I. }
  intros u v Hedge. rewrite List.Forall_forall in Hall.
  apply (Hall (u, v) Hedge).
Qed.

Lemma empty_graph_idle r : reachable empty_graph r -> r = initial.
Proof.
  induction 1 as [| r r' Hreach IH Hstep]; [reflexivity |].
  subst r. inversion Hstep as [v r0 Hlt _ _ | v r0 Hv]; subst.
  - cbn in Hlt. lia.
  - cbn in Hv. discriminate.
Qed.

(** Once every node of a graph of the tests has completed. *)
Lemma completed_orders g r :
  forward g -> reachable g r -> completed g r ->
  count r = Z.of_nat (num_nodes g) /\
  forall a b, In (a, b) (edges g) -> order r a < order r b.
Proof.
  intros Hfwd Hreach Hdone.
  destruct (reachable_accounted g r Hreach) as [_ Hc _ _].
  destruct (reachable_invariant g r Hreach) as [_ _ _ He _ _].
  split.
  - rewrite Hc. unfold complete_nodes. rewrite filter_keep_all.
    + rewrite length_seq. reflexivity.
    + intros v Hv. apply in_seq in Hv. rewrite Hdone by lia. reflexivity.
  - intros a b Hedge. apply (He a b Hedge). apply Hdone.
    apply (Hfwd a b Hedge).
Qed.

(** X13.  The assertions of the fixed graph tests hold in every execution
    the executor may choose.  The pairs the tests compare after the
    execution are exactly the edges of the graphs they build, so once all
    nodes have completed, [count] is the number of nodes (4, 20) and
    [order[a] < order[b]] holds for every asserted pair, whichever
    eligible node ran first (and an execution that completes all nodes
    exists); executing the graph without nodes of [EmptyExec] runs
    nothing. *)
Theorem fixed_graph_tests_pass :
  (forall r, reachable four_node_graph r -> completed four_node_graph r ->
     count r = 4 /\
     forall a b, In (a, b) four_node_asserts -> order r a < order r b) /\
  (forall r, reachable twenty_node_graph r -> completed twenty_node_graph r ->
     count r = 20 /\
     forall a b, In (a, b) twenty_node_asserts -> order r a < order r b) /\
  (forall e, In e four_node_asserts <-> In e (edges four_node_graph)) /\
  (forall e, In e twenty_node_asserts <-> In e (edges twenty_node_graph)) /\
  (forall r, reachable empty_graph r -> r = initial) /\
  (exists r, reachable twenty_node_graph r /\ completed twenty_node_graph r).
Proof.
  destruct asserts_are_edges as [H4 H20].
  split; [| split; [| split; [exact H4 | split; [exact H20 | split]]]].
  - intros r Hreach Hdone.
    destruct (completed_orders _ r four_node_graph_forward Hreach Hdone)
      as [Hcount Horder].
    split; [exact Hcount |].
    intros a b Hab. apply Horder. apply H4. exact Hab.
  - intros r Hreach Hdone.
    destruct (completed_orders _ r twenty_node_graph_forward Hreach Hdone)
      as [Hcount Horder].
    split; [exact Hcount |].
    intros a b Hab. apply Horder. apply H20. exact Hab.
  - apply empty_graph_idle.
  - pose proof (forward_topological _ twenty_node_graph_forward) as Htopo.
    destruct (run_prefix twenty_node_graph _ Htopo
                (seq 0 (num_nodes twenty_node_graph)) []
                (eq_sym (app_nil_r _))) as (Hreach & Hin & _).
    eexists. split; [exact Hreach |].
    intros v Hv. apply Hin. apply in_seq. lia.
Qed.

(** ** The index lists of the halo exchange example *)

Lemma fold_left_ext {A B : Type} (f g : A -> B -> A) (l : list B) :
  (forall s x, f s x = g s x) ->
  forall s, fold_left f l s = fold_left g l s.
Proof.
  intros Hfg. induction l as [| x l IH]; intros s; [reflexivity |].
  cbn [fold_left]. rewrite Hfg. apply IH.
Qed.

Lemma fold_left_flat_map {A B C : Type} (f : A -> C -> A) (g : B -> list C)
    (l : list B) : forall s,
  fold_left f (flat_map g l) s = fold_left (fun s x => fold_left f (g x) s) l s.
Proof.
  induction l as [| x l IH]; intros s; [reflexivity |].
  cbn [flat_map fold_left]. rewrite fold_left_app. apply IH.
Qed.

Lemma fold_left_map {A B C : Type} (f : A -> C -> A) (g : B -> C)
    (l : list B) : forall s,
  fold_left f (map g l) s = fold_left (fun s x => f s (g x)) l s.
Proof.
  induction l as [| x l IH]; intros s; [reflexivity |].
  cbn [map fold_left]. apply IH.
Qed.

(** The nested loops write the indices of the extent's cells one after
    the other. *)
Lemma fill_as_writes extent grid_i_stride grid_j_stride grid_k_stride
    index_list :
  fill_index_list extent grid_i_stride grid_j_stride grid_k_stride index_list =
  fold_left
    (fun (st : list Z * Z) (cell : Z * Z * Z) =>
       (if 0 <=? snd st
        then <[Z.to_nat (snd st) :=
                 fst (fst cell) *! grid_i_stride +!
                 snd (fst cell) *! grid_j_stride +!
                 snd cell *! grid_k_stride]> (fst st)
        else fst st,
        snd st +! 1))
    (extent_cells extent) (index_list, 0).
Proof.
  unfold fill_index_list, for_range, extent_cells.
  rewrite fold_left_flat_map. apply fold_left_ext. intros s kk.
  rewrite fold_left_flat_map. apply fold_left_ext. intros s' jj.
  rewrite fold_left_map. reflexivity.
Qed.

Lemma writes_fill (f g : Z * Z * Z -> Z) (cells : list (Z * Z * Z)) :
  forall (pre rest : list Z),
  (length cells <= length rest)%nat ->
  Z.of_nat (length pre + length cells) <= INT_MAX ->
  (forall cell, In cell cells -> g cell = f cell) ->
  fold_left
    (fun (st : list Z * Z) cell =>
       (if 0 <=? snd st
        then <[Z.to_nat (snd st) := g cell]> (fst st)
        else fst st,
        snd st +! 1))
    cells (pre ++ rest, Z.of_nat (length pre)) =
  (pre ++ map f cells ++ drop (length cells) rest,
   Z.of_nat (length pre + length cells)).
Proof.
  induction cells as [| cell cells IH]; intros pre rest Hlen Hmax Hfg.
  - cbn. rewrite Nat.add_0_r. reflexivity.
  - destruct rest as [| r rest]; [cbn in Hlen; lia |].
    cbn [fold_left fst snd].
    destruct (Z.leb_spec 0 (Z.of_nat (length pre))) as [_ | Hneg]; [| lia].
    rewrite Nat2Z.id.
    rewrite insert_app_r_alt by lia. rewrite Nat.sub_diag.
    cbn [insert list_insert].
    rewrite (Hfg cell) by (left; reflexivity).
    rewrite int_add_id
      by (cbn [length] in Hmax; unfold INT_MIN, INT_MAX in *; lia).
    replace (pre ++ f cell :: rest) with ((pre ++ [f cell]) ++ rest)
      by (rewrite <- app_assoc; reflexivity).
    replace (Z.of_nat (length pre) + 1)
      with (Z.of_nat (length (pre ++ [f cell])))
      by (rewrite length_app; cbn; lia).
    rewrite IH.
    + rewrite <- app_assoc, length_app. cbn [length map app drop].
      f_equal. f_equal. lia.
    + cbn in Hlen. lia.
    + rewrite length_app. cbn [length] in *. lia.
    + intros c Hc. apply Hfg. right. exact Hc.
Qed.

Lemma length_extent_cells extent :
  length (extent_cells extent) =
  (Z.to_nat (k_max extent - k_min extent) *
   (Z.to_nat (j_max extent - j_min extent) *
    Z.to_nat (i_max extent - i_min extent)))%nat.
Proof.
  unfold extent_cells.
  assert (forall {A B : Type} (g : A -> list B) (n : nat) (l : list A),
            (forall x, length (g x) = n) ->
            length (flat_map g l) = (length l * n)%nat) as Hflat.
  { intros A B g n l Hg. induction l as [| x l IH]; [reflexivity |].
    cbn [flat_map]. rewrite length_app, Hg, IH. cbn. lia. }
  rewrite (Hflat _ _ _ (Z.to_nat (j_max extent - j_min extent) *
                        Z.to_nat (i_max extent - i_min extent))%nat).
  - rewrite length_seqZ. reflexivity.
  - intros kk.
    rewrite (Hflat _ _ _ (Z.to_nat (i_max extent - i_min extent))).
    + rewrite length_seqZ. reflexivity.
    + intros jj. rewrite length_map, length_seqZ. reflexivity.
Qed.

(** At sizes that fit, the strides are those of the grid and the index
    of a cell of the grid is computed without wrapping. *)
Lemma grid_strides halo_width grid_dims :
  0 <= halo_width ->
  (forall a, (a < 3)%nat -> 0 <= grid_dims a) ->
  grid_fits_int halo_width grid_dims ->
  2 *! halo_width = 2 * halo_width /\
  (forall a, (a < 3)%nat ->
     grid_dims a +! 2 * halo_width = grid_dims a + 2 * halo_width) /\
  (grid_dims 0%nat + 2 * halo_width) *! (grid_dims 1%nat + 2 * halo_width) =
  (grid_dims 0%nat + 2 * halo_width) * (grid_dims 1%nat + 2 * halo_width) /\
  (grid_dims 0%nat + 2 * halo_width) * (grid_dims 1%nat + 2 * halo_width) *!
  (grid_dims 2%nat + 2 * halo_width) =
  (grid_dims 0%nat + 2 * halo_width) * (grid_dims 1%nat + 2 * halo_width) *
  (grid_dims 2%nat + 2 * halo_width).
Proof.
  intros Hh Hgrid (Hd & H01 & H012). cbn zeta in Hd, H01, H012.
  pose proof (Hgrid 0%nat ltac:(lia)) as Hg0.
  pose proof (Hgrid 1%nat ltac:(lia)) as Hg1.
  pose proof (Hgrid 2%nat ltac:(lia)) as Hg2.
  pose proof (Hd 0%nat ltac:(lia)) as Hd0.
  split; [| split; [| split]].
  - apply int_mul_id. unfold INT_MIN, INT_MAX in *. lia.
  - intros a Ha. apply int_add_id.
    pose proof (Hgrid a Ha). pose proof (Hd a Ha).
    unfold INT_MIN, INT_MAX in *. lia.
  - apply int_mul_id. unfold INT_MIN, INT_MAX in *. nia.
  - apply int_mul_id. unfold INT_MIN, INT_MAX in *. nia.
Qed.

Lemma int_cell_index halo_width grid_dims cell :
  0 <= halo_width ->
  (forall a, (a < 3)%nat -> 0 <= grid_dims a) ->
  grid_fits_int halo_width grid_dims ->
  in_grid halo_width grid_dims cell ->
  fst (fst cell) *! 1 +!
  snd (fst cell) *! (grid_dims 0%nat + 2 * halo_width) +!
  snd cell *!
    ((grid_dims 0%nat + 2 * halo_width) * (grid_dims 1%nat + 2 * halo_width)) =
  cell_index halo_width grid_dims cell.
Proof.
  intros Hh Hgrid (Hd & H01 & H012) (Hi & Hj & Hk).
  cbn zeta in Hd, H01, H012. unfold cell_index. cbn zeta.
  destruct cell as [[i j] k]. cbn [fst snd] in *.
  pose proof (Hd 0%nat ltac:(lia)) as Hd0.
  set (d0 := grid_dims 0%nat + 2 * halo_width) in *.
  set (d1 := grid_dims 1%nat + 2 * halo_width) in *.
  set (d2 := grid_dims 2%nat + 2 * halo_width) in *.
  clearbody d0 d1 d2.
  assert (0 <= j * d0 <= d0 * d1 - d0) as Hjd by nia.
  assert (0 <= d0 * d1) as H01' by nia.
  assert (0 <= k * (d0 * d1) <= d0 * d1 * d2 - d0 * d1) as Hkd by nia.
  rewrite (int_mul_id i 1) by (unfold INT_MIN, INT_MAX in *; lia).
  rewrite (int_mul_id j d0) by (unfold INT_MIN, INT_MAX in *; lia).
  rewrite (int_mul_id k (d0 * d1)) by (unfold INT_MIN, INT_MAX in *; lia).
  rewrite (int_add_id (i * 1)) by (unfold INT_MIN, INT_MAX in *; lia).
  rewrite int_add_id by (unfold INT_MIN, INT_MAX in *; lia).
  reflexivity.
Qed.

(** At the grid size 1300 x 1300 x 1300 with a halo of width 1, which
    [main] accepts, the index of the last interior cell leaves [int]: the
    lists hold its wrapped value there. *)
Example large_grid_index_wraps :
  let d := 1300 +! 2 *! 1 in
  1300 *! 1 +! 1300 *! d +! 1300 *! (d *! d) = -2089508196 /\
  cell_index 1 (fun _ => 1300) (1300, 1300, 1300) = 2205459100.
Proof. split; reflexivity. Qed.

(** Filling the list allocated for an extent: every cell of the list is
    written, whatever it held. *)
Lemma fill_extent halo_width grid_dims junk extent :
  0 <= halo_width ->
  (forall a, (a < 3)%nat -> 0 <= grid_dims a) ->
  grid_fits_int halo_width grid_dims ->
  extent_in_grid halo_width grid_dims extent ->
  let len :=
    (i_max extent -! i_min extent) *! (j_max extent -! j_min extent) *!
    (k_max extent -! k_min extent) in
  len = Z.of_nat (length (extent_cells extent)) /\
  fill_index_list extent 1 (grid_dims 0%nat + 2 * halo_width)
    ((grid_dims 0%nat + 2 * halo_width) * (grid_dims 1%nat + 2 * halo_width))
    (allocate junk len) =
  (map (cell_index halo_width grid_dims) (extent_cells extent), len).
Proof.
  intros Hh Hgrid Hfits (Hi & Hi' & Hj & Hj' & Hk & Hk') len.
  pose proof Hfits as (Hd & H01 & H012). cbn zeta in Hd, H01, H012.
  pose proof (Hd 0%nat ltac:(lia)) as Hd0.
  pose proof (Hd 1%nat ltac:(lia)) as Hd1.
  pose proof (Hd 2%nat ltac:(lia)) as Hd2.
  assert (len = Z.of_nat (length (extent_cells extent))) as Hlen.
  { subst len. rewrite length_extent_cells.
    rewrite !Nat2Z.inj_mul, !Z2Nat.id by lia.
    set (wi := i_max extent - i_min extent).
    set (wj := j_max extent - j_min extent).
    set (wk := k_max extent - k_min extent).
    assert (0 <= wi <= grid_dims 0%nat + 2 * halo_width) as Hwi
      by (subst wi; lia).
    assert (0 <= wj <= grid_dims 1%nat + 2 * halo_width) as Hwj
      by (subst wj; lia).
    assert (0 <= wk <= grid_dims 2%nat + 2 * halo_width) as Hwk
      by (subst wk; lia).
    rewrite !int_sub_id
      by (fold wi wj wk; unfold INT_MIN, INT_MAX in *; lia).
    fold wi wj wk.
    set (d0 := grid_dims 0%nat + 2 * halo_width) in *.
    set (d1 := grid_dims 1%nat + 2 * halo_width) in *.
    set (d2 := grid_dims 2%nat + 2 * halo_width) in *.
    clearbody wi wj wk d0 d1 d2.
    assert (0 <= wi * wj <= d0 * d1) as Hij by nia.
    assert (0 <= wi * wj * wk <= d0 * d1 * d2) as Hijk by nia.
    rewrite (int_mul_id wi wj) by (unfold INT_MIN, INT_MAX in *; lia).
    rewrite int_mul_id by (unfold INT_MIN, INT_MAX in *; lia).
    ring. }
  split; [exact Hlen |].
  rewrite fill_as_writes.
  assert (Z.of_nat (length (extent_cells extent)) <= INT_MAX) as Hmax.
  { rewrite length_extent_cells.
    rewrite !Nat2Z.inj_mul, !Z2Nat.id by lia.
    set (wi := i_max extent - i_min extent).
    set (wj := j_max extent - j_min extent).
    set (wk := k_max extent - k_min extent).
    assert (0 <= wi <= grid_dims 0%nat + 2 * halo_width) as Hwi
      by (subst wi; lia).
    assert (0 <= wj <= grid_dims 1%nat + 2 * halo_width) as Hwj
      by (subst wj; lia).
    assert (0 <= wk <= grid_dims 2%nat + 2 * halo_width) as Hwk
      by (subst wk; lia).
    set (d0 := grid_dims 0%nat + 2 * halo_width) in *.
    set (d1 := grid_dims 1%nat + 2 * halo_width) in *.
    set (d2 := grid_dims 2%nat + 2 * halo_width) in *.
    clearbody wi wj wk d0 d1 d2.
    assert (0 <= wj * wi <= d0 * d1) as Hij by nia.
    assert (0 <= wk * (wj * wi) <= d0 * d1 * d2) as Hijk by nia.
    lia. }
  pose proof (writes_fill (cell_index halo_width grid_dims)
                (fun cell =>
                   fst (fst cell) *! 1 +!
                   snd (fst cell) *! (grid_dims 0%nat + 2 * halo_width) +!
                   snd cell *!
                     ((grid_dims 0%nat + 2 * halo_width) *
                      (grid_dims 1%nat + 2 * halo_width)))
                (extent_cells extent) [] (allocate junk len)) as Hfill.
  cbn [app length Nat.add] in Hfill.
  change (Z.of_nat 0) with 0 in Hfill.
  rewrite Hfill.
  - rewrite drop_ge, app_nil_r.
    + rewrite Hlen. reflexivity.
    + unfold allocate. rewrite length_map, length_seq. lia.
  - unfold allocate. rewrite length_map, length_seq. lia.
  - exact Hmax.
  - intros cell Hcell. apply int_cell_index; try assumption.
    destruct cell as [[i j] k]. unfold extent_cells in Hcell.
    apply in_flat_map in Hcell as (kk & Hkk & Hcell).
    apply in_flat_map in Hcell as (jj & Hjj & Hcell).
    apply in_map_iff in Hcell as (ii & [= <- <- <-] & Hii).
    rewrite <- list_elem_of_In, elem_of_seqZ in Hii, Hjj, Hkk.
    unfold in_grid. cbn [fst snd]. lia.
Qed.

Lemma zone_in_grid halo_width g z :
  0 <= halo_width -> 0 <= g ->
  (0 <= fst (pack_zone halo_width g z) <= snd (pack_zone halo_width g z) /\
   snd (pack_zone halo_width g z) <= g + 2 * halo_width) /\
  (0 <= fst (unpack_zone halo_width g z) <= snd (unpack_zone halo_width g z) /\
   snd (unpack_zone halo_width g z) <= g + 2 * halo_width).
Proof.
  intros Hh Hg. destruct z; cbn; lia.
Qed.

(** At sizes that fit, the extents are those of the zones. *)
Lemma extents_zones halo_width grid_dims :
  0 <= halo_width ->
  (forall a, (a < 3)%nat -> 0 <= grid_dims a) ->
  grid_fits_int halo_width grid_dims ->
  pack_index_list_extents halo_width grid_dims =
    map (zone_extent pack_zone halo_width grid_dims) neighbor_zones /\
  unpack_index_list_extents halo_width grid_dims =
    map (zone_extent unpack_zone halo_width grid_dims) neighbor_zones.
Proof.
  intros Hh Hgrid Hfits.
  destruct (grid_strides halo_width grid_dims Hh Hgrid Hfits)
    as (E2 & Ed & _).
  destruct Hfits as (Hd & _). cbn zeta in Hd.
  assert (halo_width +! halo_width = halo_width + halo_width) as Ehh.
  { apply int_add_id. pose proof (Hd 0%nat ltac:(lia)).
    pose proof (Hgrid 0%nat ltac:(lia)). unfold INT_MIN, INT_MAX in *. lia. }
  assert (forall a, (a < 3)%nat ->
            grid_dims a +! halo_width = grid_dims a + halo_width) as Eg.
  { intros a Ha. apply int_add_id. pose proof (Hd a Ha).
    pose proof (Hgrid a Ha). unfold INT_MIN, INT_MAX in *. lia. }
  pose proof (Eg 0%nat ltac:(lia)) as Eg0.
  pose proof (Eg 1%nat ltac:(lia)) as Eg1.
  pose proof (Eg 2%nat ltac:(lia)) as Eg2.
  pose proof (Ed 0%nat ltac:(lia)) as Ed0.
  pose proof (Ed 1%nat ltac:(lia)) as Ed1.
  pose proof (Ed 2%nat ltac:(lia)) as Ed2.
  split.
  - unfold pack_index_list_extents. rewrite Ehh, Eg0, Eg1, Eg2. reflexivity.
  - unfold unpack_index_list_extents.
    rewrite E2, Eg0, Eg1, Eg2, Ed0, Ed1, Ed2. reflexivity.
Qed.

Lemma zone_widths halo_width g z :
  0 <= halo_width -> 0 <= g ->
  fst (pack_zone halo_width g z) <= snd (pack_zone halo_width g z) /\
  fst (unpack_zone halo_width g z) <= snd (unpack_zone halo_width g z) /\
  snd (pack_zone halo_width g z) - fst (pack_zone halo_width g z) =
  snd (unpack_zone halo_width g z) - fst (unpack_zone halo_width g z).
Proof.
  intros Hh Hg. destruct z; cbn; lia.
Qed.

Lemma create_index_lists_spec halo_width grid_dims junk extents :
  0 <= halo_width ->
  (forall a, (a < 3)%nat -> 0 <= grid_dims a) ->
  grid_fits_int halo_width grid_dims ->
  Forall (extent_in_grid halo_width grid_dims) extents ->
  let lists := create_index_lists extents halo_width grid_dims junk in
  fst lists = extent_lists halo_width grid_dims extents /\
  snd lists = map (fun l => Z.of_nat (length l)) (fst lists).
Proof.
  intros Hh Hgrid Hfits Hall lists. subst lists.
  unfold create_index_lists, extent_lists. cbn zeta. cbn [fst snd].
  destruct (grid_strides halo_width grid_dims Hh Hgrid Hfits)
    as (E2 & Ed & E01 & _).
  rewrite E2, (Ed 0%nat) by lia. rewrite (Ed 1%nat) by lia. rewrite E01.
  induction Hall as [| extent extents Hextent Hall [IH1 IH2]].
  - split; reflexivity.
  - cbn [map].
    destruct (fill_extent halo_width grid_dims junk extent Hh Hgrid Hfits
                Hextent) as [Hlen Hfill].
    cbn zeta in Hlen, Hfill. rewrite Hfill. cbn [fst].
    split; [f_equal; exact IH1 |].
    f_equal; [| exact IH2].
    rewrite length_map. exact Hlen.
Qed.

Lemma zone_extents_in_grid halo_width grid_dims :
  0 <= halo_width ->
  (forall a, (a < 3)%nat -> 0 <= grid_dims a) ->
  Forall (extent_in_grid halo_width grid_dims)
    (map (zone_extent pack_zone halo_width grid_dims) neighbor_zones) /\
  Forall (extent_in_grid halo_width grid_dims)
    (map (zone_extent unpack_zone halo_width grid_dims) neighbor_zones).
Proof.
  intros Hh Hgrid.
  split; apply List.Forall_forall; intros extent Hin;
    apply in_map_iff in Hin as ([[zi zj] zk] & <- & _);
    unfold zone_extent, extent_in_grid;
    cbn [i_min i_max j_min j_max k_min k_max fst snd];
    pose proof (zone_in_grid halo_width (grid_dims 0%nat) zi Hh
                  (Hgrid 0%nat ltac:(lia)));
    pose proof (zone_in_grid halo_width (grid_dims 1%nat) zj Hh
                  (Hgrid 1%nat ltac:(lia)));
    pose proof (zone_in_grid halo_width (grid_dims 2%nat) zk Hh
                  (Hgrid 2%nat ltac:(lia)));
    lia.
Qed.

(** The lists that are created hold the indices of their extents, and
    their lengths are recorded. *)
Lemma created_lists halo_width grid_dims junk :
  0 <= halo_width ->
  (forall a, (a < 3)%nat -> 0 <= grid_dims a) ->
  grid_fits_int halo_width grid_dims ->
  let pack := create_pack_lists halo_width grid_dims junk in
  let unpack := create_unpack_lists halo_width grid_dims junk in
  (fst pack =
     extent_lists halo_width grid_dims
       (map (zone_extent pack_zone halo_width grid_dims) neighbor_zones) /\
   snd pack = map (fun l => Z.of_nat (length l)) (fst pack)) /\
  (fst unpack =
     extent_lists halo_width grid_dims
       (map (zone_extent unpack_zone halo_width grid_dims) neighbor_zones) /\
   snd unpack = map (fun l => Z.of_nat (length l)) (fst unpack)).
Proof.
  intros Hh Hgrid Hfits pack unpack. subst pack unpack.
  unfold create_pack_lists, create_unpack_lists.
  destruct (extents_zones halo_width grid_dims Hh Hgrid Hfits) as [-> ->].
  destruct (zone_extents_in_grid halo_width grid_dims Hh Hgrid) as [Hp Hu].
  split; apply create_index_lists_spec; assumption.
Qed.

(** X14.  The index lists come out as intended whenever the halo width
    and the grid dimensions are not negative and the sizes of the grid
    fit into [int]: each list holds the indices of the cells of its
    extent in loop order, every allocated cell is written (the result
    does not depend on what the memory held), the recorded length is the
    length of the list, there are 26 lists of each kind, and the pack
    list and the unpack list of a neighbor have the same length, so that
    unpacking reads exactly the buffer cells that packing wrote. *)
Theorem index_lists_created halo_width grid_dims junk junk' :
  0 <= halo_width ->
  (forall a, (a < 3)%nat -> 0 <= grid_dims a) ->
  grid_fits_int halo_width grid_dims ->
  let pack := create_pack_lists halo_width grid_dims junk in
  let unpack := create_unpack_lists halo_width grid_dims junk' in
  fst pack =
    extent_lists halo_width grid_dims
      (pack_index_list_extents halo_width grid_dims) /\
  fst unpack =
    extent_lists halo_width grid_dims
      (unpack_index_list_extents halo_width grid_dims) /\
  snd pack = map (fun l => Z.of_nat (length l)) (fst pack) /\
  snd unpack = map (fun l => Z.of_nat (length l)) (fst unpack) /\
  length (fst pack) = 26%nat /\ length (fst unpack) = 26%nat /\
  snd pack = snd unpack.
Proof.
  intros Hh Hgrid Hfits pack unpack.
  destruct (created_lists halo_width grid_dims junk Hh Hgrid Hfits)
    as [[Hp1 Hp2] _].
  destruct (created_lists halo_width grid_dims junk' Hh Hgrid Hfits)
    as [_ [Hu1 Hu2]].
  cbn zeta in Hp1, Hp2, Hu1, Hu2.
  fold pack in Hp1, Hp2. fold unpack in Hu1, Hu2.
  destruct (extents_zones halo_width grid_dims Hh Hgrid Hfits) as [Ep Eu].
  rewrite Ep, Eu.
  split; [exact Hp1 |]. split; [exact Hu1 |].
  split; [exact Hp2 |]. split; [exact Hu2 |].
  split; [rewrite Hp1; reflexivity |]. split; [rewrite Hu1; reflexivity |].
  rewrite Hp2, Hu2, Hp1, Hu1. unfold extent_lists. rewrite !map_map.
  apply map_ext_in. intros [[zi zj] zk] _.
  rewrite !length_map, !length_extent_cells.
  unfold zone_extent. cbn [i_min i_max j_min j_max k_min k_max fst snd].
  destruct (zone_widths halo_width (grid_dims 0%nat) zi Hh
              (Hgrid 0%nat ltac:(lia))) as (_ & _ & ->).
  destruct (zone_widths halo_width (grid_dims 1%nat) zj Hh
              (Hgrid 1%nat ltac:(lia))) as (_ & _ & ->).
  destruct (zone_widths halo_width (grid_dims 2%nat) zk Hh
              (Hgrid 2%nat ltac:(lia))) as (_ & _ & ->).
  reflexivity.
Qed.

Lemma index_lists_created_witness :
  let grid_dims (a : nat) := 2 in
  let pack := create_pack_lists 1 grid_dims (fun _ => 7) in
  let unpack := create_unpack_lists 1 grid_dims (fun _ => -1) in
  (0 <= 1 /\ (forall a, (a < 3)%nat -> 0 <= grid_dims a) /\
   grid_fits_int 1 grid_dims) /\
  (fst pack =
     extent_lists 1 grid_dims (pack_index_list_extents 1 grid_dims) /\
   fst unpack =
     extent_lists 1 grid_dims (unpack_index_list_extents 1 grid_dims) /\
   snd pack = map (fun l => Z.of_nat (length l)) (fst pack) /\
   snd unpack = map (fun l => Z.of_nat (length l)) (fst unpack) /\
   length (fst pack) = 26%nat /\ length (fst unpack) = 26%nat /\
   snd pack = snd unpack).
Proof.
  intros grid_dims pack unpack.
  assert (0 <= 1) as H1 by lia.
  assert (forall a, (a < 3)%nat -> 0 <= grid_dims a) as H2
    by (intros a _; unfold grid_dims; lia).
  assert (grid_fits_int 1 grid_dims) as H3.
  { unfold grid_fits_int, grid_dims, INT_MAX. cbn zeta.
    split; [intros a _; lia | split; lia]. }
  split; [exact (conj H1 (conj H2 H3)) |].
  exact (index_lists_created 1 grid_dims (fun _ => 7) (fun _ => -1) H1 H2 H3).
Defined.

(** *** The cells of the lists *)

Lemma in_seqZ_range x lo hi : In x (seqZ lo (hi - lo)) <-> lo <= x < hi.
Proof.
  rewrite <- list_elem_of_In, elem_of_seqZ. lia.
Qed.

Lemma in_extent_cells extent cell :
  In cell (extent_cells extent) <->
  i_min extent <= fst (fst cell) < i_max extent /\
  j_min extent <= snd (fst cell) < j_max extent /\
  k_min extent <= snd cell < k_max extent.
Proof.
  destruct cell as [[i j] k]. unfold extent_cells. cbn [fst snd].
  rewrite in_flat_map. split.
  - intros (kk & Hk & Hin). apply in_flat_map in Hin as (jj & Hj & Hin).
    apply in_map_iff in Hin as (ii & [= <- <- <-] & Hi).
    apply in_seqZ_range in Hi, Hj, Hk. auto.
  - intros (Hi & Hj & Hk). exists k. split; [apply in_seqZ_range; exact Hk |].
    apply in_flat_map. exists j. split; [apply in_seqZ_range; exact Hj |].
    apply in_map_iff. exists i. split; [reflexivity |].
    apply in_seqZ_range. exact Hi.
Qed.

Lemma NoDup_flat_map_disjoint {A B : Type} (f : A -> list B) (l : list A) :
  NoDup l ->
  (forall x, In x l -> NoDup (f x)) ->
  (forall x y b, In x l -> In y l -> In b (f x) -> In b (f y) -> x = y) ->
  NoDup (flat_map f l).
Proof.
  induction l as [| x l IH]; intros Hl Hf Hdisj; cbn [flat_map].
  - constructor.
  - apply NoDup_cons in Hl as [Hx Hl]. apply NoDup_app. split; [| split].
    + apply Hf. left. reflexivity.
    + intros b Hb Hb'. apply list_elem_of_In in Hb, Hb'.
      apply in_flat_map in Hb' as (y & Hy & Hb').
      assert (x = y) as <-.
      { apply (Hdisj x y b); [left; reflexivity | right; exact Hy | |];
          assumption. }
      apply Hx. apply list_elem_of_In. exact Hy.
    + apply IH; [exact Hl | |].
      * intros y Hy. apply Hf. right. exact Hy.
      * intros y z b Hy Hz. apply Hdisj; right; assumption.
Qed.

Lemma NoDup_extent_cells extent : NoDup (extent_cells extent).
Proof.
  unfold extent_cells.
  apply NoDup_flat_map_disjoint; [apply NoDup_seqZ | |].
  - intros kk _. apply NoDup_flat_map_disjoint; [apply NoDup_seqZ | |].
    + intros jj _.
      change (NoDup ((fun ii => (ii, jj, kk)) <$>
                       seqZ (i_min extent) (i_max extent - i_min extent))).
      apply NoDup_fmap_2; [| apply NoDup_seqZ].
      intros i1 i2 [= ->]. reflexivity.
    + intros j1 j2 cell _ _ H1 H2.
      apply in_map_iff in H1 as (i1 & <- & _).
      apply in_map_iff in H2 as (i2 & [= _ ->] & _). reflexivity.
  - intros k1 k2 cell _ _ H1 H2.
    apply in_flat_map in H1 as (j1 & _ & H1).
    apply in_map_iff in H1 as (i1 & <- & _).
    apply in_flat_map in H2 as (j2 & _ & H2).
    apply in_map_iff in H2 as (i2 & [= _ _ ->] & _). reflexivity.
Qed.

Lemma mixed_radix_inj a x y x' y' :
  0 <= x < a -> 0 <= x' < a -> x + y * a = x' + y' * a -> x = x' /\ y = y'.
Proof.
  intros Hx Hx' Heq.
  assert (y = y') as ->; [| lia].
  destruct (Z.lt_trichotomy y y') as [Hlt | [Heq' | Hgt]]; [| exact Heq' |];
    exfalso; nia.
Qed.

(** Different cells of the grid have different indices, all within the
    grid variable. *)
Lemma cell_index_inj halo_width grid_dims cell cell' :
  in_grid halo_width grid_dims cell ->
  in_grid halo_width grid_dims cell' ->
  cell_index halo_width grid_dims cell = cell_index halo_width grid_dims cell' ->
  cell = cell'.
Proof.
  destruct cell as [[i j] k], cell' as [[i' j'] k'].
  unfold in_grid, cell_index. cbn [fst snd].
  set (G0 := grid_dims 0%nat + 2 * halo_width).
  set (G1 := grid_dims 1%nat + 2 * halo_width).
  intros (Hi & Hj & Hk) (Hi' & Hj' & Hk') Heq.
  destruct (mixed_radix_inj G0 i (j + k * G1) i' (j' + k' * G1) Hi Hi')
    as [-> Hrest]; [lia |].
  destruct (mixed_radix_inj G1 j k j' k' Hj Hj' Hrest) as [-> ->].
  reflexivity.
Qed.

Lemma cell_index_range halo_width grid_dims cell :
  in_grid halo_width grid_dims cell ->
  0 <= cell_index halo_width grid_dims cell <
  (grid_dims 0%nat + 2 * halo_width) * (grid_dims 1%nat + 2 * halo_width) *
  (grid_dims 2%nat + 2 * halo_width).
Proof.
  destruct cell as [[i j] k]. unfold in_grid, cell_index. cbn [fst snd].
  set (G0 := grid_dims 0%nat + 2 * halo_width).
  set (G1 := grid_dims 1%nat + 2 * halo_width).
  set (G2 := grid_dims 2%nat + 2 * halo_width).
  clearbody G0 G1 G2. intros (Hi & Hj & Hk).
  assert (0 <= j * G0) by (apply Z.mul_nonneg_nonneg; lia).
  assert (0 <= G0 * G1) by (apply Z.mul_nonneg_nonneg; lia).
  assert (0 <= k * (G0 * G1)) by (apply Z.mul_nonneg_nonneg; lia).
  split; [lia |].
  assert (0 <= (G1 - 1 - j) * G0) by (apply Z.mul_nonneg_nonneg; lia).
  assert (0 <= (G2 - 1 - k) * (G0 * G1)) by (apply Z.mul_nonneg_nonneg; lia).
  replace (G0 * G1 * G2) with
    (i + j * G0 + k * (G0 * G1) + (G0 - i) + (G1 - 1 - j) * G0 +
     (G2 - 1 - k) * (G0 * G1)) by ring.
  lia.
Qed.

Lemma unpack_zone_spec halo_width g z x :
  0 <= halo_width -> 0 <= g ->
  fst (unpack_zone halo_width g z) <= x < snd (unpack_zone halo_width g z) <->
  0 <= x < g + 2 * halo_width /\ zone_of halo_width g x = z.
Proof.
  intros Hh Hg. unfold zone_of.
  destruct (Z.ltb_spec x halo_width), (Z.ltb_spec x (g + halo_width)),
    z; cbn [unpack_zone fst snd]; split;
    try (intros [? ?]; try discriminate; lia); try lia;
    intros ?; split; try lia; try reflexivity.
Qed.

Lemma pack_zone_interior halo_width g z x :
  0 <= halo_width <= g ->
  fst (pack_zone halo_width g z) <= x < snd (pack_zone halo_width g z) ->
  halo_width <= x < g + halo_width.
Proof.
  intros Hh. destruct z; cbn [pack_zone fst snd]; lia.
Qed.

Lemma in_unpack_cells halo_width grid_dims zs cell :
  0 <= halo_width ->
  (forall a, (a < 3)%nat -> 0 <= grid_dims a) ->
  In cell (extent_cells (zone_extent unpack_zone halo_width grid_dims zs)) <->
  in_grid halo_width grid_dims cell /\ zones_of halo_width grid_dims cell = zs.
Proof.
  intros Hh Hgrid. rewrite in_extent_cells.
  destruct zs as [[zi zj] zk], cell as [[i j] k].
  unfold zone_extent, in_grid, zones_of.
  cbn [i_min i_max j_min j_max k_min k_max fst snd].
  rewrite (unpack_zone_spec halo_width (grid_dims 0%nat) zi i Hh)
    by (apply Hgrid; lia).
  rewrite (unpack_zone_spec halo_width (grid_dims 1%nat) zj j Hh)
    by (apply Hgrid; lia).
  rewrite (unpack_zone_spec halo_width (grid_dims 2%nat) zk k Hh)
    by (apply Hgrid; lia).
  split.
  - intros ((Hi & <-) & (Hj & <-) & (Hk & <-)). auto.
  - intros ((Hi & Hj & Hk) & [= <- <- <-]). auto.
Qed.

Lemma interior_zones halo_width grid_dims cell :
  interior halo_width grid_dims cell <->
  zones_of halo_width grid_dims cell = (Mid, Mid, Mid).
Proof.
  destruct cell as [[i j] k]. unfold interior, zones_of, zone_of.
  cbn [fst snd].
  destruct (Z.ltb_spec i halo_width),
    (Z.ltb_spec i (grid_dims 0%nat + halo_width)),
    (Z.ltb_spec j halo_width),
    (Z.ltb_spec j (grid_dims 1%nat + halo_width)),
    (Z.ltb_spec k halo_width),
    (Z.ltb_spec k (grid_dims 2%nat + halo_width));
    split; intros Hyp; try discriminate; try lia; reflexivity.
Qed.

Lemma neighbor_zones_spec zs :
  In zs neighbor_zones <-> zs <> (Mid, Mid, Mid).
Proof.
  rewrite <- list_elem_of_In.
  destruct zs as [[[] []] []]; split; intros Hyp;
    try discriminate;
    try (exfalso; apply Hyp; reflexivity);
    try (refine (bool_decide_unpack _ _); vm_compute; exact I).
  exfalso. revert Hyp. refine (bool_decide_unpack _ _). vm_compute. exact I.
Qed.

Lemma NoDup_neighbor_zones : NoDup neighbor_zones.
Proof.
  refine (bool_decide_unpack _ _). vm_compute. exact I.
Qed.

Lemma concat_extent_lists halo_width grid_dims zone :
  concat (extent_lists halo_width grid_dims
            (map (zone_extent zone halo_width grid_dims) neighbor_zones)) =
  map (cell_index halo_width grid_dims)
    (flat_map
       (fun zs => extent_cells (zone_extent zone halo_width grid_dims zs))
       neighbor_zones).
Proof.
  unfold extent_lists. rewrite map_map, flat_map_concat_map, concat_map, map_map.
  reflexivity.
Qed.

(** The halo cells, each once. *)
Lemma unpack_cells_partition halo_width grid_dims :
  0 <= halo_width ->
  (forall a, (a < 3)%nat -> 0 <= grid_dims a) ->
  let cells :=
    flat_map
      (fun zs =>
         extent_cells (zone_extent unpack_zone halo_width grid_dims zs))
      neighbor_zones in
  NoDup cells /\
  forall cell, In cell cells <->
    in_grid halo_width grid_dims cell /\ ~ interior halo_width grid_dims cell.
Proof.
  intros Hh Hgrid cells. subst cells. split.
  - apply NoDup_flat_map_disjoint.
    + apply NoDup_neighbor_zones.
    + intros zs _. apply NoDup_extent_cells.
    + intros zs zs' cell _ _ H1 H2.
      apply in_unpack_cells in H1 as [_ <-]; [| assumption ..].
      apply in_unpack_cells in H2 as [_ <-]; [| assumption ..].
      reflexivity.
  - intros cell. rewrite in_flat_map, interior_zones. split.
    + intros (zs & Hzs & Hin).
      apply in_unpack_cells in Hin as [Hgridc <-]; [| assumption ..].
      split; [exact Hgridc |]. apply neighbor_zones_spec. exact Hzs.
    + intros [Hgridc Hnot]. exists (zones_of halo_width grid_dims cell).
      split; [apply neighbor_zones_spec; exact Hnot |].
      apply in_unpack_cells; auto.
Qed.

(** X15.  With a halo no wider than the grid (which [main] checks) and
    not negative (which it does not), and sizes that fit into [int],
    packing reads interior cells only and unpacking writes halo cells
    only: every index of a pack list is that of a cell of the interior,
    every index of an unpack list that of a cell of the halo, all of
    them lie within the [var_size] cells of a grid variable, and no cell
    is both packed and unpacked. *)
Theorem index_lists_in_bounds halo_width grid_dims junk junk' :
  0 <= halo_width ->
  (forall a, (a < 3)%nat -> halo_width <= grid_dims a) ->
  grid_fits_int halo_width grid_dims ->
  let pack := fst (create_pack_lists halo_width grid_dims junk) in
  let unpack := fst (create_unpack_lists halo_width grid_dims junk') in
  let var_size :=
    (grid_dims 0%nat +! 2 *! halo_width) *!
    (grid_dims 1%nat +! 2 *! halo_width) *!
    (grid_dims 2%nat +! 2 *! halo_width) in
  (forall l idx, In l pack -> In idx l ->
     exists cell, idx = cell_index halo_width grid_dims cell /\
                  interior halo_width grid_dims cell) /\
  (forall l idx, In l unpack -> In idx l ->
     exists cell, idx = cell_index halo_width grid_dims cell /\
                  in_grid halo_width grid_dims cell /\
                  ~ interior halo_width grid_dims cell) /\
  (forall l idx, In l (pack ++ unpack) -> In idx l -> 0 <= idx < var_size) /\
  (forall l l' idx, In l pack -> In l' unpack -> In idx l -> ~ In idx l').
Proof.
  intros Hh Hle Hfits pack unpack var_size.
  assert (forall a, (a < 3)%nat -> 0 <= grid_dims a) as Hgrid.
  { intros a Ha. specialize (Hle a Ha). lia. }
  destruct (created_lists halo_width grid_dims junk Hh Hgrid Hfits)
    as [[Hp _] _].
  destruct (created_lists halo_width grid_dims junk' Hh Hgrid Hfits)
    as [_ [Hu _]].
  cbn zeta in Hp, Hu. fold pack in Hp. fold unpack in Hu.
  assert (var_size =
          (grid_dims 0%nat + 2 * halo_width) *
          (grid_dims 1%nat + 2 * halo_width) *
          (grid_dims 2%nat + 2 * halo_width)) as Hsize.
  { subst var_size.
    destruct (grid_strides halo_width grid_dims Hh Hgrid Hfits)
      as (E2 & Ed & E01 & E012).
    rewrite E2, !Ed by lia. rewrite E01, E012. reflexivity. }
  rewrite Hsize. clear Hsize var_size.
  assert (forall cell, interior halo_width grid_dims cell ->
                       in_grid halo_width grid_dims cell) as Hinner.
  { intros [[i j] k]. unfold interior, in_grid. cbn [fst snd]. lia. }
  assert (forall l idx, In l pack -> In idx l ->
            exists cell, idx = cell_index halo_width grid_dims cell /\
                         interior halo_width grid_dims cell) as Hpack.
  { intros l idx Hl Hidx. rewrite Hp in Hl.
    unfold extent_lists in Hl. rewrite map_map in Hl.
    apply in_map_iff in Hl as ([[zi zj] zk] & <- & _).
    apply in_map_iff in Hidx as (cell & <- & Hcell).
    exists cell. split; [reflexivity |].
    apply in_extent_cells in Hcell. destruct cell as [[i j] k].
    unfold zone_extent in Hcell.
    cbn [i_min i_max j_min j_max k_min k_max fst snd] in Hcell.
    destruct Hcell as (Hi & Hj & Hk).
    apply pack_zone_interior in Hi; [| split; [lia | apply Hle; lia]].
    apply pack_zone_interior in Hj; [| split; [lia | apply Hle; lia]].
    apply pack_zone_interior in Hk; [| split; [lia | apply Hle; lia]].
    unfold interior. cbn [fst snd]. auto. }
  assert (forall l idx, In l unpack -> In idx l ->
            exists cell, idx = cell_index halo_width grid_dims cell /\
                         in_grid halo_width grid_dims cell /\
                         ~ interior halo_width grid_dims cell) as Hunpack.
  { intros l idx Hl Hidx. rewrite Hu in Hl.
    unfold extent_lists in Hl. rewrite map_map in Hl.
    apply in_map_iff in Hl as (zs & <- & Hzs).
    apply in_map_iff in Hidx as (cell & <- & Hcell).
    exists cell. split; [reflexivity |].
    apply (unpack_cells_partition halo_width grid_dims Hh Hgrid).
    apply in_flat_map. exists zs. auto. }
  split; [exact Hpack |]. split; [exact Hunpack |]. split.
  - intros l idx Hl Hidx. apply in_app_or in Hl as [Hl | Hl].
    + destruct (Hpack l idx Hl Hidx) as (cell & -> & Hcell).
      apply cell_index_range. apply Hinner. exact Hcell.
    + destruct (Hunpack l idx Hl Hidx) as (cell & -> & Hcell & _).
      apply cell_index_range. exact Hcell.
  - intros l l' idx Hl Hl' Hidx Hidx'.
    destruct (Hpack l idx Hl Hidx) as (cell & -> & Hcell).
    destruct (Hunpack l' _ Hl' Hidx') as (cell' & Heq & Hcell' & Hnot).
    apply cell_index_inj in Heq; [| apply Hinner; exact Hcell | exact Hcell'].
    subst cell'. contradiction.
Qed.

Lemma index_lists_in_bounds_witness :
  let grid_dims (a : nat) := 2 in
  let pack := fst (create_pack_lists 1 grid_dims (fun _ => 0)) in
  let unpack := fst (create_unpack_lists 1 grid_dims (fun _ => 0)) in
  (0 <= 1 /\ (forall a, (a < 3)%nat -> 1 <= grid_dims a) /\
   grid_fits_int 1 grid_dims) /\
  ((forall l idx, In l pack -> In idx l ->
      exists cell, idx = cell_index 1 grid_dims cell /\
                   interior 1 grid_dims cell) /\
   (forall l idx, In l unpack -> In idx l ->
      exists cell, idx = cell_index 1 grid_dims cell /\
                   in_grid 1 grid_dims cell /\
                   ~ interior 1 grid_dims cell) /\
   (forall l idx, In l (pack ++ unpack) -> In idx l ->
      0 <= idx <
      (grid_dims 0%nat +! 2 *! 1) *! (grid_dims 1%nat +! 2 *! 1) *!
      (grid_dims 2%nat +! 2 *! 1)) /\
   (forall l l' idx, In l pack -> In l' unpack -> In idx l -> ~ In idx l')).
Proof.
  intros grid_dims pack unpack.
  assert (0 <= 1) as H1 by lia.
  assert (forall a, (a < 3)%nat -> 1 <= grid_dims a) as H2
    by (intros a _; unfold grid_dims; lia).
  assert (grid_fits_int 1 grid_dims) as H3.
  { unfold grid_fits_int, grid_dims, INT_MAX. cbn zeta.
    split; [intros a _; lia | split; lia]. }
  split; [exact (conj H1 (conj H2 H3)) |].
  exact (index_lists_in_bounds 1 grid_dims (fun _ => 0) (fun _ => 0)
           H1 H2 H3).
Defined.

(** X16.  At sizes that fit into [int] the 26 unpack lists divide the
    halo among the neighbors: taken together they hold the index of every
    halo cell of the grid exactly once and of no interior cell, so the
    unpacking loops of different neighbors never write the same cell, in
    whatever order they run. *)
Theorem unpack_lists_partition_halo halo_width grid_dims junk :
  0 <= halo_width ->
  (forall a, (a < 3)%nat -> 0 <= grid_dims a) ->
  grid_fits_int halo_width grid_dims ->
  let unpack := fst (create_unpack_lists halo_width grid_dims junk) in
  NoDup (concat unpack) /\
  forall cell, in_grid halo_width grid_dims cell ->
    (In (cell_index halo_width grid_dims cell) (concat unpack) <->
     ~ interior halo_width grid_dims cell).
Proof.
  intros Hh Hgrid Hfits unpack.
  destruct (created_lists halo_width grid_dims junk Hh Hgrid Hfits)
    as [_ [Hu _]].
  cbn zeta in Hu. fold unpack in Hu.
  destruct (unpack_cells_partition halo_width grid_dims Hh Hgrid)
    as [Hnodup Hcells].
  rewrite Hu, concat_extent_lists. split.
  - change (NoDup (cell_index halo_width grid_dims <$>
                     flat_map
                       (fun zs => extent_cells
                          (zone_extent unpack_zone halo_width grid_dims zs))
                       neighbor_zones)).
    apply NoDup_fmap_2_strong; [| exact Hnodup].
    intros c c' Hc Hc' Heq. apply list_elem_of_In in Hc, Hc'.
    apply Hcells in Hc as [Hc _]. apply Hcells in Hc' as [Hc' _].
    apply (cell_index_inj halo_width grid_dims); assumption.
  - intros cell Hcell. rewrite in_map_iff. split.
    + intros (cell' & Heq & Hin). apply Hcells in Hin as [Hgridc Hnot].
      apply cell_index_inj in Heq; [| assumption ..]. subst cell'.
      exact Hnot.
    + intros Hnot. exists cell. split; [reflexivity |].
      apply Hcells. auto.
Qed.

Lemma unpack_lists_partition_halo_witness :
  let grid_dims (a : nat) := Z.of_nat a in
  let unpack := fst (create_unpack_lists 1 grid_dims (fun _ => 0)) in
  (0 <= 1 /\ (forall a, (a < 3)%nat -> 0 <= grid_dims a) /\
   grid_fits_int 1 grid_dims) /\
  (NoDup (concat unpack) /\
   forall cell, in_grid 1 grid_dims cell ->
     (In (cell_index 1 grid_dims cell) (concat unpack) <->
      ~ interior 1 grid_dims cell)).
Proof.
  intros grid_dims unpack.
  assert (0 <= 1) as H1 by lia.
  assert (forall a, (a < 3)%nat -> 0 <= grid_dims a) as H2
    by (intros a _; unfold grid_dims; lia).
  assert (grid_fits_int 1 grid_dims) as H3.
  { unfold grid_fits_int, grid_dims, INT_MAX. cbn zeta.
    split; [intros a Ha; lia | split; lia]. }
  split; [exact (conj H1 (conj H2 H3)) |].
  exact (unpack_lists_partition_halo 1 grid_dims (fun _ => 0) H1 H2 H3).
Defined.

(** *** Memory after a cycle of the exchange *)

Lemma load_store_eq p x m : load (store p x m) p = x.
Proof.
  unfold load, store. rewrite lookup_insert_eq. reflexivity.
Qed.

Lemma load_store_ne p q x m : p <> q -> load (store p x m) q = load m q.
Proof.
  intros Hne. unfold load, store. rewrite lookup_insert_ne by exact Hne.
  reflexivity.
Qed.

Lemma ptr_add_0 p : ptr_add p 0 = p.
Proof.
  destruct p as [a o]. unfold ptr_add. cbn. f_equal. lia.
Qed.

Lemma ptr_add_add p a b : ptr_add (ptr_add p a) b = ptr_add p (a + b).
Proof.
  unfold ptr_add. cbn. f_equal. lia.
Qed.

Lemma load_store_all_notin q writes : forall m,
  ~ In q (map fst writes) -> load (store_all writes m) q = load m q.
Proof.
  unfold store_all.
  induction writes as [| [p x] writes IH]; intros m Hq; [reflexivity |].
  cbn [fold_left fst snd]. cbn [map fst] in Hq.
  rewrite IH by (intros Hin; apply Hq; right; exact Hin).
  apply load_store_ne. intros ->. apply Hq. left. reflexivity.
Qed.

Lemma load_store_all_in p x writes : forall m,
  NoDup (map fst writes) -> In (p, x) writes ->
  load (store_all writes m) p = x.
Proof.
  induction writes as [| [p' x'] writes IH]; intros m Hnodup Hin;
    [destruct Hin |].
  cbn [map fst] in Hnodup. apply NoDup_cons in Hnodup as [Hp' Hnodup].
  destruct Hin as [[= -> ->] | Hin].
  - change (store_all ((p, x) :: writes) m)
      with (store_all writes (store p x m)).
    rewrite load_store_all_notin.
    + apply load_store_eq.
    + intros Hin. apply Hp'. apply list_elem_of_In. exact Hin.
  - change (store_all ((p', x') :: writes) m)
      with (store_all writes (store p' x' m)).
    apply IH; assumption.
Qed.

(** Moves whose sources are not overwritten store what the sources held
    at the start. *)
Lemma moves_as_stores moves : forall m m0,
  (forall mv, In mv moves -> load m (snd mv) = load m0 (snd mv)) ->
  (forall mv mv', In mv moves -> In mv' moves -> snd mv <> fst mv') ->
  apply_moves moves m =
  store_all (map (fun mv => (fst mv, load m0 (snd mv))) moves) m.
Proof.
  unfold apply_moves, store_all.
  induction moves as [| mv moves IH]; intros m m0 Hsame Hsep; [reflexivity |].
  cbn [map fold_left fst snd].
  rewrite (Hsame mv (or_introl eq_refl)).
  apply IH.
  - intros mv' Hin. rewrite load_store_ne.
    + apply Hsame. right. exact Hin.
    + intros Heq. apply (Hsep mv' mv); [right; exact Hin | left; reflexivity |].
      symmetry. exact Heq.
  - intros mv1 mv2 H1 H2. apply Hsep; right; assumption.
Qed.

Lemma apply_moves_flat_map {A : Type} (f : A -> list (Ptr * Ptr)) (l : list A)
    m :
  apply_moves (flat_map f l) m = fold_left (fun m x => apply_moves (f x) m) l m.
Proof.
  unfold apply_moves. apply fold_left_flat_map.
Qed.

Lemma c_loop_seqZ len body m :
  c_loop 0 len body m =
  fold_left (fun m i => invoke (body i) m) (seqZ 0 len) m.
Proof.
  unfold c_loop. rewrite c_for_fold. unfold seqZ.
  rewrite Nat2Z.id, Z.sub_0_r. reflexivity.
Qed.

(** The loop over the variables, which moves the buffer pointer on by the
    length of the list after each variable. *)
Lemma bump_fold (F : Ptr -> nat -> Memory -> Memory)
    (len : Z) (n : nat) : forall v0 buffer m,
  snd (fold_left
         (fun (st : Ptr * Memory) v =>
            (ptr_add (fst st) len, F (fst st) v (snd st)))
         (seq v0 n) (buffer, m)) =
  fold_left
    (fun m v => F (ptr_add buffer ((Z.of_nat v - Z.of_nat v0) * len)) v m)
    (seq v0 n) m.
Proof.
  induction n as [| n IH]; intros v0 buffer m; [reflexivity |].
  cbn [seq fold_left fst snd]. rewrite IH.
  rewrite Z.sub_diag, Z.mul_0_l, ptr_add_0.
  apply fold_left_ext. intros s v. rewrite ptr_add_add. do 2 f_equal. lia.
Qed.

Lemma c_pack_neighbor_moves h l m :
  c_pack_neighbor h l m =
  apply_moves
    (flat_map
       (fun v =>
          map (fun i =>
                 (ptr_add (ptr_add (buffers h l)
                             (Z.of_nat v * pack_index_list_lengths h l)) i,
                  ptr_add (vars h v) (list_at (pack_index_lists h l) i)))
            (seqZ 0 (pack_index_list_lengths h l)))
       (seq 0 (num_vars h))) m.
Proof.
  unfold c_pack_neighbor. cbn zeta.
  rewrite (bump_fold
             (fun buffer v m =>
                c_loop 0 (pack_index_list_lengths h l)
                  (pack_body buffer (vars h v) (pack_index_lists h l)) m)).
  rewrite apply_moves_flat_map. apply fold_left_ext. intros s v.
  rewrite c_loop_seqZ. unfold apply_moves. rewrite fold_left_map.
  rewrite Z.sub_0_r. reflexivity.
Qed.

Lemma c_unpack_neighbor_moves h l m :
  c_unpack_neighbor h l m =
  apply_moves
    (flat_map
       (fun v =>
          map (fun i =>
                 (ptr_add (vars h v) (list_at (unpack_index_lists h l) i),
                  ptr_add (ptr_add (buffers h l)
                             (Z.of_nat v * unpack_index_list_lengths h l)) i))
            (seqZ 0 (unpack_index_list_lengths h l)))
       (seq 0 (num_vars h))) m.
Proof.
  unfold c_unpack_neighbor. cbn zeta.
  rewrite (bump_fold
             (fun buffer v m =>
                c_loop 0 (unpack_index_list_lengths h l)
                  (unpack_body buffer (vars h v) (unpack_index_lists h l)) m)).
  rewrite apply_moves_flat_map. apply fold_left_ext. intros s v.
  rewrite c_loop_seqZ. unfold apply_moves. rewrite fold_left_map.
  rewrite Z.sub_0_r. reflexivity.
Qed.

Lemma c_set_vars_writes h m : c_set_vars h m = store_all (set_writes h) m.
Proof.
  unfold c_set_vars, set_writes, store_all.
  rewrite fold_left_flat_map. apply fold_left_ext. intros s v.
  rewrite c_loop_seqZ, fold_left_map. reflexivity.
Qed.

(** A cycle of the C-style exchange, flattened. *)
Lemma c_cycle_moves h m :
  c_cycle h m =
  apply_moves (unpack_moves h)
    (apply_moves (pack_moves h) (store_all (set_writes h) m)).
Proof.
  unfold c_cycle. cbn zeta. rewrite c_set_vars_writes.
  unfold unpack_moves, pack_moves. rewrite !apply_moves_flat_map.
  rewrite (fold_left_ext (fun m l => c_unpack_neighbor h l m) _ _
             (fun s l => c_unpack_neighbor_moves h l s)).
  f_equal.
  apply fold_left_ext. intros s l. apply c_pack_neighbor_moves.
Qed.

Lemma map_flat_map {A B C : Type} (f : B -> C) (g : A -> list B) (l : list A) :
  map f (flat_map g l) = flat_map (fun x => map f (g x)) l.
Proof.
  induction l as [| x l IH]; [reflexivity |].
  cbn [flat_map]. rewrite map_app, IH. reflexivity.
Qed.

Lemma flat_map_map {A B C : Type} (f : B -> list C) (g : A -> B) (l : list A) :
  flat_map f (map g l) = flat_map (fun x => f (g x)) l.
Proof.
  induction l as [| x l IH]; [reflexivity |].
  cbn [map flat_map]. rewrite IH. reflexivity.
Qed.

Lemma nth_map_default {A B : Type} (f : A -> B) (l : list A) (k : nat)
    (d : A) (d' : B) :
  (k < length l)%nat -> nth k (map f l) d' = f (nth k l d).
Proof.
  intros Hk. rewrite (nth_indep _ d' (f d)) by (rewrite length_map; exact Hk).
  apply map_nth.
Qed.

(** Arrays of their own: equal array, equal allocation. *)
Lemma separate_app_l arrays arrays' : separate (arrays ++ arrays') -> separate arrays.
Proof.
  unfold separate. rewrite map_app. intros H.
  apply NoDup_app in H as (H & _). exact H.
Qed.

Lemma separate_app_r arrays arrays' : separate (arrays ++ arrays') -> separate arrays'.
Proof.
  unfold separate. rewrite map_app. intros H.
  apply NoDup_app in H as (_ & _ & H). exact H.
Qed.

Lemma separate_across arrays arrays' p q :
  separate (arrays ++ arrays') -> In p arrays -> In q arrays' -> fst p <> fst q.
Proof.
  unfold separate. rewrite map_app. intros H Hp Hq Heq.
  apply NoDup_app in H as (_ & H & _).
  apply (H (fst p)).
  - apply list_elem_of_In, in_map. exact Hp.
  - rewrite Heq. apply list_elem_of_In, in_map. exact Hq.
Qed.

Lemma separate_same (f : nat -> Ptr) n a b :
  separate (map f (seq 0 n)) -> (a < n)%nat -> (b < n)%nat ->
  fst (f a) = fst (f b) -> a = b.
Proof.
  unfold separate. rewrite map_map. intros H Ha Hb Heq.
  apply NoDup_ListNoDup in H.
  pose proof (proj1 (List.NoDup_nth _ 0%nat) H a b) as Hnth.
  rewrite length_map, length_seq in Hnth.
  apply Hnth; [exact Ha | exact Hb |].
  rewrite !(nth_map_default (fun v => fst (f v)) _ _ 0%nat)
    by (rewrite length_seq; assumption).
  rewrite !seq_nth by assumption. exact Heq.
Qed.

Lemma in_map_seq (f : nat -> Ptr) n a : (a < n)%nat -> In (f a) (map f (seq 0 n)).
Proof.
  intros Ha. apply in_map. apply in_seq. lia.
Qed.

Lemma apply_moves_frame q moves : forall m,
  ~ In q (map fst moves) -> load (apply_moves moves m) q = load m q.
Proof.
  unfold apply_moves.
  induction moves as [| mv moves IH]; intros m Hq; [reflexivity |].
  cbn [fold_left]. cbn [map] in Hq.
  rewrite IH by (intros Hin; apply Hq; right; exact Hin).
  apply load_store_ne. intros Heq. apply Hq. left. exact Heq.
Qed.

(** *** The cells the lists of the example refer to *)

Lemma zone_of_unpack halo_width g z x :
  0 <= halo_width -> 0 <= g ->
  fst (unpack_zone halo_width g z) <= x < snd (unpack_zone halo_width g z) ->
  zone_of halo_width g x = z.
Proof.
  intros Hh Hg Hx. apply unpack_zone_spec in Hx; [| assumption ..].
  apply Hx.
Qed.

Lemma shifted_cells (extent : Extent) (di dj dk : Z) :
  extent_cells
    (MkExtent (di + i_min extent) (di + i_max extent)
       (dj + j_min extent) (dj + j_max extent)
       (dk + k_min extent) (dk + k_max extent)) =
  map (fun cell => (di + fst (fst cell), dj + snd (fst cell), dk + snd cell))
    (extent_cells extent).
Proof.
  unfold extent_cells. cbn [i_min i_max j_min j_max k_min k_max].
  replace (di + i_max extent - (di + i_min extent))
    with (i_max extent - i_min extent) by lia.
  replace (dj + j_max extent - (dj + j_min extent))
    with (j_max extent - j_min extent) by lia.
  replace (dk + k_max extent - (dk + k_min extent))
    with (k_max extent - k_min extent) by lia.
  rewrite <- !fmap_add_seqZ.
  change (Z.add dk <$> ?l) with (map (Z.add dk) l).
  change (Z.add dj <$> ?l) with (map (Z.add dj) l).
  change (Z.add di <$> ?l) with (map (Z.add di) l).
  rewrite flat_map_map, map_flat_map. apply flat_map_ext. intros kk.
  rewrite flat_map_map, map_flat_map. apply flat_map_ext. intros jj.
  rewrite !map_map. reflexivity.
Qed.

Lemma pack_cells_source halo_width grid_dims zs :
  0 <= halo_width ->
  (forall a, (a < 3)%nat -> 0 <= grid_dims a) ->
  extent_cells (zone_extent pack_zone halo_width grid_dims zs) =
  map (source_cell halo_width grid_dims)
    (extent_cells (zone_extent unpack_zone halo_width grid_dims zs)).
Proof.
  intros Hh Hgrid. destruct zs as [[zi zj] zk].
  set (U := zone_extent unpack_zone halo_width grid_dims (zi, zj, zk)).
  replace (zone_extent pack_zone halo_width grid_dims (zi, zj, zk))
    with (MkExtent
            (zone_shift halo_width zi + i_min U)
            (zone_shift halo_width zi + i_max U)
            (zone_shift halo_width zj + j_min U)
            (zone_shift halo_width zj + j_max U)
            (zone_shift halo_width zk + k_min U)
            (zone_shift halo_width zk + k_max U)).
  - rewrite shifted_cells. apply map_ext_in. intros [[i j] k] Hcell.
    apply in_extent_cells in Hcell. subst U. unfold zone_extent in Hcell.
    cbn [i_min i_max j_min j_max k_min k_max fst snd] in Hcell.
    destruct Hcell as (Hi & Hj & Hk).
    apply zone_of_unpack in Hi; [| exact Hh | apply Hgrid; lia].
    apply zone_of_unpack in Hj; [| exact Hh | apply Hgrid; lia].
    apply zone_of_unpack in Hk; [| exact Hh | apply Hgrid; lia].
    unfold source_cell, source. cbn [fst snd]. rewrite Hi, Hj, Hk.
    destruct zi, zj, zk; cbn -[Z.add Z.opp];
      repeat (apply (f_equal2 pair)); lia.
  - subst U. unfold zone_extent.
    cbn [i_min i_max j_min j_max k_min k_max fst snd].
    destruct zi, zj, zk; cbn [zone_shift pack_zone unpack_zone fst snd];
      f_equal; lia.
Qed.

Lemma source_in_grid halo_width grid_dims cell :
  0 <= halo_width ->
  (forall a, (a < 3)%nat -> 0 <= grid_dims a) ->
  in_grid halo_width grid_dims cell ->
  in_grid halo_width grid_dims (source_cell halo_width grid_dims cell).
Proof.
  intros Hh Hgrid. destruct cell as [[i j] k].
  pose proof (Hgrid 0%nat ltac:(lia)). pose proof (Hgrid 1%nat ltac:(lia)).
  pose proof (Hgrid 2%nat ltac:(lia)).
  unfold in_grid, source_cell, source, zone_of. cbn [fst snd].
  intros (Hi & Hj & Hk).
  destruct (Z.ltb_spec i halo_width),
    (Z.ltb_spec i (grid_dims 0%nat + halo_width)),
    (Z.ltb_spec j halo_width),
    (Z.ltb_spec j (grid_dims 1%nat + halo_width)),
    (Z.ltb_spec k halo_width),
    (Z.ltb_spec k (grid_dims 2%nat + halo_width)); lia.
Qed.

Lemma source_interior halo_width grid_dims cell :
  interior halo_width grid_dims cell ->
  source_cell halo_width grid_dims cell = cell.
Proof.
  intros Hint. apply interior_zones in Hint. destruct cell as [[i j] k].
  unfold zones_of in Hint. cbn [fst snd] in Hint.
  injection Hint as Hi Hj Hk.
  unfold source_cell, source. cbn [fst snd]. rewrite Hi, Hj, Hk.
  reflexivity.
Qed.

Lemma in_flat3 {X : Type} (N nv : nat) (len : nat -> Z)
    (F : nat -> nat -> Z -> X) (x : X) :
  In x (flat_map
          (fun l => flat_map (fun v => map (F l v) (seqZ 0 (len l))) (seq 0 nv))
          (seq 0 N)) <->
  exists l v i, (l < N)%nat /\ (v < nv)%nat /\ 0 <= i < len l /\ x = F l v i.
Proof.
  rewrite in_flat_map. split.
  - intros (l & Hl & Hin). apply in_flat_map in Hin as (v & Hv & Hin).
    apply in_map_iff in Hin as (i & <- & Hi).
    apply in_seq in Hl, Hv.
    replace (len l) with (len l - 0) in Hi by lia.
    apply in_seqZ_range in Hi.
    exists l, v, i. repeat split; lia.
  - intros (l & v & i & Hl & Hv & Hi & ->). exists l.
    split; [apply in_seq; lia |]. apply in_flat_map. exists v.
    split; [apply in_seq; lia |]. apply in_map.
    replace (len l) with (len l - 0) by lia. apply in_seqZ_range. exact Hi.
Qed.

Lemma map_flat3 {X Y : Type} (g : X -> Y) (N nv : nat) (len : nat -> Z)
    (F : nat -> nat -> Z -> X) :
  map g (flat_map
           (fun l => flat_map (fun v => map (F l v) (seqZ 0 (len l))) (seq 0 nv))
           (seq 0 N)) =
  flat_map
    (fun l =>
       flat_map (fun v => map (fun i => g (F l v i)) (seqZ 0 (len l)))
         (seq 0 nv))
    (seq 0 N).
Proof.
  rewrite map_flat_map. apply flat_map_ext. intros l.
  rewrite map_flat_map. apply flat_map_ext. intros v.
  apply map_map.
Qed.

Lemma NoDup_flat3 {X : Type} (N nv : nat) (len : nat -> Z)
    (F : nat -> nat -> Z -> X) :
  (forall l v i l' v' i',
     (l < N)%nat -> (v < nv)%nat -> 0 <= i < len l ->
     (l' < N)%nat -> (v' < nv)%nat -> 0 <= i' < len l' ->
     F l v i = F l' v' i' -> l = l' /\ v = v' /\ i = i') ->
  NoDup (flat_map
           (fun l => flat_map (fun v => map (F l v) (seqZ 0 (len l))) (seq 0 nv))
           (seq 0 N)).
Proof.
  intros Hinj.
  assert (forall l i, In i (seqZ 0 (len l)) -> 0 <= i < len l) as Hrange.
  { intros l i Hi. replace (len l) with (len l - 0) in Hi by lia.
    apply in_seqZ_range in Hi. exact Hi. }
  apply NoDup_flat_map_disjoint.
  - apply NoDup_ListNoDup, List.seq_NoDup.
  - intros l Hl. apply in_seq in Hl. apply NoDup_flat_map_disjoint.
    + apply NoDup_ListNoDup, List.seq_NoDup.
    + intros v Hv. apply in_seq in Hv.
      change (NoDup (F l v <$> seqZ 0 (len l))).
      apply NoDup_fmap_2_strong; [| apply NoDup_seqZ].
      intros i i' Hi Hi' Heq. apply list_elem_of_In, Hrange in Hi, Hi'.
      destruct (Hinj l v i l v i') as (_ & _ & Hii); (lia || assumption).
    + intros v v' x Hv Hv' Hx Hx'. apply in_seq in Hv, Hv'.
      apply in_map_iff in Hx as (i & <- & Hi).
      apply in_map_iff in Hx' as (i' & Heq & Hi').
      apply Hrange in Hi, Hi'.
      destruct (Hinj l v' i' l v i) as (_ & Hvv & _); (lia || assumption).
  - intros l l' x Hl Hl' Hx Hx'. apply in_seq in Hl, Hl'.
    apply in_flat_map in Hx as (v & Hv & Hx).
    apply in_map_iff in Hx as (i & <- & Hi).
    apply in_flat_map in Hx' as (v' & Hv' & Hx').
    apply in_map_iff in Hx' as (i' & Heq & Hi').
    apply in_seq in Hv, Hv'. apply Hrange in Hi, Hi'.
    destruct (Hinj l' v' i' l v i) as (Hll & _ & _); (lia || assumption).
Qed.

Section Example.

Variable halo_width : Z.
Variable grid_dims : nat -> Z.
Variable nvars : nat.
Variable vars_ : nat -> Ptr.
Variable buffers_ : nat -> Ptr.
Variable junk : nat -> Z.

Hypothesis halo_width_nonneg : 0 <= halo_width.
Hypothesis grid_dims_nonneg : forall a, (a < 3)%nat -> 0 <= grid_dims a.
Hypothesis sizes_fit : grid_fits_int halo_width grid_dims.
Hypothesis arrays_separate :
  separate (map vars_ (seq 0 nvars) ++ map buffers_ (seq 0 26)).

Local Abbreviation h :=
  (example_halo halo_width grid_dims nvars vars_ buffers_ junk).
Local Abbreviation index := (cell_index halo_width grid_dims).
Local Abbreviation zones l := (nth l neighbor_zones (Mid, Mid, Mid)).
Local Abbreviation unpack_cells l :=
  (extent_cells (zone_extent unpack_zone halo_width grid_dims (zones l))).

Lemma example_lists l :
  (l < 26)%nat ->
  pack_index_lists h l =
    map (fun cell => index (source_cell halo_width grid_dims cell))
      (unpack_cells l) /\
  unpack_index_lists h l = map index (unpack_cells l) /\
  pack_index_list_lengths h l = Z.of_nat (length (unpack_cells l)) /\
  unpack_index_list_lengths h l = Z.of_nat (length (unpack_cells l)).
Proof.
  intros Hl.
  destruct (created_lists halo_width grid_dims junk halo_width_nonneg
              grid_dims_nonneg sizes_fit) as [[Hp1 Hp2] [Hu1 Hu2]].
  cbn zeta in Hp1, Hp2, Hu1, Hu2.
  cbn [pack_index_lists unpack_index_lists pack_index_list_lengths
         unpack_index_list_lengths example_halo].
  rewrite Hp2, Hu2, Hp1, Hu1.
  unfold extent_lists. rewrite !map_map.
  rewrite !(nth_map_default _ _ _ (Mid, Mid, Mid)) by exact Hl.
  rewrite pack_cells_source by assumption. rewrite !map_map, !length_map.
  auto.
Qed.

Lemma unpack_cells_in_grid l cell :
  (l < 26)%nat -> In cell (unpack_cells l) ->
  in_grid halo_width grid_dims cell /\
  zones_of halo_width grid_dims cell = zones l.
Proof.
  intros Hl Hin. apply in_unpack_cells in Hin; assumption.
Qed.

Lemma unpack_cells_zone l l' cell :
  (l < 26)%nat -> (l' < 26)%nat ->
  In cell (unpack_cells l) -> In cell (unpack_cells l') -> l = l'.
Proof.
  intros Hl Hl' Hin Hin'.
  apply unpack_cells_in_grid in Hin as [_ Hz]; [| exact Hl].
  apply unpack_cells_in_grid in Hin' as [_ Hz']; [| exact Hl'].
  pose proof (proj1 (List.NoDup_nth neighbor_zones (Mid, Mid, Mid))
                (proj1 (NoDup_ListNoDup _) NoDup_neighbor_zones) l l') as Hnth.
  apply Hnth; [exact Hl | exact Hl' | congruence].
Qed.

(** The cell at a position of an unpack list. *)
Lemma list_at_cells (f : Z * Z * Z -> Z) (cells : list (Z * Z * Z)) i :
  0 <= i < Z.of_nat (length cells) ->
  list_at (map f cells) i = f (nth (Z.to_nat i) cells (0, 0, 0)) /\
  In (nth (Z.to_nat i) cells (0, 0, 0)) cells.
Proof.
  intros Hi. unfold list_at. split.
  - apply nth_map_default. lia.
  - apply nth_In. lia.
Qed.

Lemma var_size_example :
  var_size h =
  (grid_dims 0%nat + 2 * halo_width) * (grid_dims 1%nat + 2 * halo_width) *
  (grid_dims 2%nat + 2 * halo_width).
Proof.
  cbn [var_size example_halo].
  destruct (grid_strides halo_width grid_dims halo_width_nonneg
              grid_dims_nonneg sizes_fit) as (E2 & Ed & E01 & E012).
  rewrite E2, !Ed by lia. rewrite E01, E012. reflexivity.
Qed.

Lemma vars_buffers_apart v l :
  (v < nvars)%nat -> (l < 26)%nat -> fst (vars_ v) <> fst (buffers_ l).
Proof.
  intros Hv Hl. apply (separate_across _ _ _ _ arrays_separate);
    apply in_map_seq; assumption.
Qed.

Lemma vars_same v v' :
  (v < nvars)%nat -> (v' < nvars)%nat -> fst (vars_ v) = fst (vars_ v') ->
  v = v'.
Proof.
  apply separate_same. exact (separate_app_l _ _ arrays_separate).
Qed.

Lemma buffers_same l l' :
  (l < 26)%nat -> (l' < 26)%nat -> fst (buffers_ l) = fst (buffers_ l') ->
  l = l'.
Proof.
  apply separate_same. exact (separate_app_r _ _ arrays_separate).
Qed.

(** After the variables are set. *)
Lemma after_set m v j :
  (v < nvars)%nat -> 0 <= j < var_size h ->
  load (store_all (set_writes h) m) (ptr_add (vars_ v) j) =
  double_of_int (j +! Z.of_nat v).
Proof.
  intros Hv Hj. apply load_store_all_in.
  - unfold set_writes. rewrite map_flat_map.
    apply NoDup_flat_map_disjoint.
    + apply NoDup_ListNoDup, List.seq_NoDup.
    + intros v' _. rewrite map_map. cbn [fst].
      change (NoDup ((fun i => ptr_add (vars h v') i) <$> seqZ 0 (var_size h))).
      apply NoDup_fmap_2; [| apply NoDup_seqZ].
      intros i i' [= Heq]. lia.
    + intros v1 v2 p H1 H2 Hp1 Hp2. apply in_seq in H1, H2.
      cbn [num_vars example_halo] in H1, H2.
      rewrite map_map in Hp1, Hp2.
      apply in_map_iff in Hp1 as (i1 & <- & _).
      apply in_map_iff in Hp2 as (i2 & [= Heq _] & _).
      apply vars_same; [lia | lia |]. symmetry. exact Heq.
  - unfold set_writes. apply in_flat_map. exists v.
    split; [apply in_seq; cbn [num_vars example_halo]; lia |].
    apply in_map_iff. exists j. split; [reflexivity |].
    replace (var_size h) with (var_size h - 0) by lia.
    apply in_seqZ_range. exact Hj.
Qed.

Lemma in_pack_moves mv :
  In mv (pack_moves h) <->
  exists l v i,
    (l < 26)%nat /\ (v < nvars)%nat /\
    0 <= i < pack_index_list_lengths h l /\
    mv = (ptr_add (ptr_add (buffers_ l)
                     (Z.of_nat v * pack_index_list_lengths h l)) i,
          ptr_add (vars_ v) (list_at (pack_index_lists h l) i)).
Proof.
  apply (in_flat3 26 nvars (pack_index_list_lengths h)
           (fun l v i =>
              (ptr_add (ptr_add (buffers_ l)
                          (Z.of_nat v * pack_index_list_lengths h l)) i,
               ptr_add (vars_ v) (list_at (pack_index_lists h l) i)))).
Qed.

Lemma in_unpack_moves mv :
  In mv (unpack_moves h) <->
  exists l v i,
    (l < 26)%nat /\ (v < nvars)%nat /\
    0 <= i < unpack_index_list_lengths h l /\
    mv = (ptr_add (vars_ v) (list_at (unpack_index_lists h l) i),
          ptr_add (ptr_add (buffers_ l)
                     (Z.of_nat v * unpack_index_list_lengths h l)) i).
Proof.
  apply (in_flat3 26 nvars (unpack_index_list_lengths h)
           (fun l v i =>
              (ptr_add (vars_ v) (list_at (unpack_index_lists h l) i),
               ptr_add (ptr_add (buffers_ l)
                          (Z.of_nat v * unpack_index_list_lengths h l)) i))).
Qed.

Lemma pack_targets_distinct : NoDup (map fst (pack_moves h)).
Proof.
  rewrite (map_flat3 fst 26 nvars (pack_index_list_lengths h)
             (fun l v i =>
                (ptr_add (ptr_add (buffers_ l)
                            (Z.of_nat v * pack_index_list_lengths h l)) i,
                 ptr_add (vars_ v) (list_at (pack_index_lists h l) i)))
           : map fst (pack_moves h) = _).
  apply NoDup_flat3. cbn [fst].
  intros l v i l' v' i' Hl Hv Hi Hl' Hv' Hi' Heq.
  pose proof (f_equal fst Heq) as Hfst. pose proof (f_equal snd Heq) as Hsnd.
  cbn [fst snd ptr_add] in Hfst, Hsnd.
  assert (l = l') as <- by (apply buffers_same; assumption).
  destruct (mixed_radix_inj (pack_index_list_lengths h l) i (Z.of_nat v)
              i' (Z.of_nat v') Hi Hi' ltac:(lia)) as [-> Hvv].
  repeat split; lia.
Qed.

(** After the packing loops. *)
Lemma after_pack m0 :
  let m1 := apply_moves (pack_moves h) m0 in
  (forall l v i,
     (l < 26)%nat -> (v < nvars)%nat ->
     0 <= i < pack_index_list_lengths h l ->
     load m1 (ptr_add (ptr_add (buffers_ l)
                         (Z.of_nat v * pack_index_list_lengths h l)) i) =
     load m0 (ptr_add (vars_ v) (list_at (pack_index_lists h l) i))) /\
  (forall v j, (v < nvars)%nat ->
     load m1 (ptr_add (vars_ v) j) = load m0 (ptr_add (vars_ v) j)).
Proof.
  intros m1. split.
  - intros l v i Hl Hv Hi. subst m1.
    rewrite (moves_as_stores (pack_moves h) m0 m0).
    + apply load_store_all_in.
      * rewrite map_map. cbn [fst]. apply pack_targets_distinct.
      * apply in_map_iff.
        exists (ptr_add (ptr_add (buffers_ l)
                           (Z.of_nat v * pack_index_list_lengths h l)) i,
                ptr_add (vars_ v) (list_at (pack_index_lists h l) i)).
        split; [reflexivity |].
        apply in_pack_moves. exists l, v, i. auto.
    + reflexivity.
    + intros mv mv' Hmv Hmv'.
      apply in_pack_moves in Hmv as (l1 & v1 & i1 & Hl1 & Hv1 & _ & ->).
      apply in_pack_moves in Hmv' as (l2 & v2 & i2 & Hl2 & Hv2 & _ & ->).
      cbn [fst snd]. intros Heq. apply (f_equal fst) in Heq.
      cbn [fst ptr_add] in Heq.
      apply (vars_buffers_apart v1 l2); assumption.
  - intros v j Hv. subst m1. apply apply_moves_frame.
    intros Hin. apply in_map_iff in Hin as (mv & Heq & Hmv).
    apply in_pack_moves in Hmv as (l & v' & i & Hl & Hv' & _ & ->).
    cbn [fst] in Heq. apply (f_equal fst) in Heq. cbn [fst ptr_add] in Heq.
    apply (vars_buffers_apart v l); [assumption | assumption |].
    symmetry. exact Heq.
Qed.

Lemma unpack_position l i :
  (l < 26)%nat -> 0 <= i < unpack_index_list_lengths h l ->
  let cell := nth (Z.to_nat i) (unpack_cells l) (0, 0, 0) in
  In cell (unpack_cells l) /\
  list_at (unpack_index_lists h l) i = index cell /\
  list_at (pack_index_lists h l) i =
  index (source_cell halo_width grid_dims cell).
Proof.
  intros Hl Hi cell.
  destruct (example_lists l Hl) as (Hp & Hu & _ & Hlen).
  rewrite Hlen in Hi. rewrite Hp, Hu.
  destruct (list_at_cells index (unpack_cells l) i Hi) as [H1 H2].
  destruct (list_at_cells
              (fun cell => index (source_cell halo_width grid_dims cell))
              (unpack_cells l) i Hi) as [H3 _].
  auto.
Qed.

Lemma unpack_targets_distinct : NoDup (map fst (unpack_moves h)).
Proof.
  rewrite (map_flat3 fst 26 nvars (unpack_index_list_lengths h)
             (fun l v i =>
                (ptr_add (vars_ v) (list_at (unpack_index_lists h l) i),
                 ptr_add (ptr_add (buffers_ l)
                            (Z.of_nat v * unpack_index_list_lengths h l)) i))
           : map fst (unpack_moves h) = _).
  apply NoDup_flat3. cbn [fst].
  intros l v i l' v' i' Hl Hv Hi Hl' Hv' Hi' Heq.
  pose proof (f_equal fst Heq) as Hfst. pose proof (f_equal snd Heq) as Hsnd.
  cbn [fst snd ptr_add] in Hfst, Hsnd.
  assert (v = v') as <- by (apply vars_same; assumption).
  destruct (unpack_position l i Hl Hi) as (Hin & Hu & _).
  destruct (unpack_position l' i' Hl' Hi') as (Hin' & Hu' & _).
  cbn zeta in Hin, Hu, Hin', Hu'.
  assert (nth (Z.to_nat i) (unpack_cells l) (0, 0, 0) =
          nth (Z.to_nat i') (unpack_cells l') (0, 0, 0)) as Hcell.
  { apply (cell_index_inj halo_width grid_dims).
    - apply (unpack_cells_in_grid l); assumption.
    - apply (unpack_cells_in_grid l'); assumption.
    - rewrite <- Hu, <- Hu'. lia. }
  assert (l = l') as <-.
  { apply (unpack_cells_zone l l' _ Hl Hl' Hin). rewrite Hcell. exact Hin'. }
  split; [reflexivity |]. split; [reflexivity |].
  destruct (example_lists l Hl) as (_ & _ & _ & Hlen).
  rewrite Hlen in Hi, Hi'.
  pose proof (proj1 (List.NoDup_nth (unpack_cells l) (0, 0, 0))
                (proj1 (NoDup_ListNoDup _) (NoDup_extent_cells _))
                (Z.to_nat i) (Z.to_nat i') ltac:(lia) ltac:(lia) Hcell).
  lia.
Qed.

(** After the unpacking loops. *)
Lemma after_unpack m1 :
  let m2 := apply_moves (unpack_moves h) m1 in
  (forall l v i,
     (l < 26)%nat -> (v < nvars)%nat ->
     0 <= i < unpack_index_list_lengths h l ->
     load m2 (ptr_add (vars_ v) (list_at (unpack_index_lists h l) i)) =
     load m1 (ptr_add (ptr_add (buffers_ l)
                         (Z.of_nat v * unpack_index_list_lengths h l)) i)) /\
  (forall v cell, (v < nvars)%nat ->
     interior halo_width grid_dims cell ->
     load m2 (ptr_add (vars_ v) (index cell)) =
     load m1 (ptr_add (vars_ v) (index cell))).
Proof.
  intros m2. split.
  - intros l v i Hl Hv Hi. subst m2.
    rewrite (moves_as_stores (unpack_moves h) m1 m1).
    + apply load_store_all_in.
      * rewrite map_map. cbn [fst]. apply unpack_targets_distinct.
      * apply in_map_iff.
        exists (ptr_add (vars_ v) (list_at (unpack_index_lists h l) i),
                ptr_add (ptr_add (buffers_ l)
                           (Z.of_nat v * unpack_index_list_lengths h l)) i).
        split; [reflexivity |].
        apply in_unpack_moves. exists l, v, i. auto.
    + reflexivity.
    + intros mv mv' Hmv Hmv'.
      apply in_unpack_moves in Hmv as (l1 & v1 & i1 & Hl1 & Hv1 & _ & ->).
      apply in_unpack_moves in Hmv' as (l2 & v2 & i2 & Hl2 & Hv2 & _ & ->).
      cbn [fst snd]. intros Heq. apply (f_equal fst) in Heq.
      cbn [fst ptr_add] in Heq.
      apply (vars_buffers_apart v2 l1); [assumption | assumption |].
      symmetry. exact Heq.
  - intros v cell Hv Hint. subst m2. apply apply_moves_frame.
    intros Hin. apply in_map_iff in Hin as (mv & Heq & Hmv).
    apply in_unpack_moves in Hmv as (l & v' & i & Hl & Hv' & Hi & ->).
    cbn [fst] in Heq.
    pose proof (f_equal fst Heq) as Hfst. pose proof (f_equal snd Heq) as Hsnd.
    cbn [fst snd ptr_add] in Hfst, Hsnd.
    assert (v' = v) as -> by (apply vars_same; assumption).
    destruct (unpack_position l i Hl Hi) as (Hin & Hu & _).
    cbn zeta in Hin, Hu.
    destruct (unpack_cells_in_grid l _ Hl Hin) as [Hgridc Hz].
    assert (nth (Z.to_nat i) (unpack_cells l) (0, 0, 0) = cell) as Hcell.
    { apply (cell_index_inj halo_width grid_dims).
      - exact Hgridc.
      - destruct cell as [[ci cj] ck]. unfold interior, in_grid in *.
        cbn [fst snd] in *. lia.
      - rewrite <- Hu. lia. }
    rewrite Hcell in Hz. apply interior_zones in Hint.
    assert (In (zones l) neighbor_zones) as Hzone by (apply nth_In; exact Hl).
    apply neighbor_zones_spec in Hzone. congruence.
Qed.

(** A cycle of the exchange leaves in every cell of every variable the
    value that the setting loop gave to the cell's source. *)
Lemma c_cycle_result m v cell :
  (v < nvars)%nat -> in_grid halo_width grid_dims cell ->
  load (c_cycle h m) (ptr_add (vars_ v) (index cell)) =
  double_of_int (index (source_cell halo_width grid_dims cell) +! Z.of_nat v).
Proof.
  intros Hv Hcell. rewrite c_cycle_moves.
  set (m0 := store_all (set_writes h) m).
  destruct (after_pack m0) as [Hpack Hkeep].
  destruct (after_unpack (apply_moves (pack_moves h) m0))
    as [Hunpack Hinner].
  cbn zeta in Hpack, Hkeep, Hunpack, Hinner.
  assert (forall c, in_grid halo_width grid_dims c ->
            load m0 (ptr_add (vars_ v) (index c)) =
            double_of_int (index c +! Z.of_nat v))
    as Hset.
  { intros c Hc. subst m0. apply after_set; [exact Hv |].
    rewrite var_size_example. apply cell_index_range. exact Hc. }
  destruct (decide (zones_of halo_width grid_dims cell = (Mid, Mid, Mid)))
    as [Hmid | Hhalo].
  - apply interior_zones in Hmid.
    rewrite Hinner, Hkeep by assumption.
    rewrite (source_interior _ _ _ Hmid). apply Hset. exact Hcell.
  - apply neighbor_zones_spec in Hhalo.
    destruct (In_nth _ _ (Mid, Mid, Mid) Hhalo) as (l & Hl & Hzl).
    change (length neighbor_zones) with 26%nat in Hl.
    assert (In cell (unpack_cells l)) as Hin.
    { apply in_unpack_cells; [assumption | assumption |]. auto. }
    destruct (In_nth _ _ (0, 0, 0) Hin) as (k & Hk & Hnth).
    destruct (example_lists l Hl) as (_ & _ & Hplen & Hulen).
    assert (0 <= Z.of_nat k < unpack_index_list_lengths h l) as Hi
      by (rewrite Hulen; lia).
    destruct (unpack_position l (Z.of_nat k) Hl Hi) as (_ & Hu & Hp).
    cbn zeta in Hu, Hp. rewrite Nat2Z.id, Hnth in Hu, Hp.
    rewrite <- Hu, Hunpack by assumption.
    rewrite Hulen, <- Hplen.
    rewrite Hpack by (try assumption; rewrite Hplen; lia).
    rewrite Hp. apply Hset. apply source_in_grid; assumption.
Qed.

Lemma c_style_result n m v cell :
  (v < nvars)%nat -> in_grid halo_width grid_dims cell ->
  load (c_style_halo_exchange h (S n) m) (ptr_add (vars_ v) (index cell)) =
  double_of_int (index (source_cell halo_width grid_dims cell) +! Z.of_nat v).
Proof.
  intros Hv Hcell. unfold c_style_halo_exchange.
  rewrite Nat.iter_succ. apply c_cycle_result; assumption.
Qed.

End Example.

Lemma source_is_interior halo_width grid_dims cell :
  0 <= halo_width ->
  (forall a, (a < 3)%nat -> halo_width <= grid_dims a) ->
  in_grid halo_width grid_dims cell ->
  interior halo_width grid_dims (source_cell halo_width grid_dims cell).
Proof.
  intros Hh Hgrid. destruct cell as [[i j] k].
  pose proof (Hgrid 0%nat ltac:(lia)). pose proof (Hgrid 1%nat ltac:(lia)).
  pose proof (Hgrid 2%nat ltac:(lia)).
  unfold in_grid, interior, source_cell, source, zone_of. cbn [fst snd].
  intros (Hi & Hj & Hk).
  destruct (Z.ltb_spec i halo_width),
    (Z.ltb_spec i (grid_dims 0%nat + halo_width)),
    (Z.ltb_spec j halo_width),
    (Z.ltb_spec j (grid_dims 1%nat + halo_width)),
    (Z.ltb_spec k halo_width),
    (Z.ltb_spec k (grid_dims 2%nat + halo_width)); lia.
Qed.

(** X17.  What the halo exchange computes.  After one or more cycles of
    the C-style exchange on the lists the example creates, with a halo
    width and grid dimensions that are not negative, sizes that fit into
    [int] and every variable and buffer an allocation of its own, every
    cell of every grid variable [v] holds the [double] of
    [index of its source + v]: an interior cell is its own source and
    keeps its value, a halo cell takes the value of the cell
    [halo_width] further inside along each axis on which it lies in the
    halo.  With a halo no wider than the grid the source is always an
    interior cell.  The result does not depend on the memory the exchange
    started from, nor on the number of cycles. *)
Theorem halo_exchange_result halo_width grid_dims nvars vars_ buffers_ junk
    n m v cell :
  0 <= halo_width ->
  (forall a, (a < 3)%nat -> 0 <= grid_dims a) ->
  example_fits_int halo_width grid_dims nvars ->
  separate (map vars_ (seq 0 nvars) ++ map buffers_ (seq 0 26)) ->
  (v < nvars)%nat ->
  in_grid halo_width grid_dims cell ->
  let h := example_halo halo_width grid_dims nvars vars_ buffers_ junk in
  load (c_style_halo_exchange h (S n) m)
    (ptr_add (vars_ v) (cell_index halo_width grid_dims cell)) =
  double_of_int
    (cell_index halo_width grid_dims (source_cell halo_width grid_dims cell) +
     Z.of_nat v) /\
  (interior halo_width grid_dims cell ->
   source_cell halo_width grid_dims cell = cell) /\
  ((forall a, (a < 3)%nat -> halo_width <= grid_dims a) ->
   interior halo_width grid_dims (source_cell halo_width grid_dims cell)).
Proof.
  intros Hh Hgrid (Hfits & Hsum & _) Hsep Hv Hcell h. cbn zeta in Hsum.
  split; [| split].
  - subst h. rewrite c_style_result by assumption.
    pose proof (cell_index_range halo_width grid_dims _
                  (source_in_grid halo_width grid_dims cell Hh Hgrid Hcell))
      as Hrange.
    rewrite int_add_id by (unfold INT_MIN, INT_MAX in *; lia).
    reflexivity.
  - apply source_interior.
  - intros Hle. apply source_is_interior; assumption.
Qed.

Lemma halo_exchange_result_witness :
  let grid_dims (a : nat) := 2 in
  let vars_ (v : nat) : Ptr := (v, 0) in
  let buffers_ (l : nat) : Ptr := ((100 + l)%nat, 0) in
  let junk (k : nat) := 0 in
  let h := example_halo 1 grid_dims 2 vars_ buffers_ junk in
  let cell := (0, 3, 2) in
  (0 <= 1 /\
   (forall a, (a < 3)%nat -> 0 <= grid_dims a) /\
   example_fits_int 1 grid_dims 2 /\
   separate (map vars_ (seq 0 2) ++ map buffers_ (seq 0 26)) /\
   (1 < 2)%nat /\
   in_grid 1 grid_dims cell) /\
  (load (c_style_halo_exchange h 3 ∅)
     (ptr_add (vars_ 1%nat) (cell_index 1 grid_dims cell)) =
   double_of_int
     (cell_index 1 grid_dims (source_cell 1 grid_dims cell) + Z.of_nat 1) /\
   (interior 1 grid_dims cell -> source_cell 1 grid_dims cell = cell) /\
   ((forall a, (a < 3)%nat -> 1 <= grid_dims a) ->
    interior 1 grid_dims (source_cell 1 grid_dims cell))).
Proof.
  intros grid_dims vars_ buffers_ junk h cell.
  assert (0 <= 1) as H1 by lia.
  assert (forall a, (a < 3)%nat -> 0 <= grid_dims a) as H2
    by (intros a _; unfold grid_dims; lia).
  assert (separate (map vars_ (seq 0 2) ++ map buffers_ (seq 0 26))) as H3.
  { unfold separate. refine (bool_decide_unpack _ _). vm_compute. exact I. }
  assert (1 < 2)%nat as H4 by lia.
  assert (in_grid 1 grid_dims cell) as H5.
  { unfold in_grid, cell, grid_dims. cbn [fst snd]. lia. }
  assert (example_fits_int 1 grid_dims 2) as H6.
  { unfold example_fits_int, grid_fits_int, grid_dims, INT_MAX. cbn zeta.
    split; [split; [intros a _; lia | split; lia] | split; lia]. }
  split; [exact (conj H1 (conj H2 (conj H6 (conj H3 (conj H4 H5))))) |].
  exact (halo_exchange_result 1 grid_dims 2 vars_ buffers_ junk 2 ∅ 1%nat cell
           H1 H2 H6 H3 H4 H5).
Defined.

(** *** The RAJA variants of the exchange *)

Lemma forall_cycle_c_cycle h m : forall_cycle h m = c_cycle h m.
Proof.
  unfold forall_cycle, c_cycle. cbn zeta.
  assert (forall m, forall_set_vars h m = c_set_vars h m) as Hset.
  { intros m'. unfold forall_set_vars, c_set_vars.
    apply fold_left_ext. intros s v. symmetry. apply c_loop_forall. }
  assert (forall l m, forall_pack_neighbor h l m = c_pack_neighbor h l m)
    as Hpack.
  { intros l m'. unfold forall_pack_neighbor, c_pack_neighbor. cbn zeta.
    f_equal. apply fold_left_ext. intros s v.
    rewrite c_loop_forall. reflexivity. }
  assert (forall l m, forall_unpack_neighbor h l m = c_unpack_neighbor h l m)
    as Hunpack.
  { intros l m'. unfold forall_unpack_neighbor, c_unpack_neighbor. cbn zeta.
    f_equal. apply fold_left_ext. intros s v.
    rewrite c_loop_forall. reflexivity. }
  rewrite Hset.
  rewrite (fold_left_ext _ _ _ (fun s l => Hunpack l s)).
  f_equal. apply fold_left_ext. intros s l. apply Hpack.
Qed.

Lemma forall_halo_matches_c_style h num_cycles m :
  forall_halo_exchange h num_cycles m = c_style_halo_exchange h num_cycles m.
Proof.
  unfold forall_halo_exchange, c_style_halo_exchange.
  induction num_cycles as [| n IH]; [reflexivity |].
  rewrite !Nat.iter_succ, IH. apply forall_cycle_c_cycle.
Qed.

Lemma workgroup_halo_memory h num_cycles m :
  snd (workgroup_halo_exchange h num_cycles m) =
  c_style_halo_exchange h num_cycles m.
Proof.
  rewrite workgroup_halo_matches_c_style. reflexivity.
Qed.

(** X18.  The RAJA variants of the example that run on the host compute
    what the C-style loops compute, for every set-up, memory and number of
    cycles: the variant with one sequential [forall] per loop, and the
    variant that enqueues the loops into work pools and runs them as
    ordered work groups, which moreover hands both pools back empty after
    every cycle, ready for reuse. *)
Theorem halo_variants_match_c_style h num_cycles m :
  forall_halo_exchange h num_cycles m = c_style_halo_exchange h num_cycles m /\
  workgroup_halo_exchange h num_cycles m =
  (new_pool, new_pool, c_style_halo_exchange h num_cycles m).
Proof.
  split.
  - apply forall_halo_matches_c_style.
  - apply workgroup_halo_matches_c_style.
Qed.

(** *** Checking the result *)

Lemma for_range_check (P : Z -> bool) (l : list Z) : forall correct,
  fold_left (fun (correct : bool) i => if negb (P i) then false else correct)
    l correct =
  correct && forallb P l.
Proof.
  induction l as [| i l IH]; intros correct; cbn [fold_left forallb].
  - rewrite andb_true_r. reflexivity.
  - rewrite IH. destruct (P i), correct; reflexivity.
Qed.

Lemma checkResult_true vars_ vars_ref size nvars m :
  checkResult vars_ vars_ref size nvars m = true <->
  forall v i, (v < nvars)%nat -> 0 <= i < size ->
    double_ne (load m (ptr_add (vars_ v) i)) (load m (ptr_add (vars_ref v) i))
    = false.
Proof.
  unfold checkResult, double_ne. cbn zeta.
  assert (forall vs correct,
            fold_left
              (fun correct v =>
                 for_range 0 size
                   (fun i (correct : bool) =>
                      if negb (SFeqb (load m (ptr_add (vars_ v) i))
                                 (load m (ptr_add (vars_ref v) i)))
                      then false else correct) correct) vs correct =
            correct &&
            forallb
              (fun v =>
                 forallb
                   (fun i => SFeqb (load m (ptr_add (vars_ v) i))
                               (load m (ptr_add (vars_ref v) i)))
                   (seqZ 0 (size - 0))) vs) as Hfold.
  { induction vs as [| v vs IH]; intros correct; cbn [fold_left forallb].
    - rewrite andb_true_r. reflexivity.
    - rewrite IH. unfold for_range.
      rewrite (for_range_check
                 (fun i => SFeqb (load m (ptr_add (vars_ v) i))
                             (load m (ptr_add (vars_ref v) i)))).
      rewrite andb_assoc. reflexivity. }
  rewrite Hfold. cbn [andb]. rewrite forallb_forall. split.
  - intros Hall v i Hv Hi.
    specialize (Hall v ltac:(apply in_seq; lia)).
    rewrite forallb_forall in Hall. rewrite Hall; [reflexivity |].
    apply in_seqZ_range. exact Hi.
  - intros Hall v Hv. apply in_seq in Hv. apply forallb_forall.
    intros i Hi. apply in_seqZ_range in Hi.
    apply negb_false_iff. apply Hall; lia.
Qed.

Lemma checkResult_false vars_ vars_ref size nvars m v i :
  (v < nvars)%nat -> 0 <= i < size ->
  double_ne (load m (ptr_add (vars_ v) i)) (load m (ptr_add (vars_ref v) i))
  = true ->
  checkResult vars_ vars_ref size nvars m = false.
Proof.
  intros Hv Hi Hne.
  destruct (checkResult vars_ vars_ref size nvars m) eqn:Hcheck;
    [| reflexivity].
  rewrite (proj1 (checkResult_true vars_ vars_ref size nvars m) Hcheck)
    in Hne by assumption.
  discriminate.
Qed.

(** X19.  [checkResult] reports PASS exactly when no cell of any
    variable differs from its reference under [!=] on [double]s: one
    differing cell is enough for FAIL, and no later cell, equal or not,
    takes a FAIL back.  A cell that holds a NaN makes it report FAIL
    even against a reference that is a copy of it; cells that are
    copies of their references and hold no NaN pass. *)
Theorem checkResult_reports_equality vars_ vars_ref size nvars m :
  (checkResult vars_ vars_ref size nvars m = true <->
   forall v i, (v < nvars)%nat -> 0 <= i < size ->
     double_ne (load m (ptr_add (vars_ v) i))
       (load m (ptr_add (vars_ref v) i)) = false) /\
  (forall v i, (v < nvars)%nat -> 0 <= i < size ->
     double_ne (load m (ptr_add (vars_ v) i))
       (load m (ptr_add (vars_ref v) i)) = true ->
     checkResult vars_ vars_ref size nvars m = false) /\
  (forall v i, (v < nvars)%nat -> 0 <= i < size ->
     load m (ptr_add (vars_ v) i) = S754_nan ->
     checkResult vars_ vars_ref size nvars m = false) /\
  ((forall v i, (v < nvars)%nat -> 0 <= i < size ->
      load m (ptr_add (vars_ v) i) = load m (ptr_add (vars_ref v) i) /\
      load m (ptr_add (vars_ v) i) <> S754_nan) ->
   checkResult vars_ vars_ref size nvars m = true).
Proof.
  assert (forall v i, (v < nvars)%nat -> 0 <= i < size ->
            double_ne (load m (ptr_add (vars_ v) i))
              (load m (ptr_add (vars_ref v) i)) = true ->
            checkResult vars_ vars_ref size nvars m = false) as Hfail.
  { intros v i. apply checkResult_false. }
  split; [apply checkResult_true |]. split; [exact Hfail |]. split.
  - intros v i Hv Hi Hnan. apply (Hfail v i Hv Hi).
    rewrite Hnan. reflexivity.
  - intros Hall. apply checkResult_true. intros v i Hv Hi.
    destruct (Hall v i Hv Hi) as [<- Hnan].
    apply double_ne_refl. exact Hnan.
Qed.

(** Every index within a grid variable is the index of a cell. *)
Lemma cell_of_index halo_width grid_dims idx :
  0 <= halo_width ->
  (forall a, (a < 3)%nat -> 0 <= grid_dims a) ->
  0 <= idx <
  (grid_dims 0%nat + 2 * halo_width) * (grid_dims 1%nat + 2 * halo_width) *
  (grid_dims 2%nat + 2 * halo_width) ->
  exists cell, in_grid halo_width grid_dims cell /\
               cell_index halo_width grid_dims cell = idx.
Proof.
  intros Hh Hgrid.
  pose proof (Hgrid 0%nat ltac:(lia)). pose proof (Hgrid 1%nat ltac:(lia)).
  pose proof (Hgrid 2%nat ltac:(lia)).
  unfold in_grid, cell_index.
  set (G0 := grid_dims 0%nat + 2 * halo_width).
  set (G1 := grid_dims 1%nat + 2 * halo_width).
  set (G2 := grid_dims 2%nat + 2 * halo_width).
  assert (0 <= G0) by lia. assert (0 <= G1) by lia. assert (0 <= G2) by lia.
  clearbody G0 G1 G2. intros Hidx.
  assert (0 < G0) as Hpos0 by nia.
  assert (0 < G1) as Hpos1 by nia.
  assert (0 < G2) as Hpos2 by nia.
  exists (idx mod G0, (idx / G0) mod G1, idx / G0 / G1).
  cbn [fst snd].
  pose proof (Z.mod_pos_bound idx G0 Hpos0).
  pose proof (Z.mod_pos_bound (idx / G0) G1 Hpos1).
  pose proof (Z.div_mod idx G0 ltac:(lia)).
  pose proof (Z.div_mod (idx / G0) G1 ltac:(lia)).
  assert (0 <= idx / G0) by (apply Z.div_pos; lia).
  assert (0 <= idx / G0 / G1) by (apply Z.div_pos; lia).
  assert (idx / G0 / G1 < G2).
  { apply Z.div_lt_upper_bound; [lia |].
    apply Z.div_lt_upper_bound; [lia |]. nia. }
  repeat split; (lia || nia).
Qed.

(** The copy to the reference, and what a cycle leaves alone. *)
Lemma after_copy h vars_ref m :
  separate (map vars_ref (seq 0 (num_vars h)) ++
            map (vars h) (seq 0 (num_vars h))) ->
  let m' := copy_to_ref h vars_ref m in
  (forall v i, (v < num_vars h)%nat -> 0 <= i < var_size h ->
     load m' (ptr_add (vars_ref v) i) = load m (ptr_add (vars h v) i)) /\
  (forall v i, (v < num_vars h)%nat ->
     load m' (ptr_add (vars h v) i) = load m (ptr_add (vars h v) i)).
Proof.
  intros Hsep m'.
  set (moves :=
         flat_map
           (fun v =>
              map (fun i => (ptr_add (vars_ref v) i, ptr_add (vars h v) i))
                (seqZ 0 (var_size h)))
           (seq 0 (num_vars h))).
  assert (m' = apply_moves moves m) as ->.
  { subst m' moves. unfold copy_to_ref. rewrite apply_moves_flat_map.
    apply fold_left_ext. intros s v. cbn zeta.
    rewrite c_loop_seqZ. unfold apply_moves. rewrite fold_left_map.
    reflexivity. }
  assert (forall mv, In mv moves <->
            exists v i, (v < num_vars h)%nat /\ 0 <= i < var_size h /\
                        mv = (ptr_add (vars_ref v) i, ptr_add (vars h v) i))
    as Hin.
  { intros mv. subst moves. rewrite in_flat_map. split.
    - intros (v & Hv & Hmv). apply in_map_iff in Hmv as (i & <- & Hi).
      apply in_seq in Hv.
      replace (var_size h) with (var_size h - 0) in Hi by lia.
      apply in_seqZ_range in Hi. exists v, i. repeat split; lia.
    - intros (v & i & Hv & Hi & ->). exists v.
      split; [apply in_seq; lia |]. apply in_map_iff. exists i.
      split; [reflexivity |].
      replace (var_size h) with (var_size h - 0) by lia.
      apply in_seqZ_range. exact Hi. }
  assert (forall v v', (v < num_vars h)%nat -> (v' < num_vars h)%nat ->
            fst (vars_ref v) <> fst (vars h v')) as Hapart.
  { intros v v' Hv Hv'. apply (separate_across _ _ _ _ Hsep);
      apply in_map_seq; assumption. }
  split.
  - intros v i Hv Hi.
    rewrite (moves_as_stores moves m m).
    + apply load_store_all_in.
      * rewrite map_map. cbn [fst]. subst moves. rewrite map_flat_map.
        apply NoDup_flat_map_disjoint.
        -- apply NoDup_ListNoDup, List.seq_NoDup.
        -- intros v' _. rewrite map_map. cbn [fst].
           change (NoDup ((fun i => ptr_add (vars_ref v') i) <$>
                            seqZ 0 (var_size h))).
           apply NoDup_fmap_2; [| apply NoDup_seqZ].
           intros i1 i2 Heq. apply (f_equal snd) in Heq.
           cbn [snd ptr_add] in Heq. lia.
        -- intros v1 v2 p H1 H2 Hp1 Hp2. apply in_seq in H1, H2.
           rewrite map_map in Hp1, Hp2.
           apply in_map_iff in Hp1 as (i1 & <- & _).
           apply in_map_iff in Hp2 as (i2 & Heq & _).
           apply (f_equal fst) in Heq. cbn [fst ptr_add] in Heq.
           apply (separate_same vars_ref (num_vars h));
             [exact (separate_app_l _ _ Hsep) | lia | lia |].
           symmetry. exact Heq.
      * apply in_map_iff.
        exists (ptr_add (vars_ref v) i, ptr_add (vars h v) i).
        split; [reflexivity |]. apply Hin. exists v, i. auto.
    + reflexivity.
    + intros mv mv' Hmv Hmv'.
      apply Hin in Hmv as (v1 & i1 & Hv1 & _ & ->).
      apply Hin in Hmv' as (v2 & i2 & Hv2 & _ & ->).
      cbn [fst snd]. intros Heq. apply (f_equal fst) in Heq.
      cbn [fst ptr_add] in Heq.
      apply (Hapart v2 v1); [assumption | assumption |].
      symmetry. exact Heq.
  - intros v i Hv. apply apply_moves_frame.
    intros Hmv. apply in_map_iff in Hmv as (mv & Heq & Hmv).
    apply Hin in Hmv as (v' & i' & Hv' & _ & ->).
    cbn [fst] in Heq. apply (f_equal fst) in Heq. cbn [fst ptr_add] in Heq.
    apply (Hapart v' v); assumption.
Qed.

Lemma c_cycle_frame h q m :
  (forall v, (v < num_vars h)%nat -> fst q <> fst (vars h v)) ->
  (forall l, (l < num_neighbors h)%nat -> fst q <> fst (buffers h l)) ->
  load (c_cycle h m) q = load m q.
Proof.
  intros Hvars Hbuffers. rewrite c_cycle_moves.
  rewrite apply_moves_frame, apply_moves_frame, load_store_all_notin.
  - reflexivity.
  - unfold set_writes. rewrite map_flat_map. intros Hin.
    apply in_flat_map in Hin as (v & Hv & Hin). apply in_seq in Hv.
    rewrite map_map in Hin. apply in_map_iff in Hin as (i & <- & _).
    apply (Hvars v); [lia | reflexivity].
  - intros Hin. apply in_map_iff in Hin as (mv & <- & Hin).
    apply (in_flat3 (num_neighbors h) (num_vars h)
             (pack_index_list_lengths h)
             (fun l v i =>
                (ptr_add (ptr_add (buffers h l)
                            (Z.of_nat v * pack_index_list_lengths h l)) i,
                 ptr_add (vars h v) (list_at (pack_index_lists h l) i))))
      in Hin as (l & v & i & Hl & _ & _ & ->).
    apply (Hbuffers l); [exact Hl | reflexivity].
  - intros Hin. apply in_map_iff in Hin as (mv & <- & Hin).
    apply (in_flat3 (num_neighbors h) (num_vars h)
             (unpack_index_list_lengths h)
             (fun l v i =>
                (ptr_add (vars h v) (list_at (unpack_index_lists h l) i),
                 ptr_add (ptr_add (buffers h l)
                            (Z.of_nat v * unpack_index_list_lengths h l)) i)))
      in Hin as (l & v & i & _ & Hv & _ & ->).
    apply (Hvars v); [exact Hv | reflexivity].
Qed.

Lemma c_style_frame h q n : forall m,
  (forall v, (v < num_vars h)%nat -> fst q <> fst (vars h v)) ->
  (forall l, (l < num_neighbors h)%nat -> fst q <> fst (buffers h l)) ->
  load (c_style_halo_exchange h n m) q = load m q.
Proof.
  intros m Hvars Hbuffers. unfold c_style_halo_exchange.
  induction n as [| n IH]; [reflexivity |].
  rewrite Nat.iter_succ, c_cycle_frame by assumption. exact IH.
Qed.

(** X20.  The example reports PASS for its host variants.  When the
    C-style exchange has run and its result has been copied to the
    reference variables, running the [forall] variant or the work group
    variant for the same number of cycles, each with buffers of its own,
    leaves variables that [checkResult] finds equal to the reference:
    for every halo width and grid dimensions that are not negative and
    sizes that fit into [int], every number of variables, and every
    number of cycles from one on, whatever the memory held at the start.
    With no cycle at all the variables are never written: the report is
    PASS when none of their cells holds a NaN, and FAIL when one does,
    although the reference is a copy. *)
Theorem example_reports_pass halo_width grid_dims nvars vars_ vars_ref
    buffers_ buffers' junk num_cycles m :
  0 <= halo_width ->
  (forall a, (a < 3)%nat -> 0 <= grid_dims a) ->
  example_fits_int halo_width grid_dims nvars ->
  separate (map vars_ref (seq 0 nvars) ++
            map vars_ (seq 0 nvars) ++ map buffers_ (seq 0 26)) ->
  separate (map vars_ref (seq 0 nvars) ++
            map vars_ (seq 0 nvars) ++ map buffers' (seq 0 26)) ->
  let h := example_halo halo_width grid_dims nvars vars_ buffers_ junk in
  let h' := example_halo halo_width grid_dims nvars vars_ buffers' junk in
  let m_ref :=
    copy_to_ref h vars_ref (c_style_halo_exchange h num_cycles m) in
  ((0 < num_cycles)%nat \/
   (forall v i, (v < nvars)%nat -> 0 <= i < var_size h ->
      load m (ptr_add (vars_ v) i) <> S754_nan) ->
   checkResult vars_ vars_ref (var_size h) nvars
     (forall_halo_exchange h' num_cycles m_ref) = true /\
   checkResult vars_ vars_ref (var_size h) nvars
     (snd (workgroup_halo_exchange h' num_cycles m_ref)) = true) /\
  (num_cycles = 0%nat ->
   forall v i, (v < nvars)%nat -> 0 <= i < var_size h ->
     load m (ptr_add (vars_ v) i) = S754_nan ->
     checkResult vars_ vars_ref (var_size h) nvars
       (forall_halo_exchange h' num_cycles m_ref) = false /\
     checkResult vars_ vars_ref (var_size h) nvars
       (snd (workgroup_halo_exchange h' num_cycles m_ref)) = false).
Proof.
  intros Hh Hgrid (Hfits & _) Hsep Hsep' h h' m_ref.
  rewrite forall_halo_matches_c_style, workgroup_halo_memory.
  destruct (after_copy h vars_ref (c_style_halo_exchange h num_cycles m))
    as [Hcopy Hkeep].
  { cbn [num_vars vars example_halo h]. unfold separate in *.
    rewrite !map_app in *. rewrite app_assoc in Hsep.
    apply NoDup_app in Hsep as (Hsep & _). exact Hsep. }
  fold m_ref in Hcopy, Hkeep. cbn [num_vars vars example_halo h] in Hcopy, Hkeep.
  assert (forall v i, (v < nvars)%nat ->
            load (c_style_halo_exchange h' num_cycles m_ref)
              (ptr_add (vars_ref v) i) =
            load m_ref (ptr_add (vars_ref v) i)) as Href.
  { intros v i Hv.
    apply c_style_frame; cbn [num_vars num_neighbors vars buffers
                                example_halo h' fst ptr_add].
    - intros v' Hv'. apply (separate_across _ _ _ _ Hsep').
      + apply in_map_seq. exact Hv.
      + apply in_or_app. left. apply in_map_seq. exact Hv'.
    - intros l Hl. apply (separate_across _ _ _ _ Hsep').
      + apply in_map_seq. exact Hv.
      + apply in_or_app. right. apply in_map_seq. exact Hl. }
  assert (var_size h =
          (grid_dims 0%nat + 2 * halo_width) *
          (grid_dims 1%nat + 2 * halo_width) *
          (grid_dims 2%nat + 2 * halo_width)) as Hsize.
  { apply var_size_example; assumption. }
  split.
  - intros Hcycles.
    assert (checkResult vars_ vars_ref (var_size h) nvars
              (c_style_halo_exchange h' num_cycles m_ref) = true) as Hcheck;
      [| split; exact Hcheck].
    apply checkResult_true. intros v i Hv Hi.
    rewrite Href, Hcopy by assumption.
    destruct num_cycles as [| n].
    + destruct Hcycles as [Hpos | Hnan]; [lia |].
      cbn [c_style_halo_exchange Nat.iter nat_rect].
      rewrite Hkeep by exact Hv.
      cbn [c_style_halo_exchange Nat.iter nat_rect].
      apply double_ne_refl. apply Hnan; assumption.
    + rewrite Hsize in Hi.
      destruct (cell_of_index halo_width grid_dims i Hh Hgrid Hi)
        as (cell & Hcell & <-).
      unfold h'.
      rewrite (c_style_result halo_width grid_dims nvars vars_ buffers' junk
                 Hh Hgrid Hfits (separate_app_r _ _ Hsep') n m_ref v cell
                 Hv Hcell).
      unfold h.
      rewrite (c_style_result halo_width grid_dims nvars vars_ buffers_ junk
                 Hh Hgrid Hfits (separate_app_r _ _ Hsep) n m v cell
                 Hv Hcell).
      apply double_ne_refl. apply double_of_int_not_nan.
  - intros -> v i Hv Hi Hnan.
    assert (checkResult vars_ vars_ref (var_size h) nvars
              (c_style_halo_exchange h' 0 m_ref) = false) as Hcheck;
      [| split; exact Hcheck].
    apply (checkResult_false _ _ _ _ _ v i Hv Hi).
    cbn [c_style_halo_exchange Nat.iter nat_rect].
    rewrite Hkeep by exact Hv.
    cbn [c_style_halo_exchange Nat.iter nat_rect].
    rewrite Hnan. reflexivity.
Qed.

Lemma example_reports_pass_witness :
  let grid_dims (a : nat) := 1 in
  let vars_ (v : nat) : Ptr := (v, 0) in
  let vars_ref (v : nat) : Ptr := ((50 + v)%nat, 0) in
  let buffers_ (l : nat) : Ptr := ((100 + l)%nat, 0) in
  let junk (k : nat) := 0 in
  let h := example_halo 1 grid_dims 3 vars_ buffers_ junk in
  let m_ref := copy_to_ref h vars_ref (c_style_halo_exchange h 3 ∅) in
  (0 <= 1 /\
   (forall a, (a < 3)%nat -> 0 <= grid_dims a) /\
   example_fits_int 1 grid_dims 3 /\
   separate (map vars_ref (seq 0 3) ++
             map vars_ (seq 0 3) ++ map buffers_ (seq 0 26)) /\
   (0 < 3)%nat) /\
  (checkResult vars_ vars_ref (var_size h) 3
     (forall_halo_exchange h 3 m_ref) = true /\
   checkResult vars_ vars_ref (var_size h) 3
     (snd (workgroup_halo_exchange h 3 m_ref)) = true).
Proof.
  intros grid_dims vars_ vars_ref buffers_ junk h m_ref.
  assert (0 <= 1) as H1 by lia.
  assert (forall a, (a < 3)%nat -> 0 <= grid_dims a) as H2
    by (intros a _; unfold grid_dims; lia).
  assert (separate (map vars_ref (seq 0 3) ++
                    map vars_ (seq 0 3) ++ map buffers_ (seq 0 26))) as H3.
  { unfold separate. refine (bool_decide_unpack _ _). vm_compute. exact I. }
  assert (example_fits_int 1 grid_dims 3) as H4.
  { unfold example_fits_int, grid_fits_int, grid_dims, INT_MAX. cbn zeta.
    split; [split; [intros a _; lia | split; lia] | split; lia]. }
  assert (0 < 3)%nat as H5 by lia.
  split; [exact (conj H1 (conj H2 (conj H4 (conj H3 H5)))) |].
  exact (proj1 (example_reports_pass 1 grid_dims 3 vars_ vars_ref buffers_
                  buffers_ junk 3 ∅ H1 H2 H4 H3 H3)
           (or_introl H5)).
Defined.

(** *** The work groups of the exchange in any order *)

Lemma flat_map_flat_map {A B C : Type} (f : B -> list C) (g : A -> list B)
    (l : list A) :
  flat_map f (flat_map g l) = flat_map (fun x => flat_map f (g x)) l.
Proof.
  induction l as [| x l IH]; [reflexivity |].
  cbn [flat_map]. rewrite flat_map_app, IH. reflexivity.
Qed.

(** The entries the loop over the variables enqueues. *)
Lemma bump_enqueue (mk : Ptr -> Ptr -> list Z -> LoopBody) (h : Halo)
    (index_list : list Z) (len : Z) (n : nat) : forall v0 buffer pool,
  pool_entries
    (snd (fold_left
            (fun (st : Ptr * WorkPool) v =>
               (ptr_add (fst st) len,
                enqueue (snd st) (range_segment 0 len)
                  (mk (fst st) (vars h v) index_list)))
            (seq v0 n) (buffer, pool))) =
  pool_entries pool ++
  map (fun v =>
         (range_segment 0 len,
          mk (ptr_add buffer ((Z.of_nat v - Z.of_nat v0) * len)) (vars h v)
            index_list))
    (seq v0 n).
Proof.
  induction n as [| n IH]; intros v0 buffer pool.
  - cbn. rewrite app_nil_r. reflexivity.
  - cbn [seq fold_left fst snd map]. rewrite IH.
    cbn [enqueue pool_entries]. rewrite <- app_assoc. cbn [app].
    rewrite Z.sub_diag, Z.mul_0_l, ptr_add_0. do 2 f_equal.
    apply map_ext. intros v. rewrite ptr_add_add. do 3 f_equal. lia.
Qed.

Lemma pack_group_entries h :
  group_entries (pack_group h) =
  flat_map
    (fun l =>
       map (fun v =>
              (range_segment 0 (pack_index_list_lengths h l),
               pack_body
                 (ptr_add (buffers h l)
                    (Z.of_nat v * pack_index_list_lengths h l))
                 (vars h v) (pack_index_lists h l)))
         (seq 0 (num_vars h)))
    (seq 0 (num_neighbors h)).
Proof.
  unfold pack_group. cbn [instantiate fst group_entries].
  assert (forall ls pool,
            pool_entries
              (fold_left (fun pool l => wg_enqueue_pack_neighbor h l pool)
                 ls pool) =
            pool_entries pool ++
            flat_map
              (fun l =>
                 map (fun v =>
                        (range_segment 0 (pack_index_list_lengths h l),
                         pack_body
                           (ptr_add (buffers h l)
                              (Z.of_nat v * pack_index_list_lengths h l))
                           (vars h v) (pack_index_lists h l)))
                   (seq 0 (num_vars h))) ls) as Hfold.
  { induction ls as [| l ls IH]; intros pool.
    - cbn. rewrite app_nil_r. reflexivity.
    - cbn [fold_left flat_map]. rewrite IH.
      unfold wg_enqueue_pack_neighbor at 1. cbn zeta.
      rewrite (bump_enqueue pack_body). rewrite <- app_assoc.
      do 2 f_equal. apply map_ext. intros v.
      rewrite Z.sub_0_r. reflexivity. }
  rewrite Hfold. reflexivity.
Qed.

Lemma unpack_group_entries h :
  group_entries (unpack_group h) =
  flat_map
    (fun l =>
       map (fun v =>
              (range_segment 0 (unpack_index_list_lengths h l),
               unpack_body
                 (ptr_add (buffers h l)
                    (Z.of_nat v * unpack_index_list_lengths h l))
                 (vars h v) (unpack_index_lists h l)))
         (seq 0 (num_vars h)))
    (seq 0 (num_neighbors h)).
Proof.
  unfold unpack_group. cbn [instantiate fst group_entries].
  assert (forall ls pool,
            pool_entries
              (fold_left (fun pool l => wg_enqueue_unpack_neighbor h l pool)
                 ls pool) =
            pool_entries pool ++
            flat_map
              (fun l =>
                 map (fun v =>
                        (range_segment 0 (unpack_index_list_lengths h l),
                         unpack_body
                           (ptr_add (buffers h l)
                              (Z.of_nat v * unpack_index_list_lengths h l))
                           (vars h v) (unpack_index_lists h l)))
                   (seq 0 (num_vars h))) ls) as Hfold.
  { induction ls as [| l ls IH]; intros pool.
    - cbn. rewrite app_nil_r. reflexivity.
    - cbn [fold_left flat_map]. rewrite IH.
      unfold wg_enqueue_unpack_neighbor at 1. cbn zeta.
      rewrite (bump_enqueue unpack_body). rewrite <- app_assoc.
      do 2 f_equal. apply map_ext. intros v.
      rewrite Z.sub_0_r. reflexivity. }
  rewrite Hfold. reflexivity.
Qed.

(** The invocations of the groups are the moves of the C-style loops. *)
Lemma pack_group_items h : work_items (pack_group h) = map move (pack_moves h).
Proof.
  unfold work_items. rewrite pack_group_entries.
  unfold pack_moves. rewrite flat_map_flat_map, map_flat_map.
  apply flat_map_ext. intros l. cbn zeta.
  rewrite flat_map_map, map_flat_map. apply flat_map_ext. intros v.
  unfold invocations, seg_indices. cbn [fst snd seg_begin seg_end].
  rewrite Z.sub_0_r, map_map. reflexivity.
Qed.

Lemma unpack_group_items h :
  work_items (unpack_group h) = map move (unpack_moves h).
Proof.
  unfold work_items. rewrite unpack_group_entries.
  unfold unpack_moves. rewrite flat_map_flat_map, map_flat_map.
  apply flat_map_ext. intros l. cbn zeta.
  rewrite flat_map_map, map_flat_map. apply flat_map_ext. intros v.
  unfold invocations, seg_indices. cbn [fst snd seg_begin seg_end].
  rewrite Z.sub_0_r, map_map. reflexivity.
Qed.

Lemma dispatch_moves moves m : dispatch (map move moves) m = apply_moves moves m.
Proof.
  unfold dispatch, apply_moves. rewrite fold_left_map. reflexivity.
Qed.

Lemma moves_return moves : Forall (returns_within 2) (map move moves).
Proof.
  apply Forall_forall. intros c Hc.
  apply list_elem_of_In, in_map_iff in Hc as (mv & <- & _).
  apply returns_after_load. intros x.
  apply returns_after_store. apply returns_now.
Qed.

(** Moves with targets of their own, none of which is read, are free of
    races. *)
Lemma moves_race_free moves :
  NoDup (map fst moves) ->
  (forall mv mv', In mv moves -> In mv' moves -> snd mv <> fst mv') ->
  race_free (map move moves).
Proof.
  intros Hnodup Hsep.
  exists (fun t p => exists mv, moves !! t = Some mv /\ p = snd mv),
    (fun t p => exists mv, moves !! t = Some mv /\ p = fst mv).
  split.
  - intros t c Ht. change (map move moves) with (move <$> moves) in Ht.
    rewrite list_lookup_fmap in Ht.
    destruct (moves !! t) as [mv |] eqn:Hmv; [| discriminate].
    injection Ht as <-. unfold move.
    apply within_load; [exists mv; auto |].
    intros x. apply within_store; [exists mv; auto | apply within_return].
  - intros t u p Htu (mv & Hmv & ->). split.
    + intros (mv' & Hmv' & Heq).
      apply (Hsep mv' mv); [| | symmetry; exact Heq];
        apply list_elem_of_In; eapply list_elem_of_lookup_2; eassumption.
    + intros (mv' & Hmv' & Heq). apply Htu.
      apply (NoDup_lookup (map fst moves) t u (fst mv) Hnodup).
      * change (map fst moves) with (fst <$> moves).
        rewrite list_lookup_fmap, Hmv. reflexivity.
      * change (map fst moves) with (fst <$> moves).
        rewrite list_lookup_fmap, Hmv', Heq. reflexivity.
Qed.

Lemma race_free_app_l l1 l2 : race_free (l1 ++ l2) -> race_free l1.
Proof.
  intros (R & W & Hwithin & Hfree). exists R, W. split; [| exact Hfree].
  intros t c Ht. apply Hwithin. apply lookup_app_l_Some. exact Ht.
Qed.

Lemma race_free_app_r l1 l2 : race_free (l1 ++ l2) -> race_free l2.
Proof.
  intros (R & W & Hwithin & Hfree).
  exists (fun t => R (length l1 + t)%nat), (fun t => W (length l1 + t)%nat).
  split.
  - intros t c Ht. apply Hwithin.
    rewrite lookup_app_r by lia.
    replace (length l1 + t - length l1)%nat with t by lia. exact Ht.
  - intros t u p Htu. apply Hfree. lia.
Qed.

(** The threads of a part of a launch without races have no races. *)
Lemma race_free_flat_map {A : Type} (f : A -> list Code) (l : list A) x :
  race_free (flat_map f l) -> In x l -> race_free (f x).
Proof.
  induction l as [| y l IH]; intros Hfree Hin; [destruct Hin |].
  cbn [flat_map] in Hfree. destruct Hin as [-> | Hin].
  - apply (race_free_app_l _ _ Hfree).
  - apply IH; [apply (race_free_app_r _ _ Hfree) | exact Hin].
Qed.

Lemma returns_flat_map {A : Type} bound (f : A -> list Code) (l : list A) x :
  Forall (returns_within bound) (flat_map f l) -> In x l ->
  Forall (returns_within bound) (f x).
Proof.
  intros Hall Hin. apply Forall_forall. intros c Hc.
  apply (proj1 (Forall_forall _ _) Hall).
  apply list_elem_of_In, in_flat_map. exists x.
  split; [exact Hin | apply list_elem_of_In; exact Hc].
Qed.

(** A fused launch of moves without races is the moves made in order. *)
Lemma launch_moves moves schedule m :
  NoDup (map fst moves) ->
  (forall mv mv', In mv moves -> In mv' moves -> snd mv <> fst mv') ->
  fair 2 (length (map move moves)) schedule ->
  snd (launch (map move moves) schedule m) = apply_moves moves m.
Proof.
  intros Hnodup Hsep Hfair.
  rewrite (fair_launch 2).
  - apply dispatch_moves.
  - apply moves_return.
  - exact Hfair.
  - apply moves_race_free; assumption.
Qed.

(** An ordered group whose entries are launched on parallel hardware. *)
Lemma ordered_parallel_group bound schedules group m :
  Forall (returns_within bound) (work_items group) ->
  race_free (work_items group) ->
  (forall k entry, group_entries group !! k = Some entry ->
     fair bound (length (invocations entry)) (schedules k)) ->
  wait (run (ordered_parallel schedules) group m) =
  wait (run ordered group m).
Proof.
  intros Hbound Hfree Hfair. cbn [run wait site_memory].
  apply (ordered_parallel_launches bound schedules (group_entries group) O m).
  intros k entry Hk.
  assert (In entry (group_entries group)) as Hin.
  { apply list_elem_of_In. eapply list_elem_of_lookup_2. exact Hk. }
  split; [| split].
  - apply (returns_flat_map bound invocations (group_entries group));
      assumption.
  - apply Hfair. exact Hk.
  - apply (race_free_flat_map invocations (group_entries group)); assumption.
Qed.

Lemma ordered_pack_group h m :
  wait (run ordered (pack_group h) m) = apply_moves (pack_moves h) m.
Proof.
  cbn [run wait site_memory].
  change (fold_left
            (fun m entry => forall_loop_exec (fst entry) (snd entry) m) ?e ?x)
    with (separate_launches e x).
  rewrite <- dispatch_work_items.
  replace {| group_entries := group_entries (pack_group h) |}
    with (pack_group h) by (destruct (pack_group h); reflexivity).
  rewrite pack_group_items. apply dispatch_moves.
Qed.

Lemma ordered_unpack_group h m :
  wait (run ordered (unpack_group h) m) = apply_moves (unpack_moves h) m.
Proof.
  cbn [run wait site_memory].
  change (fold_left
            (fun m entry => forall_loop_exec (fst entry) (snd entry) m) ?e ?x)
    with (separate_launches e x).
  rewrite <- dispatch_work_items.
  replace {| group_entries := group_entries (unpack_group h) |}
    with (unpack_group h) by (destruct (unpack_group h); reflexivity).
  rewrite unpack_group_items. apply dispatch_moves.
Qed.

(** The moves of the example: no cell is a target twice, and no target
    is a source. *)
Lemma example_moves_apart halo_width grid_dims nvars vars_ buffers_ junk :
  0 <= halo_width ->
  (forall a, (a < 3)%nat -> 0 <= grid_dims a) ->
  grid_fits_int halo_width grid_dims ->
  separate (map vars_ (seq 0 nvars) ++ map buffers_ (seq 0 26)) ->
  let h := example_halo halo_width grid_dims nvars vars_ buffers_ junk in
  (NoDup (map fst (pack_moves h)) /\
   forall mv mv', In mv (pack_moves h) -> In mv' (pack_moves h) ->
     snd mv <> fst mv') /\
  (NoDup (map fst (unpack_moves h)) /\
   forall mv mv', In mv (unpack_moves h) -> In mv' (unpack_moves h) ->
     snd mv <> fst mv').
Proof.
  intros Hh Hgrid Hfits Hsep h. split; split.
  - apply pack_targets_distinct; assumption.
  - intros mv mv' Hmv Hmv'.
    apply in_pack_moves in Hmv as (l1 & v1 & i1 & Hl1 & Hv1 & _ & ->).
    apply in_pack_moves in Hmv' as (l2 & v2 & i2 & Hl2 & Hv2 & _ & ->).
    cbn [fst snd]. intros Heq. apply (f_equal fst) in Heq.
    cbn [fst ptr_add] in Heq.
    apply (vars_buffers_apart nvars vars_ buffers_ Hsep v1 l2); assumption.
  - apply unpack_targets_distinct; assumption.
  - intros mv mv' Hmv Hmv'.
    apply in_unpack_moves in Hmv as (l1 & v1 & i1 & Hl1 & Hv1 & _ & ->).
    apply in_unpack_moves in Hmv' as (l2 & v2 & i2 & Hl2 & Hv2 & _ & ->).
    cbn [fst snd]. intros Heq. apply (f_equal fst) in Heq.
    cbn [fst ptr_add] in Heq.
    apply (vars_buffers_apart nvars vars_ buffers_ Hsep v2 l1);
      [assumption | assumption |]. symmetry. exact Heq.
Qed.

(** Schedules for the examples below: every thread takes one step, the
    last thread first; or every thread takes its first step, the last
    thread first, and then every thread its second step. *)
Lemma count_occ_seq n t :
  (t < n)%nat -> count_occ Nat.eq_dec (seq 0 n) t = 1%nat.
Proof.
  intros Ht.
  apply (proj1 (NoDup_count_occ' Nat.eq_dec (seq 0 n)) (List.seq_NoDup n 0)).
  apply in_seq. lia.
Qed.

Lemma fair_once n : fair 1 n (rev (seq 0 n)).
Proof.
  intros t Ht. rewrite count_occ_rev, count_occ_seq by exact Ht. lia.
Qed.

Lemma fair_twice n : fair 2 n (rev (seq 0 n) ++ seq 0 n).
Proof.
  intros t Ht.
  rewrite count_occ_app, count_occ_rev, !count_occ_seq by exact Ht. lia.
Qed.

(** X21.  The work groups of the example on parallel hardware.  On the
    lists the example creates, at sizes that fit into [int], no
    invocation of the packing group stores to a cell that another
    invocation loads or stores, and likewise for the unpacking group.
    So the group may run as one fused launch, as a group with an
    unordered policy on a GPU does, or in order with every entry a
    parallel launch, as the OpenMP work group does: for all schedules
    that let every thread make its two accesses, the memory after the
    group is the memory after the same group run in order on the host,
    which is the memory after the packing, respectively unpacking,
    loops of the C-style exchange. *)
Theorem unordered_groups_match_c_style halo_width grid_dims nvars vars_
    buffers_ junk schedule_pack schedule_unpack schedules_pack
    schedules_unpack m :
  0 <= halo_width ->
  (forall a, (a < 3)%nat -> 0 <= grid_dims a) ->
  example_fits_int halo_width grid_dims nvars ->
  separate (map vars_ (seq 0 nvars) ++ map buffers_ (seq 0 26)) ->
  let h := example_halo halo_width grid_dims nvars vars_ buffers_ junk in
  fair 2 (length (work_items (pack_group h))) schedule_pack ->
  fair 2 (length (work_items (unpack_group h))) schedule_unpack ->
  (forall k entry, group_entries (pack_group h) !! k = Some entry ->
     fair 2 (length (invocations entry)) (schedules_pack k)) ->
  (forall k entry, group_entries (unpack_group h) !! k = Some entry ->
     fair 2 (length (invocations entry)) (schedules_unpack k)) ->
  (race_free (work_items (pack_group h)) /\
   wait (run (unordered schedule_pack) (pack_group h) m) =
   wait (run ordered (pack_group h) m) /\
   wait (run (ordered_parallel schedules_pack) (pack_group h) m) =
   wait (run ordered (pack_group h) m) /\
   wait (run ordered (pack_group h) m) =
   fold_left (fun m l => c_pack_neighbor h l m) (seq 0 26) m) /\
  (race_free (work_items (unpack_group h)) /\
   wait (run (unordered schedule_unpack) (unpack_group h) m) =
   wait (run ordered (unpack_group h) m) /\
   wait (run (ordered_parallel schedules_unpack) (unpack_group h) m) =
   wait (run ordered (unpack_group h) m) /\
   wait (run ordered (unpack_group h) m) =
   fold_left (fun m l => c_unpack_neighbor h l m) (seq 0 26) m).
Proof.
  intros Hh Hgrid (Hfits & _) Hsep h Hpack Hunpack Hpacks Hunpacks.
  assert (forall m, fold_left (fun m l => c_pack_neighbor h l m) (seq 0 26) m =
                    apply_moves (pack_moves h) m) as Hcpack.
  { intros m'. unfold pack_moves. rewrite apply_moves_flat_map.
    apply fold_left_ext. intros s l. apply c_pack_neighbor_moves. }
  assert (forall m,
            fold_left (fun m l => c_unpack_neighbor h l m) (seq 0 26) m =
            apply_moves (unpack_moves h) m) as Hcunpack.
  { intros m'. unfold unpack_moves. rewrite apply_moves_flat_map.
    apply fold_left_ext. intros s l. apply c_unpack_neighbor_moves. }
  destruct (example_moves_apart halo_width grid_dims nvars vars_ buffers_ junk
              Hh Hgrid Hfits Hsep) as [[Hp1 Hp2] [Hu1 Hu2]].
  cbn zeta in Hp1, Hp2, Hu1, Hu2. fold h in Hp1, Hp2, Hu1, Hu2.
  assert (race_free (work_items (pack_group h))) as Hfp.
  { rewrite pack_group_items. apply moves_race_free; assumption. }
  assert (race_free (work_items (unpack_group h))) as Hfu.
  { rewrite unpack_group_items. apply moves_race_free; assumption. }
  rewrite Hcpack, Hcunpack.
  split; (split; [assumption |]); (split; [| split]).
  - rewrite ordered_pack_group. cbn [run wait site_memory].
    rewrite pack_group_items in *. apply launch_moves; assumption.
  - apply (ordered_parallel_group 2); [| exact Hfp | exact Hpacks].
    rewrite pack_group_items. apply moves_return.
  - apply ordered_pack_group.
  - rewrite ordered_unpack_group. cbn [run wait site_memory].
    rewrite unpack_group_items in *. apply launch_moves; assumption.
  - apply (ordered_parallel_group 2); [| exact Hfu | exact Hunpacks].
    rewrite unpack_group_items. apply moves_return.
  - apply ordered_unpack_group.
Qed.

Lemma unordered_groups_match_c_style_witness :
  let grid_dims (a : nat) := 1 in
  let vars_ (v : nat) : Ptr := (v, 0) in
  let buffers_ (l : nat) : Ptr := ((100 + l)%nat, 0) in
  let junk (k : nat) := 0 in
  let h := example_halo 1 grid_dims 1 vars_ buffers_ junk in
  let schedule := (rev (seq 0 26) ++ seq 0 26)%list in
  let schedules (k : nat) := [0; 0]%nat in
  (0 <= 1 /\
   (forall a, (a < 3)%nat -> 0 <= grid_dims a) /\
   example_fits_int 1 grid_dims 1 /\
   separate (map vars_ (seq 0 1) ++ map buffers_ (seq 0 26)) /\
   fair 2 (length (work_items (pack_group h))) schedule /\
   fair 2 (length (work_items (unpack_group h))) schedule /\
   (forall k entry, group_entries (pack_group h) !! k = Some entry ->
      fair 2 (length (invocations entry)) (schedules k)) /\
   (forall k entry, group_entries (unpack_group h) !! k = Some entry ->
      fair 2 (length (invocations entry)) (schedules k))) /\
  ((race_free (work_items (pack_group h)) /\
    wait (run (unordered schedule) (pack_group h) ∅) =
    wait (run ordered (pack_group h) ∅) /\
    wait (run (ordered_parallel schedules) (pack_group h) ∅) =
    wait (run ordered (pack_group h) ∅) /\
    wait (run ordered (pack_group h) ∅) =
    fold_left (fun m l => c_pack_neighbor h l m) (seq 0 26) ∅) /\
   (race_free (work_items (unpack_group h)) /\
    wait (run (unordered schedule) (unpack_group h) ∅) =
    wait (run ordered (unpack_group h) ∅) /\
    wait (run (ordered_parallel schedules) (unpack_group h) ∅) =
    wait (run ordered (unpack_group h) ∅) /\
    wait (run ordered (unpack_group h) ∅) =
    fold_left (fun m l => c_unpack_neighbor h l m) (seq 0 26) ∅)).
Proof.
  intros grid_dims vars_ buffers_ junk h schedule schedules.
  assert (0 <= 1) as H1 by lia.
  assert (forall a, (a < 3)%nat -> 0 <= grid_dims a) as H2
    by (intros a _; unfold grid_dims; lia).
  assert (example_fits_int 1 grid_dims 1) as H3.
  { unfold example_fits_int, grid_fits_int, grid_dims, INT_MAX. cbn zeta.
    split; [split; [intros a _; lia | split; lia] | split; lia]. }
  assert (separate (map vars_ (seq 0 1) ++ map buffers_ (seq 0 26))) as H4.
  { unfold separate. refine (bool_decide_unpack _ _). vm_compute. exact I. }
  assert (fair 2 (length (work_items (pack_group h))) schedule) as H5.
  { replace (length (work_items (pack_group h))) with 26%nat
      by (vm_compute; reflexivity).
    apply fair_twice. }
  assert (fair 2 (length (work_items (unpack_group h))) schedule) as H6.
  { replace (length (work_items (unpack_group h))) with 26%nat
      by (vm_compute; reflexivity).
    apply fair_twice. }
  assert (forall k entry, group_entries (pack_group h) !! k = Some entry ->
            fair 2 (length (invocations entry)) (schedules k)) as H7.
  { assert (Forall (fun entry => length (invocations entry) = 1%nat)
              (group_entries (pack_group h))) as Hone
      by (vm_compute; repeat constructor).
    intros k entry Hk.
    rewrite (proj1 (Forall_lookup _ _) Hone k entry Hk).
    apply (fair_twice 1). }
  assert (forall k entry, group_entries (unpack_group h) !! k = Some entry ->
            fair 2 (length (invocations entry)) (schedules k)) as H8.
  { assert (Forall (fun entry => length (invocations entry) = 1%nat)
              (group_entries (unpack_group h))) as Hone
      by (vm_compute; repeat constructor).
    intros k entry Hk.
    rewrite (proj1 (Forall_lookup _ _) Hone k entry Hk).
    apply (fair_twice 1). }
  split;
    [exact (conj H1 (conj H2 (conj H3 (conj H4 (conj H5 (conj H6
              (conj H7 H8))))))) |].
  exact (unordered_groups_match_c_style 1 grid_dims 1 vars_ buffers_ junk
           schedule schedule schedules schedules ∅ H1 H2 H3 H4 H5 H6 H7 H8).
Defined.

(** *** The exchange with parallel loops *)

Lemma fold_left_ext_in {A B : Type} (f g : A -> B -> A) (l : list B) :
  (forall s x, In x l -> f s x = g s x) ->
  forall s, fold_left f l s = fold_left g l s.
Proof.
  induction l as [| x l IH]; intros Hfg s; [reflexivity |].
  cbn [fold_left]. rewrite Hfg by (left; reflexivity).
  apply IH. intros s' y Hy. apply Hfg. right. exact Hy.
Qed.

(** The iterations of a loop that sets a variable store to cells of
    their own. *)
Lemma set_var_race_free var v seg :
  race_free (invocations (seg, set_var var v)).
Proof.
  exists (fun _ _ => False),
    (fun t p => p = ptr_add var (seg_begin seg + Z.of_nat t)).
  split.
  - intros t c Ht. unfold invocations, seg_indices in Ht. cbn [fst snd] in Ht.
    change (map (set_var var v) ?l) with (set_var var v <$> l) in Ht.
    rewrite list_lookup_fmap in Ht.
    destruct (seqZ (seg_begin seg) (seg_end seg - seg_begin seg) !! t)
      as [i |] eqn:Hi; [| discriminate].
    injection Ht as <-. apply lookup_seqZ in Hi as [-> _].
    apply within_store; [reflexivity | apply within_return].
  - intros t u p Htu ->. split; [tauto |].
    intros Heq. apply (f_equal snd) in Heq. cbn [snd ptr_add] in Heq. lia.
Qed.

Lemma set_var_returns var v seg :
  Forall (returns_within 1) (invocations (seg, set_var var v)).
Proof.
  apply Forall_forall. intros c Hc.
  apply list_elem_of_In, in_map_iff in Hc as (i & <- & _).
  apply returns_after_store, returns_now.
Qed.

Lemma length_invocations lo hi body :
  length (invocations (range_segment lo hi, body)) = Z.to_nat (hi - lo).
Proof.
  unfold invocations, seg_indices. cbn [fst snd seg_begin seg_end].
  rewrite length_map, length_seqZ. reflexivity.
Qed.

Lemma parallel_set_vars_c_set_vars h schedule m :
  (forall v, (v < num_vars h)%nat ->
     fair 1 (Z.to_nat (var_size h)) (schedule v)) ->
  parallel_set_vars h schedule m = c_set_vars h m.
Proof.
  intros Hfair. unfold parallel_set_vars, c_set_vars. revert m.
  apply fold_left_ext_in. intros s v Hv. apply in_seq in Hv.
  rewrite c_loop_forall. apply (forall_parallel_loop_exec 1).
  - apply set_var_returns.
  - rewrite length_invocations, Z.sub_0_r. apply Hfair. lia.
  - apply set_var_race_free.
Qed.

(** The loops of a neighbor, given that the moves of all loops have no
    races. *)
Lemma parallel_pack_c_pack h schedule l m :
  (l < num_neighbors h)%nat ->
  (forall v, (v < num_vars h)%nat ->
     fair 2 (Z.to_nat (pack_index_list_lengths h l)) (schedule v)) ->
  race_free (map move (pack_moves h)) ->
  parallel_pack_neighbor h schedule l m = c_pack_neighbor h l m /\
  forall v, (v < num_vars h)%nat ->
    race_free
      (invocations
         (range_segment 0 (pack_index_list_lengths h l),
          pack_body
            (ptr_add (buffers h l) (Z.of_nat v * pack_index_list_lengths h l))
            (vars h v) (pack_index_lists h l))).
Proof.
  intros Hl Hfair Hfree.
  assert (forall v, (v < num_vars h)%nat ->
            race_free
              (invocations
                 (range_segment 0 (pack_index_list_lengths h l),
                  pack_body
                    (ptr_add (buffers h l)
                       (Z.of_nat v * pack_index_list_lengths h l))
                    (vars h v) (pack_index_lists h l)))) as Hloops.
  { intros v Hv. unfold pack_moves in Hfree. rewrite map_flat_map in Hfree.
    apply (race_free_flat_map _ _ l) in Hfree; [| apply in_seq; lia].
    cbn beta zeta in Hfree. rewrite map_flat_map in Hfree.
    apply (race_free_flat_map _ _ v) in Hfree; [| apply in_seq; lia].
    cbn beta in Hfree. rewrite map_map in Hfree.
    unfold invocations, seg_indices. cbn [fst snd seg_begin seg_end].
    rewrite Z.sub_0_r. exact Hfree. }
  split; [| exact Hloops].
  unfold parallel_pack_neighbor, c_pack_neighbor. cbn zeta.
  rewrite (bump_fold
             (fun buffer v m =>
                forall_parallel (schedule v)
                  (range_segment 0 (pack_index_list_lengths h l))
                  (pack_body buffer (vars h v) (pack_index_lists h l)) m)).
  rewrite (bump_fold
             (fun buffer v m =>
                c_loop 0 (pack_index_list_lengths h l)
                  (pack_body buffer (vars h v) (pack_index_lists h l)) m)).
  revert m. apply fold_left_ext_in. intros s v Hv. apply in_seq in Hv.
  rewrite Z.sub_0_r, c_loop_forall. apply (forall_parallel_loop_exec 2).
  - apply Forall_forall. intros c Hc.
    apply list_elem_of_In, in_map_iff in Hc as (i & <- & _).
    apply returns_after_load. intros x. apply returns_after_store, returns_now.
  - rewrite length_invocations, Z.sub_0_r. apply Hfair. lia.
  - apply Hloops. lia.
Qed.

Lemma parallel_unpack_c_unpack h schedule l m :
  (l < num_neighbors h)%nat ->
  (forall v, (v < num_vars h)%nat ->
     fair 2 (Z.to_nat (unpack_index_list_lengths h l)) (schedule v)) ->
  race_free (map move (unpack_moves h)) ->
  parallel_unpack_neighbor h schedule l m = c_unpack_neighbor h l m /\
  forall v, (v < num_vars h)%nat ->
    race_free
      (invocations
         (range_segment 0 (unpack_index_list_lengths h l),
          unpack_body
            (ptr_add (buffers h l)
               (Z.of_nat v * unpack_index_list_lengths h l))
            (vars h v) (unpack_index_lists h l))).
Proof.
  intros Hl Hfair Hfree.
  assert (forall v, (v < num_vars h)%nat ->
            race_free
              (invocations
                 (range_segment 0 (unpack_index_list_lengths h l),
                  unpack_body
                    (ptr_add (buffers h l)
                       (Z.of_nat v * unpack_index_list_lengths h l))
                    (vars h v) (unpack_index_lists h l)))) as Hloops.
  { intros v Hv. unfold unpack_moves in Hfree. rewrite map_flat_map in Hfree.
    apply (race_free_flat_map _ _ l) in Hfree; [| apply in_seq; lia].
    cbn beta zeta in Hfree. rewrite map_flat_map in Hfree.
    apply (race_free_flat_map _ _ v) in Hfree; [| apply in_seq; lia].
    cbn beta in Hfree. rewrite map_map in Hfree.
    unfold invocations, seg_indices. cbn [fst snd seg_begin seg_end].
    rewrite Z.sub_0_r. exact Hfree. }
  split; [| exact Hloops].
  unfold parallel_unpack_neighbor, c_unpack_neighbor. cbn zeta.
  rewrite (bump_fold
             (fun buffer v m =>
                forall_parallel (schedule v)
                  (range_segment 0 (unpack_index_list_lengths h l))
                  (unpack_body buffer (vars h v) (unpack_index_lists h l)) m)).
  rewrite (bump_fold
             (fun buffer v m =>
                c_loop 0 (unpack_index_list_lengths h l)
                  (unpack_body buffer (vars h v) (unpack_index_lists h l)) m)).
  revert m. apply fold_left_ext_in. intros s v Hv. apply in_seq in Hv.
  rewrite Z.sub_0_r, c_loop_forall. apply (forall_parallel_loop_exec 2).
  - apply Forall_forall. intros c Hc.
    apply list_elem_of_In, in_map_iff in Hc as (i & <- & _).
    apply returns_after_load. intros x. apply returns_after_store, returns_now.
  - rewrite length_invocations, Z.sub_0_r. apply Hfair. lia.
  - apply Hloops. lia.
Qed.

(** A cycle with parallel loops, for any set-up in which the moves of
    the packing loops and those of the unpacking loops have no races. *)
Lemma parallel_cycle_c_cycle h schedule_set schedule_pack schedule_unpack m :
  fair_schedules h schedule_set schedule_pack schedule_unpack ->
  race_free (map move (pack_moves h)) ->
  race_free (map move (unpack_moves h)) ->
  parallel_cycle h schedule_set schedule_pack schedule_unpack m = c_cycle h m.
Proof.
  intros (Hset & Hpack & Hunpack) Hfp Hfu.
  unfold parallel_cycle, c_cycle. cbn zeta.
  rewrite parallel_set_vars_c_set_vars by exact Hset.
  rewrite (fold_left_ext_in
             (fun m l => parallel_unpack_neighbor h (schedule_unpack l) l m)
             (fun m l => c_unpack_neighbor h l m)).
  - f_equal. apply fold_left_ext_in. intros s l Hl. apply in_seq in Hl.
    apply parallel_pack_c_pack; [lia | | exact Hfp].
    intros v Hv. apply Hpack; [lia | exact Hv].
  - intros s l Hl. apply in_seq in Hl.
    apply parallel_unpack_c_unpack; [lia | | exact Hfu].
    intros v Hv. apply Hunpack; [lia | exact Hv].
Qed.

(** X22.  The parallel variants of the example.  On the lists the
    example creates, at sizes that fit into [int], every loop of a
    cycle, the setting of the variables, the packing and the unpacking,
    may run its iterations as the threads of a launch, as the OpenMP,
    CUDA and HIP [forall] variants do: within a loop no iteration stores
    to a cell that another iteration loads or stores, and for all
    schedules that let every iteration make its accesses the memory
    after the cycle is that of the C-style cycle. *)
Theorem parallel_forall_matches_c_style halo_width grid_dims nvars vars_
    buffers_ junk schedule_set schedule_pack schedule_unpack m :
  0 <= halo_width ->
  (forall a, (a < 3)%nat -> 0 <= grid_dims a) ->
  example_fits_int halo_width grid_dims nvars ->
  separate (map vars_ (seq 0 nvars) ++ map buffers_ (seq 0 26)) ->
  let h := example_halo halo_width grid_dims nvars vars_ buffers_ junk in
  fair_schedules h schedule_set schedule_pack schedule_unpack ->
  parallel_cycle h schedule_set schedule_pack schedule_unpack m = c_cycle h m /\
  (forall v, (v < nvars)%nat ->
     race_free
       (invocations (range_segment 0 (var_size h), set_var (vars_ v) v))) /\
  (forall l v, (l < 26)%nat -> (v < nvars)%nat ->
     race_free
       (invocations
          (range_segment 0 (pack_index_list_lengths h l),
           pack_body
             (ptr_add (buffers_ l) (Z.of_nat v * pack_index_list_lengths h l))
             (vars_ v) (pack_index_lists h l))) /\
     race_free
       (invocations
          (range_segment 0 (unpack_index_list_lengths h l),
           unpack_body
             (ptr_add (buffers_ l)
                (Z.of_nat v * unpack_index_list_lengths h l))
             (vars_ v) (unpack_index_lists h l)))).
Proof.
  intros Hh Hgrid (Hfits & _) Hsep h Hfair.
  destruct (example_moves_apart halo_width grid_dims nvars vars_ buffers_ junk
              Hh Hgrid Hfits Hsep) as [[Hp1 Hp2] [Hu1 Hu2]].
  cbn zeta in Hp1, Hp2, Hu1, Hu2. fold h in Hp1, Hp2, Hu1, Hu2.
  pose proof (moves_race_free _ Hp1 Hp2) as Hfp.
  pose proof (moves_race_free _ Hu1 Hu2) as Hfu.
  split; [apply parallel_cycle_c_cycle; assumption |].
  split; [intros v _; apply set_var_race_free |].
  intros l v Hl Hv. destruct Hfair as (_ & Hpack & Hunpack). split.
  - apply (proj2 (parallel_pack_c_pack h (schedule_pack l) l m Hl
                    (fun v Hv => Hpack l v Hl Hv) Hfp) v Hv).
  - apply (proj2 (parallel_unpack_c_unpack h (schedule_unpack l) l m Hl
                    (fun v Hv => Hunpack l v Hl Hv) Hfu) v Hv).
Qed.

Lemma parallel_forall_matches_c_style_witness :
  let grid_dims (a : nat) := 2 in
  let vars_ (v : nat) : Ptr := (v, 0) in
  let buffers_ (l : nat) : Ptr := ((100 + l)%nat, 0) in
  let junk (k : nat) := 0 in
  let h := example_halo 1 grid_dims 2 vars_ buffers_ junk in
  let once (n : Z) := rev (seq 0 (Z.to_nat n)) in
  let twice (n : Z) := (rev (seq 0 (Z.to_nat n)) ++ seq 0 (Z.to_nat n))%list in
  let schedule_set (v : nat) := once (var_size h) in
  let schedule_pack (l v : nat) := twice (pack_index_list_lengths h l) in
  let schedule_unpack (l v : nat) := twice (unpack_index_list_lengths h l) in
  (0 <= 1 /\
   (forall a, (a < 3)%nat -> 0 <= grid_dims a) /\
   example_fits_int 1 grid_dims 2 /\
   separate (map vars_ (seq 0 2) ++ map buffers_ (seq 0 26)) /\
   fair_schedules h schedule_set schedule_pack schedule_unpack) /\
  parallel_cycle h schedule_set schedule_pack schedule_unpack ∅ = c_cycle h ∅.
Proof.
  intros grid_dims vars_ buffers_ junk h once twice schedule_set schedule_pack
    schedule_unpack.
  assert (0 <= 1) as H1 by lia.
  assert (forall a, (a < 3)%nat -> 0 <= grid_dims a) as H2
    by (intros a _; unfold grid_dims; lia).
  assert (example_fits_int 1 grid_dims 2) as H3.
  { unfold example_fits_int, grid_fits_int, grid_dims, INT_MAX. cbn zeta.
    split; [split; [intros a _; lia | split; lia] | split; lia]. }
  assert (separate (map vars_ (seq 0 2) ++ map buffers_ (seq 0 26))) as H4.
  { unfold separate. refine (bool_decide_unpack _ _). vm_compute. exact I. }
  assert (fair_schedules h schedule_set schedule_pack schedule_unpack) as H5.
  { unfold fair_schedules, schedule_set, schedule_pack, schedule_unpack,
      once, twice.
    split; [| split]; intros; (apply fair_once || apply fair_twice). }
  split; [exact (conj H1 (conj H2 (conj H3 (conj H4 H5)))) |].
  exact (proj1 (parallel_forall_matches_c_style 1 grid_dims 2 vars_ buffers_
                  junk schedule_set schedule_pack schedule_unpack ∅
                  H1 H2 H3 H4 H5)).
Defined.
